(** * The Last Mask: maze generation, pathfinding and discovery state

    A shallow embedding of the maze core of the repository:
    - [MazeTypes.h]      directions, game state, cells, configuration;
    - [MazeManager.cpp]  the discovery state machine of [AMazeManager], its
                         loading, baking and path overlay, and the
                         breadth-first [UMazePathfinder];
    - [MazeGridData.h]   the baked data asset [UMazeGridData];
    - [MazeGenerator.cpp] the three carving algorithms of [UMazeGenerator]
                         and the conversion to a floor/wall grid.

    Conventions.  An [int32] is a [Z]; signed overflow is undefined behaviour
    in C++, so the development speaks about the executions in which no
    [int32] operation overflows.  Storing a wider integer in an [int32]
    keeps its low 32 bits; converting a floating-point number to an integer
    type that cannot hold it is undefined and has no value here.  A [float]
    is an IEEE 754 number of [SpecFloat] and its arithmetic is rounded as
    there.  A [uint8] directions byte is a [Z] combined
    with [Z.lor] and tested with [Z.land].  A [TArray] is a [list], a [TSet]
    a [gset], a [TMap] a [gmap].  Delegates that are broadcast are recorded,
    in order, in a log of notifications. *)

From Stdlib Require Import ZArith List Bool Lia.
From Stdlib Require Import Floats.SpecFloat.
From Stdlib Require Import Reals Lra.
From stdpp Require Import base decidable option list gmap.

Local Open Scope Z_scope.

(* ===================================================================== *)
(** * Part I.  Definitions                                                *)
(* ===================================================================== *)

(* --------------------------------------------------------------------- *)
(** ** MazeTypes.h: the discovery state                                   *)
(* --------------------------------------------------------------------- *)

Module Discovery.

(** [EMazePathTarget]. *)
Inductive EMazePathTarget : Type :=
| Target_Exit
| Target_Key
| Target_None.

Definition EMazePathTarget_eqb (a b : EMazePathTarget) : bool :=
  match a, b with
  | Target_Exit, Target_Exit | Target_Key, Target_Key
  | Target_None, Target_None => true
  | _, _ => false
  end.

(** [FMazeGameState], with the defaults of the struct as [InitialState]. *)
Record FMazeGameState : Type := mkGameState {
  bExitDiscovered : bool;
  bHasKey : bool;
  CurrentTarget : EMazePathTarget;
  bPathVisible : bool;
  bHollowMaskUnlocked : bool;
  bHollowMaskPermanentlyLocked : bool
}.

Definition InitialState : FMazeGameState :=
  {| bExitDiscovered := false;
     bHasKey := false;
     CurrentTarget := Target_Exit;
     bPathVisible := false;
     bHollowMaskUnlocked := false;
     bHollowMaskPermanentlyLocked := false |}.

(** The multicast delegates of [AMazeManager] that the state logic fires. *)
Inductive Notification : Type :=
| OnExitDiscovered
| OnKeyCollected
| OnHollowMaskUnlocked
| OnTargetChanged (NewTarget : EMazePathTarget).

(** A member function of [AMazeManager] reads and writes [GameState] and
    broadcasts: a state monad with a log. *)
Definition Manager (A : Type) : Type :=
  FMazeGameState -> A * FMazeGameState * list Notification.

Definition ret {A} (a : A) : Manager A := fun s => (a, s, []).

Definition bind {A B} (m : Manager A) (k : A -> Manager B) : Manager B :=
  fun s =>
    let '(a, s1, l1) := m s in
    let '(b, s2, l2) := k a s1 in
    (b, s2, l1 ++ l2).

Definition get : Manager FMazeGameState := fun s => (s, s, []).
Definition put (s : FMazeGameState) : Manager unit := fun _ => (tt, s, []).
Definition Broadcast (n : Notification) : Manager unit := fun s => (tt, s, [n]).

Notation "x <- m ;; k" := (bind m (fun x => k))
  (at level 100, m at next level, right associativity).
Notation "m ;;; k" := (bind m (fun _ => k))
  (at level 100, right associativity).

Definition set_bExitDiscovered (b : bool) (s : FMazeGameState) :=
  mkGameState b (bHasKey s) (CurrentTarget s) (bPathVisible s)
              (bHollowMaskUnlocked s) (bHollowMaskPermanentlyLocked s).
Definition set_bHasKey (b : bool) (s : FMazeGameState) :=
  mkGameState (bExitDiscovered s) b (CurrentTarget s) (bPathVisible s)
              (bHollowMaskUnlocked s) (bHollowMaskPermanentlyLocked s).
Definition set_CurrentTarget (t : EMazePathTarget) (s : FMazeGameState) :=
  mkGameState (bExitDiscovered s) (bHasKey s) t (bPathVisible s)
              (bHollowMaskUnlocked s) (bHollowMaskPermanentlyLocked s).
Definition set_bHollowMaskUnlocked (b : bool) (s : FMazeGameState) :=
  mkGameState (bExitDiscovered s) (bHasKey s) (CurrentTarget s)
              (bPathVisible s) b (bHollowMaskPermanentlyLocked s).
Definition set_bHollowMaskPermanentlyLocked (b : bool) (s : FMazeGameState) :=
  mkGameState (bExitDiscovered s) (bHasKey s) (CurrentTarget s)
              (bPathVisible s) (bHollowMaskUnlocked s) b.

Definition modify (f : FMazeGameState -> FMazeGameState) : Manager unit :=
  fun s => (tt, f s, []).

(** [AMazeManager::UpdatePathfindingTarget]. *)
Definition UpdatePathfindingTarget : Manager unit :=
  GameState <- get ;;
  let OldTarget := CurrentTarget GameState in
  let NewTarget :=
    if bHasKey GameState then Target_Exit
    else if bExitDiscovered GameState then Target_Key
    else Target_Exit in
  modify (set_CurrentTarget NewTarget) ;;;
  if negb (EMazePathTarget_eqb NewTarget OldTarget)
  then Broadcast (OnTargetChanged NewTarget)
  else ret tt.

(** [AMazeManager::UpdateHollowMaskState]. *)
Definition UpdateHollowMaskState : Manager unit :=
  GameState <- get ;;
  if bHollowMaskPermanentlyLocked GameState then ret tt
  else if bHasKey GameState && negb (bExitDiscovered GameState) then
    modify (set_bHollowMaskPermanentlyLocked true)
  else if bExitDiscovered GameState && negb (bHasKey GameState)
          && negb (bHollowMaskUnlocked GameState) then
    modify (set_bHollowMaskUnlocked true) ;;;
    Broadcast OnHollowMaskUnlocked
  else ret tt.

(** [AMazeManager::NotifyExitDiscovered]. *)
Definition NotifyExitDiscovered : Manager unit :=
  GameState <- get ;;
  if bExitDiscovered GameState then ret tt
  else
    modify (set_bExitDiscovered true) ;;;
    Broadcast OnExitDiscovered ;;;
    UpdateHollowMaskState ;;;
    UpdatePathfindingTarget.

(** [AMazeManager::NotifyKeyCollected]. *)
Definition NotifyKeyCollected : Manager unit :=
  GameState <- get ;;
  if bHasKey GameState then ret tt
  else
    modify (set_bHasKey true) ;;;
    Broadcast OnKeyCollected ;;;
    UpdateHollowMaskState ;;;
    UpdatePathfindingTarget.

(** [AMazeManager::CanExitMaze] and [AMazeManager::IsHollowMaskAvailable]. *)
Definition CanExitMaze (GameState : FMazeGameState) : bool :=
  bExitDiscovered GameState && bHasKey GameState.

Definition IsHollowMaskAvailable (GameState : FMazeGameState) : bool :=
  bHollowMaskUnlocked GameState && negb (bHollowMaskPermanentlyLocked GameState).

(** The two discovery events a caller can deliver, and runs of them. *)
Inductive Event : Type := ExitFound | KeyFound.

Definition deliver (e : Event) : Manager unit :=
  match e with
  | ExitFound => NotifyExitDiscovered
  | KeyFound => NotifyKeyCollected
  end.

Definition state_of {A} (r : A * FMazeGameState * list Notification) :=
  snd (fst r).
Definition fired {A} (r : A * FMazeGameState * list Notification) :=
  snd r.

Fixpoint run (es : list Event) (s : FMazeGameState) : FMazeGameState :=
  match es with
  | [] => s
  | e :: es' => run es' (state_of (deliver e s))
  end.

(** States reachable from [InitialState] by discovery events. *)
Inductive reachable : FMazeGameState -> Prop :=
| reachable_init : reachable InitialState
| reachable_step s e : reachable s -> reachable (state_of (deliver e s)).

End Discovery.

(* --------------------------------------------------------------------- *)
(** ** Counted loops                                                      *)
(* --------------------------------------------------------------------- *)

(** The indices of [for (i = lo; i <= hi; ++i)]. *)
Definition range (lo hi : Z) : list Z :=
  List.map (fun i => lo + Z.of_nat i) (seq 0 (Z.to_nat (hi - lo + 1))).

(** The coordinates (x, y) of a [W] by [H] grid, row by row, as the double
    loop [for (Y...) for (X...)] meets them. *)
Definition coordinates (W H : Z) : list (Z * Z) :=
  flat_map (fun y => List.map (fun x => (x, y)) (range 0 (W - 1)))
           (range 0 (H - 1)).

(** A loop whose body may [return]. *)
Fixpoint first_return {A B} (body : A -> option B) (l : list A) : option B :=
  match l with
  | [] => None
  | a :: l' =>
      match body a with
      | Some b => Some b
      | None => first_return body l'
      end
  end.

(* --------------------------------------------------------------------- *)
(** ** Engine scalars: [float], [FVector], [FMath::FloorToInt]            *)
(* --------------------------------------------------------------------- *)

Module Scalar.

(** IEEE 754 binary formats: a [float] is binary32.  The components of an
    [FVector] are binary32 or binary64 depending on the engine generation,
    so the format of a vector component is a parameter of what follows. *)
Record format : Type := mkFormat { prec : Z; emax : Z }.

Definition binary32 : format := mkFormat 24 128.
Definition binary64 : format := mkFormat 53 1024.

Definition float : Type := spec_float.

Definition of_int (f : format) (z : Z) : float :=
  binary_normalize (prec f) (emax f) z 0 false.

(** Rounding a float to a format: exact when the format is wider. *)
Definition convert (f : format) (x : float) : float :=
  match x with
  | S754_finite s m e => binary_round (prec f) (emax f) s m e
  | _ => x
  end.

Definition fmul (f : format) : float -> float -> float := SFmul (prec f) (emax f).
Definition fadd (f : format) : float -> float -> float := SFadd (prec f) (emax f).
Definition fdiv (f : format) : float -> float -> float := SFdiv (prec f) (emax f).

(** The literal [0.5f]. *)
Definition half : float := S754_finite false 8388608 (-24).

(** [FMath::FloorToInt]: the largest integer not above the argument; it has
    no value on infinities and NaN. *)
Definition FloorToInt (x : float) : option Z :=
  match x with
  | S754_zero _ => Some 0
  | S754_finite s m e => Some (Z.shiftl (if s then Z.neg m else Z.pos m) e)
  | _ => None
  end.

(** The width of the integer [FMath::FloorToInt] returns: an [int32] for a
    [float] argument, an [int64] for a [double]. *)
Definition FloorToInt_bits (f : format) : Z :=
  if prec f <=? prec binary32 then 32 else 64.

(** Whether [z] is a value of the signed integer type of [bits] bits. *)
Definition fits_signed (bits z : Z) : bool :=
  (- 2 ^ (bits - 1) <=? z) && (z <? 2 ^ (bits - 1)).

(** Storing an integer in an [int32] keeps its low 32 bits. *)
Definition to_int32 (z : Z) : Z :=
  (z + 2147483648) mod 4294967296 - 2147483648.

(** [const int32 G = FMath::FloorToInt(x)] for [x] of format [f]: the floor,
    narrowed to an [int32].  There is no value where [FloorToInt] has none:
    on infinities and NaN, and where the floor is not a value of the integer
    type [FloorToInt] returns (the conversion is undefined there). *)
Definition floor_as_int32 (f : format) (x : float) : option Z :=
  match FloorToInt x with
  | Some z => if fits_signed (FloorToInt_bits f) z then Some (to_int32 z) else None
  | None => None
  end.

Definition is_positive (x : float) : bool :=
  match x with
  | S754_finite false _ _ | S754_infinity false => true
  | _ => false
  end.

Record FVector : Type := mkFVector { VX : float; VY : float; VZ : float }.

End Scalar.

(* --------------------------------------------------------------------- *)
(** ** The real value of a float                                          *)
(* --------------------------------------------------------------------- *)

Module FloatValue.

(** The real number that a mantissa [m] and an exponent [e] stand for,
    [m * 2 ^ e]: the value of the float [S754_finite false m e]. *)
Definition bpow (e : Z) : R := powerRZ 2 e.

Definition F2R (m e : Z) : R := (IZR m * bpow e)%R.

End FloatValue.

(* --------------------------------------------------------------------- *)
(** ** MazeTypes.h: cells                                                 *)
(* --------------------------------------------------------------------- *)

(** [FIntPoint]: a pair of [int32]. *)
Abbreviation FIntPoint := (Z * Z)%type (only parsing).

Definition INDEX_NONE : Z := -1.

Record FMazeCell : Type := mkMazeCell {
  GridPosition : FIntPoint;
  WorldPosition : Scalar.FVector;
  bIsFloor : bool;
  bIsOnPath : bool;
  InstanceIndex : Z
}.

(** The three-argument constructor of [FMazeCell]. *)
Definition FMazeCell_make (InGridPos : FIntPoint) (InWorldPos : Scalar.FVector)
    (bInIsFloor : bool) : FMazeCell :=
  mkMazeCell InGridPos InWorldPos bInIsFloor false INDEX_NONE.

(* --------------------------------------------------------------------- *)
(** ** MazePathfinder                                                     *)
(* --------------------------------------------------------------------- *)

Module Pathfinder.
Import Scalar.

Section WithVectorFormat.

(** The format of [FVector] components. *)
Variable vfmt : format.

Record UMazePathfinder : Type := mkPathfinder {
  CachedCells : list FMazeCell;
  MazeSize : FIntPoint;
  CellSize : float;
  bIsInitialized : bool
}.

Record FMazePathResult : Type := mkPathResult {
  bSuccess : bool;
  PathGridCoordinates : list FIntPoint;
  PathWorldPositions : list FVector;
  PathLength : Z
}.

(** A default-constructed result with [bSuccess = false], [PathLength = 0]. *)
Definition FailedResult : FMazePathResult := mkPathResult false [] [] 0.

(** [UMazePathfinder::Initialize]. *)
Definition Initialize (InCells : list FMazeCell) (InMazeSize : FIntPoint)
    (InCellSize : float) : UMazePathfinder :=
  mkPathfinder InCells InMazeSize InCellSize
    (Z.of_nat (length InCells) =? fst InMazeSize * snd InMazeSize).

(** [UMazePathfinder::GridToIndex]. *)
Definition GridToIndex (pf : UMazePathfinder) (GridPos : FIntPoint) : Z :=
  snd GridPos * fst (MazeSize pf) + fst GridPos.

(** [UMazePathfinder::IsValidCell]. *)
Definition IsValidCell (pf : UMazePathfinder) (GridPosition : FIntPoint) : bool :=
  if (fst GridPosition <? 0) || (fst GridPosition >=? fst (MazeSize pf)) ||
     (snd GridPosition <? 0) || (snd GridPosition >=? snd (MazeSize pf))
  then false
  else
    let Index := GridToIndex pf GridPosition in
    if (Index >=? 0) && (Index <? Z.of_nat (length (CachedCells pf))) then
      match CachedCells pf !! Z.to_nat Index with
      | Some Cell => bIsFloor Cell
      | None => false
      end
    else false.

(** [UMazePathfinder::GridToWorld]: the arithmetic is done in [float] and
    stored in the vector's format. *)
Definition GridToWorld (pf : UMazePathfinder) (GridPosition : FIntPoint) : FVector :=
  let cs := CellSize pf in
  let coord (c : Z) :=
    convert vfmt
      (fadd binary32 (fmul binary32 (of_int binary32 c) cs) (fmul binary32 cs half)) in
  mkFVector (coord (fst GridPosition)) (coord (snd GridPosition))
            (convert vfmt (S754_zero false)).

(** [UMazePathfinder::WorldToGrid]: the division is done in the vector's
    format and the result of [FloorToInt] is stored in an [int32]; there is
    no result when [FloorToInt] has none. *)
Definition WorldToGrid (pf : UMazePathfinder) (WorldPosition : FVector)
    : option FIntPoint :=
  let cs := convert vfmt (CellSize pf) in
  match floor_as_int32 vfmt (fdiv vfmt (VX WorldPosition) cs),
        floor_as_int32 vfmt (fdiv vfmt (VY WorldPosition) cs) with
  | Some GridX, Some GridY => Some (GridX, GridY)
  | _, _ => None
  end.

(** [UMazePathfinder::GetWalkableNeighbors]. *)
Definition Offsets : list FIntPoint := [(1, 0); (-1, 0); (0, 1); (0, -1)].

Definition GetWalkableNeighbors (pf : UMazePathfinder) (GridPos : FIntPoint)
    : list FIntPoint :=
  filter (fun NeighborPos => IsValidCell pf NeighborPos = true)
    (map (fun Offset => (fst GridPos + fst Offset, snd GridPos + snd Offset)) Offsets).

(** [UMazePathfinder::FindNearestWalkableCell]. *)
Definition FindNearestWalkableCell (pf : UMazePathfinder) (GridPosition : FIntPoint)
    : FIntPoint :=
  let MaxRadius := Z.max (fst (MazeSize pf)) (snd (MazeSize pf)) in
  match
    first_return (fun Radius =>
      first_return (fun DX =>
        first_return (fun DY =>
          if negb (Z.abs DX =? Radius) && negb (Z.abs DY =? Radius) then None
          else
            let TestPos := (fst GridPosition + DX, snd GridPosition + DY) in
            if IsValidCell pf TestPos then Some TestPos else None)
          (range (- Radius) Radius))
        (range (- Radius) Radius))
      (range 0 MaxRadius)
  with
  | Some TestPos => TestPos
  | None => (-1, -1)
  end.

(** The ring of radius [Radius] around a position, in the order in which
    the two inner loops test it: the cells at Chebyshev distance exactly
    [Radius], column by column. *)
Definition chebyshev (a b : FIntPoint) : Z :=
  Z.max (Z.abs (fst b - fst a)) (Z.abs (snd b - snd a)).

Definition ring (GridPosition : FIntPoint) (Radius : Z) : list FIntPoint :=
  flat_map (fun DX =>
    flat_map (fun DY =>
      if negb (Z.abs DX =? Radius) && negb (Z.abs DY =? Radius) then []
      else [(fst GridPosition + DX, snd GridPosition + DY)])
      (range (- Radius) Radius))
    (range (- Radius) Radius).

Definition scan_order (pf : UMazePathfinder) (GridPosition : FIntPoint)
    : list FIntPoint :=
  flat_map (ring GridPosition)
           (range 0 (Z.max (fst (MazeSize pf)) (snd (MazeSize pf)))).

(** The breadth-first search of [FindPath]: [Visited], [Parents], [Queue]. *)
Record bfs_state : Type := mkBfs {
  Visited : gset (Z * Z);
  Parents : gmap (Z * Z) (Z * Z);
  Queue : list FIntPoint
}.

(** The body of [for (Neighbor : Neighbors)]. *)
Definition visit_neighbor (Current : FIntPoint) (st : bfs_state)
    (Neighbor : FIntPoint) : bfs_state :=
  if decide (Neighbor ∈ Visited st) then st
  else mkBfs ({[Neighbor]} ∪ Visited st)
             (<[Neighbor := Current]> (Parents st))
             (Queue st ++ [Neighbor]).

(** [while (!Queue.IsEmpty())]: the answer is [bFoundPath] with the final
    search state, or nothing when the fuel ran out first. *)
Fixpoint bfs_loop (fuel : nat) (pf : UMazePathfinder) (End : FIntPoint)
    (st : bfs_state) : option (bool * bfs_state) :=
  match fuel with
  | O => None
  | S fuel' =>
      match Queue st with
      | [] => Some (false, st)
      | Current :: rest =>
          let st1 := mkBfs (Visited st) (Parents st) rest in
          if decide (Current = End) then Some (true, st1)
          else
            bfs_loop fuel' pf End
              (fold_left (visit_neighbor Current)
                         (GetWalkableNeighbors pf Current) st1)
      end
  end.

(** [while (Current != FIntPoint(-1, -1))]: the walk back along [Parents]. *)
Fixpoint walk_parents (fuel : nat) (Parents : gmap (Z * Z) (Z * Z))
    (Current : FIntPoint) (ReversedPath : list FIntPoint)
    : option (list FIntPoint) :=
  match fuel with
  | O => None
  | S fuel' =>
      if decide (Current = (-1, -1)) then Some ReversedPath
      else
        let ReversedPath := ReversedPath ++ [Current] in
        match Parents !! Current with
        | Some Parent => walk_parents fuel' Parents Parent ReversedPath
        | None => Some ReversedPath
        end
  end.

(** [UMazePathfinder::FindPath].  Both loops draw on [fuel]; [None] means
    the fuel was too small for the loops to finish. *)
Definition FindPath (fuel : nat) (pf : UMazePathfinder) (Start End : FIntPoint)
    : option FMazePathResult :=
  let Result := FailedResult in
  if negb (bIsInitialized pf) then Some Result
  else if negb (IsValidCell pf Start) then Some Result
  else if negb (IsValidCell pf End) then Some Result
  else if decide (Start = End) then
    Some (mkPathResult true [Start] [GridToWorld pf Start] 1)
  else
    let st0 := mkBfs {[Start]} {[Start := (-1, -1)]} [Start] in
    match bfs_loop fuel pf End st0 with
    | None => None
    | Some (false, _) => Some Result
    | Some (true, st) =>
        match walk_parents fuel (Parents st) End [] with
        | None => None
        | Some ReversedPath0 =>
            let ReversedPath := rev ReversedPath0 in
            Some (mkPathResult true ReversedPath
                    (map (GridToWorld pf) ReversedPath)
                    (Z.of_nat (length ReversedPath)))
        end
    end.

(** [UMazePathfinder::FindPathFromWorld]. *)
Definition FindPathFromWorld (fuel : nat) (pf : UMazePathfinder)
    (WorldStart : FVector) (GridEnd : FIntPoint) : option FMazePathResult :=
  match WorldToGrid pf WorldStart with
  | None => None
  | Some GridStart =>
      if negb (IsValidCell pf GridStart) then
        let GridStart := FindNearestWalkableCell pf GridStart in
        if decide (GridStart = (-1, -1)) then Some FailedResult
        else FindPath fuel pf GridStart GridEnd
      else FindPath fuel pf GridStart GridEnd
  end.

End WithVectorFormat.

(** *** Paths in the grid, to state what [FindPath] computes *)

(** A cardinal move: one step east, west, south or north. *)
Definition cardinalb (u v : FIntPoint) : bool :=
  Z.abs (fst v - fst u) + Z.abs (snd v - snd u) =? 1.

(** A walk: a non-empty sequence of walkable cells, each a cardinal move
    from the one before. *)
Fixpoint is_walkb (pf : UMazePathfinder) (p : list FIntPoint) : bool :=
  match p with
  | [] => false
  | c :: p' =>
      IsValidCell pf c &&
      match p' with
      | [] => true
      | c' :: _ => cardinalb c c' && is_walkb pf p'
      end
  end.

Definition is_path (pf : UMazePathfinder) (a b : FIntPoint)
    (p : list FIntPoint) : Prop :=
  head p = Some a /\ last p = Some b /\ is_walkb pf p = true.

Definition reachable (pf : UMazePathfinder) (a b : FIntPoint) : Prop :=
  exists p, is_path pf a b p.

(** [adj pf u v]: [v] is one of the neighbours the search expands [u] to. *)
Definition adj (pf : UMazePathfinder) (u v : FIntPoint) : Prop :=
  In v (GetWalkableNeighbors pf u).

(** [moves pf a n b]: [b] is [n] moves away from [a]. *)
Inductive moves (pf : UMazePathfinder) (a : FIntPoint)
    : nat -> FIntPoint -> Prop :=
| moves_O : IsValidCell pf a = true -> moves pf a O a
| moves_S n u v : moves pf a n u -> adj pf u v -> moves pf a (S n) v.

(** [chain pf P a v n]: following [P] from [v] reaches the start [a], whose
    parent is (-1,-1), after [n] links, each link being a move. *)
Inductive chain (pf : UMazePathfinder) (P : gmap (Z * Z) (Z * Z))
    (a : FIntPoint) : FIntPoint -> nat -> Prop :=
| chain_O : P !! a = Some (-1, -1) -> chain pf P a a O
| chain_S v p n :
    P !! v = Some p -> adj pf p v -> chain pf P a p n ->
    chain pf P a v (S n).

(** The invariant of the search from [a] for [b].  [lev] is the level at
    which each visited cell was discovered, the queue holds [Qa] at level [k]
    followed by [Qb] at level [k + 1], and [todo] are the neighbours of the
    dequeued cell [u] that the inner loop has still to look at. *)
Record bfs_inv (pf : UMazePathfinder) (a b : FIntPoint)
    (lev : FIntPoint -> nat) (k : nat) (Qa Qb : list FIntPoint)
    (u : FIntPoint) (todo : list FIntPoint) (st : bfs_state) : Prop := {
  inv_queue : Queue st = Qa ++ Qb;
  inv_start : a ∈ Visited st /\ lev a = O;
  inv_chain : forall v, v ∈ Visited st -> chain pf (Parents st) a v (lev v);
  inv_valid : forall v, v ∈ Visited st -> IsValidCell pf v = true;
  inv_fresh : forall v, v ∉ Visited st -> Parents st !! v = None;
  inv_Qa : forall q, In q Qa -> lev q = k;
  inv_Qb : forall q, In q Qb -> lev q = S k;
  inv_queued : forall q, In q (Queue st) -> q ∈ Visited st;
  inv_done : forall v, v ∈ Visited st -> ~ In v (Queue st) ->
             (lev v <= k)%nat /\
             forall w, adj pf v w -> w ∈ Visited st \/ (v = u /\ In w todo);
  inv_level : forall v, v ∈ Visited st -> (lev v <= S k)%nat;
  inv_near : forall x m, moves pf a m x -> (m <= k)%nat ->
             x ∈ Visited st /\ (lev x <= m)%nat;
  inv_goal : b ∈ Visited st -> In b (Queue st);
  inv_size : forall v, v ∈ Visited st -> (lev v < size (Visited st))%nat;
  inv_todo : forall w, In w todo ->
             adj pf u w /\ u ∈ Visited st /\ lev u = k
}.

(** What the outer loop consumes: cells not yet visited, plus the queue. *)
Definition bfs_measure (N : nat) (st : bfs_state) : nat :=
  (N - size (Visited st) + length (Queue st))%nat.

Definition level_update (lev : FIntPoint -> nat) (w : FIntPoint) (n : nat)
    : FIntPoint -> nat :=
  fun x => if decide (x = w) then n else lev x.

(** One coordinate of [WorldToGrid (GridToWorld c)]. *)
Definition coordinate_roundtrip (vfmt : format) (cs : float) (c : Z) : option Z :=
  floor_as_int32 vfmt
    (fdiv vfmt
       (convert vfmt
          (fadd binary32 (fmul binary32 (of_int binary32 c) cs)
                (fmul binary32 cs half)))
       (convert vfmt cs)).

End Pathfinder.

(* --------------------------------------------------------------------- *)
(** ** MazeTypes.h: directions and the generation configuration           *)
(* --------------------------------------------------------------------- *)

Inductive EMazeGenerationAlgorithm : Type :=
| RecursiveBacktracker
| Prims
| Kruskals.

(** [EMazeDirection]; [Dir_None] is the hidden value 0. *)
Inductive EMazeDirection : Type :=
| Dir_None
| East
| North
| South
| West.

#[global] Instance EMazeDirection_eq_dec : EqDecision EMazeDirection.
Proof. solve_decision. Defined.

(** [static_cast<uint8>(Dir)]. *)
Definition dir_byte (Direction : EMazeDirection) : Z :=
  match Direction with
  | Dir_None => 0
  | East => 1
  | North => 2
  | South => 4
  | West => 8
  end.

Definition GetOppositeDirection (Direction : EMazeDirection) : EMazeDirection :=
  match Direction with
  | East => West
  | West => East
  | North => South
  | South => North
  | Dir_None => Dir_None
  end.

Definition GetDirectionDeltaX (Direction : EMazeDirection) : Z :=
  match Direction with
  | East => 1
  | West => -1
  | _ => 0
  end.

Definition GetDirectionDeltaY (Direction : EMazeDirection) : Z :=
  match Direction with
  | North => -1
  | South => 1
  | _ => 0
  end.

Record FMazeGenerationConfig : Type := mkConfig {
  Seed : Z;
  SizeX : Z;
  SizeY : Z;
  Algorithm : EMazeGenerationAlgorithm;
  CellSize : Scalar.float;
  WallHeight : Scalar.float
}.

(* --------------------------------------------------------------------- *)
(** ** Engine containers and the random stream                            *)
(* --------------------------------------------------------------------- *)

(** What a call can come to: a value; a fault, when a [TArray] is indexed
    out of range or sized negatively, which the engine does not survive; or
    the model's fuel running out. *)
Inductive outcome (A : Type) : Type :=
| Ok (a : A)
| Fault
| OutOfFuel.
Arguments Ok {A} a.
Arguments Fault {A}.
Arguments OutOfFuel {A}.

#[global] Instance outcome_ret : MRet outcome := @Ok.
#[global] Instance outcome_bind : MBind outcome :=
  fun A B f m =>
    match m with
    | Ok a => f a
    | Fault => Fault
    | OutOfFuel => OutOfFuel
    end.

(** A loop over indices that threads a state and stops at a fault. *)
Fixpoint for_each {A S} (l : list A) (body : A -> S -> outcome S) (s : S)
    : outcome S :=
  match l with
  | [] => Ok s
  | a :: l' => s' ← body a s; for_each l' body s'
  end.

(** [Array[Index]], read and written, [SetNum], [RemoveAt], [Swap]. *)
Definition tarray_get {A} (Array : list A) (Index : Z) : outcome A :=
  if Index <? 0 then Fault
  else match Array !! Z.to_nat Index with
       | Some a => Ok a
       | None => Fault
       end.

Definition tarray_set {A} (Array : list A) (Index : Z) (a : A)
    : outcome (list A) :=
  if (Index <? 0) || (Z.of_nat (length Array) <=? Index) then Fault
  else Ok (<[Z.to_nat Index := a]> Array).

Definition SetNum {A} (NewNum : Z) (a : A) : outcome (list A) :=
  if NewNum <? 0 then Fault else Ok (replicate (Z.to_nat NewNum) a).

Definition RemoveAt {A} (Array : list A) (Index : Z) : outcome (list A) :=
  if (Index <? 0) || (Z.of_nat (length Array) <=? Index) then Fault
  else Ok (delete (Z.to_nat Index) Array).

Definition Swap {A} (Array : list A) (i j : Z) : outcome (list A) :=
  a ← tarray_get Array i;
  b ← tarray_get Array j;
  Array ← tarray_set Array i b;
  tarray_set Array j a.

(** [FRandomStream]: the engine's seeded generator.  Of its behaviour the
    generator relies on one thing, that [RandRange(Min, Max)] lies between
    [Min] and [Max] when [Min <= Max]. *)
Class RandomStream (R : Type) : Type := {
  FRandomStream_seeded : Z -> R;
  RandRange : Z -> Z -> R -> Z * R;
  RandRange_range : forall Min Max Random,
    Min <= Max -> Min <= fst (RandRange Min Max Random) <= Max
}.

(** A linear congruential stream, to run examples. *)
Definition lcg_step (s : Z) : Z := (s * 196314165 + 907633515) mod 4294967296.

Definition lcg_range (Min Max s : Z) : Z * Z :=
  let s' := lcg_step s in
  (if Max <? Min then Min else Min + (s' / 65536) mod (Max - Min + 1), s').

Lemma lcg_range_range Min Max s :
  Min <= Max -> Min <= fst (lcg_range Min Max s) <= Max.
Proof.
  intros H. unfold lcg_range. simpl.
  destruct (Max <? Min) eqn:E; [apply Z.ltb_lt in E; lia|].
  pose proof (Z.mod_pos_bound (lcg_step s / 65536) (Max - Min + 1)). lia.
Qed.

#[global] Instance lcg_stream : RandomStream Z := {
  FRandomStream_seeded := fun seed => seed mod 4294967296;
  RandRange := lcg_range;
  RandRange_range := lcg_range_range
}.

(* --------------------------------------------------------------------- *)
(** ** MazeGenerator                                                      *)
(* --------------------------------------------------------------------- *)

Module Generator.
Import Scalar.

(** [TArray<TArray<uint8>>], indexed [Grid[Y][X]]. *)
Abbreviation byte_grid := (list (list Z)) (only parsing).

Definition grid_get (Grid : byte_grid) (X Y : Z) : outcome Z :=
  Row ← tarray_get Grid Y; tarray_get Row X.

Definition grid_set (Grid : byte_grid) (X Y : Z) (v : Z) : outcome byte_grid :=
  Row ← tarray_get Grid Y;
  Row ← tarray_set Row X v;
  tarray_set Grid Y Row.

(** [Grid[Y][X] |= bits]. *)
Definition grid_or (Grid : byte_grid) (X Y : Z) (bits : Z) : outcome byte_grid :=
  v ← grid_get Grid X Y; grid_set Grid X Y (Z.lor v bits).

(** [UMazeGenerator::CreateZeroedGrid]. *)
Definition CreateZeroedGrid (Size : FIntPoint) : outcome byte_grid :=
  Grid ← SetNum (snd Size) [];
  for_each (range 0 (snd Size - 1))
    (fun Y Grid => Row ← SetNum (fst Size) 0; tarray_set Grid Y Row)
    Grid.

(** [X >= 0 && X < Grid[0].Num() && Y >= 0 && Y < Grid.Num()], evaluated
    left to right: [Grid[0]] is read only once [X >= 0] holds. *)
Definition in_bounds_check (Grid : byte_grid) (X Y : Z) : outcome bool :=
  if negb (X >=? 0) then Ok false
  else
    Row0 ← tarray_get Grid 0;
    Ok ((X <? Z.of_nat (length Row0)) && (Y >=? 0) &&
        (Y <? Z.of_nat (length Grid))).

(** [bInBounds && Grid[Y][X] == 0]. *)
Definition in_bounds_and_zero (Grid : byte_grid) (X Y : Z) : outcome bool :=
  bInBounds ← in_bounds_check Grid X Y;
  if bInBounds : bool then v ← grid_get Grid X Y; Ok (v =? 0) else Ok false.

Section WithRandom.
Context {R : Type} {RS : RandomStream R}.

(** [UMazeGenerator::ShuffleArray]. *)
Definition ShuffleArray {A} (Array : list A) (Random : R) : outcome (list A * R) :=
  let LastIndex := Z.of_nat (length Array) - 1 in
  for_each (range 0 LastIndex)
    (fun i '(Array, Random) =>
       let '(SwapIndex, Random) := RandRange i LastIndex Random in
       if negb (i =? SwapIndex) then
         Array ← Swap Array i SwapIndex; Ok (Array, Random)
       else Ok (Array, Random))
    (Array, Random).

(** The [for (Dir : Directions)] loop of [CarvePassagesFrom]; [recurse] is
    the recursive call. *)
Fixpoint carve_directions
    (recurse : Z -> Z -> byte_grid * R -> outcome (byte_grid * R))
    (X Y : Z) (Directions : list EMazeDirection) (st : byte_grid * R)
    : outcome (byte_grid * R) :=
  match Directions with
  | [] => Ok st
  | Dir :: Directions' =>
      let '(Grid, Random) := st in
      let NextX := X + GetDirectionDeltaX Dir in
      let NextY := Y + GetDirectionDeltaY Dir in
      unvisited ← in_bounds_and_zero Grid NextX NextY;
      st ← (if unvisited : bool then
              Grid ← grid_or Grid X Y (dir_byte Dir);
              Grid ← grid_or Grid NextX NextY (dir_byte (GetOppositeDirection Dir));
              recurse NextX NextY (Grid, Random)
            else Ok (Grid, Random));
      carve_directions recurse X Y Directions' st
  end.

(** [UMazeGenerator::CarvePassagesFrom]; [fuel] bounds the recursion depth. *)
Fixpoint CarvePassagesFrom (fuel : nat) (X Y : Z) (st : byte_grid * R)
    : outcome (byte_grid * R) :=
  match fuel with
  | O => OutOfFuel
  | S fuel' =>
      let '(Grid, Random) := st in
      '(Directions, Random) ← ShuffleArray [East; West; North; South] Random;
      carve_directions (CarvePassagesFrom fuel') X Y Directions (Grid, Random)
  end.

(** [UMazeGenerator::GenerateBacktracker]. *)
Definition GenerateBacktracker (fuel : nat) (Size : FIntPoint) (Random : R)
    : outcome (byte_grid * R) :=
  Grid ← CreateZeroedGrid Size;
  CarvePassagesFrom fuel 0 0 (Grid, Random).

(** [EPrimCellState]. *)
Definition PrimState_Frontier : Z := 64.
Definition PrimState_In : Z := 128.

(** [UMazeGenerator::PrimAddToFrontier]; the state is the grid and the
    member [PrimFrontier], pairs (X, Y). *)
Definition PrimAddToFrontier (X Y : Z) (st : byte_grid * list FIntPoint)
    : outcome (byte_grid * list FIntPoint) :=
  let '(Grid, PrimFrontier) := st in
  out ← in_bounds_and_zero Grid X Y;
  if out : bool then
    Grid ← grid_or Grid X Y PrimState_Frontier;
    Ok (Grid, PrimFrontier ++ [(X, Y)])
  else Ok (Grid, PrimFrontier).

(** [UMazeGenerator::PrimExpandFrontierFrom]. *)
Definition PrimExpandFrontierFrom (X Y : Z) (st : byte_grid * list FIntPoint)
    : outcome (byte_grid * list FIntPoint) :=
  let '(Grid, PrimFrontier) := st in
  Grid ← grid_or Grid X Y PrimState_In;
  st ← PrimAddToFrontier (X - 1) Y (Grid, PrimFrontier);
  st ← PrimAddToFrontier (X + 1) Y st;
  st ← PrimAddToFrontier X (Y - 1) st;
  PrimAddToFrontier X (Y + 1) st.

(** [(Grid[Y][X] & InFlag)] as a condition. *)
Definition has_in_flag (Grid : byte_grid) (X Y : Z) : outcome bool :=
  v ← grid_get Grid X Y; Ok (negb (Z.land v PrimState_In =? 0)).

(** [UMazeGenerator::PrimGetInNeighbors]. *)
Definition PrimGetInNeighbors (X Y : Z) (Grid : byte_grid)
    : outcome (list FIntPoint) :=
  let Neighbors := [] in
  c ← (if X >? 0 then has_in_flag Grid (X - 1) Y else Ok false);
  let Neighbors := if c : bool then Neighbors ++ [(X - 1, Y)] else Neighbors in
  Row0 ← tarray_get Grid 0;
  c ← (if X <? Z.of_nat (length Row0) - 1 then has_in_flag Grid (X + 1) Y
       else Ok false);
  let Neighbors := if c : bool then Neighbors ++ [(X + 1, Y)] else Neighbors in
  c ← (if Y >? 0 then has_in_flag Grid X (Y - 1) else Ok false);
  let Neighbors := if c : bool then Neighbors ++ [(X, Y - 1)] else Neighbors in
  c ← (if Y <? Z.of_nat (length Grid) - 1 then has_in_flag Grid X (Y + 1)
       else Ok false);
  let Neighbors := if c : bool then Neighbors ++ [(X, Y + 1)] else Neighbors in
  Ok Neighbors.

(** [UMazeGenerator::GetDirectionBetween]; a pair is (Key, Value) = (X, Y). *)
Definition GetDirectionBetween (From To : FIntPoint) : EMazeDirection :=
  if fst To >? fst From then East
  else if fst To <? fst From then West
  else if snd To >? snd From then South
  else if snd To <? snd From then North
  else Dir_None.

(** [while (PrimFrontier.Num() > 0)] of [GeneratePrims]. *)
Fixpoint prim_loop (fuel : nat) (st : byte_grid * list FIntPoint * R)
    : outcome (byte_grid * list FIntPoint * R) :=
  match fuel with
  | O => OutOfFuel
  | S fuel' =>
      let '(Grid, PrimFrontier, Random) := st in
      if negb (Z.of_nat (length PrimFrontier) >? 0) then Ok st
      else
        let '(Index, Random) :=
          RandRange 0 (Z.of_nat (length PrimFrontier) - 1) Random in
        Current ← tarray_get PrimFrontier Index;
        PrimFrontier ← RemoveAt PrimFrontier Index;
        InNeighbors ← PrimGetInNeighbors (fst Current) (snd Current) Grid;
        '(Grid, Random) ←
          (if Z.of_nat (length InNeighbors) >? 0 then
             let '(i, Random) :=
               RandRange 0 (Z.of_nat (length InNeighbors) - 1) Random in
             Neighbor ← tarray_get InNeighbors i;
             let Dir := GetDirectionBetween Current Neighbor in
             Grid ← grid_or Grid (fst Current) (snd Current) (dir_byte Dir);
             Grid ← grid_or Grid (fst Neighbor) (snd Neighbor)
                            (dir_byte (GetOppositeDirection Dir));
             Ok (Grid, Random)
           else Ok (Grid, Random));
        '(Grid, PrimFrontier) ←
          PrimExpandFrontierFrom (fst Current) (snd Current) (Grid, PrimFrontier);
        prim_loop fuel' (Grid, PrimFrontier, Random)
  end.

(** [UMazeGenerator::GeneratePrims]. *)
Definition GeneratePrims (fuel : nat) (Size : FIntPoint) (Random : R)
    : outcome (byte_grid * R) :=
  Grid ← CreateZeroedGrid Size;
  let PrimFrontier := [] in
  let '(StartX, Random) := RandRange 0 (fst Size - 1) Random in
  let '(StartY, Random) := RandRange 0 (snd Size - 1) Random in
  '(Grid, PrimFrontier) ← PrimExpandFrontierFrom StartX StartY (Grid, PrimFrontier);
  '(Grid, _, Random) ← prim_loop fuel (Grid, PrimFrontier, Random);
  Ok (Grid, Random).

(** [FKruskalSet] objects live on the heap, one per room; the object made
    for [Sets[Y][X]] is named by (X, Y), and the heap holds the [Parent]
    pointer of each object that has one. *)
Abbreviation set_heap := (gmap (Z * Z) (Z * Z)) (only parsing).

(** [FKruskalSet::GetRoot]; [fuel] bounds the recursion depth. *)
Fixpoint GetRoot (fuel : nat) (heap : set_heap) (this : FIntPoint)
    : outcome FIntPoint :=
  match fuel with
  | O => OutOfFuel
  | S fuel' =>
      match heap !! this with
      | Some Parent => GetRoot fuel' heap Parent
      | None => Ok this
      end
  end.

(** [FKruskalSet::IsConnectedTo]. *)
Definition IsConnectedTo (fuel : nat) (heap : set_heap) (this Other : FIntPoint)
    : outcome bool :=
  r1 ← GetRoot fuel heap this;
  r2 ← GetRoot fuel heap Other;
  Ok (bool_decide (r1 = r2)).

(** [FKruskalSet::ConnectTo]: [Other->GetRoot()->Parent = this]. *)
Definition ConnectTo (fuel : nat) (heap : set_heap) (this Other : FIntPoint)
    : outcome set_heap :=
  r ← GetRoot fuel heap Other;
  Ok (<[r := this]> heap).

Record FKruskalEdge : Type := mkEdge {
  EdgeX : Z;
  EdgeY : Z;
  EdgeDirection : EMazeDirection
}.

(** The array [Sets] of [GenerateKruskals], as the names of its objects. *)
Definition create_sets (Size : FIntPoint) : outcome (list (list FIntPoint)) :=
  Sets ← SetNum (snd Size) [];
  for_each (range 0 (snd Size - 1))
    (fun Y Sets =>
       Row ← SetNum (fst Size) (0, 0);
       Row ← for_each (range 0 (fst Size - 1))
               (fun X Row => tarray_set Row X (X, Y)) Row;
       tarray_set Sets Y Row)
    Sets.

(** The loop that lists every west and north edge. *)
Definition create_edges (Size : FIntPoint) : list FKruskalEdge :=
  flat_map (fun Y =>
    flat_map (fun X =>
      (if X >? 0 then [mkEdge X Y West] else []) ++
      (if Y >? 0 then [mkEdge X Y North] else []))
      (range 0 (fst Size - 1)))
    (range 0 (snd Size - 1)).

(** The body of [for (Edge : Edges)]. *)
Definition process_edge (fuel : nat) (Sets : list (list FIntPoint))
    (Edge : FKruskalEdge) (st : byte_grid * set_heap)
    : outcome (byte_grid * set_heap) :=
  let '(Grid, heap) := st in
  let NextX := EdgeX Edge + GetDirectionDeltaX (EdgeDirection Edge) in
  let NextY := EdgeY Edge + GetDirectionDeltaY (EdgeDirection Edge) in
  Row ← tarray_get Sets (EdgeY Edge);
  CurrentSet ← tarray_get Row (EdgeX Edge);
  Row ← tarray_get Sets NextY;
  NextSet ← tarray_get Row NextX;
  connected ← IsConnectedTo fuel heap CurrentSet NextSet;
  if negb connected then
    heap ← ConnectTo fuel heap CurrentSet NextSet;
    Grid ← grid_or Grid (EdgeX Edge) (EdgeY Edge) (dir_byte (EdgeDirection Edge));
    Grid ← grid_or Grid NextX NextY
                   (dir_byte (GetOppositeDirection (EdgeDirection Edge)));
    Ok (Grid, heap)
  else Ok (Grid, heap).

(** [UMazeGenerator::GenerateKruskals]. *)
Definition GenerateKruskals (fuel : nat) (Size : FIntPoint) (Random : R)
    : outcome (byte_grid * R) :=
  Grid ← CreateZeroedGrid Size;
  Sets ← create_sets Size;
  let Edges := create_edges Size in
  '(Edges, Random) ← ShuffleArray Edges Random;
  '(Grid, _) ← for_each Edges (process_edge fuel Sets) (Grid, ∅);
  Ok (Grid, Random).

End WithRandom.

(** The body of the double loop of [DirectionsToFloorWallGrid]. *)
Definition place_room (DirectionsGrid : byte_grid) (FinalSize : FIntPoint)
    (X Y : Z) (Grid : byte_grid) : outcome byte_grid :=
  let FinalX := X * 2 in
  let FinalY := Y * 2 in
  if (FinalX >=? fst FinalSize) || (FinalY >=? snd FinalSize) then Ok Grid
  else
    Grid ← grid_set Grid FinalX FinalY 1;
    Directions ← grid_get DirectionsGrid X Y;
    Grid ← (if negb (Z.land Directions 1 =? 0) && (FinalX + 1 <? fst FinalSize)
            then grid_set Grid (FinalX + 1) FinalY 1 else Ok Grid);
    Grid ← (if negb (Z.land Directions 2 =? 0) && (FinalY - 1 >=? 0)
            then grid_set Grid FinalX (FinalY - 1) 1 else Ok Grid);
    Grid ← (if negb (Z.land Directions 4 =? 0) && (FinalY + 1 <? snd FinalSize)
            then grid_set Grid FinalX (FinalY + 1) 1 else Ok Grid);
    (if negb (Z.land Directions 8 =? 0) && (FinalX - 1 >=? 0)
     then grid_set Grid (FinalX - 1) FinalY 1 else Ok Grid).

(** [UMazeGenerator::DirectionsToFloorWallGrid] (without its log lines). *)
Definition DirectionsToFloorWallGrid (DirectionsGrid : byte_grid)
    (FinalSize : FIntPoint) : outcome byte_grid :=
  Grid ← CreateZeroedGrid FinalSize;
  let DirSizeY := Z.of_nat (length DirectionsGrid) in
  DirSizeX ← (if DirSizeY >? 0 then
                Row0 ← tarray_get DirectionsGrid 0; Ok (Z.of_nat (length Row0))
              else Ok 0);
  for_each (range 0 (DirSizeY - 1))
    (fun Y Grid =>
       for_each (range 0 (DirSizeX - 1))
         (fun X Grid => place_room DirectionsGrid FinalSize X Y Grid) Grid)
    Grid.

Section WithRandom.
Context {R : Type} {RS : RandomStream R}.

(** The format of [FVector] components. *)
Variable vfmt : format.

(** The world position [GenerateMaze] gives the cell (X, Y). *)
Definition cell_world_position (Config : FMazeGenerationConfig) (X Y : Z)
    : FVector :=
  let cs := CellSize Config in
  let coord (c : Z) :=
    convert vfmt
      (fadd binary32 (fmul binary32 (of_int binary32 c) cs) (fmul binary32 cs half)) in
  mkFVector (coord X) (coord Y) (convert vfmt (S754_zero false)).

(** The [switch] of [GenerateMaze]. *)
Definition generate_directions (fuel : nat) (Algorithm : EMazeGenerationAlgorithm)
    (DirectionsSize : FIntPoint) (Random : R) : outcome (byte_grid * R) :=
  match Algorithm with
  | RecursiveBacktracker => GenerateBacktracker fuel DirectionsSize Random
  | Prims => GeneratePrims fuel DirectionsSize Random
  | Kruskals => GenerateKruskals fuel DirectionsSize Random
  end.

(** [UMazeGenerator::GenerateMaze]: the returned cell array.  [Cells.Reserve]
    only sets the capacity of the array, and the count of floors and walls
    at the end is only logged. *)
Definition GenerateMaze (fuel : nat) (Config : FMazeGenerationConfig)
    : outcome (list FMazeCell) :=
  let Random : R := FRandomStream_seeded (Seed Config) in
  let DirectionsSize :=
    (Z.quot (SizeX Config + 1) 2, Z.quot (SizeY Config + 1) 2) in
  '(DirectionsGrid, _) ←
    generate_directions fuel (Algorithm Config) DirectionsSize Random;
  let FinalSize := (SizeX Config, SizeY Config) in
  CachedGrid ← DirectionsToFloorWallGrid DirectionsGrid FinalSize;
  for_each (range 0 (snd FinalSize - 1))
    (fun Y Cells =>
       for_each (range 0 (fst FinalSize - 1))
         (fun X Cells =>
            v ← grid_get CachedGrid X Y;
            let bIsFloor := v =? 1 in
            Ok (Cells ++ [FMazeCell_make (X, Y)
                            (cell_world_position Config X Y) bIsFloor]))
         Cells)
    [].

End WithRandom.

End Generator.

(* --------------------------------------------------------------------- *)
(** ** The directions grid as a graph on rooms                            *)
(* --------------------------------------------------------------------- *)

Module Rooms.
Import Generator.

(** A grid of [H] rows of [W] bytes. *)
Definition grid_shape (W H : Z) (Grid : list (list Z)) : Prop :=
  Z.of_nat (length Grid) = H /\
  forall Row, In Row Grid -> Z.of_nat (length Row) = W.

(** The byte of room [c], 0 outside the grid. *)
Definition cell (Grid : list (list Z)) (c : FIntPoint) : Z :=
  match grid_get Grid (fst c) (snd c) with
  | Ok v => v
  | _ => 0
  end.

Definition in_grid (W H : Z) (c : FIntPoint) : Prop :=
  0 <= fst c < W /\ 0 <= snd c < H.

(** The room next to [c] in direction [d]. *)
Definition step (c : FIntPoint) (d : EMazeDirection) : FIntPoint :=
  (fst c + GetDirectionDeltaX d, snd c + GetDirectionDeltaY d).

Definition is_direction (d : EMazeDirection) : Prop := d <> Dir_None.

(** Whether byte [v] has the bit of direction [d]. *)
Definition has_dir (v : Z) (d : EMazeDirection) : bool :=
  negb (Z.land v (dir_byte d) =? 0).

(** An open passage: the direction bit on the room and the opposite bit on
    its neighbour. *)
Definition passage_open (Grid : list (list Z)) (c : FIntPoint)
    (d : EMazeDirection) : bool :=
  has_dir (cell Grid c) d &&
  has_dir (cell Grid (step c d)) (GetOppositeDirection d).

(** The pairs of adjacent rooms, each pair once, named by its west or
    north room and the direction east or south. *)
Definition room_passages (W H : Z) : list (FIntPoint * EMazeDirection) :=
  flat_map (fun c =>
    (if fst c + 1 <? W then [(c, East)] else []) ++
    (if snd c + 1 <? H then [(c, South)] else []))
    (coordinates W H).

(** The number of open passages of the directions grid. *)
Definition open_passages (W H : Z) (Grid : list (list Z)) : nat :=
  length (List.filter (fun p => passage_open Grid (fst p) (snd p))
                      (room_passages W H)).

(** The number of rooms whose byte is not zero. *)
Definition nonzero_count (W H : Z) (Grid : list (list Z)) : nat :=
  length (List.filter (fun c => negb (cell Grid c =? 0)) (coordinates W H)).

(** Two rooms with an open passage between them, and rooms joined by a
    chain of open passages. *)
Definition link (W H : Z) (Grid : list (list Z)) (c c' : FIntPoint) : Prop :=
  exists d, is_direction d /\ c' = step c d /\
            in_grid W H c /\ in_grid W H c' /\ passage_open Grid c d = true.

Inductive joined (W H : Z) (Grid : list (list Z)) : FIntPoint -> FIntPoint -> Prop :=
| joined_refl c : joined W H Grid c c
| joined_link c c' : link W H Grid c c' -> joined W H Grid c c'
| joined_sym c c' : joined W H Grid c c' -> joined W H Grid c' c
| joined_trans c c' c'' :
    joined W H Grid c c' -> joined W H Grid c' c'' -> joined W H Grid c c''.

(** [carved g g' c d]: [g'] is [g] with the passage from [c] in direction
    [d] carved, the bit of [d] set on [c] and the opposite bit on the
    neighbour. *)
Definition carved (g g' : list (list Z)) (c : FIntPoint) (d : EMazeDirection)
    : Prop :=
  forall x,
    cell g' x =
    Z.lor (Z.lor (cell g x) (if decide (x = c) then dir_byte d else 0))
          (if decide (x = step c d) then dir_byte (GetOppositeDirection d) else 0).

(** The number of rooms whose byte is zero. *)
Definition zero_count (W H : Z) (Grid : list (list Z)) : nat :=
  (Z.to_nat H * Z.to_nat W - nonzero_count W H Grid)%nat.

(** What the backtracker keeps true of the grid: the rooms it has reached,
    those with a byte that is not zero, are joined to room (0,0) and are one
    more than the open passages. *)
Definition dfs_inv (W H : Z) (g : list (list Z)) : Prop :=
  grid_shape W H g /\
  (forall c, in_grid W H c -> cell g c <> 0 -> joined W H g (0, 0) c) /\
  ((nonzero_count W H g = O /\ open_passages W H g = O) \/
   (cell g (0, 0) <> 0 /\ nonzero_count W H g = S (open_passages W H g))).

(** A room the backtracker may carve from: one it has reached, or room
    (0,0) at the very start. *)
Definition source_ok (W H : Z) (g : list (list Z)) (c : FIntPoint) : Prop :=
  cell g c <> 0 \/ (nonzero_count W H g = O /\ c = (0, 0)).

(** Between [g] and [g'] no reached room was lost, and every room reached
    in between, other than [c], has all its neighbours reached. *)
Definition dfs_post (W H : Z) (g g' : list (list Z)) (c : FIntPoint) : Prop :=
  dfs_inv W H g' /\
  (forall x, cell g x <> 0 -> cell g' x <> 0) /\
  (nonzero_count W H g <= nonzero_count W H g')%nat /\
  (forall x, in_grid W H x -> cell g x = 0 -> cell g' x <> 0 -> x <> c ->
             forall d, is_direction d -> in_grid W H (step x d) ->
                       cell g' (step x d) <> 0).

(** Prim's algorithm: whether a byte carries the "in" flag, how many rooms
    do, and the four neighbours in the order [PrimExpandFrontierFrom] adds
    them. *)
Definition is_in (v : Z) : bool := negb (Z.land v PrimState_In =? 0).

Definition in_count (W H : Z) (Grid : list (list Z)) : nat :=
  length (List.filter (fun c => is_in (cell Grid c)) (coordinates W H)).

Definition neighbours4 (c : FIntPoint) : list FIntPoint :=
  [(fst c - 1, snd c); (fst c + 1, snd c); (fst c, snd c - 1); (fst c, snd c + 1)].

(** What Prim's loop keeps true: a room is out (0), on the frontier (64 and
    listed in [F], next to a room that is in), or in; the rooms that are in
    have no room that is out next to them, are joined to the start room and
    are one more than the open passages. *)
Record prim_inv (W H : Z) (start : FIntPoint) (g : list (list Z))
    (F : list FIntPoint) : Prop := {
  prim_shape : grid_shape W H g;
  prim_cells : forall c, in_grid W H c ->
      cell g c = 0 \/ (cell g c = PrimState_Frontier /\ In c F) \/
      is_in (cell g c) = true;
  prim_frontier : forall c, In c F ->
      in_grid W H c /\ cell g c = PrimState_Frontier /\
      exists d, is_direction d /\ in_grid W H (step c d) /\
                is_in (cell g (step c d)) = true;
  prim_nodup : NoDup F;
  prim_closed : forall c d, in_grid W H c -> is_in (cell g c) = true ->
      is_direction d -> in_grid W H (step c d) -> cell g (step c d) <> 0;
  prim_joined : forall c, in_grid W H c -> is_in (cell g c) = true ->
      joined W H g start c;
  prim_start : in_grid W H start /\ is_in (cell g start) = true;
  prim_count : in_count W H g = S (open_passages W H g)
}.

(** Kruskal's algorithm: [root_of heap c r n] says that following the
    [Parent] pointers from the set of room [c] ends, after [n] pointers, at
    the set [r], which has none. *)
Inductive root_of (heap : gmap (Z * Z) (Z * Z))
    : FIntPoint -> FIntPoint -> nat -> Prop :=
| root_here c : heap !! c = None -> root_of heap c c O
| root_up c p r n :
    heap !! c = Some p -> root_of heap p r n -> root_of heap c r (S n).

Definition same_root (heap : gmap (Z * Z) (Z * Z)) (c c' : FIntPoint) : Prop :=
  exists r n n', root_of heap c r n /\ root_of heap c' r n'.

Definition is_root (heap : gmap (Z * Z) (Z * Z)) (c : FIntPoint) : bool :=
  bool_decide (heap !! c = None).

Definition root_count (W H : Z) (heap : gmap (Z * Z) (Z * Z)) : nat :=
  length (List.filter (is_root heap) (coordinates W H)).

(** The sizes [sz] of the trees, summed over the roots. *)
Definition total_size (W H : Z) (heap : gmap (Z * Z) (Z * Z))
    (sz : FIntPoint -> nat) : nat :=
  list_sum (List.map (fun c => if is_root heap c then sz c else O)
                     (coordinates W H)).

(** What the loop over the edges keeps true: the pointers form trees, each
    shallower than its size [sz]; rooms of one tree are joined; an open
    passage stays within a tree; and open passages and trees together are as
    many as the rooms. *)
Record kruskal_inv (W H : Z) (g : list (list Z))
    (heap : gmap (Z * Z) (Z * Z)) (sz : FIntPoint -> nat) : Prop := {
  k_shape : grid_shape W H g;
  k_root : forall c, in_grid W H c ->
      exists r n, root_of heap c r n /\ in_grid W H r /\ (n < sz r)%nat;
  k_size : total_size W H heap sz = (Z.to_nat H * Z.to_nat W)%nat;
  k_joined : forall c c', in_grid W H c -> in_grid W H c' ->
      same_root heap c c' -> joined W H g c c';
  k_open : forall c d, in_grid W H c -> in_grid W H (step c d) ->
      is_direction d -> passage_open g c d = true ->
      same_root heap c (step c d);
  k_count : (open_passages W H g + root_count W H heap
             = Z.to_nat H * Z.to_nat W)%nat
}.

(** The sizes after the tree of root [rn] is hung under the tree of root
    [rc]. *)
Definition union_sizes (sz : FIntPoint -> nat) (rc rn : FIntPoint)
    : FIntPoint -> nat :=
  fun r => if decide (r = rc) then (sz rc + sz rn)%nat else sz r.

(** [Sets[Y][X]] is the set made for room (X, Y). *)
Definition sets_ok (W H : Z) (Sets : list (list FIntPoint)) : Prop :=
  forall c, in_grid W H c ->
    exists Row, tarray_get Sets (snd c) = Ok Row /\ tarray_get Row (fst c) = Ok c.

(** The room an edge starts from. *)
Definition edge_room (e : FKruskalEdge) : FIntPoint := (EdgeX e, EdgeY e).

(** A grid without cells: no rows, or rows without columns. *)
Definition no_cells (Grid : list (list Z)) : Prop :=
  forall Row, In Row Grid -> Row = [].

(** A spanning tree over the rooms: every two rooms are joined and there
    are as many open passages as rooms but one. *)
Definition spanning_tree (W H : Z) (Grid : list (list Z)) : Prop :=
  grid_shape W H Grid /\
  (forall c c', in_grid W H c -> in_grid W H c' -> joined W H Grid c c') /\
  Z.of_nat (open_passages W H Grid) = W * H - 1.

End Rooms.

(* --------------------------------------------------------------------- *)
(** ** Floor cells and walks over them                                    *)
(* --------------------------------------------------------------------- *)

Module Floor.
Import Generator Rooms.

(** The cell that [DirectionsToFloorWallGrid] gives room [r], and the cell
    it gives the passage from room [r] in direction [d]. *)
Definition room_cell (r : FIntPoint) : FIntPoint := (fst r * 2, snd r * 2).

Definition passage_cell (r : FIntPoint) (d : EMazeDirection) : FIntPoint :=
  (fst r * 2 + GetDirectionDeltaX d, snd r * 2 + GetDirectionDeltaY d).

(** A walk of cardinal moves over the cells that satisfy [floor]. *)
Inductive walk (floor : FIntPoint -> Prop) : FIntPoint -> FIntPoint -> Prop :=
| walk_here p : floor p -> walk floor p p
| walk_move p q r :
    walk floor p q -> Pathfinder.cardinalb q r = true -> floor r ->
    walk floor p r.

(** A cell of the floor/wall grid that holds 1. *)
Definition grid_floor (F : list (list Z)) (p : FIntPoint) : Prop := cell F p = 1.

(** A floor cell of the cell array at grid position [p]. *)
Definition is_floor_at (Cells : list FMazeCell) (p : FIntPoint) : Prop :=
  exists c, In c Cells /\ GridPosition c = p /\ bIsFloor c = true.

(** Every floor cell can be reached from every other floor cell. *)
Definition floor_connected (Cells : list FMazeCell) : Prop :=
  forall a b, is_floor_at Cells a -> is_floor_at Cells b ->
              walk (is_floor_at Cells) a b.

(** What the double loop of [DirectionsToFloorWallGrid] keeps true, [done]
    being the rooms already placed: a cell that is 1 is a room cell or next
    to a room cell that is 1, and a placed room has its cell and the cells
    of its passages at 1. *)
Record floor_inv (DW DH : Z) (g : list (list Z)) (SX SY : Z)
    (done : FIntPoint -> Prop) (F : list (list Z)) : Prop := {
  fi_shape : grid_shape SX SY F;
  fi_sound : forall p, cell F p = 1 ->
      exists r, in_grid DW DH r /\ cell F (room_cell r) = 1 /\
                (p = room_cell r \/ Pathfinder.cardinalb (room_cell r) p = true);
  fi_rooms : forall r, done r -> cell F (room_cell r) = 1;
  fi_passages : forall r d, done r -> is_direction d ->
      has_dir (cell g r) d = true -> in_grid SX SY (passage_cell r d) ->
      cell F (passage_cell r d) = 1
}.

End Floor.

(* --------------------------------------------------------------------- *)
(** ** Runs of discovery events with their broadcasts                     *)
(* --------------------------------------------------------------------- *)

Module DiscoveryLog.
Import Discovery.

Definition Event_eqb (a b : Event) : bool :=
  match a, b with
  | ExitFound, ExitFound | KeyFound, KeyFound => true
  | _, _ => false
  end.

(** Whether event [e] occurs among [es]. *)
Definition has_event (e : Event) (es : list Event) : bool :=
  existsb (Event_eqb e) es.

(** The target [UpdatePathfindingTarget] chooses for the flags of [s]. *)
Definition target_for (s : FMazeGameState) : EMazePathTarget :=
  if bHasKey s then Target_Exit
  else if bExitDiscovered s then Target_Key
  else Target_Exit.

(** The delegates broadcast, in order, while the events [es] are delivered
    from state [s]. *)
Fixpoint run_log (es : list Event) (s : FMazeGameState) : list Notification :=
  match es with
  | [] => []
  | e :: es' => fired (deliver e s) ++ run_log es' (state_of (deliver e s))
  end.

Definition is_target_change (n : Notification) : bool :=
  match n with
  | OnTargetChanged _ => true
  | _ => false
  end.

Definition Notification_eqb (a b : Notification) : bool :=
  match a, b with
  | OnExitDiscovered, OnExitDiscovered
  | OnKeyCollected, OnKeyCollected
  | OnHollowMaskUnlocked, OnHollowMaskUnlocked => true
  | OnTargetChanged t, OnTargetChanged t' => EMazePathTarget_eqb t t'
  | _, _ => false
  end.

(** How many more times the target can change from state [s]. *)
Definition target_changes_left (s : FMazeGameState) : nat :=
  if bHasKey s then 0 else if bExitDiscovered s then 1 else 2.

(** How many times [n] was broadcast. *)
Definition times_fired (n : Notification) (log : list Notification) : nat :=
  length (List.filter (Notification_eqb n) log).

End DiscoveryLog.

(* --------------------------------------------------------------------- *)
(** ** The cell array of a floor/wall grid                                *)
(* --------------------------------------------------------------------- *)

Module CellArray.
Import Generator Rooms.

(** The array the last double loop of [GenerateMaze] builds from the
    floor/wall grid [F]: one cell per coordinate, row by row. *)
Definition cells_of (vfmt : Scalar.format) (Config : FMazeGenerationConfig)
    (F : list (list Z)) : list FMazeCell :=
  List.map (fun c => FMazeCell_make c
              (cell_world_position vfmt Config (fst c) (snd c))
              (cell F c =? 1))
    (coordinates (SizeX Config) (SizeY Config)).

End CellArray.

(* --------------------------------------------------------------------- *)
(** ** MazeGridData.h: the baked data asset                               *)
(* --------------------------------------------------------------------- *)

Module GridData.

(** [UMazeGridData]. *)
Record UMazeGridData : Type := mkGridData {
  SizeX : Z;
  SizeY : Z;
  CellSize : Scalar.float;
  WallHeight : Scalar.float;
  Seed : Z;
  Algorithm : EMazeGenerationAlgorithm;
  Cells : list FMazeCell
}.

(** [UMazeGridData::IsValid] (for sizes whose product fits an int32). *)
Definition IsValid (Data : UMazeGridData) : bool :=
  (SizeX Data >? 0) && (SizeY Data >? 0) &&
  (Z.of_nat (length (Cells Data)) =? SizeX Data * SizeY Data).

(** [UMazeGridData::GetFloorCount]: the counting loop. *)
Definition GetFloorCount (Data : UMazeGridData) : Z :=
  fold_left (fun Count Cell => if bIsFloor Cell then Count + 1 else Count)
            (Cells Data) 0.

(** [UMazeGridData::GetWallCount]. *)
Definition GetWallCount (Data : UMazeGridData) : Z :=
  Z.of_nat (length (Cells Data)) - GetFloorCount Data.

End GridData.

(* --------------------------------------------------------------------- *)
(** ** MazeManager.cpp: baking, loading and the path target               *)
(* --------------------------------------------------------------------- *)

Module Manager.
Import Scalar.

(** The delegates of [AMazeManager]. *)
Inductive ManagerEvent : Type :=
| OnMazeReady
| OnPathUpdated (PathWorldPositions : list FVector)
| OnState (n : Discovery.Notification).

(** [PathMeshComponent], the instanced mesh of the path overlay: whether it
    is visible and the location of each instance, in the order added (all
    instances share one scale and no rotation). *)
Record UPathMesh : Type := mkPathMesh {
  bVisible : bool;
  Instances : list FVector
}.

(** The members of [AMazeManager] that loading and pathfinding use.  A
    pointer that may be null is an [option]; of [FloorMesh] only whether it
    is assigned matters here.  [ExitActor] and [KeyActor] hold the location
    of the actor in the local frame of the manager, that is after
    [GetActorTransform().InverseTransformPosition]. *)
Record AMazeManager : Type := mkManager {
  MazeGridData : option GridData.UMazeGridData;
  Pathfinder : option Pathfinder.UMazePathfinder;
  CachedCells : list FMazeCell;
  LoadedMazeSize : FIntPoint;
  LoadedCellSize : float;
  GameState : Discovery.FMazeGameState;
  CurrentPath : Pathfinder.FMazePathResult;
  PathCellSet : gset (Z * Z);
  ExitActor : option FVector;
  KeyActor : option FVector;
  FloorMesh : bool;
  PathMeshComponent : option UPathMesh
}.

Definition set_Pathfinder (pf : option Pathfinder.UMazePathfinder)
    (M : AMazeManager) : AMazeManager :=
  mkManager (MazeGridData M) pf (CachedCells M) (LoadedMazeSize M)
    (LoadedCellSize M) (GameState M) (CurrentPath M) (PathCellSet M)
    (ExitActor M) (KeyActor M) (FloorMesh M) (PathMeshComponent M).

Definition set_GameState (s : Discovery.FMazeGameState) (M : AMazeManager)
    : AMazeManager :=
  mkManager (MazeGridData M) (Pathfinder M) (CachedCells M) (LoadedMazeSize M)
    (LoadedCellSize M) s (CurrentPath M) (PathCellSet M)
    (ExitActor M) (KeyActor M) (FloorMesh M) (PathMeshComponent M).

Definition set_CurrentPath (Path : Pathfinder.FMazePathResult)
    (Cells : gset (Z * Z)) (M : AMazeManager) : AMazeManager :=
  mkManager (MazeGridData M) (Pathfinder M) (CachedCells M) (LoadedMazeSize M)
    (LoadedCellSize M) (GameState M) Path Cells
    (ExitActor M) (KeyActor M) (FloorMesh M) (PathMeshComponent M).

Definition set_PathMeshComponent (Mesh : option UPathMesh) (M : AMazeManager)
    : AMazeManager :=
  mkManager (MazeGridData M) (Pathfinder M) (CachedCells M) (LoadedMazeSize M)
    (LoadedCellSize M) (GameState M) (CurrentPath M) (PathCellSet M)
    (ExitActor M) (KeyActor M) (FloorMesh M) Mesh.

(** The pathfinder [NewObject<UMazePathfinder>] constructs. *)
Definition NewPathfinder : Pathfinder.UMazePathfinder :=
  Pathfinder.mkPathfinder [] (0, 0) (of_int binary32 200) false.

(** [AMazeManager::LoadMazeData] (setting the mesh and the material of the
    overlay changes neither its instances nor its visibility). *)
Definition LoadMazeData (M : AMazeManager) : AMazeManager * list ManagerEvent :=
  match MazeGridData M with
  | None => (M, [])
  | Some Data =>
      if negb (GridData.IsValid Data) then (M, [])
      else
        let Cells := GridData.Cells Data in
        let Size := (GridData.SizeX Data, GridData.SizeY Data) in
        let cs := GridData.CellSize Data in
        (mkManager (MazeGridData M)
           (match Pathfinder M with
            | Some _ => Some (Pathfinder.Initialize Cells Size cs)
            | None => None
            end)
           Cells Size cs Discovery.InitialState
           (CurrentPath M) (PathCellSet M) (ExitActor M) (KeyActor M)
           (FloorMesh M) (PathMeshComponent M),
         [OnMazeReady])
  end.

(** Running a member function of the discovery state machine on the
    manager. *)
Definition on_state (m : Discovery.Manager unit) (M : AMazeManager)
    : AMazeManager * list ManagerEvent :=
  let '(_, s, log) := m (GameState M) in
  (set_GameState s M, List.map OnState log).

(** [AMazeManager::BeginPlay]. *)
Definition BeginPlay (M : AMazeManager) : AMazeManager * list ManagerEvent :=
  let M := set_Pathfinder (Some NewPathfinder) M in
  let '(M, log1) := LoadMazeData M in
  match ExitActor M with
  | Some _ =>
      let '(M, log2) := on_state Discovery.UpdatePathfindingTarget M in
      (M, log1 ++ log2)
  | None => (M, log1)
  end.

Section WithVectorFormat.
Variable vfmt : format.

(** [AMazeManager::ActorToGridPosition]; there is no result when
    [FloorToInt] has none. *)
Definition ActorToGridPosition (M : AMazeManager) (Actor : option FVector)
    : option FIntPoint :=
  match Actor, Pathfinder M with
  | Some LocalPos, Some pf =>
      match Pathfinder.WorldToGrid vfmt pf LocalPos with
      | None => None
      | Some GridPos =>
          if negb (Pathfinder.IsValidCell pf GridPos)
          then Some (Pathfinder.FindNearestWalkableCell pf GridPos)
          else Some GridPos
      end
  | _, _ => Some (-1, -1)
  end.

(** [GetExitGridPosition], [GetKeyGridPosition] and
    [GetCurrentTargetGridPosition]. *)
Definition GetExitGridPosition (M : AMazeManager) : option FIntPoint :=
  ActorToGridPosition M (ExitActor M).

Definition GetKeyGridPosition (M : AMazeManager) : option FIntPoint :=
  ActorToGridPosition M (KeyActor M).

Definition GetCurrentTargetGridPosition (M : AMazeManager) : option FIntPoint :=
  match Discovery.CurrentTarget (GameState M) with
  | Discovery.Target_Exit => GetExitGridPosition M
  | Discovery.Target_Key => GetKeyGridPosition M
  | Discovery.Target_None => Some (-1, -1)
  end.

(** [AMazeManager::RecalculatePath]; [fuel] is for [FindPath], and there is
    no result when the fuel runs out or [FloorToInt] has none. *)
Definition RecalculatePath (fuel : nat) (M : AMazeManager)
    (FromWorldPosition : FVector) : option (AMazeManager * list ManagerEvent) :=
  match Pathfinder M with
  | None => Some (M, [])
  | Some pf =>
      match GetCurrentTargetGridPosition M with
      | None => None
      | Some TargetGrid =>
          if decide (TargetGrid = (-1, -1)) then Some (M, [])
          else
            match Pathfinder.FindPathFromWorld vfmt fuel pf FromWorldPosition
                    TargetGrid with
            | None => None
            | Some Path =>
                Some (set_CurrentPath Path
                        (list_to_set (Pathfinder.PathGridCoordinates Path)) M,
                      if Pathfinder.bSuccess Path
                      then [OnPathUpdated (Pathfinder.PathWorldPositions Path)]
                      else [])
            end
      end
  end.

(** A manager whose pathfinder was initialised by [LoadMazeData] from the
    data it caches. *)
Definition loaded (M : AMazeManager) (pf : Pathfinder.UMazePathfinder) : Prop :=
  Pathfinder M = Some pf /\
  pf = Pathfinder.Initialize (CachedCells M) (LoadedMazeSize M) (LoadedCellSize M) /\
  Pathfinder.bIsInitialized pf = true.

(** The location of the overlay instance of a cell: its world position
    raised to [PathZOffset = 1.0f]. *)
Definition overlay_location (Cell : FMazeCell) : FVector :=
  mkFVector (VX (WorldPosition Cell)) (VY (WorldPosition Cell))
            (convert vfmt (of_int binary32 1)).

(** The loop of [ApplyPathVisualization] over the path: an instance for
    each coordinate whose index lies in [CachedCells] at a floor cell. *)
Definition overlay_instances (M : AMazeManager) : list FVector :=
  flat_map
    (fun GridPos : FIntPoint =>
       let Index := snd GridPos * fst (LoadedMazeSize M) + fst GridPos in
       if (Index >=? 0) && (Index <? Z.of_nat (length (CachedCells M))) then
         match CachedCells M !! Z.to_nat Index with
         | Some Cell => if bIsFloor Cell then [overlay_location Cell] else []
         | None => []
         end
       else [])
    (Pathfinder.PathGridCoordinates (CurrentPath M)).

(** [AMazeManager::ApplyPathVisualization]. *)
Definition ApplyPathVisualization (M : AMazeManager) : AMazeManager :=
  if negb (Pathfinder.bSuccess (CurrentPath M)) ||
     (Z.of_nat (length (Pathfinder.PathGridCoordinates (CurrentPath M))) =? 0)
  then M
  else
    match PathMeshComponent M with
    | Some _ =>
        if FloorMesh M
        then set_PathMeshComponent
               (Some (mkPathMesh true (overlay_instances M))) M
        else M
    | None => M
    end.

(** [AMazeManager::ClearPathVisualization]. *)
Definition ClearPathVisualization (M : AMazeManager) : AMazeManager :=
  match PathMeshComponent M with
  | Some _ => set_PathMeshComponent (Some (mkPathMesh false [])) M
  | None => M
  end.

Definition set_bPathVisible (b : bool) (M : AMazeManager) : AMazeManager :=
  set_GameState
    (Discovery.mkGameState
       (Discovery.bExitDiscovered (GameState M)) (Discovery.bHasKey (GameState M))
       (Discovery.CurrentTarget (GameState M)) b
       (Discovery.bHollowMaskUnlocked (GameState M))
       (Discovery.bHollowMaskPermanentlyLocked (GameState M))) M.

(** [AMazeManager::ShowPath]; the argument is the player location in the
    local frame of the manager. *)
Definition ShowPath (fuel : nat) (M : AMazeManager) (LocalPlayerPos : FVector)
    : option (AMazeManager * list ManagerEvent) :=
  match Pathfinder M with
  | None => Some (M, [])
  | Some _ =>
      match RecalculatePath fuel M LocalPlayerPos with
      | None => None
      | Some (M, log) =>
          Some (set_bPathVisible true (ApplyPathVisualization M), log)
      end
  end.

(** [AMazeManager::HidePath]. *)
Definition HidePath (M : AMazeManager) : AMazeManager :=
  set_bPathVisible false (ClearPathVisualization M).

(** [AMazeManager::TogglePath]. *)
Definition TogglePath (fuel : nat) (M : AMazeManager) (LocalPlayerPos : FVector)
    : option (AMazeManager * list ManagerEvent) :=
  if Discovery.bPathVisible (GameState M) then Some (HidePath M, [])
  else ShowPath fuel M LocalPlayerPos.

End WithVectorFormat.

(** The grid positions [BakeMazeToLevel] gives [SpawnBorderWall], in the
    order of its four loops (for a width below the largest int32: the
    counter of the row loops runs to [SizeX + 1]). *)
Definition border_walls (SizeX SizeY : Z) : list FIntPoint :=
  List.map (fun X => (X, -1)) (range (-1) SizeX) ++
  List.map (fun X => (X, SizeY)) (range (-1) SizeX) ++
  List.map (fun Y => (-1, Y)) (range 0 (SizeY - 1)) ++
  List.map (fun Y => (SizeX, Y)) (range 0 (SizeY - 1)).

Section WithRandom.
Context {R : Type} {RS : RandomStream R}.
Variable vfmt : format.

(** The data asset [BakeMazeToLevel] populates from its configuration (the
    editor build, with both meshes and a world). *)
Definition BakedGridData (fuel : nat) (GenerationConfig : FMazeGenerationConfig)
    : outcome GridData.UMazeGridData :=
  Cells ← Generator.GenerateMaze vfmt fuel GenerationConfig;
  Ok (GridData.mkGridData (SizeX GenerationConfig) (SizeY GenerationConfig)
        (CellSize GenerationConfig) (WallHeight GenerationConfig)
        (Seed GenerationConfig) (Algorithm GenerationConfig) Cells).

End WithRandom.

End Manager.

(* --------------------------------------------------------------------- *)
(** ** Passages of the directions grid and the cells they open            *)
(* --------------------------------------------------------------------- *)

Module Passages.
Import Generator Rooms Floor.

(** Every direction bit of the grid belongs to a passage: it sits on a room
    of the grid, points to a room of the grid, and that room carries the
    opposite bit. *)
Definition two_sided (W H : Z) (Grid : list (list Z)) : Prop :=
  forall c d, is_direction d -> has_dir (cell Grid c) d = true ->
    in_grid W H c /\ in_grid W H (step c d) /\
    has_dir (cell Grid (step c d)) (GetOppositeDirection d) = true.

(** A cell of the floor/wall grid that [DirectionsToFloorWallGrid] may set:
    the cell of a room, or the cell next to a room on the side of one of its
    direction bits. *)
Definition carved_cell (DW DH : Z) (g : list (list Z)) (p : FIntPoint) : Prop :=
  exists r, in_grid DW DH r /\
    (p = room_cell r \/
     exists d, is_direction d /\ has_dir (cell g r) d = true /\
               p = passage_cell r d).

(** Every cell of [F] is 0, or 1 at a cell that may be set. *)
Definition floor_only (DW DH : Z) (g F : list (list Z)) : Prop :=
  forall p, cell F p = 0 \/ (cell F p = 1 /\ carved_cell DW DH g p).

(** The cell between the rooms of a passage. *)
Definition passage_between (p : FIntPoint * EMazeDirection) : FIntPoint :=
  passage_cell (fst p) (snd p).

(** The cells [DirectionsToFloorWallGrid] opens: the cell of every room and
    the cell of every passage. *)
Definition opened_cells (DW DH : Z) (g : list (list Z)) : list FIntPoint :=
  List.map room_cell (coordinates DW DH) ++
  List.map passage_between
    (List.filter (fun p => passage_open g (fst p) (snd p)) (room_passages DW DH)).

End Passages.

(* --------------------------------------------------------------------- *)
(** ** Small concrete grids used in examples                              *)
(* --------------------------------------------------------------------- *)

Definition demo_cell (x y : Z) (floor : bool) : FMazeCell :=
  FMazeCell_make (x, y) (Scalar.mkFVector (S754_zero false) (S754_zero false)
                                          (S754_zero false)) floor.

(** A 3 x 3 grid, all floor, with cells of 200 units. *)
Definition demo_open_3x3 : Pathfinder.UMazePathfinder :=
  Pathfinder.Initialize
    (flat_map (fun y => List.map (fun x => demo_cell x y true) [0; 1; 2]) [0; 1; 2])
    (3, 3) (Scalar.of_int Scalar.binary32 200).

(** A configuration with cells of 200 units and walls of 300. *)
Definition demo_config (Algorithm : EMazeGenerationAlgorithm) (W H : Z)
    : FMazeGenerationConfig :=
  mkConfig 12345 W H Algorithm (Scalar.of_int Scalar.binary32 200)
           (Scalar.of_int Scalar.binary32 300).

(* --------------------------------------------------------------------- *)
(** ** A small manager used in examples                                   *)
(* --------------------------------------------------------------------- *)

(** The centre of cell (0,0) of [demo_open_3x3]. *)
Definition demo_player : Scalar.FVector :=
  Scalar.mkFVector (Scalar.of_int Scalar.binary32 100)
                   (Scalar.of_int Scalar.binary32 100) (S754_zero false).

(** A point of cell (2,2) of [demo_open_3x3]. *)
Definition demo_exit : Scalar.FVector :=
  Scalar.mkFVector (Scalar.of_int Scalar.binary32 500)
                   (Scalar.of_int Scalar.binary32 450) (S754_zero false).

(** A manager loaded with the cells of [demo_open_3x3], with an exit
    actor, a floor mesh and a hidden, empty overlay. *)
Definition demo_manager : Manager.AMazeManager :=
  Manager.mkManager None (Some demo_open_3x3)
    (Pathfinder.CachedCells demo_open_3x3) (3, 3)
    (Scalar.of_int Scalar.binary32 200)
    Discovery.InitialState Pathfinder.FailedResult ∅
    (Some demo_exit) None true (Some (Manager.mkPathMesh false [])).

(* ===================================================================== *)
(** * Part II.  Theorems                                                  *)
(* ===================================================================== *)

(* --------------------------------------------------------------------- *)
(** ** The discovery state machine                                        *)
(* --------------------------------------------------------------------- *)

Section DiscoveryFacts.
Import Discovery.

Ltac run_manager :=
  unfold deliver, NotifyExitDiscovered, NotifyKeyCollected,
    UpdateHollowMaskState, UpdatePathfindingTarget, bind, get, put, modify,
    Broadcast, ret, state_of, fired, IsHollowMaskAvailable; simpl.

Ltac split_state s :=
  destruct s as [ex key tg vis unl lck]; simpl in *.

Lemma deliver_keeps_lock e s :
  bHollowMaskPermanentlyLocked s = true ->
  bHollowMaskPermanentlyLocked (state_of (deliver e s)) = true.
Proof.
  split_state s. intros ->.
  destruct e, ex, key, tg, unl; reflexivity.
Qed.

(** C3.  One-way latch: from a state whose [bHollowMaskPermanentlyLocked] is
    set, whatever events follow, the flag stays set and
    [IsHollowMaskAvailable] answers false. *)
Theorem permanent_lock_is_latched :
  forall (s : FMazeGameState) (es : list Event),
    bHollowMaskPermanentlyLocked s = true ->
    bHollowMaskPermanentlyLocked (run es s) = true /\
    IsHollowMaskAvailable (run es s) = false.
Proof.
  intros s es; revert s.
  induction es as [|e es IH]; intros s Hs; simpl.
  - unfold IsHollowMaskAvailable. rewrite Hs, andb_false_r. auto.
  - apply IH, deliver_keeps_lock, Hs.
Qed.

Lemma permanent_lock_is_latched_witness :
  let s := state_of (NotifyKeyCollected InitialState) in
  let es := [ExitFound; KeyFound; ExitFound] in
  bHollowMaskPermanentlyLocked s = true /\
  bHollowMaskPermanentlyLocked (run es s) = true /\
  IsHollowMaskAvailable (run es s) = false.
Proof.
  split; [reflexivity|].
  apply (permanent_lock_is_latched
           (state_of (NotifyKeyCollected InitialState))
           [ExitFound; KeyFound; ExitFound]).
  reflexivity.
Defined.

(** C9.  The two events are idempotent: with the flag already set the call
    changes nothing and broadcasts nothing, so a second call in a row leaves
    the state of the first and fires no notification. *)
Theorem notify_events_idempotent :
  (forall s, bExitDiscovered s = true -> NotifyExitDiscovered s = (tt, s, [])) /\
  (forall s, bHasKey s = true -> NotifyKeyCollected s = (tt, s, [])) /\
  (forall s, let s1 := state_of (NotifyExitDiscovered s) in
             NotifyExitDiscovered s1 = (tt, s1, [])) /\
  (forall s, let s1 := state_of (NotifyKeyCollected s) in
             NotifyKeyCollected s1 = (tt, s1, [])).
Proof.
  repeat split.
  - intros s H. split_state s. subst. reflexivity.
  - intros s H. split_state s. subst. reflexivity.
  - intros s. split_state s. destruct ex, key, tg, unl, lck; reflexivity.
  - intros s. split_state s. destruct ex, key, tg, unl, lck; reflexivity.
Qed.

Lemma notify_events_idempotent_witness :
  let s := state_of (NotifyExitDiscovered InitialState) in
  bExitDiscovered s = true /\ NotifyExitDiscovered s = (tt, s, []).
Proof.
  split; [reflexivity|].
  apply (proj1 notify_events_idempotent
           (state_of (NotifyExitDiscovered InitialState))).
  reflexivity.
Defined.

Lemma reachable_unlock_excludes_lock s :
  reachable s ->
  (bHollowMaskUnlocked s = true -> bExitDiscovered s = true) /\
  (bHollowMaskUnlocked s && bHollowMaskPermanentlyLocked s = false).
Proof.
  induction 1 as [|s e _ [IH1 IH2]].
  - split; [discriminate | reflexivity].
  - split_state s.
    destruct e, ex, key, tg, unl, lck; simpl in *; split; auto; try discriminate;
      try (exfalso; now (discriminate IH2 || (specialize (IH1 eq_refl); discriminate))).
Qed.

(** C10.  In every state reachable from the initial one the Hollow Mask is
    never both unlocked and permanently locked, hence
    [IsHollowMaskAvailable] is exactly [bHollowMaskUnlocked]. *)
Theorem unlocked_and_locked_exclusive :
  forall s : FMazeGameState,
    reachable s ->
    ~ (bHollowMaskUnlocked s = true /\ bHollowMaskPermanentlyLocked s = true) /\
    IsHollowMaskAvailable s = bHollowMaskUnlocked s.
Proof.
  intros s Hs. destruct (reachable_unlock_excludes_lock s Hs) as [_ H].
  unfold IsHollowMaskAvailable.
  destruct (bHollowMaskUnlocked s), (bHollowMaskPermanentlyLocked s);
    simpl in *; try discriminate; split; auto; intros [? ?]; discriminate.
Qed.

Lemma unlocked_and_locked_exclusive_witness :
  let s := run [ExitFound; KeyFound] InitialState in
  reachable s /\
  ~ (bHollowMaskUnlocked s = true /\ bHollowMaskPermanentlyLocked s = true) /\
  IsHollowMaskAvailable s = bHollowMaskUnlocked s.
Proof.
  assert (R : reachable (run [ExitFound; KeyFound] InitialState)).
  { exact (reachable_step _ KeyFound
             (reachable_step _ ExitFound reachable_init)). }
  split; [exact R|].
  apply (unlocked_and_locked_exclusive _ R).
Defined.

End DiscoveryFacts.

(* --------------------------------------------------------------------- *)
(** ** The pathfinder: failure results                                    *)
(* --------------------------------------------------------------------- *)

Section PathfinderFailures.
Import Scalar Pathfinder.
Variable vfmt : format.

(** C7.  A pathfinder initialised with a cell array whose length is not
    width times height is not ready and answers every [FindPath] query, for
    any fuel, with the failed result; and every result of [FindPath] whose
    [bSuccess] is false has empty coordinate and world-position sequences
    (and [PathLength] zero). *)
Theorem findpath_failure_results :
  (forall (InCells : list FMazeCell) (InMazeSize : FIntPoint) (InCellSize : float),
      Z.of_nat (length InCells) <> fst InMazeSize * snd InMazeSize ->
      let pf := Initialize InCells InMazeSize InCellSize in
      bIsInitialized pf = false /\
      forall fuel Start End, FindPath vfmt fuel pf Start End = Some FailedResult) /\
  (forall fuel pf Start End r,
      FindPath vfmt fuel pf Start End = Some r ->
      bSuccess r = false ->
      PathGridCoordinates r = [] /\ PathWorldPositions r = [] /\ PathLength r = 0).
Proof.
  split.
  - intros InCells InMazeSize InCellSize Hne pf.
    assert (Hinit : bIsInitialized pf = false).
    { subst pf. unfold Initialize. simpl. apply Z.eqb_neq, Hne. }
    split; [exact Hinit|].
    intros fuel Start End. unfold FindPath. rewrite Hinit. reflexivity.
  - intros fuel pf Start End r Hr Hfail. unfold FindPath in Hr.
    repeat match type of Hr with
           | context [if ?b then _ else _] => destruct b
           | context [match ?x with _ => _ end] => destruct x
           end;
      inversion Hr; subst r; simpl in *; try discriminate; auto.
Qed.

End PathfinderFailures.

Lemma findpath_failure_results_witness :
  let cells := [demo_cell 0 0 true; demo_cell 1 0 true; demo_cell 2 0 true] in
  let pf := Pathfinder.Initialize cells (2, 2) (Scalar.of_int Scalar.binary32 200) in
  Z.of_nat (length cells) <> 2 * 2 /\
  Pathfinder.bIsInitialized pf = false /\
  forall fuel Start End,
    Pathfinder.FindPath Scalar.binary64 fuel pf Start End
    = Some Pathfinder.FailedResult.
Proof.
  split; [discriminate|].
  apply (proj1 (findpath_failure_results Scalar.binary64)
           [demo_cell 0 0 true; demo_cell 1 0 true; demo_cell 2 0 true]
           (2, 2) (Scalar.of_int Scalar.binary32 200)).
  discriminate.
Defined.

(* --------------------------------------------------------------------- *)
(** ** The pathfinder: nearest walkable cell                              *)
(* --------------------------------------------------------------------- *)

Section NearestWalkable.
Import Scalar Pathfinder.

Lemma in_range lo hi i : In i (range lo hi) <-> lo <= i <= hi.
Proof.
  unfold range. rewrite in_map_iff. split.
  - intros (k & <- & Hk). apply in_seq in Hk. lia.
  - intros H. exists (Z.to_nat (i - lo)). split; [lia|].
    apply in_seq. lia.
Qed.

Lemma range_cons lo hi : lo <= hi -> range lo hi = lo :: range (lo + 1) hi.
Proof.
  intros H. unfold range.
  replace (Z.to_nat (hi - lo + 1)) with (S (Z.to_nat (hi - (lo + 1) + 1))) by lia.
  cbn [seq List.map]. f_equal; [lia|].
  rewrite <- seq_shift, List.map_map. apply List.map_ext. intros; lia.
Qed.

Lemma range_nil lo hi : hi < lo -> range lo hi = [].
Proof.
  intros H. unfold range. replace (Z.to_nat (hi - lo + 1)) with O by lia.
  reflexivity.
Qed.

Lemma first_return_ext {A B} (f g : A -> option B) l :
  (forall a, f a = g a) -> first_return f l = first_return g l.
Proof. intros E. induction l as [|a l IH]; simpl; [|rewrite E, IH]; reflexivity. Qed.

Lemma first_return_app {A B} (f : A -> option B) l1 l2 :
  first_return f (l1 ++ l2) =
  match first_return f l1 with Some b => Some b | None => first_return f l2 end.
Proof.
  induction l1 as [|a l1 IH]; simpl; [reflexivity|].
  destruct (f a); [reflexivity | exact IH].
Qed.

Lemma first_return_flat_map {A B C} (f : A -> list B) (body : B -> option C) l :
  first_return (fun a => first_return body (f a)) l =
  first_return body (flat_map f l).
Proof.
  induction l as [|a l IH]; simpl; [reflexivity|].
  rewrite first_return_app, IH. reflexivity.
Qed.

Lemma first_return_find {A} (P : A -> bool) l :
  first_return (fun a => if P a then Some a else None) l = List.find P l.
Proof.
  induction l as [|a l IH]; simpl; [reflexivity|].
  destruct (P a); [reflexivity | exact IH].
Qed.

(** The three nested loops test the cells of [scan_order], in that order. *)
Lemma FindNearestWalkableCell_scan pf o :
  FindNearestWalkableCell pf o =
  match List.find (IsValidCell pf) (scan_order pf o) with
  | Some c => c
  | None => (-1, -1)
  end.
Proof.
  unfold FindNearestWalkableCell, scan_order.
  rewrite <- first_return_find, <- first_return_flat_map.
  erewrite first_return_ext; [reflexivity|].
  intros R. unfold ring. simpl.
  rewrite <- first_return_flat_map. apply first_return_ext. intros DX.
  rewrite <- first_return_flat_map. apply first_return_ext. intros DY.
  destruct (negb (Z.abs DX =? R) && negb (Z.abs DY =? R)); simpl; [reflexivity|].
  destruct (IsValidCell pf _); reflexivity.
Qed.

Lemma in_ring o R c : In c (ring o R) <-> chebyshev o c = R.
Proof.
  unfold ring, chebyshev. rewrite in_flat_map. split.
  - intros (DX & HDX & H). apply in_flat_map in H as (DY & HDY & H).
    apply in_range in HDX, HDY.
    destruct (Z.abs DX =? R) eqn:EX, (Z.abs DY =? R) eqn:EY; simpl in H;
      try contradiction; destruct H as [<-|[]]; simpl;
      rewrite ?Z.eqb_eq in *; lia.
  - intros H. destruct c as [cx cy], o as [ox oy]; simpl in *.
    exists (cx - ox). split; [apply in_range; lia|].
    apply in_flat_map. exists (cy - oy). split; [apply in_range; lia|].
    destruct (Z.abs (cx - ox) =? R) eqn:EX, (Z.abs (cy - oy) =? R) eqn:EY; simpl;
      rewrite ?Z.eqb_neq in *; try (left; f_equal; lia).
    exfalso. lia.
Qed.

Lemma in_scan_order pf o c :
  In c (scan_order pf o) <->
  chebyshev o c <= Z.max (fst (MazeSize pf)) (snd (MazeSize pf)).
Proof.
  unfold scan_order. rewrite in_flat_map. split.
  - intros (R & HR & H). apply in_range in HR. apply in_ring in H. lia.
  - intros H. exists (chebyshev o c). split; [|apply in_ring; reflexivity].
    apply in_range. unfold chebyshev in *. lia.
Qed.

Lemma IsValidCell_bounds pf c :
  IsValidCell pf c = true ->
  0 <= fst c < fst (MazeSize pf) /\ 0 <= snd c < snd (MazeSize pf).
Proof.
  unfold IsValidCell.
  destruct (fst c <? 0) eqn:E1, (fst c >=? fst (MazeSize pf)) eqn:E2,
           (snd c <? 0) eqn:E3, (snd c >=? snd (MazeSize pf)) eqn:E4;
    simpl; try discriminate. intros _. lia.
Qed.

(** Rings are tested by increasing radius: the cell found is nearest. *)
Lemma find_rings_nearest (P : FIntPoint -> bool) o n lo c :
  List.find P (flat_map (ring o) (List.map (fun i => lo + Z.of_nat i) (seq 0 n))) = Some c ->
  forall c', P c' = true -> lo <= chebyshev o c' < lo + Z.of_nat n ->
             chebyshev o c <= chebyshev o c'.
Proof.
  revert lo. induction n as [|n IH]; intros lo Hf c' Hc' Hb; [lia|].
  cbn [seq List.map flat_map] in Hf.
  rewrite <- first_return_find, first_return_app, !first_return_find in Hf.
  destruct (List.find P (ring o (lo + Z.of_nat 0))) as [c0|] eqn:E0.
  - injection Hf as ->. apply List.find_some in E0 as [E0 _].
    apply in_ring in E0. lia.
  - assert (chebyshev o c' <> lo).
    { intros E. eapply List.find_none in E0; [|apply in_ring; rewrite E; f_equal; lia].
      congruence. }
    rewrite <- seq_shift, List.map_map in Hf.
    apply (IH (lo + 1)); [|exact Hc'|lia].
    erewrite List.map_ext; [exact Hf|]. intros; simpl; lia.
Qed.

(** C6 (amended).  [FindNearestWalkableCell] tests the rings of radius
    0, 1, ..., max(width, height) around the position, each ring being the
    cells at Chebyshev distance exactly the radius, and returns the first
    walkable cell it meets, which is a walkable cell nearest to the position;
    it returns (-1,-1) exactly when no walkable cell lies within distance
    max(width, height) of the position, which for a position inside the grid
    means that the grid has no walkable cell. *)
Theorem nearest_walkable_ring_search :
  forall (pf : UMazePathfinder) (o : FIntPoint),
    let MaxRadius := Z.max (fst (MazeSize pf)) (snd (MazeSize pf)) in
    let r := FindNearestWalkableCell pf o in
    (r = match List.find (IsValidCell pf) (scan_order pf o) with
         | Some c => c
         | None => (-1, -1)
         end) /\
    (forall R c, In c (ring o R) <-> chebyshev o c = R) /\
    (r <> (-1, -1) ->
       IsValidCell pf r = true /\
       forall c, IsValidCell pf c = true -> chebyshev o r <= chebyshev o c) /\
    (r = (-1, -1) <->
       forall c, IsValidCell pf c = true -> MaxRadius < chebyshev o c) /\
    (0 <= fst o < fst (MazeSize pf) -> 0 <= snd o < snd (MazeSize pf) ->
       (r = (-1, -1) <-> forall c, IsValidCell pf c = false)).
Proof.
  intros pf o MaxRadius r.
  assert (Hscan := FindNearestWalkableCell_scan pf o). fold r in Hscan.
  assert (Hsent : r = (-1, -1) <->
            forall c, IsValidCell pf c = true -> MaxRadius < chebyshev o c).
  { rewrite Hscan. destruct (List.find _ _) as [c|] eqn:E.
    - apply List.find_some in E as [Hin Hc]. split.
      + intros ->. apply IsValidCell_bounds in Hc. simpl in Hc. lia.
      + intros H. specialize (H c Hc). apply in_scan_order in Hin.
        fold MaxRadius in Hin. lia.
    - split; [|reflexivity]. intros _ c Hc.
      destruct (Z_lt_le_dec MaxRadius (chebyshev o c)) as [|Hle]; [assumption|].
      apply in_scan_order in Hle. eapply List.find_none in E; [|exact Hle].
      congruence. }
  split; [exact Hscan|]. split; [intros; apply in_ring|].
  split; [|split; [exact Hsent|]].
  - intros Hne. rewrite Hscan in *.
    destruct (List.find _ _) as [c|] eqn:E; [|congruence].
    split; [apply List.find_some in E; tauto|].
    intros c' Hc'.
    destruct (Z_lt_le_dec MaxRadius (chebyshev o c')) as [Hgt|Hle].
    + apply List.find_some in E as [Hin _]. apply in_scan_order in Hin.
      fold MaxRadius in Hin. lia.
    + unfold scan_order, range in E.
      eapply (find_rings_nearest _ o _ 0 c E c' Hc').
      fold MaxRadius. unfold chebyshev in *. lia.
  - intros Hx Hy. rewrite Hsent. split.
    + intros H c. destruct (IsValidCell pf c) eqn:Hc; [|reflexivity].
      specialize (H c Hc). apply IsValidCell_bounds in Hc.
      unfold chebyshev, MaxRadius in H. lia.
    + intros H c Hc. rewrite H in Hc. discriminate.
Qed.

End NearestWalkable.

Lemma nearest_walkable_ring_search_witness :
  let pf := demo_open_3x3 in
  let r := Pathfinder.FindNearestWalkableCell pf (1, 1) in
  r <> (-1, -1) /\
  Pathfinder.IsValidCell pf r = true /\
  (forall c, Pathfinder.IsValidCell pf c = true ->
             Pathfinder.chebyshev (1, 1) r <= Pathfinder.chebyshev (1, 1) c) /\
  (r = (-1, -1) <-> forall c, Pathfinder.IsValidCell pf c = false).
Proof.
  destruct (nearest_walkable_ring_search demo_open_3x3 (1, 1))
    as (_ & _ & Hnear & _ & Hin).
  assert (Hne : Pathfinder.FindNearestWalkableCell demo_open_3x3 (1, 1) <> (-1, -1))
    by (vm_compute; discriminate).
  split; [exact Hne|].
  split; [apply (Hnear Hne)|].
  split; [apply (Hnear Hne)|].
  apply Hin; simpl; lia.
Defined.

(** C6, as stated, fails for a position far outside the grid: from (7,1),
    four columns to the right of a 3 x 3 grid of floor cells, the search stops
    at radius 3 and returns (-1,-1) although the grid has walkable cells. *)
Lemma nearest_walkable_far_origin_counterexample :
  ~ (Pathfinder.FindNearestWalkableCell demo_open_3x3 (7, 1) = (-1, -1) <->
     forall c, Pathfinder.IsValidCell demo_open_3x3 c = false).
Proof.
  intros [H _].
  assert (E : Pathfinder.FindNearestWalkableCell demo_open_3x3 (7, 1) = (-1, -1))
    by (vm_compute; reflexivity).
  specialize (H E (2, 1)). vm_compute in H. discriminate.
Qed.

(* --------------------------------------------------------------------- *)
(** ** Floating-point rounding: values and error bounds                   *)
(* --------------------------------------------------------------------- *)

Section Powers.
Import FloatValue.

Lemma bpow_pos e : (0 < bpow e)%R.
Proof. apply powerRZ_lt. lra. Qed.

Lemma bpow_add a b : bpow (a + b) = (bpow a * bpow b)%R.
Proof. apply powerRZ_add. lra. Qed.

Lemma bpow_IZR n : 0 <= n -> IZR (2 ^ n) = bpow n.
Proof.
  intros Hn. unfold bpow. destruct n as [|p|p]; [reflexivity| |lia].
  rewrite <- Zpower_pos_powerRZ. reflexivity.
Qed.

Lemma bpow_le a b : a <= b -> (bpow a <= bpow b)%R.
Proof.
  intros H. replace b with (a + (b - a)) by lia. rewrite bpow_add.
  pose proof (bpow_pos a).
  assert (1 <= bpow (b - a))%R; [|nra].
  rewrite <- bpow_IZR by lia. apply IZR_le.
  pose proof (Z.pow_pos_nonneg 2 (b - a)). lia.
Qed.

Lemma bpow_lt a b : a < b -> (bpow a < bpow b)%R.
Proof.
  intros H. replace b with (a + (b - a)) by lia. rewrite bpow_add.
  pose proof (bpow_pos a).
  assert (1 < bpow (b - a))%R; [|nra].
  replace (b - a) with (1 + (b - a - 1)) by lia. rewrite bpow_add.
  assert (bpow 0 <= bpow (b - a - 1))%R by (apply bpow_le; lia).
  unfold bpow in *. simpl in *. lra.
Qed.

Lemma bpow_lt_inv a b : (bpow a < bpow b)%R -> a < b.
Proof.
  intros H. destruct (Z_lt_le_dec a b) as [|Hle]; [assumption|].
  apply bpow_le in Hle. lra.
Qed.

Lemma bpow_0 : bpow 0 = 1%R.
Proof. reflexivity. Qed.

Lemma F2R_shift m e k : 0 <= k -> F2R (m * 2 ^ k) e = F2R m (e + k).
Proof.
  intros Hk. unfold F2R. rewrite mult_IZR, bpow_IZR, bpow_add by exact Hk. ring.
Qed.

Lemma F2R_le m m' e : m <= m' -> (F2R m e <= F2R m' e)%R.
Proof.
  intros H. unfold F2R. apply Rmult_le_compat_r; [apply Rlt_le, bpow_pos|].
  apply IZR_le, H.
Qed.

Lemma F2R_lt m m' e : m < m' -> (F2R m e < F2R m' e)%R.
Proof.
  intros H. unfold F2R. apply Rmult_lt_compat_r; [apply bpow_pos|].
  apply IZR_lt, H.
Qed.

(** The number of binary digits brackets the mantissa. *)
Lemma digits2_pos_bounds p :
  2 ^ (Zpos (digits2_pos p) - 1) <= Zpos p < 2 ^ Zpos (digits2_pos p).
Proof.
  induction p as [p IH|p IH|]; cbn [digits2_pos].
  - rewrite Pos2Z.inj_succ.
    replace (Z.succ (Z.pos (digits2_pos p)) - 1) with (Z.succ (Z.pos (digits2_pos p) - 1)) by lia.
    rewrite !Z.pow_succ_r by lia. lia.
  - rewrite Pos2Z.inj_succ.
    replace (Z.succ (Z.pos (digits2_pos p)) - 1) with (Z.succ (Z.pos (digits2_pos p) - 1)) by lia.
    rewrite !Z.pow_succ_r by lia. lia.
  - simpl. lia.
Qed.

Lemma Zdigits2_bounds m :
  0 < m -> 2 ^ (Zdigits2 m - 1) <= m < 2 ^ Zdigits2 m.
Proof. destruct m as [|p|p]; try lia. intros _. apply digits2_pos_bounds. Qed.

Lemma Zdigits2_pos m : 0 < m -> 0 < Zdigits2 m.
Proof. destruct m; simpl; lia. Qed.

Lemma Zdigits2_unique m k : 2 ^ (k - 1) <= m < 2 ^ k -> 0 < m -> Zdigits2 m = k.
Proof.
  intros Hk Hm. pose proof (Zdigits2_bounds m Hm) as Hd.
  pose proof (Zdigits2_pos m Hm) as Hdp.
  assert (0 < k).
  { destruct (Z_lt_le_dec 0 k); [assumption|].
    assert (2 ^ k <= 1); [|lia].
    destruct (Z.eq_dec k 0) as [->|]; [simpl; lia|].
    rewrite Z.pow_neg_r by lia. lia. }
  assert (Zdigits2 m - 1 < k).
  { apply (Z.pow_lt_mono_r_iff 2); lia. }
  assert (k - 1 < Zdigits2 m).
  { apply (Z.pow_lt_mono_r_iff 2); lia. }
  lia.
Qed.

(** The value of a positive float lies in the binade of its digits. *)
Lemma F2R_binade m e :
  0 < m -> (bpow (Zdigits2 m + e - 1) <= F2R m e < bpow (Zdigits2 m + e))%R.
Proof.
  intros Hm. pose proof (Zdigits2_bounds m Hm) as [H1 H2].
  pose proof (Zdigits2_pos m Hm) as Hd.
  replace (Zdigits2 m + e - 1) with ((Zdigits2 m - 1) + e) by lia.
  rewrite !bpow_add.
  rewrite <- (bpow_IZR (Zdigits2 m - 1)), <- (bpow_IZR (Zdigits2 m)) by lia.
  unfold F2R.
  pose proof (bpow_pos e). apply IZR_le in H1. apply IZR_lt in H2. split.
  - apply Rmult_le_compat_r; [lra | exact H1].
  - apply Rmult_lt_compat_r; assumption.
Qed.

Lemma binade_bounds m e a b :
  0 < m -> (bpow a <= F2R m e)%R -> (F2R m e < bpow b)%R ->
  a + 1 <= Zdigits2 m + e <= b.
Proof.
  intros Hm Ha Hb. pose proof (F2R_binade m e Hm) as [H1 H2]. split.
  - assert (a < Zdigits2 m + e); [|lia]. apply bpow_lt_inv. lra.
  - assert (Zdigits2 m + e - 1 < b); [|lia]. apply bpow_lt_inv. lra.
Qed.

End Powers.

Section RoundingSpec.
Import FloatValue.
Variables prec emax : Z.
Hypothesis Hprec : 0 < prec.

Lemma shr_1_m mrs : 0 <= shr_m mrs -> shr_m (shr_1 mrs) = shr_m mrs / 2.
Proof.
  destruct mrs as [m r s]. cbn [shr_m shr_1]. intros Hm.
  destruct m as [|[p|p|]|p]; cbn [shr_m].
  - reflexivity.
  - apply (Z.div_unique _ 2 _ 1); lia.
  - apply (Z.div_unique _ 2 _ 0); lia.
  - reflexivity.
  - lia.
Qed.

Lemma shr_iter_m p : forall mrs,
  0 <= shr_m mrs ->
  shr_m (SpecFloat.iter_pos shr_1 p mrs) = shr_m mrs / 2 ^ Zpos p.
Proof.
  induction p as [p IH|p IH|]; intros mrs Hm; cbn [SpecFloat.iter_pos].
  - assert (H1 : 0 <= shr_m (shr_1 mrs)).
    { rewrite shr_1_m by exact Hm. apply Z.div_pos; lia. }
    assert (H2 : 0 <= shr_m (SpecFloat.iter_pos shr_1 p (shr_1 mrs))).
    { rewrite IH by exact H1. apply Z.div_pos; [exact H1|]. apply Z.pow_pos_nonneg; lia. }
    rewrite IH by exact H2. rewrite IH by exact H1. rewrite shr_1_m by exact Hm.
    rewrite !Z.div_div by (try apply Z.pow_pos_nonneg; lia).
    f_equal. change 2 with (2 ^ 1) at 1. rewrite <- !Z.pow_add_r by lia.
    f_equal. lia.
  - assert (H2 : 0 <= shr_m (SpecFloat.iter_pos shr_1 p mrs)).
    { rewrite IH by exact Hm. apply Z.div_pos; [exact Hm|]. apply Z.pow_pos_nonneg; lia. }
    rewrite IH by exact H2. rewrite IH by exact Hm.
    rewrite !Z.div_div by (try apply Z.pow_pos_nonneg; lia).
    f_equal. rewrite <- !Z.pow_add_r by lia. f_equal. lia.
  - rewrite shr_1_m by exact Hm. reflexivity.
Qed.

Lemma shr_record_of_loc_m m l : shr_m (shr_record_of_loc m l) = m.
Proof. destruct l as [|[]]; reflexivity. Qed.

Lemma loc_of_shr_record_of_loc m l : loc_of_shr_record (shr_record_of_loc m l) = l.
Proof. destruct l as [|[]]; reflexivity. Qed.

Lemma round_nearest_even_cases m l :
  (round_nearest_even m l = m \/ round_nearest_even m l = m + 1) /\
  (l = loc_Exact -> round_nearest_even m l = m).
Proof.
  destruct l as [|[]]; simpl; auto; split; auto; try discriminate.
  destruct (Z.even m); auto.
Qed.

(** The second half of [binary_round_aux]: rounding a mantissa of [prec]
    digits and renormalising. *)
Lemma round_finish sx m' e' l' (v : R) :
  2 ^ (prec - 1) <= m' < 2 ^ prec ->
  emin prec emax <= e' -> e' + 1 <= emax - prec ->
  (F2R m' e' <= v < F2R (m' + 1) e')%R ->
  exists m e,
    (let '(mrs'', e'') :=
       shr_fexp prec emax (round_nearest_even m' l') e' loc_Exact in
     match shr_m mrs'' with
     | Z0 => S754_zero sx
     | Zpos m => if Z.leb e'' (emax - prec) then S754_finite sx m e''
                 else S754_infinity sx
     | _ => S754_nan
     end) = S754_finite sx m e /\
    2 ^ (prec - 1) <= Zpos m < 2 ^ prec /\
    (Rabs (F2R (Zpos m) e - v) <= bpow (1 - prec) * v)%R /\
    (l' = loc_Exact -> v = F2R m' e' -> F2R (Zpos m) e = v).
Proof.
  intros Hm' Hemin Hemax Hv.
  assert (Hpow : 0 < 2 ^ (prec - 1)) by (apply Z.pow_pos_nonneg; lia).
  assert (Hpow2 : 2 ^ prec = 2 * 2 ^ (prec - 1)).
  { replace prec with (1 + (prec - 1)) at 1 by lia. rewrite Z.pow_add_r by lia.
    reflexivity. }
  destruct (round_nearest_even_cases m' l') as [Hcases Hexact].
  set (m'' := round_nearest_even m' l') in *.
  assert (Hulp : (bpow e' <= bpow (1 - prec) * v)%R).
  { assert (H1 : (bpow (prec - 1 + e') <= F2R m' e')%R).
    { rewrite bpow_add, <- bpow_IZR by lia. unfold F2R.
      apply Rmult_le_compat_r; [apply Rlt_le, bpow_pos|]. apply IZR_le. lia. }
    replace e' with ((1 - prec) + (prec - 1 + e')) at 1 by lia.
    rewrite bpow_add. pose proof (bpow_pos (1 - prec)).
    apply Rmult_le_compat_l; lra. }
  assert (Herr : (Rabs (F2R m'' e' - v) <= bpow e')%R).
  { assert (Hstep : F2R (m' + 1) e' = (F2R m' e' + bpow e')%R).
    { unfold F2R. rewrite plus_IZR. ring. }
    apply Rabs_le. destruct Hcases as [-> | ->]; lra. }
  destruct (Z_lt_le_dec m'' (2 ^ prec)) as [Hlt|Hge].
  - assert (Hd : Zdigits2 m'' = prec) by (apply Zdigits2_unique; lia).
    unfold shr_fexp. rewrite Hd.
    replace (fexp prec emax (prec + e') - e') with 0 by (unfold fexp; lia).
    cbn [shr]. rewrite shr_record_of_loc_m.
    destruct m'' as [|p|p] eqn:Em; try lia.
    exists p, e'.
    replace (e' <=? emax - prec) with true by (symmetry; apply Z.leb_le; lia).
    split; [reflexivity|]. split; [lia|]. split; [lra|].
    intros Hl Hveq. rewrite Hveq. f_equal. rewrite <- (Hexact Hl). reflexivity.
  - assert (Em : m'' = 2 ^ prec) by lia.
    assert (Hd : Zdigits2 m'' = prec + 1).
    { apply Zdigits2_unique; [|lia]. rewrite Em.
      replace (prec + 1 - 1) with prec by lia.
      rewrite Z.pow_add_r by lia. lia. }
    unfold shr_fexp. rewrite Hd.
    replace (fexp prec emax (prec + 1 + e') - e') with 1 by (unfold fexp; lia).
    cbn [shr SpecFloat.iter_pos]. rewrite shr_1_m by (rewrite shr_record_of_loc_m; lia).
    rewrite shr_record_of_loc_m.
    assert (Ehalf : m'' / 2 = 2 ^ (prec - 1)).
    { rewrite Em, Hpow2. rewrite Z.mul_comm. apply Z.div_mul. lia. }
    rewrite Ehalf.
    destruct (2 ^ (prec - 1)) as [|p|p] eqn:Ep; try lia.
    exists p, (e' + 1).
    replace (e' + 1 <=? emax - prec) with true by (symmetry; apply Z.leb_le; lia).
    split; [reflexivity|]. split; [lia|].
    assert (Eval : F2R (Zpos p) (e' + 1) = F2R m'' e').
    { rewrite <- (F2R_shift (Zpos p) e' 1) by lia. f_equal. lia. }
    rewrite Eval. split; [lra|].
    intros Hl Hveq. rewrite Hveq. f_equal. apply (Hexact Hl).
Qed.

Lemma binary_round_aux_spec sx mx ex lx (v : R) :
  0 < mx ->
  (F2R mx ex <= v < F2R (mx + 1) ex)%R ->
  emin prec emax <= Zdigits2 mx + ex - prec ->
  (Zdigits2 mx < prec -> lx = loc_Exact /\ v = F2R mx ex) ->
  Z.max ex (Zdigits2 mx + ex - prec) + 1 <= emax - prec ->
  exists m e,
    binary_round_aux prec emax sx mx ex lx = S754_finite sx m e /\
    Zpos m < 2 ^ prec /\
    (Rabs (F2R (Zpos m) e - v) <= bpow (1 - prec) * v)%R /\
    (Zdigits2 mx <= prec -> lx = loc_Exact -> v = F2R mx ex ->
     F2R (Zpos m) e = v).
Proof.
  intros Hmx Hv Hemin Hsmall Hemax.
  pose proof (Zdigits2_bounds mx Hmx) as Hd.
  pose proof (Zdigits2_pos mx Hmx) as Hdpos.
  set (d := Zdigits2 mx) in *.
  assert (Hvpos : (0 < v)%R).
  { assert (0 < F2R mx ex)%R; [|lra]. unfold F2R.
    apply Rmult_lt_0_compat; [apply IZR_lt; lia | apply bpow_pos]. }
  unfold binary_round_aux.
  assert (Efexp : fexp prec emax (d + ex) = d + ex - prec) by (unfold fexp; lia).
  destruct (Z_lt_le_dec d prec) as [Hlt|Hbig].
  - (* fewer digits than the format: the location is exact, nothing moves *)
    destruct (Hsmall Hlt) as [-> Hveq].
    assert (Eshr : shr_fexp prec emax mx ex loc_Exact
                   = (shr_record_of_loc mx loc_Exact, ex)).
    { unfold shr_fexp. fold d. rewrite Efexp.
      destruct (d + ex - prec - ex) as [|p|p] eqn:En; try lia; reflexivity. }
    rewrite Eshr. rewrite shr_record_of_loc_m, loc_of_shr_record_of_loc.
    cbn [round_nearest_even]. rewrite Eshr, shr_record_of_loc_m.
    destruct mx as [|q|q] eqn:Emx; try lia.
    exists q, ex.
    replace (ex <=? emax - prec) with true by (symmetry; apply Z.leb_le; lia).
    split; [reflexivity|]. split.
    { assert (2 ^ d <= 2 ^ prec) by (apply Z.pow_le_mono_r; lia). lia. }
    split.
    + rewrite Hveq. replace (F2R (Z.pos q) ex - F2R (Z.pos q) ex)%R with 0%R by ring.
      rewrite Rabs_R0. pose proof (bpow_pos (1 - prec)). rewrite <- Hveq. nra.
    + intros _ _ _. symmetry. exact Hveq.
  - (* at least [prec] digits: shift right by [d - prec], then round *)
    assert (Hshift : exists mrs' ,
               shr_fexp prec emax mx ex lx = (mrs', d + ex - prec) /\
               shr_m mrs' = mx / 2 ^ (d - prec) /\
               (d = prec -> loc_of_shr_record mrs' = lx)).
    { unfold shr_fexp. fold d. rewrite Efexp.
      destruct (d + ex - prec - ex) as [|p|p] eqn:En; try lia.
      - exists (shr_record_of_loc mx lx). cbn [shr].
        replace (d - prec) with 0 by lia.
        rewrite shr_record_of_loc_m, Z.div_1_r, loc_of_shr_record_of_loc.
        split; [f_equal; lia | auto].
      - exists (SpecFloat.iter_pos shr_1 p (shr_record_of_loc mx lx)). cbn [shr].
        rewrite shr_iter_m by (rewrite shr_record_of_loc_m; lia).
        rewrite shr_record_of_loc_m.
        split; [f_equal; lia|]. split; [f_equal; f_equal; lia | lia]. }
    destruct Hshift as (mrs' & -> & Em' & Hloc).
    set (n := d - prec) in *.
    assert (Hn : 0 <= n) by (unfold n; lia).
    assert (Hpn : 0 < 2 ^ n) by (apply Z.pow_pos_nonneg; lia).
    pose proof (Z.div_mod mx (2 ^ n) ltac:(lia)) as Hdm.
    pose proof (Z.mod_pos_bound mx (2 ^ n) Hpn) as Hmod.
    set (m' := mx / 2 ^ n) in *.
    assert (Hsplit : 2 ^ d = 2 ^ prec * 2 ^ n).
    { rewrite <- Z.pow_add_r by lia. f_equal. unfold n. lia. }
    assert (Hsplit1 : 2 ^ (d - 1) = 2 ^ (prec - 1) * 2 ^ n).
    { rewrite <- Z.pow_add_r by lia. f_equal. unfold n. lia. }
    assert (Hm' : 2 ^ (prec - 1) <= m' < 2 ^ prec) by nia.
    assert (Hv' : (F2R m' (d + ex - prec) <= v < F2R (m' + 1) (d + ex - prec))%R).
    { replace (d + ex - prec) with (ex + n) by (unfold n; lia).
      rewrite <- !F2R_shift by exact Hn.
      pose proof (F2R_le (m' * 2 ^ n) mx ex ltac:(lia)).
      pose proof (F2R_le (mx + 1) ((m' + 1) * 2 ^ n) ex ltac:(nia)).
      lra. }
    rewrite Em'.
    destruct (round_finish sx m' (d + ex - prec) (loc_of_shr_record mrs') v Hm')
      as (m & e & E & Hmb & Herr & Hex); [lia | lia | exact Hv' |].
    exists m, e. split; [exact E|]. split; [lia|]. split; [exact Herr|].
    intros Hdle Hl Hveq. assert (Hdp : d = prec) by lia.
    apply Hex; [rewrite (Hloc Hdp); exact Hl|].
    rewrite Hveq. unfold m'. replace n with 0 by (unfold n; lia).
    rewrite Z.div_1_r. f_equal. lia.
Qed.

Lemma pos_iter_xO mx d : Zpos (Pos.iter xO mx d) = Zpos mx * 2 ^ Zpos d.
Proof.
  induction d as [|d IH] using Pos.peano_ind.
  - simpl. lia.
  - rewrite Pos.iter_succ, Pos2Z.inj_xO, IH, Pos2Z.inj_succ, Z.pow_succ_r by lia.
    lia.
Qed.

Lemma shl_align_spec mx ex ex' :
  exists mz ez,
    shl_align mx ex ex' = (mz, ez) /\ ez = Z.min ex ex' /\
    Zpos mz = Zpos mx * 2 ^ (ex - ez).
Proof.
  unfold shl_align. destruct (ex' - ex) as [|p|p] eqn:E.
  - exists mx, ex. split; [reflexivity|]. split; [lia|].
    replace (ex - ex) with 0 by lia. simpl. lia.
  - exists mx, ex. split; [reflexivity|]. split; [lia|].
    replace (ex - ex) with 0 by lia. simpl. lia.
  - exists (Pos.iter xO mx p), ex'. split; [reflexivity|]. split; [lia|].
    rewrite pos_iter_xO. f_equal. f_equal. lia.
Qed.

Lemma Zdigits2_shift m k :
  0 < m -> 0 <= k -> Zdigits2 (m * 2 ^ k) = Zdigits2 m + k.
Proof.
  intros Hm Hk. pose proof (Zdigits2_bounds m Hm) as Hd.
  pose proof (Zdigits2_pos m Hm).
  assert (Hp : 0 < 2 ^ k) by (apply Z.pow_pos_nonneg; lia).
  apply Zdigits2_unique; [|nia].
  replace (Zdigits2 m + k - 1) with ((Zdigits2 m - 1) + k) by lia.
  rewrite !Z.pow_add_r by lia. nia.
Qed.

(** [binary_round] on a mantissa and exponent in the normal range: the
    result is finite, within one unit in the last place, and exact when the
    mantissa fits the format. *)
Lemma binary_round_spec sx mx ex :
  emin prec emax <= Zpos (digits2_pos mx) + ex - prec ->
  Zpos (digits2_pos mx) + ex + 1 <= emax ->
  exists m e,
    binary_round prec emax sx mx ex = S754_finite sx m e /\
    Zpos m < 2 ^ prec /\
    (Rabs (F2R (Zpos m) e - F2R (Zpos mx) ex)
       <= bpow (1 - prec) * F2R (Zpos mx) ex)%R /\
    (Zpos (digits2_pos mx) <= prec -> F2R (Zpos m) e = F2R (Zpos mx) ex).
Proof.
  intros Hemin Hemax. unfold binary_round.
  set (d := Zpos (digits2_pos mx)) in *.
  assert (Efexp : fexp prec emax (d + ex) = d + ex - prec) by (unfold fexp; lia).
  rewrite Efexp.
  destruct (shl_align_spec mx ex (d + ex - prec)) as (mz & ez & -> & Eez & Emz).
  assert (Hk : 0 <= ex - ez) by lia.
  assert (Hval : F2R (Zpos mz) ez = F2R (Zpos mx) ex).
  { rewrite Emz, F2R_shift by exact Hk. f_equal. lia. }
  assert (Hdz : Zdigits2 (Zpos mz) = d + (ex - ez)).
  { rewrite Emz. apply (Zdigits2_shift (Zpos mx)); lia. }
  destruct (binary_round_aux_spec sx (Zpos mz) ez loc_Exact (F2R (Zpos mx) ex))
    as (m & e & E & Hm & Herr & Hex).
  - lia.
  - rewrite <- Hval. split; [lra|]. apply F2R_lt. lia.
  - rewrite Hdz. lia.
  - intros _. split; [reflexivity | symmetry; exact Hval].
  - rewrite Hdz. lia.
  - exists m, e. split; [exact E|]. split; [exact Hm|]. split; [exact Herr|].
    intros Hd. apply Hex; [rewrite Hdz; lia | reflexivity | symmetry; exact Hval].
Qed.

(** The product of two positive floats. *)
Lemma SFmul_spec mx ex my ey a b :
  (bpow a <= F2R (Zpos mx) ex * F2R (Zpos my) ey < bpow b)%R ->
  emin prec emax + prec <= a + 1 -> b + 1 <= emax ->
  ex + ey + 1 <= emax - prec ->
  exists m e,
    SFmul prec emax (S754_finite false mx ex) (S754_finite false my ey)
      = S754_finite false m e /\
    Zpos m < 2 ^ prec /\
    (Rabs (F2R (Zpos m) e - F2R (Zpos mx) ex * F2R (Zpos my) ey)
       <= bpow (1 - prec) * (F2R (Zpos mx) ex * F2R (Zpos my) ey))%R.
Proof.
  intros Hv Ha Hb Hex. cbn [SFmul xorb].
  assert (Hval : F2R (Zpos (mx * my)) (ex + ey)
                 = (F2R (Zpos mx) ex * F2R (Zpos my) ey)%R).
  { unfold F2R. rewrite Pos2Z.inj_mul, mult_IZR, bpow_add. ring. }
  rewrite <- Hval in *.
  destruct (binade_bounds (Zpos (mx * my)) (ex + ey) a b) as [H1 H2];
    [lia | lra | lra |].
  destruct (binary_round_aux_spec false (Zpos (mx * my)) (ex + ey) loc_Exact
              (F2R (Zpos (mx * my)) (ex + ey)))
    as (m & e & E & Hm & Herr & _).
  - lia.
  - split; [lra|]. apply F2R_lt. lia.
  - lia.
  - intros _. auto.
  - lia.
  - exists m, e. auto.
Qed.

(** The sum of two positive floats. *)
Lemma SFadd_spec mx ex my ey a b :
  (bpow a <= F2R (Zpos mx) ex + F2R (Zpos my) ey < bpow b)%R ->
  emin prec emax + prec <= a + 1 -> b + 1 <= emax ->
  exists m e,
    SFadd prec emax (S754_finite false mx ex) (S754_finite false my ey)
      = S754_finite false m e /\
    Zpos m < 2 ^ prec /\
    (Rabs (F2R (Zpos m) e - (F2R (Zpos mx) ex + F2R (Zpos my) ey))
       <= bpow (1 - prec) * (F2R (Zpos mx) ex + F2R (Zpos my) ey))%R.
Proof.
  intros Hv Ha Hb. cbn [SFadd].
  destruct (shl_align_spec mx ex (Z.min ex ey)) as (mx' & ex' & -> & Eex & Emx).
  destruct (shl_align_spec my ey (Z.min ex ey)) as (my' & ey' & -> & Eey & Emy).
  cbn [fst cond_Zopp].
  assert (Eex' : ex' = Z.min ex ey) by lia.
  assert (Eey' : ey' = Z.min ex ey) by lia.
  clear Eex Eey. subst ex' ey'. set (ez := Z.min ex ey) in *.
  change (Z.pos mx' + Z.pos my') with (Z.pos (mx' + my')).
  cbn [binary_normalize].
  assert (Hval : F2R (Zpos (mx' + my')) ez
                 = (F2R (Zpos mx) ex + F2R (Zpos my) ey)%R).
  { rewrite Pos2Z.inj_add, Emx, Emy.
    transitivity (F2R (Z.pos mx * 2 ^ (ex - ez)) ez + F2R (Z.pos my * 2 ^ (ey - ez)) ez)%R.
    { unfold F2R. rewrite plus_IZR. ring. }
    rewrite !F2R_shift by lia. f_equal; f_equal; lia. }
  rewrite <- Hval in *.
  destruct (binade_bounds (Zpos (mx' + my')) ez a b) as [H1 H2];
    [lia | lra | lra |].
  destruct (binary_round_spec false (mx' + my') ez) as (m & e & E & Hm & Herr & _).
  - change (Zpos (digits2_pos (mx' + my'))) with (Zdigits2 (Zpos (mx' + my'))). lia.
  - change (Zpos (digits2_pos (mx' + my'))) with (Zdigits2 (Zpos (mx' + my'))). lia.
  - exists m, e. auto.
Qed.

(** The quotient of two positive floats. *)
Lemma SFdiv_spec m1 e1 m2 e2 a b :
  (bpow a <= F2R (Zpos m1) e1 / F2R (Zpos m2) e2 < bpow b)%R ->
  emin prec emax + prec <= a -> b + 1 <= emax ->
  exists m e,
    SFdiv prec emax (S754_finite false m1 e1) (S754_finite false m2 e2)
      = S754_finite false m e /\
    Zpos m < 2 ^ prec /\
    (Rabs (F2R (Zpos m) e - F2R (Zpos m1) e1 / F2R (Zpos m2) e2)
       <= bpow (1 - prec) * (F2R (Zpos m1) e1 / F2R (Zpos m2) e2))%R.
Proof.
  intros Hv Ha Hb. cbn [SFdiv xorb]. unfold SFdiv_core_binary.
  set (d1 := Zdigits2 (Zpos m1)). set (d2 := Zdigits2 (Zpos m2)).
  pose proof (Zdigits2_bounds (Zpos m1) ltac:(lia)) as Hd1. fold d1 in Hd1.
  pose proof (Zdigits2_bounds (Zpos m2) ltac:(lia)) as Hd2. fold d2 in Hd2.
  pose proof (Zdigits2_pos (Zpos m1) ltac:(lia)) as Hd1p. fold d1 in Hd1p.
  pose proof (Zdigits2_pos (Zpos m2) ltac:(lia)) as Hd2p. fold d2 in Hd2p.
  set (v := (F2R (Zpos m1) e1 / F2R (Zpos m2) e2)%R) in *.
  assert (HY : (0 < F2R (Zpos m2) e2)%R).
  { unfold F2R. apply Rmult_lt_0_compat; [apply IZR_lt; lia | apply bpow_pos]. }
  (* the binade of the quotient *)
  pose proof (F2R_binade (Zpos m1) e1 ltac:(lia)) as HB1. fold d1 in HB1.
  pose proof (F2R_binade (Zpos m2) e2 ltac:(lia)) as HB2. fold d2 in HB2.
  assert (Hvlt : (v < bpow (d1 + e1 - (d2 + e2) + 1))%R).
  { replace (d1 + e1 - (d2 + e2) + 1) with ((d1 + e1) + - (d2 + e2 - 1)) by lia.
    rewrite bpow_add. unfold bpow at 2. rewrite powerRZ_neg'. fold (bpow (d2 + e2 - 1)).
    pose proof (bpow_pos (d2 + e2 - 1)). pose proof (bpow_pos (d1 + e1)).
    pose proof (bpow_pos (d1 + e1 - 1)).
    unfold v, Rdiv.
    apply Rle_lt_trans with (F2R (Z.pos m1) e1 * / bpow (d2 + e2 - 1))%R.
    - apply Rmult_le_compat_l; [lra|]. apply Rinv_le_contravar; lra.
    - apply Rmult_lt_compat_r; [apply Rinv_0_lt_compat; lra | lra]. }
  assert (Hnorm : a <= d1 + e1 - (d2 + e2)).
  { assert (a < d1 + e1 - (d2 + e2) + 1); [|lia]. apply bpow_lt_inv. lra. }
  assert (Efexp : fexp prec emax (d1 + e1 - (d2 + e2)) = d1 + e1 - (d2 + e2) - prec)
    by (unfold fexp; lia).
  rewrite Efexp.
  set (e' := Z.min (d1 + e1 - (d2 + e2) - prec) (e1 - e2)).
  set (s := e1 - e2 - e').
  assert (Hs : 0 <= s) by (unfold s, e'; lia).
  assert (Hs2 : prec + d2 - d1 <= s) by (unfold s, e'; lia).
  assert (Em' : match s with
                | Z.pos _ => Z.shiftl (Z.pos m1) s
                | 0 => Z.pos m1
                | Z.neg _ => 0
                end = Zpos m1 * 2 ^ s).
  { destruct s as [|p|p] eqn:Es; try lia.
    rewrite Z.shiftl_mul_pow2 by lia. reflexivity. }
  rewrite Em'.
  pose proof (Z_div_mod (Zpos m1 * 2 ^ s) (Zpos m2) ltac:(lia)) as Hdm.
  destruct (Z.div_eucl (Zpos m1 * 2 ^ s) (Zpos m2)) as [q r].
  destruct Hdm as [Hdm Hr].
  assert (Hps : 0 < 2 ^ s) by (apply Z.pow_pos_nonneg; lia).
  (* the quotient has at least [prec] digits *)
  assert (Hq : 2 ^ (prec - 1) <= q).
  { assert (Hlow : 2 ^ (prec - 1) * 2 ^ d2 <= Zpos m1 * 2 ^ s).
    { rewrite <- Z.pow_add_r by lia.
      apply Z.le_trans with (2 ^ (d1 - 1 + s)); [apply Z.pow_le_mono_r; lia|].
      rewrite Z.pow_add_r by lia. nia. }
    assert (0 < 2 ^ (prec - 1)) by (apply Z.pow_pos_nonneg; lia).
    destruct (Z_lt_le_dec q (2 ^ (prec - 1))); [|assumption]. nia. }
  assert (Hqpos : 0 < q).
  { assert (0 < 2 ^ (prec - 1)) by (apply Z.pow_pos_nonneg; lia). lia. }
  assert (Hdq : prec <= Zdigits2 q).
  { pose proof (Zdigits2_bounds q Hqpos) as Hdq.
    assert (prec - 1 < Zdigits2 q); [|lia].
    apply (Z.pow_lt_mono_r_iff 2); [lia | |lia].
    pose proof (Zdigits2_pos q Hqpos). lia. }
  (* the quotient brackets the value *)
  assert (Hval : (F2R q e' <= v < F2R (q + 1) e')%R).
  { assert (HX : F2R (Zpos m1) e1 = (F2R (Zpos m1 * 2 ^ s) e' * bpow e2)%R).
    { rewrite F2R_shift by exact Hs. unfold F2R.
      replace e1 with ((e' + s) + e2) at 1 by (unfold s; lia).
      rewrite bpow_add. ring. }
    assert (Hv2 : v = (IZR (Zpos m1 * 2 ^ s) / IZR (Zpos m2) * bpow e')%R).
    { unfold v. rewrite HX. unfold F2R.
      pose proof (bpow_pos e2). field. repeat split; try lra; apply not_0_IZR; lia. }
    rewrite Hv2, Hdm. unfold F2R.
    assert (Hm2 : (0 < IZR (Zpos m2))%R) by (apply IZR_lt; lia).
    pose proof (bpow_pos e').
    rewrite !plus_IZR, mult_IZR.
    assert (Hr1 : (0 <= IZR r)%R) by (apply IZR_le; lia).
    assert (Hr2 : (IZR r < IZR (Zpos m2))%R) by (apply IZR_lt; lia).
    split.
    - apply Rmult_le_compat_r; [lra|].
      apply Rmult_le_reg_r with (IZR (Zpos m2)); [lra|].
      unfold Rdiv. rewrite Rmult_assoc, Rinv_l by lra. lra.
    - apply Rmult_lt_compat_r; [lra|].
      apply Rmult_lt_reg_r with (IZR (Zpos m2)); [lra|].
      unfold Rdiv. rewrite Rmult_assoc, Rinv_l by lra. lra. }
  assert (Hbin : a + 1 <= Zdigits2 q + e' <= b).
  { pose proof (F2R_binade q e' Hqpos) as [HB HB'].
    pose proof (Zdigits2_bounds q Hqpos) as [_ Hqd].
    assert (Hup : (F2R (q + 1) e' <= bpow (Zdigits2 q + e'))%R).
    { rewrite bpow_add, <- bpow_IZR by (pose proof (Zdigits2_pos q Hqpos); lia).
      apply F2R_le. lia. }
    split.
    - assert (a < Zdigits2 q + e'); [|lia]. apply bpow_lt_inv. lra.
    - assert (Zdigits2 q + e' - 1 < b); [|lia]. apply bpow_lt_inv. lra. }
  destruct (binary_round_aux_spec false q e' (new_location (Zpos m2) r) v)
    as (m & e & E & Hm & Herr & _).
  - exact Hqpos.
  - exact Hval.
  - lia.
  - intros Hlt. lia.
  - lia.
  - exists m, e. auto.
Qed.

End RoundingSpec.

(* --------------------------------------------------------------------- *)
(** ** The pathfinder: world and grid coordinates                         *)
(* --------------------------------------------------------------------- *)

Section Coordinates.
Import Scalar Pathfinder.

Lemma WorldToGrid_GridToWorld vfmt pf c :
  WorldToGrid vfmt pf (GridToWorld vfmt pf c) =
  match coordinate_roundtrip vfmt (CellSize pf) (fst c),
        coordinate_roundtrip vfmt (CellSize pf) (snd c) with
  | Some GridX, Some GridY => Some (GridX, GridY)
  | _, _ => None
  end.
Proof. reflexivity. Qed.

End Coordinates.

Section RoundTrip.
Import Scalar Pathfinder FloatValue.

Lemma Rabs_bounds (x a : R) : (Rabs x <= a)%R -> (- a <= x <= a)%R.
Proof. unfold Rabs. destruct (Rcase_abs x); lra. Qed.

Lemma F2R_pos m e : (0 < F2R (Zpos m) e)%R.
Proof.
  unfold F2R. apply Rmult_lt_0_compat; [apply IZR_lt; lia | apply bpow_pos].
Qed.

Lemma F2R_exponent_lt m e b : (F2R (Zpos m) e < bpow b)%R -> e < b.
Proof.
  intros H. apply bpow_lt_inv. apply Rle_lt_trans with (F2R (Zpos m) e); [|exact H].
  unfold F2R. pose proof (bpow_pos e).
  assert (1 <= IZR (Zpos m))%R by (apply IZR_le; lia). nra.
Qed.

(** [FloorToInt] of a positive float is the integer just below its value. *)
Lemma FloorToInt_floor m e (c : Z) :
  (IZR c <= F2R (Zpos m) e < IZR c + 1)%R ->
  FloorToInt (S754_finite false m e) = Some c.
Proof.
  intros Hc. cbn [FloorToInt]. f_equal.
  set (z := Z.shiftl (Zpos m) e).
  assert (Hz : (IZR z <= F2R (Zpos m) e < IZR z + 1)%R).
  { unfold z. destruct (Z_le_gt_dec 0 e) as [He|He].
    - rewrite Z.shiftl_mul_pow2 by exact He.
      rewrite mult_IZR, bpow_IZR by exact He. unfold F2R. lra.
    - rewrite Z.shiftl_div_pow2 by lia.
      set (k := - e). assert (Hk : 0 < k) by (unfold k; lia).
      assert (Hp : 0 < 2 ^ k) by (apply Z.pow_pos_nonneg; lia).
      pose proof (Z.div_mod (Zpos m) (2 ^ k) ltac:(lia)) as Hdm.
      pose proof (Z.mod_pos_bound (Zpos m) (2 ^ k) Hp) as Hmod.
      set (q := Zpos m / 2 ^ k) in *.
      assert (H1 : F2R (q * 2 ^ k) e = IZR q).
      { rewrite F2R_shift by lia. unfold F2R.
        replace (e + k) with 0 by (unfold k; lia). rewrite bpow_0. ring. }
      assert (H2 : F2R ((q + 1) * 2 ^ k) e = (IZR q + 1)%R).
      { rewrite F2R_shift by lia. unfold F2R.
        replace (e + k) with 0 by (unfold k; lia). rewrite bpow_0, plus_IZR. ring. }
      pose proof (F2R_le (q * 2 ^ k) (Zpos m) e ltac:(lia)).
      pose proof (F2R_lt (Zpos m) ((q + 1) * 2 ^ k) e ltac:(lia)).
      lra. }
  assert (z < c + 1) by (apply lt_IZR; rewrite plus_IZR; lra).
  assert (c < z + 1) by (apply lt_IZR; rewrite plus_IZR; lra).
  lia.
Qed.

Lemma floor_as_int32_small (vfmt : format) m e (c : Z) :
  0 <= c < 2147483648 ->
  (IZR c <= F2R (Zpos m) e < IZR c + 1)%R ->
  floor_as_int32 vfmt (S754_finite false m e) = Some c.
Proof.
  intros Hc Hv. unfold floor_as_int32. rewrite (FloorToInt_floor m e c Hv).
  assert (Hfit : fits_signed (FloorToInt_bits vfmt) c = true).
  { unfold fits_signed, FloorToInt_bits.
    destruct (prec vfmt <=? prec binary32);
      apply andb_true_iff; split; [apply Z.leb_le | apply Z.ltb_lt |
                                    apply Z.leb_le | apply Z.ltb_lt];
      simpl; lia. }
  rewrite Hfit. f_equal. unfold to_int32.
  rewrite Z.mod_small by lia. lia.
Qed.

Lemma half_value : F2R (Zpos 8388608) (-24) = (/ 2)%R.
Proof. unfold F2R, bpow. simpl. lra. Qed.

Lemma eta_value : bpow (-23) = (/ 8388608)%R.
Proof. unfold bpow. simpl. lra. Qed.

(** [convert] of a float that fits the format changes nothing of its
    value. *)
Lemma convert_exact (vfmt : format) m e :
  24 <= prec vfmt -> 128 <= emax vfmt ->
  Zpos m < 2 ^ 24 -> -125 <= Zdigits2 (Zpos m) + e <= 127 ->
  exists m' e',
    convert vfmt (S754_finite false m e) = S754_finite false m' e' /\
    F2R (Zpos m') e' = F2R (Zpos m) e.
Proof.
  intros Hp He Hm Hrange. cbn [convert].
  assert (Hd : Zdigits2 (Zpos m) <= 24).
  { pose proof (Zdigits2_bounds (Zpos m) ltac:(lia)) as [H1 _].
    pose proof (Zdigits2_pos (Zpos m) ltac:(lia)).
    assert (Zdigits2 (Zpos m) - 1 < 24); [|lia].
    apply (Z.pow_lt_mono_r_iff 2); lia. }
  change (Zdigits2 (Zpos m)) with (Zpos (digits2_pos m)) in *.
  destruct (binary_round_spec (prec vfmt) (emax vfmt) ltac:(lia) false m e)
    as (m' & e' & E & _ & _ & Hex).
  - unfold emin. lia.
  - lia.
  - exists m', e'. split; [exact E|]. apply Hex. lia.
Qed.

Variable vfmt : format.
Hypothesis Hprec : 24 <= prec vfmt.
Hypothesis Hemax : 128 <= emax vfmt.

Variables (m : positive) (e : Z).
Hypothesis Hm : digits2_pos m = 24%positive.
Hypothesis He : -140 <= e <= 80.

Local Abbreviation cs := (S754_finite false m e).
Local Abbreviation K := (F2R (Zpos m) e).

Lemma cell_size_binade : (bpow (e + 23) <= K < bpow (e + 24))%R.
Proof.
  pose proof (F2R_binade (Zpos m) e ltac:(lia)) as H.
  change (Zdigits2 (Zpos m)) with (Zpos (digits2_pos m)) in H. rewrite Hm in H.
  replace (24 + e - 1) with (e + 23) in H by lia.
  replace (24 + e) with (e + 24) in H by lia. exact H.
Qed.

(** Half a cell, as [CellSize * 0.5f] computes it. *)
Lemma half_cell :
  exists mh eh,
    fmul binary32 cs half = S754_finite false mh eh /\
    Zpos mh < 2 ^ 24 /\
    (Rabs (F2R (Zpos mh) eh - K / 2) <= K / 16777216)%R.
Proof.
  pose proof cell_size_binade as HK. pose proof (F2R_pos m e) as HKpos.
  destruct (SFmul_spec 24 128 ltac:(lia) m e 8388608 (-24) (e + 22) (e + 23))
    as (mh & eh & E & Hmh & Herr).
  - rewrite half_value.
    replace (e + 23) with ((e + 22) + 1) in HK by lia.
    replace (e + 24) with ((e + 23) + 1) in HK by lia.
    rewrite (bpow_add (e + 22) 1), (bpow_add (e + 23) 1) in HK.
    assert (Hb1 : bpow 1 = 2%R) by (unfold bpow; simpl; lra).
    rewrite Hb1 in HK. lra.
  - unfold emin. lia.
  - lia.
  - lia.
  - exists mh, eh. split; [exact E|]. split; [exact Hmh|].
    rewrite half_value in Herr. change (1 - 24) with (-23) in Herr.
    rewrite eta_value in Herr. lra.
Qed.

(** The world coordinate of cell [c], as
    [c * CellSize + CellSize * 0.5f] computes it in [float]. *)
Lemma world_coordinate (c : Z) :
  0 <= c <= 1048576 ->
  exists ms es,
    fadd binary32 (fmul binary32 (of_int binary32 c) cs) (fmul binary32 cs half)
      = S754_finite false ms es /\
    Zpos ms < 2 ^ 24 /\
    (Rabs (F2R (Zpos ms) es - (IZR c + / 2) * K) <= K * (/ 4 + / 1048576))%R.
Proof.
  intros Hc.
  pose proof cell_size_binade as HK. pose proof (F2R_pos m e) as HKpos.
  destruct half_cell as (mh & eh & Eh & Hmh & Hherr).
  rewrite Eh. apply Rabs_bounds in Hherr.
  destruct c as [|pc|pc]; [| |lia].
  - (* the first cell: 0 * CellSize is 0 *)
    exists mh, eh. split; [reflexivity|]. split; [exact Hmh|].
    apply Rabs_le. lra.
  - (* c as a float is exact *)
    assert (HC : (1 <= IZR (Zpos pc) <= 1048576)%R).
    { split; [apply IZR_le; lia | apply IZR_le; lia]. }
    set (C := IZR (Zpos pc)) in *.
    assert (Hdc : Zdigits2 (Zpos pc) <= 21).
    { pose proof (Zdigits2_bounds (Zpos pc) ltac:(lia)) as [H1 _].
      pose proof (Zdigits2_pos (Zpos pc) ltac:(lia)).
      assert (Zdigits2 (Zpos pc) - 1 < 21); [|lia].
      apply (Z.pow_lt_mono_r_iff 2); lia. }
    pose proof (Zdigits2_pos (Zpos pc) ltac:(lia)) as Hdcp.
    change (Zdigits2 (Zpos pc)) with (Zpos (digits2_pos pc)) in *.
    destruct (binary_round_spec 24 128 ltac:(lia) false pc 0)
      as (ma & ea & Ea & Hma & _ & Hexact).
    { unfold emin. lia. }
    { lia. }
    specialize (Hexact ltac:(lia)).
    assert (Eof : of_int binary32 (Zpos pc) = S754_finite false ma ea) by exact Ea.
    rewrite Eof.
    assert (Hva : F2R (Zpos ma) ea = C).
    { rewrite Hexact. unfold F2R. rewrite bpow_0. unfold C. ring. }
    assert (Hea : ea < 21).
    { apply (F2R_exponent_lt ma). rewrite Hva, <- bpow_IZR by lia.
      apply Rle_lt_trans with 1048576%R; [lra|]. apply IZR_lt. reflexivity. }
    (* the product *)
    assert (Hb21 : bpow 21 = 2097152%R) by (rewrite <- bpow_IZR by lia; reflexivity).
    destruct (SFmul_spec 24 128 ltac:(lia) ma ea m e (e + 23) (e + 45))
      as (mp & ep & Ep & Hmp & Hperr).
    { rewrite Hva. replace (e + 45) with (21 + (e + 24)) by lia.
      rewrite (bpow_add 21), Hb21. pose proof (bpow_pos (e + 23)). nra. }
    { unfold emin. lia. }
    { lia. }
    { lia. }
    assert (Efm : fmul binary32 (S754_finite false ma ea) cs
                  = S754_finite false mp ep) by exact Ep.
    rewrite Efm. rewrite Hva in Hperr. change (1 - 24) with (-23) in Hperr.
    rewrite eta_value in Hperr. apply Rabs_bounds in Hperr.
    set (P := F2R (Zpos mp) ep) in *. set (Hf := F2R (Zpos mh) eh) in *.
    assert (HP : (C * K - K / 8 <= P <= C * K + K / 8)%R) by nra.
    (* the sum *)
    assert (Hb20 : bpow (-3) = (/ 8)%R) by (unfold bpow; simpl; lra).
    destruct (SFadd_spec 24 128 ltac:(lia) mp ep mh eh (e + 20) (e + 45))
      as (ms & es & Es & Hms & Hserr).
    { fold P Hf. replace (e + 20) with (-3 + (e + 23)) by lia.
      replace (e + 45) with (21 + (e + 24)) by lia.
      rewrite (bpow_add (-3)), (bpow_add 21), Hb20, Hb21.
      pose proof (bpow_pos (e + 23)). split; nra. }
    { unfold emin. lia. }
    { lia. }
    assert (Efa : fadd binary32 (S754_finite false mp ep) (S754_finite false mh eh)
                  = S754_finite false ms es) by exact Es.
    rewrite Efa. exists ms, es. split; [reflexivity|]. split; [exact Hms|].
    fold P Hf in Hserr. change (1 - 24) with (-23) in Hserr.
    rewrite eta_value in Hserr. apply Rabs_bounds in Hserr.
    apply Rabs_le. split; nra.
Qed.

(** One coordinate survives [WorldToGrid] after [GridToWorld]. *)
Lemma coordinate_roundtrip_id (c : Z) :
  0 <= c <= 1048576 -> coordinate_roundtrip vfmt cs c = Some c.
Proof.
  intros Hc. unfold coordinate_roundtrip.
  pose proof cell_size_binade as HK. pose proof (F2R_pos m e) as HKpos.
  destruct (world_coordinate c Hc) as (ms & es & -> & Hms & Hserr).
  apply Rabs_bounds in Hserr.
  assert (HC : (0 <= IZR c <= 1048576)%R).
  { split; [apply IZR_le; lia | apply IZR_le; lia]. }
  set (C := IZR c) in *. set (Sv := F2R (Zpos ms) es) in *.
  assert (Hb21 : bpow 21 = 2097152%R) by (rewrite <- bpow_IZR by lia; reflexivity).
  assert (Hb3 : bpow (-3) = (/ 8)%R) by (unfold bpow; simpl; lra).
  assert (HSb : (bpow (e + 20) <= Sv < bpow (e + 45))%R).
  { replace (e + 20) with (-3 + (e + 23)) by lia.
    replace (e + 45) with (21 + (e + 24)) by lia.
    rewrite (bpow_add (-3)), (bpow_add 21), Hb3, Hb21.
    pose proof (bpow_pos (e + 23)). split; nra. }
  (* both operands of the division, in the format of the vector *)
  destruct (binade_bounds (Zpos ms) es (e + 20) (e + 45) ltac:(lia)
              (proj1 HSb) (proj2 HSb)) as [Hs1 Hs2].
  destruct (convert_exact vfmt ms es Hprec Hemax Hms ltac:(lia))
    as (ms' & es' & -> & HvS).
  destruct (convert_exact vfmt m e Hprec Hemax) as (mc & ec & -> & HvK).
  { pose proof (digits2_pos_bounds m) as Hb. rewrite Hm in Hb. lia. }
  { change (Zdigits2 (Zpos m)) with (Zpos (digits2_pos m)). rewrite Hm. lia. }
  (* the quotient *)
  assert (Hq : (C + / 4 - / 1048576 <= Sv / K <= C + 3 / 4 + / 1048576)%R).
  { unfold Rdiv. split.
    - apply Rmult_le_reg_r with K; [exact HKpos|].
      rewrite Rmult_assoc, Rinv_l by lra. lra.
    - apply Rmult_le_reg_r with K; [exact HKpos|].
      rewrite Rmult_assoc, Rinv_l by lra. lra. }
  destruct (SFdiv_spec (prec vfmt) (emax vfmt) ltac:(lia) ms' es' mc ec (-3) 21)
    as (mq & eq & Eq & _ & Hqerr).
  { rewrite HvS, HvK. fold Sv. rewrite Hb3, Hb21. lra. }
  { unfold emin. lia. }
  { lia. }
  assert (Efd : fdiv vfmt (S754_finite false ms' es') (S754_finite false mc ec)
                = S754_finite false mq eq) by exact Eq.
  rewrite Efd. rewrite HvS, HvK in Hqerr. fold Sv in Hqerr.
  assert (Heta : (bpow (1 - prec vfmt) <= / 8388608)%R).
  { rewrite <- eta_value. apply bpow_le. lia. }
  apply Rabs_bounds in Hqerr.
  pose proof (bpow_pos (1 - prec vfmt)) as Hpos.
  apply floor_as_int32_small; [lia|]. fold C.
  assert (Hmul : (bpow (1 - prec vfmt) * (Sv / K) <= / 8 + / 1048576)%R) by nra.
  lra.
Qed.

End RoundTrip.

Section RoundTripClaim.
Import Scalar Pathfinder.

(** C8 (amended).  In the floating-point arithmetic of the code, with
    vector components in single or double precision,
    [WorldToGrid (GridToWorld c)] is [c] for every cell with coordinates
    0..2^20 and every cell size that is a normal [float] from 2^-117 up to
    2^104 (a mantissa of 24 bits with an exponent -140..80). *)
Theorem grid_world_roundtrip
    (vfmt : format) (pf : UMazePathfinder) (m : positive) (e : Z) (c : FIntPoint) :
  vfmt = binary32 \/ vfmt = binary64 ->
  CellSize pf = S754_finite false m e ->
  digits2_pos m = 24%positive -> -140 <= e <= 80 ->
  0 <= fst c <= 1048576 -> 0 <= snd c <= 1048576 ->
  WorldToGrid vfmt pf (GridToWorld vfmt pf c) = Some c.
Proof.
  intros Hfmt Hcs Hm He Hx Hy.
  assert (Hp : 24 <= prec vfmt /\ 128 <= emax vfmt)
    by (destruct Hfmt as [-> | ->]; simpl; lia).
  rewrite WorldToGrid_GridToWorld, Hcs.
  rewrite !(coordinate_roundtrip_id vfmt (proj1 Hp) (proj2 Hp) m e Hm He)
    by assumption.
  destruct c; reflexivity.
Qed.

End RoundTripClaim.

Lemma grid_world_roundtrip_witness :
  Pathfinder.WorldToGrid Scalar.binary64 demo_open_3x3
    (Pathfinder.GridToWorld Scalar.binary64 demo_open_3x3 (2, 1)) = Some (2, 1).
Proof.
  apply (grid_world_roundtrip Scalar.binary64 demo_open_3x3 13107200 (-16) (2, 1));
    [right; reflexivity | reflexivity | reflexivity | lia | simpl; lia | simpl; lia].
Defined.

(** C8, as stated, fails in the arithmetic of the code: with cell size 1 in
    a grid 8388610 cells wide, the cell (8388609, 0) is inside the grid, but
    8388609.5 is not a [float], [GridToWorld] yields 8388610 and
    [WorldToGrid] comes back with (8388610, 0), in single and in double
    precision vectors alike. *)
Lemma grid_world_roundtrip_counterexample :
  let pf := Pathfinder.mkPathfinder [] (8388610, 1)
              (Scalar.of_int Scalar.binary32 1) false in
  let c := (8388609, 0) in
  (0 <= fst c < fst (Pathfinder.MazeSize pf) /\
   0 <= snd c < snd (Pathfinder.MazeSize pf)) /\
  Scalar.is_positive (Pathfinder.CellSize pf) = true /\
  Pathfinder.WorldToGrid Scalar.binary32 pf
    (Pathfinder.GridToWorld Scalar.binary32 pf c) <> Some c /\
  Pathfinder.WorldToGrid Scalar.binary64 pf
    (Pathfinder.GridToWorld Scalar.binary64 pf c) <> Some c.
Proof.
  simpl. split; [lia|]. split; [reflexivity|].
  split; vm_compute; discriminate.
Qed.

(** The round trip already fails below 2^23 for an ordinary cell size: with
    cells of 377.84185791015625 units the cell 5725092 comes back as
    5725093. *)
Example roundtrip_fails_below_float_limit :
  Pathfinder.coordinate_roundtrip Scalar.binary64
    (S754_finite false 12381122 (-15)) 5725092 = Some 5725093.
Proof. vm_compute. reflexivity. Qed.

(** Far from the grid the cell index is narrowed to an [int32]: with cells
    of 200 units the world position x = 10^12 lies 5 * 10^9 cells out, and
    [WorldToGrid] answers with the low 32 bits, 705032704; the position
    x = (2^32 + 1) * 200 + 100 is taken for cell 1. *)
Example world_to_grid_narrows :
  Pathfinder.WorldToGrid Scalar.binary64 demo_open_3x3
    (Scalar.mkFVector (Scalar.of_int Scalar.binary64 1000000000000)
                      (Scalar.of_int Scalar.binary64 100) (S754_zero false))
    = Some (705032704, 0) /\
  Pathfinder.WorldToGrid Scalar.binary64 demo_open_3x3
    (Scalar.mkFVector (Scalar.of_int Scalar.binary64 (4294967297 * 200 + 100))
                      (Scalar.of_int Scalar.binary64 100) (S754_zero false))
    = Some (1, 0).
Proof. split; vm_compute; reflexivity. Qed.

(* --------------------------------------------------------------------- *)
(** ** The pathfinder: breadth-first search finds shortest paths          *)
(* --------------------------------------------------------------------- *)

Section Walks.
Import Scalar Pathfinder.

Variable pf : UMazePathfinder.

Lemma adj_valid u v : adj pf u v -> IsValidCell pf v = true.
Proof.
  unfold adj, GetWalkableNeighbors. rewrite <- list_elem_of_In, list_elem_of_filter.
  tauto.
Qed.

Lemma valid_not_sentinel v : IsValidCell pf v = true -> v <> (-1, -1).
Proof. intros Hv ->. apply IsValidCell_bounds in Hv. simpl in Hv. lia. Qed.

Lemma adj_cardinal u v :
  adj pf u v <-> IsValidCell pf v = true /\ cardinalb u v = true.
Proof.
  unfold adj, GetWalkableNeighbors, Offsets, cardinalb.
  rewrite <- list_elem_of_In, list_elem_of_filter, list_elem_of_In.
  destruct u as [ux uy], v as [vx vy]. simpl. rewrite Z.eqb_eq. split.
  - intros [Hv H]. split; [exact Hv|].
    destruct H as [H|[H|[H|[H|[]]]]]; injection H as <- <-; lia.
  - intros [Hv H]. split; [exact Hv|].
    assert (C : (vx = ux + 1 /\ vy = uy + 0) \/ (vx = ux + -1 /\ vy = uy + 0) \/
                (vx = ux + 0 /\ vy = uy + 1) \/ (vx = ux + 0 /\ vy = uy + -1)) by lia.
    destruct C as [[-> ->]|[[-> ->]|[[-> ->]|[-> ->]]]]; auto.
Qed.

Lemma is_walkb_snoc q p v :
  is_walkb pf q = true -> last q = Some p ->
  cardinalb p v = true -> IsValidCell pf v = true ->
  is_walkb pf (q ++ [v]) = true.
Proof.
  intros Hq Hl Hc Hv. induction q as [|c q IH]; [discriminate|].
  destruct q as [|c' q].
  - simpl in *. injection Hl as ->. apply andb_true_iff in Hq as [Hq _].
    rewrite Hq, Hc, Hv. reflexivity.
  - change (is_walkb pf ((c :: c' :: q) ++ [v]))
      with (IsValidCell pf c && (cardinalb c c' && is_walkb pf ((c' :: q) ++ [v]))).
    change (is_walkb pf (c :: c' :: q))
      with (IsValidCell pf c && (cardinalb c c' && is_walkb pf (c' :: q))) in Hq.
    apply andb_true_iff in Hq as [H1 Hq]. apply andb_true_iff in Hq as [H2 Hq].
    rewrite H1, H2, IH; auto.
Qed.

Lemma moves_cons x x' n y :
  IsValidCell pf x = true -> adj pf x x' -> moves pf x' n y -> moves pf x (S n) y.
Proof.
  intros Hx Hadj. induction 1 as [|n u v Hu IH Huv].
  - eapply moves_S; [apply moves_O, Hx | exact Hadj].
  - eapply moves_S; eauto.
Qed.

Lemma is_walkb_moves p : forall x y,
  is_walkb pf p = true -> head p = Some x -> last p = Some y ->
  moves pf x (length p - 1) y.
Proof.
  induction p as [|c p IH]; intros x y Hw Hh Hl; [discriminate|].
  simpl in Hh. injection Hh as ->.
  destruct p as [|c' p].
  - simpl in *. injection Hl as ->. apply moves_O.
    apply andb_true_iff in Hw as [Hw _]. exact Hw.
  - change (is_walkb pf (x :: c' :: p))
      with (IsValidCell pf x && (cardinalb x c' && is_walkb pf (c' :: p))) in Hw.
    apply andb_true_iff in Hw as [H1 Hw]. apply andb_true_iff in Hw as [H2 Hw].
    replace (length (x :: c' :: p) - 1)%nat with (S (length (c' :: p) - 1)) by (simpl; lia).
    eapply moves_cons; [exact H1 | |apply IH; [exact Hw | reflexivity | exact Hl]].
    apply adj_cardinal. split; [|exact H2].
    simpl in Hw. apply andb_true_iff in Hw as [Hw _]. exact Hw.
Qed.


Section FromStart.
Variable a : FIntPoint.
Hypothesis Ha : IsValidCell pf a = true.

Lemma chain_weaken (P P' : gmap (Z*Z) (Z*Z)) v n :
  (forall x y, P !! x = Some y -> P' !! x = Some y) ->
  chain pf P a v n -> chain pf P' a v n.
Proof.
  intros HP. induction 1.
  - apply chain_O. auto.
  - eapply chain_S; eauto.
Qed.

Lemma chain_valid P v n : chain pf P a v n -> IsValidCell pf v = true.
Proof using Ha. destruct 1; [exact Ha | eapply adj_valid; eauto]. Qed.

(** Walking the parents back from a cell on a chain collects the chain. *)
Lemma walk_parents_chain P v n :
  chain pf P a v n ->
  forall fuel acc, (S n < fuel)%nat ->
  exists l, walk_parents fuel P v acc = Some (acc ++ l) /\
            length l = S n /\
            head (rev l) = Some a /\ last (rev l) = Some v /\
            is_walkb pf (rev l) = true.
Proof using Ha.
  induction 1 as [H0|v p n Hp Hadj Hch IH]; intros fuel acc Hf.
  - destruct fuel as [|[|fuel]]; try lia. exists [a]. simpl.
    rewrite decide_False by (apply valid_not_sentinel, Ha).
    rewrite H0. rewrite decide_True by reflexivity.
    rewrite Ha. auto.
  - destruct fuel as [|fuel]; [lia|]. simpl.
    rewrite decide_False by (eapply valid_not_sentinel, adj_valid; eauto).
    rewrite Hp.
    destruct (IH fuel (acc ++ [v])) as (l & E & Hlen & Hh & Hl & Hw); [lia|].
    exists (v :: l). rewrite E, <- app_assoc. simpl.
    split; [reflexivity|]. split; [lia|].
    apply adj_cardinal in Hadj as [Hv Hc].
    split; [|split].
    + destruct (rev l) eqn:El; [discriminate | exact Hh].
    + apply last_snoc.
    + eapply is_walkb_snoc; eauto.
Qed.

End FromStart.

End Walks.

Section BfsCorrect.
Import Scalar Pathfinder.

Variable pf : UMazePathfinder.
Variables a b : FIntPoint.
Hypothesis Ha : IsValidCell pf a = true.
Variable N : nat.
Hypothesis HN : forall V : gset (Z * Z),
  (forall v, v ∈ V -> IsValidCell pf v = true) -> (size V <= N)%nat.

Lemma visit_neighbor_inv lev k Qa Qb u w todo st :
  bfs_inv pf a b lev k Qa Qb u (w :: todo) st ->
  exists lev' Qb',
    bfs_inv pf a b lev' k Qa Qb' u todo (visit_neighbor u st w) /\
    bfs_measure N (visit_neighbor u st w) = bfs_measure N st.
Proof.
  intros I. unfold visit_neighbor.
  destruct (decide (w ∈ Visited st)) as [Hin|Hnin].
  - exists lev, Qb. split; [|reflexivity].
    destruct I. constructor; auto.
    + intros v Hv Hq. destruct (inv_done0 v Hv Hq) as [Hl Hc]. split; [exact Hl|].
      intros w' Hw'. destruct (Hc w' Hw') as [?|[-> [<-|?]]]; auto.
    + intros w' Hw'. apply inv_todo0. right. exact Hw'.
  - destruct (inv_todo _ _ _ _ _ _ _ _ _ _ I w (or_introl eq_refl)) as (Hadj & Hu & Hlevu).
    exists (level_update lev w (S k)), (Qb ++ [w]).
    assert (Hsame : forall v, v ∈ Visited st -> level_update lev w (S k) v = lev v).
    { intros v Hv. unfold level_update. destruct (decide (v = w)) as [->|]; [contradiction|reflexivity]. }
    assert (Hsz : size ({[w]} ∪ Visited st) = S (size (Visited st))).
    { rewrite size_union by set_solver. rewrite size_singleton. reflexivity. }
    split.
    + destruct I. constructor; simpl.
      * rewrite inv_queue0, app_assoc. reflexivity.
      * destruct inv_start0 as [H1 H2]. split; [set_solver|]. rewrite Hsame; auto.
      * intros v Hv. apply elem_of_union in Hv as [Hv|Hv].
        -- apply elem_of_singleton in Hv as ->. unfold level_update. rewrite decide_True by reflexivity.
           eapply chain_S; [apply lookup_insert_eq | exact Hadj |].
           rewrite <- Hlevu. eapply chain_weaken; [|apply inv_chain0; exact Hu].
           intros x y Hxy. rewrite lookup_insert_ne; [exact Hxy|].
           intros <-. rewrite inv_fresh0 in Hxy by assumption. discriminate.
        -- rewrite Hsame by assumption. eapply chain_weaken; [|apply inv_chain0; exact Hv].
           intros x y Hxy. rewrite lookup_insert_ne; [exact Hxy|].
           intros <-. rewrite inv_fresh0 in Hxy by assumption. discriminate.
      * intros v Hv. apply elem_of_union in Hv as [Hv|Hv]; [|auto].
        apply elem_of_singleton in Hv as ->. eapply adj_valid; eauto.
      * intros v Hv. rewrite lookup_insert_ne by set_solver. apply inv_fresh0. set_solver.
      * intros q Hq. rewrite Hsame; [auto|]. apply inv_queued0. rewrite inv_queue0.
        apply in_or_app. auto.
      * intros q Hq. apply in_app_or in Hq as [Hq|[<-|[]]].
        -- rewrite Hsame; [auto|]. apply inv_queued0. rewrite inv_queue0.
           apply in_or_app. auto.
        -- unfold level_update. rewrite decide_True; reflexivity.
      * intros q Hq. apply in_app_or in Hq as [Hq|[<-|[]]]; [|set_solver].
        apply elem_of_union_r. auto.
      * intros v Hv Hq.
        assert (Hvw : v <> w) by (intros ->; apply Hq, in_or_app; right; left; reflexivity).
        assert (Hv' : v ∈ Visited st) by set_solver.
        assert (Hq' : ~ In v (Queue st)) by (intros ?; apply Hq, in_or_app; auto).
        destruct (inv_done0 v Hv' Hq') as [Hl Hc]. rewrite Hsame by assumption.
        split; [exact Hl|]. intros w' Hw'.
        destruct (Hc w' Hw') as [?|[-> [<-|?]]]; [left; set_solver | left; set_solver | right; auto].
      * intros v Hv. apply elem_of_union in Hv as [Hv|Hv].
        -- apply elem_of_singleton in Hv as ->. unfold level_update. rewrite decide_True; [lia|reflexivity].
        -- rewrite Hsame; auto.
      * intros x m Hm Hk. destruct (inv_near0 x m Hm Hk) as [Hx Hl].
        split; [set_solver|]. rewrite Hsame; auto.
      * intros Hb. apply in_or_app. apply elem_of_union in Hb as [Hb|Hb].
        -- right. apply elem_of_singleton in Hb as ->. left; reflexivity.
        -- left. auto.
      * intros v Hv. rewrite Hsz. apply elem_of_union in Hv as [Hv|Hv].
        -- apply elem_of_singleton in Hv as ->. unfold level_update. rewrite decide_True by reflexivity.
           specialize (inv_size0 u Hu). lia.
        -- rewrite Hsame by assumption. specialize (inv_size0 v Hv). lia.
      * intros w' Hw'. destruct (inv_todo0 w' (or_intror Hw')) as (H1 & H2 & H3).
        split; [exact H1|]. split; [set_solver|]. rewrite Hsame; auto.
    + unfold bfs_measure. simpl. rewrite Hsz, length_app. simpl.
      assert (size ({[w]} ∪ Visited st) <= N)%nat.
      { apply HN. intros v Hv. apply elem_of_union in Hv as [Hv|Hv].
        - apply elem_of_singleton in Hv as ->. eapply adj_valid; eauto.
        - eapply inv_valid; eauto. }
      lia.
Qed.


Lemma visit_all_inv todo : forall lev k Qa Qb u st,
  bfs_inv pf a b lev k Qa Qb u todo st ->
  exists lev' Qb',
    bfs_inv pf a b lev' k Qa Qb' u [] (fold_left (visit_neighbor u) todo st) /\
    bfs_measure N (fold_left (visit_neighbor u) todo st) = bfs_measure N st.
Proof.
  induction todo as [|w todo IH]; intros lev k Qa Qb u st I; simpl.
  - exists lev, Qb. split; [exact I | reflexivity].
  - destruct (visit_neighbor_inv _ _ _ _ _ _ _ _ I) as (lev1 & Qb1 & I1 & E1).
    destruct (IH _ _ _ _ _ _ I1) as (lev2 & Qb2 & I2 & E2).
    exists lev2, Qb2. split; [exact I2 | congruence].
Qed.

(** With [Qa] exhausted the level counter moves on. *)
Lemma bfs_inv_next_level lev k Qb u st :
  bfs_inv pf a b lev k [] Qb u [] st ->
  bfs_inv pf a b lev (S k) Qb [] u [] st.
Proof.
  intros I. destruct I. simpl in *. constructor.
  - rewrite app_nil_r. exact inv_queue0.
  - assumption.
  - assumption.
  - assumption.
  - assumption.
  - assumption.
  - intros q [].
  - assumption.
  - intros v Hv Hq. destruct (inv_done0 v Hv Hq) as [Hl Hc]. split; [lia | exact Hc].
  - intros v Hv. specialize (inv_level0 v Hv). lia.
  - intros x m Hm Hk. destruct (Nat.eq_dec m (S k)) as [->|Hne];
      [|apply inv_near0; [exact Hm | lia]].
    inversion Hm as [|n w x' Hw Hadj En Ex].
    destruct (inv_near0 w k Hw (Nat.le_refl _)) as [HwV Hwl].
    assert (HwQ : ~ In w (Queue st)).
    { rewrite inv_queue0. intros Hq. apply inv_Qb0 in Hq. lia. }
    destruct (inv_done0 w HwV HwQ) as [_ Hc].
    destruct (Hc x Hadj) as [Hx|[_ []]]. split; [exact Hx | apply inv_level0, Hx].
  - assumption.
  - assumption.
  - intros w [].
Qed.

Lemma moves_visited_when_done lev k u st :
  bfs_inv pf a b lev k [] [] u [] st ->
  forall m x, moves pf a m x -> x ∈ Visited st.
Proof.
  intros I m x Hm. induction Hm as [|n w x Hw IH Hadj].
  - apply (inv_start _ _ _ _ _ _ _ _ _ _ I).
  - assert (HwQ : ~ In w (Queue st)).
    { rewrite (inv_queue _ _ _ _ _ _ _ _ _ _ I). intros []. }
    destruct (inv_done _ _ _ _ _ _ _ _ _ _ I w IH HwQ) as [_ Hc].
    destruct (Hc x Hadj) as [Hx|[_ []]]. exact Hx.
Qed.

(** The outer loop finishes within the fuel; when it reports the goal, the
    goal hangs on a chain of minimal length, and when it does not, the goal
    is not reachable. *)
Lemma bfs_loop_spec fuel : forall st lev k Qa Qb u,
  bfs_inv pf a b lev k Qa Qb u [] st ->
  (bfs_measure N st < fuel)%nat ->
  exists found st',
    bfs_loop fuel pf b st = Some (found, st') /\
    (found = true ->
       exists n, chain pf (Parents st') a b n /\ (n < N)%nat /\
                 forall m, moves pf a m b -> (n <= m)%nat) /\
    (found = false -> forall m, ~ moves pf a m b).
Proof.
  induction fuel as [|fuel IH]; intros st lev k Qa Qb u I Hmu; [lia|].
  simpl. destruct (Queue st) as [|c rest] eqn:EQ.
  - exists false, st. split; [reflexivity|]. split; [discriminate|].
    intros _ m Hm.
    assert (EQa : Qa = [] /\ Qb = []).
    { pose proof (inv_queue _ _ _ _ _ _ _ _ _ _ I) as E. rewrite EQ in E.
      symmetry in E. apply app_eq_nil in E. exact E. }
    destruct EQa as [-> ->].
    pose proof (moves_visited_when_done _ _ _ _ I m b Hm) as Hb.
    apply (inv_goal _ _ _ _ _ _ _ _ _ _ I) in Hb. rewrite EQ in Hb. destruct Hb.
  - (* normalise: the head of the queue is at level k *)
    assert (Hnorm : exists k' Qa' Qb', bfs_inv pf a b lev k' (c :: Qa') Qb' u [] st).
    { destruct Qa as [|c' Qa'].
      - apply bfs_inv_next_level in I.
        pose proof (inv_queue _ _ _ _ _ _ _ _ _ _ I) as E. rewrite EQ, app_nil_r in E.
        subst Qb. exists (S k), rest, []. exact I.
      - pose proof (inv_queue _ _ _ _ _ _ _ _ _ _ I) as E. rewrite EQ in E.
        simpl in E. injection E as <- _. exists k, Qa', Qb. exact I. }
    clear I. destruct Hnorm as (k' & Qa' & Qb' & I). clear k Qa Qb.
    pose proof (inv_queue _ _ _ _ _ _ _ _ _ _ I) as E. rewrite EQ in E.
    simpl in E. injection E as Erest.
    assert (HcV : c ∈ Visited st).
    { apply (inv_queued _ _ _ _ _ _ _ _ _ _ I). rewrite EQ. left; reflexivity. }
    assert (Hlc : lev c = k').
    { apply (inv_Qa _ _ _ _ _ _ _ _ _ _ I). left; reflexivity. }
    destruct (decide (c = b)) as [->|Hcb].
    + exists true, (mkBfs (Visited st) (Parents st) rest).
      split; [reflexivity|]. split; [|discriminate]. intros _.
      exists k'. simpl. split; [rewrite <- Hlc; apply (inv_chain _ _ _ _ _ _ _ _ _ _ I), HcV|].
      split.
      * pose proof (inv_size _ _ _ _ _ _ _ _ _ _ I b HcV) as Hs.
        assert (size (Visited st) <= N)%nat by (apply HN, (inv_valid _ _ _ _ _ _ _ _ _ _ I)).
        lia.
      * intros m Hm. destruct (le_lt_dec m k') as [Hle|]; [|lia].
        destruct (inv_near _ _ _ _ _ _ _ _ _ _ I b m Hm Hle) as [_ Hl]. lia.
    + set (st1 := mkBfs (Visited st) (Parents st) rest).
      assert (I1 : bfs_inv pf a b lev k' Qa' Qb' c (GetWalkableNeighbors pf c) st1).
      { destruct I. subst st1. constructor; simpl in *.
        - exact Erest.
        - assumption.
        - assumption.
        - assumption.
        - assumption.
        - intros q Hq. apply inv_Qa0. right. exact Hq.
        - assumption.
        - intros q Hq. apply inv_queued0. rewrite EQ. right. exact Hq.
        - intros v Hv Hq. destruct (decide (v = c)) as [->|Hvc].
          + split; [lia|]. intros w Hw. right. split; [reflexivity | exact Hw].
          + assert (Hq' : ~ In v (Queue st)).
            { rewrite EQ. intros [?|?]; [congruence | contradiction]. }
            destruct (inv_done0 v Hv Hq') as [Hl Hc]. split; [exact Hl|].
            intros w Hw. destruct (Hc w Hw) as [?|[_ []]]. left; assumption.
        - assumption.
        - assumption.
        - intros Hb. specialize (inv_goal0 Hb). rewrite EQ in inv_goal0.
          destruct inv_goal0 as [?|?]; [congruence | assumption].
        - assumption.
        - intros w Hw. split; [exact Hw|]. split; [exact HcV | exact Hlc]. }
      destruct (visit_all_inv _ _ _ _ _ _ _ I1) as (lev2 & Qb2 & I2 & E2).
      apply (IH _ _ _ _ _ _ I2).
      rewrite E2. unfold bfs_measure in *. subst st1. simpl. rewrite EQ in Hmu. simpl in Hmu.
      lia.
Qed.


Lemma bfs_inv_initial u :
  bfs_inv pf a b (fun _ => O) O [a] [] u []
          (mkBfs {[a]} {[a := (-1, -1)]} [a]).
Proof.
  constructor; cbn [Visited Parents Queue].
  - reflexivity.
  - split; [set_solver | reflexivity].
  - intros v Hv. apply elem_of_singleton in Hv as ->.
    apply chain_O, lookup_singleton_eq.
  - intros v Hv. apply elem_of_singleton in Hv as ->. exact Ha.
  - intros v Hv. apply lookup_singleton_ne. set_solver.
  - reflexivity.
  - intros q [].
  - intros q [<-|[]]. set_solver.
  - intros v Hv Hq. apply elem_of_singleton in Hv as ->. exfalso. apply Hq. left; reflexivity.
  - intros; lia.
  - intros x m Hm Hk. assert (m = O) by lia. subst m.
    inversion Hm; subst. split; [set_solver | lia].
  - intros Hb. apply elem_of_singleton in Hb as ->. left; reflexivity.
  - intros v Hv. rewrite size_singleton. lia.
  - intros w [].
Qed.


Lemma bfs_from_start fuel :
  (N < fuel)%nat ->
  exists found st',
    bfs_loop fuel pf b (mkBfs {[a]} {[a := (-1, -1)]} [a]) = Some (found, st') /\
    (found = true ->
       exists n, chain pf (Parents st') a b n /\ (n < N)%nat /\
                 forall m, moves pf a m b -> (n <= m)%nat) /\
    (found = false -> forall m, ~ moves pf a m b).
Proof using Ha HN.
  intros Hfuel.
  apply (bfs_loop_spec fuel _ _ _ _ _ a (bfs_inv_initial a)).
  unfold bfs_measure. cbn [Visited Queue]. rewrite size_singleton. simpl.
  assert (H1 : (size ({[a]} : gset (Z * Z)) <= N)%nat).
  { apply HN. intros v Hv. apply elem_of_singleton in Hv as ->. exact Ha. }
  rewrite size_singleton in H1. lia.
Qed.

End BfsCorrect.

Section FindPathCorrect.
Import Scalar Pathfinder.

Lemma size_list_to_set_le (l : list (Z * Z)) :
  (size (list_to_set l : gset (Z * Z)) <= length l)%nat.
Proof.
  induction l as [|x l IH].
  - rewrite list_to_set_nil, size_empty. simpl. lia.
  - rewrite list_to_set_cons, size_union_alt, size_singleton. simpl length.
    assert (size (list_to_set l ∖ {[x]} : gset (Z * Z)) <= size (list_to_set l : gset (Z * Z)))%nat
      by (apply subseteq_size; set_solver).
    lia.
Qed.

Lemma length_coordinates W H :
  length (coordinates W H) = (Z.to_nat H * Z.to_nat W)%nat.
Proof.
  unfold coordinates.
  assert (E : forall l : list Z,
             length (flat_map (fun y => List.map (fun x => (x, y)) (range 0 (W - 1))) l)
             = (length l * Z.to_nat W)%nat).
  { induction l as [|y l IH]; simpl; [reflexivity|].
    rewrite length_app, IH, length_map. unfold range.
    rewrite length_map, length_seq. f_equal. lia. }
  rewrite E. unfold range. rewrite length_map, length_seq. f_equal. lia.
Qed.

Lemma in_coordinates W H c :
  In c (coordinates W H) <-> 0 <= fst c < W /\ 0 <= snd c < H.
Proof.
  unfold coordinates. rewrite in_flat_map. split.
  - intros (y & Hy & Hc). apply in_map_iff in Hc as (x & <- & Hx).
    apply in_range in Hx, Hy. simpl. lia.
  - intros [Hx Hy]. exists (snd c). split; [apply in_range; lia|].
    apply in_map_iff. exists (fst c). split; [destruct c; reflexivity|].
    apply in_range. lia.
Qed.

Lemma valid_cells_bounded (pf : UMazePathfinder) (V : gset (Z * Z)) :
  Z.of_nat (length (CachedCells pf)) = fst (MazeSize pf) * snd (MazeSize pf) ->
  (forall v, v ∈ V -> IsValidCell pf v = true) ->
  (size V <= length (CachedCells pf))%nat.
Proof.
  intros Hlen HV.
  set (l := coordinates (fst (MazeSize pf)) (snd (MazeSize pf))).
  assert (Hsub : V ⊆ list_to_set l).
  { intros v Hv. apply elem_of_list_to_set, list_elem_of_In, in_coordinates.
    apply IsValidCell_bounds, HV, Hv. }
  apply subseteq_size in Hsub.
  pose proof (size_list_to_set_le l) as Hle. subst l.
  rewrite length_coordinates in Hle.
  assert (Z.to_nat (snd (MazeSize pf)) * Z.to_nat (fst (MazeSize pf))
          <= length (CachedCells pf))%nat; [|lia].
  destruct (Z_lt_le_dec (fst (MazeSize pf)) 0), (Z_lt_le_dec (snd (MazeSize pf)) 0);
    try (replace (Z.to_nat (fst (MazeSize pf))) with O by lia; lia);
    try (replace (Z.to_nat (snd (MazeSize pf))) with O by lia; lia).
  nia.
Qed.

Variable vfmt : format.

(** C1.  On a pathfinder initialised with a cell array that matches its
    dimensions, for walkable cells [a] and [b] and any fuel above the number
    of cells, [FindPath] returns a result; the result is a success exactly
    when [b] is reachable from [a] by cardinal moves over walkable cells;
    and on success the returned coordinates are such a path from [a] to [b],
    [PathLength] is their number, and no path from [a] to [b] is shorter. *)
Theorem findpath_shortest :
  forall (InCells : list FMazeCell) (InMazeSize : FIntPoint) (InCellSize : float)
         (a b : FIntPoint) (fuel : nat),
    Z.of_nat (length InCells) = fst InMazeSize * snd InMazeSize ->
    let pf := Initialize InCells InMazeSize InCellSize in
    IsValidCell pf a = true ->
    IsValidCell pf b = true ->
    (length InCells < fuel)%nat ->
    exists r,
      FindPath vfmt fuel pf a b = Some r /\
      (bSuccess r = true <-> reachable pf a b) /\
      (bSuccess r = true ->
         PathLength r = Z.of_nat (length (PathGridCoordinates r)) /\
         is_path pf a b (PathGridCoordinates r) /\
         forall p, is_path pf a b p ->
                   (length (PathGridCoordinates r) <= length p)%nat).
Proof.
  intros InCells InMazeSize InCellSize a b fuel Hlen pf Ha Hb Hfuel.
  assert (Hinit : bIsInitialized pf = true).
  { subst pf. unfold Initialize. simpl. apply Z.eqb_eq, Hlen. }
  set (N := length InCells).
  assert (HN : forall V : gset (Z * Z),
             (forall v, v ∈ V -> IsValidCell pf v = true) -> (size V <= N)%nat).
  { intros V HV. apply (valid_cells_bounded pf V); [exact Hlen | exact HV]. }
  unfold FindPath. rewrite Hinit, Ha, Hb. cbn [negb].
  destruct (decide (a = b)) as [<-|Hab].
  - eexists. split; [reflexivity|]. cbn [bSuccess PathLength PathGridCoordinates].
    assert (P : is_path pf a a [a]).
    { repeat split. simpl. rewrite Ha. reflexivity. }
    split; [split; [intros _; exists [a]; exact P | reflexivity]|].
    intros _. split; [reflexivity|]. split; [exact P|].
    intros p (Hh & _ & _). destruct p; [discriminate | simpl; lia].
  - destruct (bfs_from_start pf a b Ha N HN fuel Hfuel)
      as (found & st' & E & Hfound & Hnot).
    rewrite E. destruct found.
    + destruct (Hfound eq_refl) as (n & Hch & HnN & Hmin).
      destruct (walk_parents_chain pf a Ha _ _ _ Hch fuel []) as (l & El & Hl & Hh & Hla & Hw);
        [unfold N in HnN; lia|].
      rewrite El. simpl app. eexists. split; [reflexivity|].
      cbn [bSuccess PathLength PathGridCoordinates].
      assert (P : is_path pf a b (rev l)) by (repeat split; assumption).
      split; [split; [intros _; exists (rev l); exact P | reflexivity]|].
      intros _. split; [reflexivity|]. split; [exact P|].
      intros p (Hph & Hpl & Hpw).
      pose proof (is_walkb_moves pf p a b Hpw Hph Hpl) as Hm.
      apply Hmin in Hm. rewrite length_rev.
      destruct p; [discriminate|]. simpl in *. lia.
    + eexists. split; [reflexivity|]. cbn [bSuccess FailedResult].
      split; [|discriminate]. split; [discriminate|].
      intros (p & Hph & Hpl & Hpw). exfalso.
      eapply (Hnot eq_refl), (is_walkb_moves pf p a b Hpw Hph Hpl).
Qed.

End FindPathCorrect.

Lemma findpath_shortest_witness :
  let cells :=
    flat_map (fun y => List.map (fun x => demo_cell x y true) [0; 1; 2]) [0; 1; 2] in
  let pf := Pathfinder.Initialize cells (3, 3) (Scalar.of_int Scalar.binary32 200) in
  exists r,
    Pathfinder.FindPath Scalar.binary64 10 pf (0, 0) (2, 2) = Some r /\
    (Pathfinder.bSuccess r = true <-> Pathfinder.reachable pf (0, 0) (2, 2)) /\
    (Pathfinder.bSuccess r = true ->
       Pathfinder.PathLength r
       = Z.of_nat (length (Pathfinder.PathGridCoordinates r)) /\
       Pathfinder.is_path pf (0, 0) (2, 2) (Pathfinder.PathGridCoordinates r) /\
       forall p, Pathfinder.is_path pf (0, 0) (2, 2) p ->
                 (length (Pathfinder.PathGridCoordinates r) <= length p)%nat).
Proof.
  apply (findpath_shortest Scalar.binary64
           (flat_map (fun y => List.map (fun x => demo_cell x y true) [0; 1; 2])
                     [0; 1; 2])
           (3, 3) (Scalar.of_int Scalar.binary32 200) (0, 0) (2, 2) 10);
    [reflexivity | reflexivity | reflexivity | simpl; lia].
Defined.

(** The search on the open 3 x 3 grid, run. *)
Example findpath_demo :
  option_map Pathfinder.PathGridCoordinates
    (Pathfinder.FindPath Scalar.binary64 10 demo_open_3x3 (0, 0) (2, 2))
  = Some [(0, 0); (1, 0); (2, 0); (2, 1); (2, 2)].
Proof. vm_compute. reflexivity. Qed.

(* --------------------------------------------------------------------- *)
(** ** MazeGenerator: the three algorithms and the cell array             *)
(* --------------------------------------------------------------------- *)

(* --------------------------------------------------------------------- *)
(** ** Containers and grids                                               *)
(* --------------------------------------------------------------------- *)

Section Containers.
Import Generator Rooms.

Lemma bind_Ok {A B} (f : A -> outcome B) (a : A) : (Ok a ≫= f) = f a.
Proof. reflexivity. Qed.

Lemma bind_is_Ok {A B} (m : outcome A) (f : A -> outcome B) b :
  (m ≫= f) = Ok b -> exists a, m = Ok a /\ f a = Ok b.
Proof. destruct m; simpl; try discriminate. eauto. Qed.

Lemma tarray_get_Ok {A} (l : list A) i :
  0 <= i < Z.of_nat (length l) ->
  exists a, tarray_get l i = Ok a /\ l !! Z.to_nat i = Some a.
Proof.
  intros Hi. unfold tarray_get.
  destruct (i <? 0) eqn:E; [apply Z.ltb_lt in E; lia|].
  destruct (l !! Z.to_nat i) as [a|] eqn:El; [eauto|].
  apply lookup_ge_None in El. lia.
Qed.

Lemma tarray_get_Fault {A} (l : list A) i :
  ~ (0 <= i < Z.of_nat (length l)) -> tarray_get l i = Fault.
Proof.
  intros Hi. unfold tarray_get.
  destruct (i <? 0) eqn:E; [reflexivity|]. apply Z.ltb_ge in E.
  destruct (l !! Z.to_nat i) as [a|] eqn:El; [|reflexivity].
  apply lookup_lt_Some in El. lia.
Qed.

Lemma tarray_set_Ok {A} (l : list A) i a :
  0 <= i < Z.of_nat (length l) ->
  tarray_set l i a = Ok (<[Z.to_nat i := a]> l).
Proof.
  intros Hi. unfold tarray_set.
  destruct (i <? 0) eqn:E1; [apply Z.ltb_lt in E1; lia|].
  destruct (Z.of_nat (length l) <=? i) eqn:E2; [apply Z.leb_le in E2; lia|].
  reflexivity.
Qed.

Lemma tarray_get_insert_eq {A} (l : list A) i a :
  0 <= i < Z.of_nat (length l) ->
  tarray_get (<[Z.to_nat i := a]> l) i = Ok a.
Proof.
  intros Hi. unfold tarray_get.
  destruct (i <? 0) eqn:E; [apply Z.ltb_lt in E; lia|].
  rewrite list_lookup_insert_eq by lia. reflexivity.
Qed.

Lemma tarray_get_insert_ne {A} (l : list A) i j a :
  0 <= i -> i <> j ->
  tarray_get (<[Z.to_nat i := a]> l) j = tarray_get l j.
Proof.
  intros Hi Hne. unfold tarray_get.
  destruct (j <? 0) eqn:E; [reflexivity|]. apply Z.ltb_ge in E.
  rewrite list_lookup_insert_ne by lia. reflexivity.
Qed.

Lemma grid_get_cell W H g c :
  grid_shape W H g -> in_grid W H c ->
  grid_get g (fst c) (snd c) = Ok (cell g c).
Proof.
  intros [HH HW] [Hx Hy]. unfold cell, grid_get.
  destruct (tarray_get_Ok g (snd c)) as (Row & -> & HRow); [lia|]. simpl.
  assert (Z.of_nat (length Row) = W).
  { apply HW. apply list_elem_of_In. eapply list_elem_of_lookup_2; eauto. }
  destruct (tarray_get_Ok Row (fst c)) as (v & -> & _); [lia|]. reflexivity.
Qed.

Lemma cell_outside W H g c :
  grid_shape W H g -> ~ in_grid W H c -> cell g c = 0.
Proof.
  intros [HH HW] Hc. unfold cell, grid_get.
  destruct (Z_lt_le_dec (snd c) 0) as [?|?];
    [rewrite tarray_get_Fault by lia; reflexivity|].
  destruct (Z_lt_le_dec (snd c) H) as [?|?];
    [|rewrite tarray_get_Fault by lia; reflexivity].
  destruct (tarray_get_Ok g (snd c)) as (Row & -> & HRow); [lia|]. simpl.
  assert (Z.of_nat (length Row) = W).
  { apply HW. apply list_elem_of_In. eapply list_elem_of_lookup_2; eauto. }
  rewrite tarray_get_Fault; [reflexivity|]. unfold in_grid in Hc. lia.
Qed.

Lemma grid_set_spec W H g c v :
  grid_shape W H g -> in_grid W H c ->
  exists g', grid_set g (fst c) (snd c) v = Ok g' /\
             grid_shape W H g' /\
             forall c', cell g' c' = if decide (c' = c) then v else cell g c'.
Proof.
  intros [HH HW] [Hx Hy]. unfold grid_set.
  destruct (tarray_get_Ok g (snd c)) as (Row & -> & HRow); [lia|]. simpl.
  assert (HRowW : Z.of_nat (length Row) = W).
  { apply HW. apply list_elem_of_In. eapply list_elem_of_lookup_2; eauto. }
  rewrite tarray_set_Ok by lia. simpl. rewrite tarray_set_Ok by lia.
  eexists. split; [reflexivity|]. split.
  - split; [rewrite length_insert; exact HH|].
    intros Row' HRow'. apply list_elem_of_In, list_elem_of_lookup in HRow' as [i Hi].
    destruct (decide (i = Z.to_nat (snd c))) as [->|Hne].
    + rewrite list_lookup_insert_eq in Hi by lia. injection Hi as <-.
      rewrite length_insert. exact HRowW.
    + rewrite list_lookup_insert_ne in Hi by congruence.
      apply HW, list_elem_of_In. eapply list_elem_of_lookup_2; eauto.
  - intros [x' y']. destruct c as [x y]. simpl in *. unfold cell, grid_get. simpl.
    destruct (decide ((x', y') = (x, y))) as [E|Hne].
    + injection E as -> ->.
      rewrite tarray_get_insert_eq by lia. simpl.
      rewrite tarray_get_insert_eq by lia. reflexivity.
    + destruct (decide (y' = y)) as [->|Hy'].
      * rewrite tarray_get_insert_eq by lia. simpl.
        rewrite tarray_get_insert_ne by (try lia; intros E2; apply Hne; f_equal; lia).
        destruct (tarray_get_Ok g y) as (Row2 & -> & HRow2); [lia|]. simpl.
        rewrite HRow in HRow2. injection HRow2 as <-. reflexivity.
      * rewrite tarray_get_insert_ne by lia. reflexivity.
Qed.

Lemma grid_or_spec W H g c v :
  grid_shape W H g -> in_grid W H c ->
  exists g', grid_or g (fst c) (snd c) v = Ok g' /\
             grid_shape W H g' /\
             forall c', cell g' c' =
                        if decide (c' = c) then Z.lor (cell g c') v else cell g c'.
Proof.
  intros Hs Hc. unfold grid_or. rewrite (grid_get_cell W H) by assumption. simpl.
  destruct (grid_set_spec W H g c (Z.lor (cell g c) v) Hs Hc) as (g' & E & Hs' & Hc').
  exists g'. split; [exact E|]. split; [exact Hs'|].
  intros c'. rewrite Hc'. destruct (decide (c' = c)) as [->|]; reflexivity.
Qed.


Lemma for_each_ext {A S} (l : list A) (f g : A -> S -> outcome S) (s : S) :
  (forall a s, f a s = g a s) -> for_each l f s = for_each l g s.
Proof.
  intros E. revert s. induction l as [|a l IH]; intros s; simpl; [reflexivity|].
  rewrite E. destruct (g a s); simpl; auto.
Qed.

(** A loop whose body keeps an invariant, without faulting, keeps it. *)
Lemma for_each_invariant {A S} (P : S -> Prop) (l : list A)
    (body : A -> S -> outcome S) (s : S) :
  P s ->
  (forall a s, In a l -> P s -> exists s', body a s = Ok s' /\ P s') ->
  exists s', for_each l body s = Ok s' /\ P s'.
Proof.
  revert s. induction l as [|a l IH]; intros s Hs Hbody; simpl.
  - eauto.
  - destruct (Hbody a s (or_introl eq_refl) Hs) as (s1 & -> & Hs1). simpl.
    apply IH; [exact Hs1|]. intros a' s' Ha'. apply Hbody. right. exact Ha'.
Qed.

Lemma for_each_nil_range {S} lo hi (body : Z -> S -> outcome S) (s : S) :
  hi < lo -> for_each (range lo hi) body s = Ok s.
Proof. intros H. rewrite range_nil by assumption. reflexivity. Qed.

Lemma fill_rows {A} (R Rinit : A) n : forall k,
  for_each (List.map (fun i => Z.of_nat k + Z.of_nat i) (seq 0 n))
           (fun Y G => tarray_set G Y R)
           (replicate k R ++ replicate n Rinit)
  = Ok (replicate (k + n) R).
Proof.
  induction n as [|n IH]; intros k.
  - simpl. rewrite app_nil_r, Nat.add_0_r. reflexivity.
  - cbn [seq List.map for_each].
    rewrite tarray_set_Ok
      by (rewrite length_app, !length_replicate; lia).
    rewrite bind_Ok.
    replace (Z.to_nat (Z.of_nat k + Z.of_nat 0))
      with (length (replicate k R) + 0)%nat
      by (rewrite length_replicate; lia).
    rewrite insert_app_r. cbn [replicate].
    change (<[0%nat:=R]> (Rinit :: replicate n Rinit)) with (R :: replicate n Rinit).
    rewrite <- seq_shift, List.map_map.
    replace (replicate k R ++ R :: replicate n Rinit)
      with (replicate (S k) R ++ replicate n Rinit)
      by (rewrite replicate_S_end, <- app_assoc; reflexivity).
    rewrite (List.map_ext (fun x => Z.of_nat k + Z.of_nat (S x))
                          (fun i => Z.of_nat (S k) + Z.of_nat i))
      by (intros; lia).
    rewrite IH. f_equal. f_equal. lia.
Qed.

Lemma CreateZeroedGrid_Ok W H :
  0 <= W -> 0 <= H ->
  CreateZeroedGrid (W, H)
  = Ok (replicate (Z.to_nat H) (replicate (Z.to_nat W) 0)).
Proof.
  intros HW HH. unfold CreateZeroedGrid, SetNum. simpl.
  destruct (H <? 0) eqn:E; [apply Z.ltb_lt in E; lia|]. simpl.
  destruct (W <? 0) eqn:E'; [apply Z.ltb_lt in E'; lia|].
  unfold range. replace (Z.to_nat (H - 1 - 0 + 1)) with (Z.to_nat H) by lia.
  pose proof (fill_rows (replicate (Z.to_nat W) 0) [] (Z.to_nat H) O) as F.
  simpl in F. erewrite for_each_ext; [exact F|].
  intros Y G. reflexivity.
Qed.


Lemma zeroed_grid_shape W H :
  0 <= W -> 0 <= H ->
  grid_shape W H (replicate (Z.to_nat H) (replicate (Z.to_nat W) 0)).
Proof.
  intros HW HH. split; [rewrite length_replicate; lia|].
  intros Row HRow. apply list_elem_of_In, elem_of_replicate in HRow as [-> _].
  rewrite length_replicate. lia.
Qed.

Lemma zeroed_grid_cell W H c :
  cell (replicate (Z.to_nat H) (replicate (Z.to_nat W) 0)) c = 0.
Proof.
  unfold cell, grid_get, tarray_get.
  destruct (snd c <? 0); [reflexivity|].
  destruct (replicate (Z.to_nat H) _ !! Z.to_nat (snd c)) as [Row|] eqn:E;
    [|reflexivity].
  apply lookup_replicate in E as [-> _]. simpl.
  destruct (fst c <? 0); [reflexivity|].
  destruct (replicate (Z.to_nat W) 0 !! Z.to_nat (fst c)) as [v|] eqn:E;
    [|reflexivity].
  apply lookup_replicate in E as [-> _]. reflexivity.
Qed.

Lemma in_bounds_check_spec W H g x y :
  grid_shape W H g -> 0 < H ->
  exists b, in_bounds_check g x y = Ok b /\ (b = true <-> in_grid W H (x, y)).
Proof.
  intros [HH HW] HHpos. unfold in_bounds_check, in_grid. simpl.
  destruct (x >=? 0) eqn:Ex; simpl.
  - destruct (tarray_get_Ok g 0) as (Row0 & -> & HRow0); [lia|]. simpl.
    assert (Z.of_nat (length Row0) = W).
    { apply HW, list_elem_of_In. eapply list_elem_of_lookup_2; eauto. }
    eexists. split; [reflexivity|].
    rewrite !andb_true_iff, !Z.ltb_lt, Z.geb_le. apply Z.geb_le in Ex. lia.
  - exists false. split; [reflexivity|]. split; [discriminate|].
    rewrite Z.geb_leb in Ex. apply Z.leb_gt in Ex. lia.
Qed.

Lemma in_bounds_and_zero_spec W H g x y :
  grid_shape W H g -> 0 < H ->
  exists b, in_bounds_and_zero g x y = Ok b /\
            (b = true <-> in_grid W H (x, y) /\ cell g (x, y) = 0).
Proof.
  intros Hs HH. unfold in_bounds_and_zero.
  destruct (in_bounds_check_spec W H g x y Hs HH) as (b & -> & Hb). simpl.
  destruct b.
  - assert (Hin : in_grid W H (x, y)) by (apply Hb; reflexivity).
    change x with (fst (x, y)) at 1. change y with (snd (x, y)) at 2.
    rewrite (grid_get_cell W H) by assumption. simpl.
    eexists. split; [reflexivity|]. rewrite Z.eqb_eq. tauto.
  - exists false. split; [reflexivity|]. split; [discriminate|].
    intros [Hin _]. apply Hb in Hin. discriminate.
Qed.

End Containers.

Section Shuffling.
Import Generator.
Context {R : Type} {RS : RandomStream R}.

Lemma Swap_spec {A} (l : list A) i j :
  0 <= i < Z.of_nat (length l) -> 0 <= j < Z.of_nat (length l) ->
  exists l', Swap l i j = Ok l' /\ length l' = length l /\
             forall x, In x l' <-> In x l.
Proof.
  intros Hi Hj. unfold Swap.
  destruct (tarray_get_Ok l i Hi) as (a & -> & Ha).
  destruct (tarray_get_Ok l j Hj) as (b & -> & Hb). simpl.
  rewrite tarray_set_Ok by lia. simpl.
  rewrite tarray_set_Ok by (rewrite length_insert; lia).
  eexists. split; [reflexivity|]. split; [rewrite !length_insert; reflexivity|].
  intros x. rewrite <- !list_elem_of_In. split.
  - intros Hx. apply list_elem_of_lookup in Hx as [k Hk].
    destruct (decide (k = Z.to_nat j)) as [->|Hkj].
    + rewrite list_lookup_insert_eq in Hk by (rewrite length_insert; lia).
      injection Hk as <-. eapply list_elem_of_lookup_2; eauto.
    + rewrite list_lookup_insert_ne in Hk by congruence.
      destruct (decide (k = Z.to_nat i)) as [->|Hki].
      * rewrite list_lookup_insert_eq in Hk by lia.
        injection Hk as <-. eapply list_elem_of_lookup_2; eauto.
      * rewrite list_lookup_insert_ne in Hk by congruence.
        eapply list_elem_of_lookup_2; eauto.
  - intros Hx. apply list_elem_of_lookup in Hx as [k Hk].
    destruct (decide (k = Z.to_nat i)) as [->|Hki].
    + assert (x = a) by congruence. subst x.
      apply list_elem_of_lookup. exists (Z.to_nat j).
      apply list_lookup_insert_eq. rewrite length_insert. lia.
    + destruct (decide (k = Z.to_nat j)) as [->|Hkj].
      * assert (x = b) by congruence. subst x.
        apply list_elem_of_lookup.
        destruct (decide (Z.to_nat i = Z.to_nat j)) as [E|Hij].
        -- exists (Z.to_nat j). rewrite list_lookup_insert_eq
             by (rewrite length_insert; lia). congruence.
        -- exists (Z.to_nat i). rewrite list_lookup_insert_ne by congruence.
           apply list_lookup_insert_eq. lia.
      * apply list_elem_of_lookup. exists k.
        rewrite !list_lookup_insert_ne by congruence. exact Hk.
Qed.

(** The shuffle does not fault and keeps the elements of the array. *)
Lemma ShuffleArray_spec {A} (l : list A) (Random : R) :
  exists l' Random', ShuffleArray l Random = Ok (l', Random') /\
                     length l' = length l /\
                     forall x, In x l' <-> In x l.
Proof.
  unfold ShuffleArray.
  set (P := fun st : list A * R => length (fst st) = length l /\
                                   forall x, In x (fst st) <-> In x l).
  destruct (for_each_invariant P
              (range 0 (Z.of_nat (length l) - 1))
              (fun i '(Array, Random) =>
                 let '(SwapIndex, Random) :=
                   RandRange i (Z.of_nat (length l) - 1) Random in
                 if negb (i =? SwapIndex) then
                   Array ← Swap Array i SwapIndex; Ok (Array, Random)
                 else Ok (Array, Random))
              (l, Random)) as ([l' Random'] & E & Hlen & Hel).
  - split; [reflexivity | tauto].
  - intros i [Array Rnd] Hi [Hlen Hel]. simpl in Hlen, Hel.
    apply in_range in Hi.
    pose proof (RandRange_range i (Z.of_nat (length l) - 1) Rnd (proj2 Hi)) as Hr.
    destruct (RandRange i (Z.of_nat (length l) - 1) Rnd) as [SwapIndex Rnd'].
    simpl in Hr. destruct (negb (i =? SwapIndex)).
    + destruct (Swap_spec Array i SwapIndex) as (Array' & -> & Hlen' & Hel');
        [lia | lia |]. simpl.
      eexists. split; [reflexivity|]. split; simpl; [congruence|].
      intros x. rewrite Hel'. apply Hel.
    + eexists. split; [reflexivity|]. split; assumption.
  - exists l', Random'. split; [exact E|]. split; assumption.
Qed.

End Shuffling.


(* --------------------------------------------------------------------- *)
(** ** Direction bits, passages and joined rooms                          *)
(* --------------------------------------------------------------------- *)

Section RoomGraph.
Import Generator Rooms.

Lemma has_dir_lor v b d : has_dir (Z.lor v b) d = has_dir v d || has_dir b d.
Proof.
  unfold has_dir. rewrite Z.land_lor_distr_l.
  destruct (Z.land v (dir_byte d) =? 0) eqn:E1, (Z.land b (dir_byte d) =? 0) eqn:E2;
    simpl; rewrite ?Z.eqb_eq, ?Z.eqb_neq in *.
  - rewrite E1, E2. reflexivity.
  - apply negb_true_iff, Z.eqb_neq. intros E. apply Z.lor_eq_0_iff in E. tauto.
  - apply negb_true_iff, Z.eqb_neq. intros E. apply Z.lor_eq_0_iff in E. tauto.
  - apply negb_true_iff, Z.eqb_neq. intros E. apply Z.lor_eq_0_iff in E. tauto.
Qed.

Lemma has_dir_zero d : has_dir 0 d = false.
Proof. destruct d; reflexivity. Qed.

Lemma has_dir_byte d e :
  is_direction e -> has_dir (dir_byte d) e = bool_decide (d = e).
Proof. unfold is_direction. destruct d, e; intros; try reflexivity; congruence. Qed.

Lemma has_dir_flags d :
  has_dir PrimState_Frontier d = false /\ has_dir PrimState_In d = false.
Proof. destruct d; split; reflexivity. Qed.

Lemma opposite_involutive d : GetOppositeDirection (GetOppositeDirection d) = d.
Proof. destruct d; reflexivity. Qed.

Lemma opposite_is_direction d : is_direction d -> is_direction (GetOppositeDirection d).
Proof. unfold is_direction. destruct d; simpl; congruence. Qed.

Lemma step_back c d : step (step c d) (GetOppositeDirection d) = c.
Proof. destruct c as [x y], d; unfold step; simpl; f_equal; lia. Qed.

Lemma step_neq c d : is_direction d -> step c d <> c.
Proof.
  unfold is_direction. destruct c as [x y], d; unfold step; simpl; intros H E;
    try congruence; injection E; lia.
Qed.

Lemma step_injective c c' d : step c d = step c' d -> c = c'.
Proof.
  destruct c as [x y], c' as [x' y']. unfold step. simpl. intros E.
  injection E. intros. f_equal; lia.
Qed.

Lemma passage_open_sym g c d :
  passage_open g (step c d) (GetOppositeDirection d) = passage_open g c d.
Proof.
  unfold passage_open. rewrite step_back, opposite_involutive. apply andb_comm.
Qed.

Lemma carve_spec W H g X Y d :
  grid_shape W H g -> in_grid W H (X, Y) -> in_grid W H (step (X, Y) d) ->
  exists g0 g',
    grid_or g X Y (dir_byte d) = Ok g0 /\
    grid_or g0 (X + GetDirectionDeltaX d) (Y + GetDirectionDeltaY d)
            (dir_byte (GetOppositeDirection d)) = Ok g' /\
    grid_shape W H g' /\ carved g g' (X, Y) d.
Proof.
  intros Hs Hc Hc'.
  destruct (grid_or_spec W H g (X, Y) (dir_byte d) Hs Hc) as (g1 & E1 & Hs1 & Hc1).
  destruct (grid_or_spec W H g1 (step (X, Y) d) (dir_byte (GetOppositeDirection d)) Hs1 Hc')
    as (g' & E' & Hs' & Hcell').
  exists g1, g'. split; [exact E1|]. split; [exact E'|]. split; [exact Hs'|].
  intros x. rewrite Hcell', Hc1.
  destruct (decide (x = step (X, Y) d)), (decide (x = (X, Y)));
    rewrite ?Z.lor_0_r; reflexivity.
Qed.

Lemma carved_has_dir g g' c d x e :
  carved g g' c d -> is_direction d -> is_direction e ->
  has_dir (cell g' x) e =
  has_dir (cell g x) e || bool_decide (x = c /\ e = d)
  || bool_decide (x = step c d /\ e = GetOppositeDirection d).
Proof.
  intros Hc Hd He. rewrite Hc, !has_dir_lor. f_equal; [f_equal|].
  - destruct (decide (x = c)) as [->|Hne].
    + rewrite has_dir_byte by assumption.
      apply bool_decide_ext. split; [intros ->; auto | intros [_ ->]; reflexivity].
    + rewrite has_dir_zero. symmetry. apply bool_decide_eq_false. tauto.
  - destruct (decide (x = step c d)) as [->|Hne].
    + rewrite has_dir_byte by assumption.
      apply bool_decide_ext. split; [intros ->; auto | intros [_ ->]; reflexivity].
    + rewrite has_dir_zero. symmetry. apply bool_decide_eq_false. tauto.
Qed.

Lemma carved_nonzero g g' c d x :
  carved g g' c d -> cell g x <> 0 -> cell g' x <> 0.
Proof.
  intros Hc Hx E. rewrite Hc in E.
  apply Z.lor_eq_0_iff in E as [E _]. apply Z.lor_eq_0_iff in E as [E _]. tauto.
Qed.

Lemma carved_other g g' c d x :
  carved g g' c d -> x <> c -> x <> step c d -> cell g' x = cell g x.
Proof.
  intros Hc H1 H2. rewrite Hc, !decide_False by assumption.
  rewrite !Z.lor_0_r. reflexivity.
Qed.

Lemma carved_ends_nonzero g g' c d :
  carved g g' c d -> is_direction d ->
  cell g' c <> 0 /\ cell g' (step c d) <> 0.
Proof.
  intros Hc Hd. split; intros E; rewrite Hc in E.
  - apply Z.lor_eq_0_iff in E as [E _]. apply Z.lor_eq_0_iff in E as [_ E].
    rewrite decide_True in E by reflexivity. destruct d; simpl in E; try discriminate.
    apply Hd; reflexivity.
  - apply Z.lor_eq_0_iff in E as [_ E].
    rewrite decide_True in E by reflexivity. destruct d; simpl in E; try discriminate.
    apply Hd; reflexivity.
Qed.


(** *** Counting over lists without duplicates *)

Lemma filter_length_flip {A} (P Q : A -> bool) (l : list A) (x0 : A) :
  NoDup l -> In x0 l -> P x0 = false -> Q x0 = true ->
  (forall x, In x l -> x <> x0 -> Q x = P x) ->
  length (List.filter Q l) = S (length (List.filter P l)).
Proof.
  intros Hnd. induction Hnd as [|x l Hx Hnd IH]; intros Hin HP HQ Hsame; [destruct Hin|].
  simpl. destruct Hin as [->|Hin].
  - rewrite HP, HQ. simpl. f_equal. f_equal. apply List.filter_ext_in.
    intros y Hy. apply Hsame; [right; exact Hy|].
    intros ->. apply Hx, list_elem_of_In, Hy.
  - assert (Hne : x <> x0) by (intros ->; apply Hx, list_elem_of_In, Hin).
    rewrite (Hsame x (or_introl eq_refl) Hne).
    assert (E : length (List.filter Q l) = S (length (List.filter P l))).
    { apply IH; auto. intros y Hy. apply Hsame. right. exact Hy. }
    destruct (P x); simpl; rewrite E; reflexivity.
Qed.

Lemma filter_length_same {A} (P Q : A -> bool) (l : list A) :
  (forall x, In x l -> Q x = P x) ->
  length (List.filter Q l) = length (List.filter P l).
Proof. intros H. f_equal. apply List.filter_ext_in, H. Qed.

Lemma filter_length_all {A} (P : A -> bool) (l : list A) :
  (forall x, In x l -> P x = true) -> length (List.filter P l) = length l.
Proof.
  induction l as [|x l IH]; intros H; simpl; [reflexivity|].
  rewrite (H x (or_introl eq_refl)). simpl. f_equal. apply IH.
  intros y Hy. apply H. right. exact Hy.
Qed.

Lemma filter_length_none {A} (P : A -> bool) (l : list A) :
  (forall x, In x l -> P x = false) -> length (List.filter P l) = O.
Proof.
  induction l as [|x l IH]; intros H; simpl; [reflexivity|].
  rewrite (H x (or_introl eq_refl)). apply IH.
  intros y Hy. apply H. right. exact Hy.
Qed.

Lemma flat_map_bind {A B} (f : A -> list B) (l : list A) : flat_map f l = l ≫= f.
Proof. induction l as [|x l IH]; simpl; [reflexivity|]. rewrite IH. reflexivity. Qed.

Lemma NoDup_range lo hi : NoDup (range lo hi).
Proof.
  unfold range.
  apply (NoDup_fmap_2_strong (fun i => lo + Z.of_nat i)); [|apply NoDup_seq].
  intros i j _ _ E. lia.
Qed.

Lemma NoDup_coordinates W H : NoDup (coordinates W H).
Proof.
  unfold coordinates. rewrite flat_map_bind. apply NoDup_bind.
  - intros y1 y2 c _ _ H1 H2.
    apply list_elem_of_In, in_map_iff in H1 as (x1 & <- & _).
    apply list_elem_of_In, in_map_iff in H2 as (x2 & E & _). congruence.
  - intros y _. apply (NoDup_fmap_2_strong (fun x => (x, y))); [|apply NoDup_range].
    intros x1 x2 _ _ E. congruence.
  - apply NoDup_range.
Qed.

Lemma in_room_passages W H c d :
  In (c, d) (room_passages W H) <->
  in_grid W H c /\ in_grid W H (step c d) /\ (d = East \/ d = South).
Proof.
  unfold room_passages, in_grid. rewrite in_flat_map. split.
  - intros (c0 & Hc0 & Hin). apply in_coordinates in Hc0.
    apply in_app_or in Hin as [Hin|Hin].
    + destruct (fst c0 + 1 <? W) eqn:E; [|destruct Hin].
      destruct Hin as [Hin|[]]. injection Hin as <- <-.
      apply Z.ltb_lt in E. unfold step. simpl. intuition lia.
    + destruct (snd c0 + 1 <? H) eqn:E; [|destruct Hin].
      destruct Hin as [Hin|[]]. injection Hin as <- <-.
      apply Z.ltb_lt in E. unfold step. simpl. intuition lia.
  - intros (Hc & Hc' & Hd). exists c. split; [apply in_coordinates; exact Hc|].
    apply in_or_app. unfold step in Hc'. simpl in Hc'.
    destruct Hd as [-> | ->]; simpl in Hc'.
    + left. destruct (fst c + 1 <? W) eqn:E; [left; reflexivity|].
      apply Z.ltb_ge in E. lia.
    + right. destruct (snd c + 1 <? H) eqn:E; [left; reflexivity|].
      apply Z.ltb_ge in E. lia.
Qed.

Lemma NoDup_room_passages W H : NoDup (room_passages W H).
Proof.
  unfold room_passages. rewrite flat_map_bind. apply NoDup_bind.
  - intros c1 c2 p _ _ H1 H2.
    assert (F : forall c, p ∈ (if fst c + 1 <? W then [(c, East)] else []) ++
                              (if snd c + 1 <? H then [(c, South)] else []) ->
                          fst p = c).
    { intros c Hp. apply list_elem_of_In, in_app_or in Hp as [Hp|Hp].
      - destruct (fst c + 1 <? W); [|destruct Hp]. destruct Hp as [<-|[]]. reflexivity.
      - destruct (snd c + 1 <? H); [|destruct Hp]. destruct Hp as [<-|[]]. reflexivity. }
    rewrite <- (F c1 H1). apply F, H2.
  - intros c _. destruct (fst c + 1 <? W), (snd c + 1 <? H); simpl;
      repeat constructor; set_solver.
  - apply NoDup_coordinates.
Qed.

(** *** Carving a passage adds one open passage *)

Lemma open_passages_carve W H g g' c d :
  carved g g' c d -> is_direction d ->
  in_grid W H c -> in_grid W H (step c d) ->
  passage_open g c d = false ->
  open_passages W H g' = S (open_passages W H g).
Proof.
  intros Hcv Hd Hc Hc' Hclosed. unfold open_passages.
  set (p0 := if decide (d = East \/ d = South) then (c, d)
             else (step c d, GetOppositeDirection d)).
  assert (Hp0 : In p0 (room_passages W H)).
  { subst p0. destruct (decide (d = East \/ d = South)) as [Hes|Hwn].
    - apply in_room_passages. tauto.
    - apply in_room_passages. rewrite step_back.
      split; [exact Hc'|]. split; [exact Hc|].
      unfold is_direction in Hd. destruct d; simpl; tauto. }
  assert (Hopen' : forall x e, is_direction e ->
             passage_open g' x e =
             (has_dir (cell g x) e || bool_decide (x = c /\ e = d)
              || bool_decide (x = step c d /\ e = GetOppositeDirection d)) &&
             (has_dir (cell g (step x e)) (GetOppositeDirection e)
              || bool_decide (step x e = c /\ GetOppositeDirection e = d)
              || bool_decide (step x e = step c d /\
                              GetOppositeDirection e = GetOppositeDirection d))).
  { intros x e He. unfold passage_open.
    rewrite !(carved_has_dir g g' c d) by (auto using opposite_is_direction).
    reflexivity. }
  apply (filter_length_flip _ _ _ p0 (NoDup_room_passages W H) Hp0).
  - subst p0. destruct (decide (d = East \/ d = South)); simpl; [exact Hclosed|].
    rewrite passage_open_sym. exact Hclosed.
  - subst p0. destruct (decide (d = East \/ d = South)); simpl.
    + rewrite Hopen' by assumption.
      rewrite (bool_decide_eq_true_2 (c = c /\ d = d)) by auto.
      rewrite (bool_decide_eq_true_2 (step c d = step c d /\ _)) by auto.
      rewrite !orb_true_r. reflexivity.
    + rewrite Hopen' by (apply opposite_is_direction; assumption).
      rewrite step_back, opposite_involutive.
      rewrite (bool_decide_eq_true_2 (step c d = step c d /\ _)) by auto.
      rewrite (bool_decide_eq_true_2 (c = c /\ d = d)) by auto.
      rewrite !orb_true_r. reflexivity.
  - intros [x e] Hin Hne. simpl.
    apply in_room_passages in Hin as (Hx & Hx' & He).
    assert (Hed : is_direction e) by (destruct He as [-> | ->]; discriminate).
    rewrite Hopen' by assumption. unfold passage_open.
    assert (B1 : bool_decide (x = c /\ e = d) = false).
    { apply bool_decide_eq_false. intros [-> ->]. apply Hne. subst p0.
      rewrite decide_True by assumption. reflexivity. }
    assert (B2 : bool_decide (x = step c d /\ e = GetOppositeDirection d) = false).
    { apply bool_decide_eq_false. intros [-> ->]. apply Hne. subst p0.
      rewrite decide_False; [reflexivity|].
      destruct d; simpl in He; intuition discriminate. }
    assert (B3 : bool_decide (step x e = c /\ GetOppositeDirection e = d) = false).
    { apply bool_decide_eq_false. intros [<- <-]. apply Hne. subst p0.
      rewrite decide_False by (destruct e; simpl; intuition discriminate).
      rewrite step_back, opposite_involutive. reflexivity. }
    assert (B4 : bool_decide (step x e = step c d /\
                   GetOppositeDirection e = GetOppositeDirection d) = false).
    { apply bool_decide_eq_false. intros [E1 E2].
      assert (e = d) by (destruct e, d; simpl in E2; congruence). subst e.
      apply step_injective in E1. subst x. apply Hne. subst p0.
      rewrite decide_True by assumption. reflexivity. }
    rewrite B1, B2, B3, B4, !orb_false_r. reflexivity.
Qed.

(** Bytes that differ only outside the direction bits count the same. *)
Lemma open_passages_same W H g g' :
  (forall x e, is_direction e -> has_dir (cell g' x) e = has_dir (cell g x) e) ->
  open_passages W H g' = open_passages W H g.
Proof.
  intros Hsame. unfold open_passages. apply filter_length_same.
  intros [x e] Hin. simpl. apply in_room_passages in Hin as (_ & _ & He).
  assert (Hed : is_direction e) by (destruct He as [-> | ->]; discriminate).
  unfold passage_open.
  rewrite !Hsame by (auto using opposite_is_direction). reflexivity.
Qed.


(** *** Joined rooms *)

Lemma joined_mono W H g g' a b :
  (forall x e, is_direction e -> has_dir (cell g x) e = true ->
               has_dir (cell g' x) e = true) ->
  joined W H g a b -> joined W H g' a b.
Proof.
  intros Hm. induction 1 as [c|c c' Hl|c c' _ IH|c c' c'' _ IH1 _ IH2].
  - apply joined_refl.
  - apply joined_link. destruct Hl as (d & Hd & -> & Hc & Hc' & Ho).
    exists d. repeat split; try assumption; try apply Hc; try apply Hc'.
    unfold passage_open in *. apply andb_true_iff in Ho as [H1 H2].
    rewrite (Hm _ _ Hd H1), (Hm _ _ (opposite_is_direction d Hd) H2). reflexivity.
  - apply joined_sym, IH.
  - eapply joined_trans; eauto.
Qed.

Lemma carved_mono g g' c d x e :
  carved g g' c d -> has_dir (cell g x) e = true -> has_dir (cell g' x) e = true.
Proof.
  intros Hc Hx. rewrite Hc, !has_dir_lor, Hx. reflexivity.
Qed.

Lemma carved_link W H g g' c d :
  carved g g' c d -> is_direction d ->
  in_grid W H c -> in_grid W H (step c d) ->
  link W H g' c (step c d).
Proof.
  intros Hcv Hd Hc Hc'. exists d. repeat split; try assumption;
    try apply Hc; try apply Hc'.
  unfold passage_open.
  rewrite !(carved_has_dir g g' c d) by (auto using opposite_is_direction).
  rewrite (bool_decide_eq_true_2 (c = c /\ d = d)) by auto.
  rewrite (bool_decide_eq_true_2 (step c d = step c d /\ _)) by auto.
  rewrite !orb_true_r. reflexivity.
Qed.

(** A set of rooms that holds one room and is closed under stepping to a
    neighbour holds every room. *)
Lemma rooms_closed_all W H (S : FIntPoint -> Prop) (c0 : FIntPoint) :
  in_grid W H c0 -> S c0 ->
  (forall c d, is_direction d -> in_grid W H c -> S c ->
               in_grid W H (step c d) -> S (step c d)) ->
  forall c, in_grid W H c -> S c.
Proof.
  intros Hc0 HS0 Hstep.
  assert (Hrow : forall n x, Z.abs (x - fst c0) = Z.of_nat n -> 0 <= x < W ->
                             S (x, snd c0)).
  { induction n as [|n IH]; intros x Hn Hx.
    - replace x with (fst c0) by lia. destruct c0; exact HS0.
    - destruct (Z_lt_le_dec x (fst c0)).
      + replace (x, snd c0) with (step (x + 1, snd c0) West)
          by (unfold step; simpl; f_equal; lia).
        apply Hstep; [discriminate | | apply IH | ];
          unfold in_grid, step in *; simpl; lia.
      + replace (x, snd c0) with (step (x - 1, snd c0) East)
          by (unfold step; simpl; f_equal; lia).
        apply Hstep; [discriminate | | apply IH | ];
          unfold in_grid, step in *; simpl; lia. }
  assert (Hcol : forall n x y, Z.abs (y - snd c0) = Z.of_nat n -> 0 <= x < W ->
                               0 <= y < H -> S (x, y)).
  { induction n as [|n IH]; intros x y Hn Hx Hy.
    - replace y with (snd c0) by lia. apply (Hrow (Z.to_nat (Z.abs (x - fst c0)))); lia.
    - destruct (Z_lt_le_dec y (snd c0)).
      + replace (x, y) with (step (x, y + 1) North)
          by (unfold step; simpl; f_equal; lia).
        apply Hstep; [discriminate | | apply IH | ];
          unfold in_grid, step in *; simpl; lia.
      + replace (x, y) with (step (x, y - 1) South)
          by (unfold step; simpl; f_equal; lia).
        apply Hstep; [discriminate | | apply IH | ];
          unfold in_grid, step in *; simpl; lia. }
  intros [x y] [Hx Hy]. simpl in *.
  apply (Hcol (Z.to_nat (Z.abs (y - snd c0)))); lia.
Qed.

(** *** Counting the rooms that are not zero *)

Lemma nonzero_count_flip W H g g' c :
  in_grid W H c -> cell g c = 0 -> cell g' c <> 0 ->
  (forall x, x <> c -> (cell g' x = 0 <-> cell g x = 0)) ->
  nonzero_count W H g' = S (nonzero_count W H g).
Proof.
  intros Hc H0 H1 Hsame. unfold nonzero_count.
  apply (filter_length_flip _ _ _ c (NoDup_coordinates W H)).
  - apply in_coordinates, Hc.
  - rewrite H0. reflexivity.
  - apply negb_true_iff, Z.eqb_neq, H1.
  - intros x _ Hne. specialize (Hsame x Hne).
    destruct (cell g' x =? 0) eqn:E1, (cell g x =? 0) eqn:E2; try reflexivity;
      rewrite ?Z.eqb_eq, ?Z.eqb_neq in *; tauto.
Qed.

Lemma nonzero_count_same W H g g' :
  (forall x, cell g' x = 0 <-> cell g x = 0) ->
  nonzero_count W H g' = nonzero_count W H g.
Proof.
  intros Hsame. unfold nonzero_count. apply filter_length_same.
  intros x _. specialize (Hsame x).
  destruct (cell g' x =? 0) eqn:E1, (cell g x =? 0) eqn:E2; try reflexivity;
    rewrite ?Z.eqb_eq, ?Z.eqb_neq in *; tauto.
Qed.

Lemma nonzero_count_le W H g :
  (nonzero_count W H g <= Z.to_nat H * Z.to_nat W)%nat.
Proof.
  unfold nonzero_count. rewrite <- length_coordinates. apply List.filter_length_le.
Qed.

Lemma nonzero_count_all W H g :
  (forall c, in_grid W H c -> cell g c <> 0) ->
  nonzero_count W H g = (Z.to_nat H * Z.to_nat W)%nat.
Proof.
  intros Hall. unfold nonzero_count. rewrite <- length_coordinates.
  apply filter_length_all. intros x Hx. apply in_coordinates in Hx.
  apply negb_true_iff, Z.eqb_neq, Hall, Hx.
Qed.

Lemma nonzero_count_zero W H g :
  (forall c, in_grid W H c -> cell g c = 0) -> nonzero_count W H g = O.
Proof.
  intros Hall. unfold nonzero_count. apply filter_length_none.
  intros x Hx. apply in_coordinates in Hx. rewrite (Hall x Hx). reflexivity.
Qed.

Lemma nonzero_count_zero_inv W H g c :
  nonzero_count W H g = O -> in_grid W H c -> cell g c = 0.
Proof.
  unfold nonzero_count. intros E Hc.
  destruct (Z.eq_dec (cell g c) 0) as [|Hne]; [assumption|].
  assert (Hin : In c (List.filter (fun c => negb (cell g c =? 0)) (coordinates W H))).
  { apply List.filter_In. split; [apply in_coordinates, Hc|].
    apply negb_true_iff, Z.eqb_neq, Hne. }
  destruct (List.filter _ _); [destruct Hin | discriminate].
Qed.

Lemma open_passages_zero W H g :
  (forall c, in_grid W H c -> cell g c = 0) -> open_passages W H g = O.
Proof.
  intros Hall. unfold open_passages. apply filter_length_none.
  intros [c d] Hin. apply in_room_passages in Hin as (Hc & _ & _). simpl.
  unfold passage_open. rewrite (Hall c Hc), has_dir_zero. reflexivity.
Qed.

End RoomGraph.


(* --------------------------------------------------------------------- *)
(** ** The recursive backtracker                                          *)
(* --------------------------------------------------------------------- *)

Section Backtracker.
Import Generator Rooms.
Context {R : Type} {RS : RandomStream R}.
Variables W H : Z.
Hypothesis HW : 0 < W.
Hypothesis HH : 0 < H.

Lemma filter_length_flip2 {A} `{EqDecision A} (P Q : A -> bool) (l : list A) (x0 x1 : A) :
  NoDup l -> In x0 l -> In x1 l -> x0 <> x1 ->
  P x0 = false -> P x1 = false -> Q x0 = true -> Q x1 = true ->
  (forall x, In x l -> x <> x0 -> x <> x1 -> Q x = P x) ->
  length (List.filter Q l) = S (S (length (List.filter P l))).
Proof.
  intros Hnd H0 H1 Hne P0 P1 Q0 Q1 Hsame.
  set (P' := fun x => if decide (x = x0) then true else P x).
  rewrite (filter_length_flip P' Q l x1 Hnd H1).
  - f_equal. apply (filter_length_flip P P' l x0 Hnd H0 P0).
    + unfold P'. rewrite decide_True; reflexivity.
    + intros x _ Hx. unfold P'. rewrite decide_False by assumption. reflexivity.
  - unfold P'. rewrite decide_False by congruence. exact P1.
  - exact Q1.
  - intros x Hx Hx1. unfold P'. destruct (decide (x = x0)) as [->|Hx0]; [exact Q0|].
    apply Hsame; assumption.
Qed.

Lemma nonzero_count_pos g c :
  in_grid W H c -> cell g c <> 0 -> nonzero_count W H g <> O.
Proof. intros Hc Hne E. apply Hne. eapply nonzero_count_zero_inv; eauto. Qed.

(** One carving step of the backtracker keeps its invariant. *)
Lemma dfs_carve_step g g' c d :
  dfs_inv W H g -> grid_shape W H g' -> carved g g' c d ->
  is_direction d -> in_grid W H c -> in_grid W H (step c d) ->
  source_ok W H g c -> cell g (step c d) = 0 ->
  dfs_inv W H g' /\
  (nonzero_count W H g < nonzero_count W H g')%nat.
Proof.
  intros (Hs & Hj & Hcount) Hs' Hcv Hd Hc Hc' Hsrc Hzero.
  assert (Hclosed : passage_open g c d = false).
  { unfold passage_open. rewrite Hzero, has_dir_zero. apply andb_false_r. }
  pose proof (open_passages_carve W H g g' c d Hcv Hd Hc Hc' Hclosed) as Hop.
  destruct (carved_ends_nonzero g g' c d Hcv Hd) as [Hc1 Hc2].
  assert (Hmono : forall a b, joined W H g a b -> joined W H g' a b).
  { intros a b. apply joined_mono. intros x e _. apply (carved_mono g g' c d x e Hcv). }
  assert (Hjc : joined W H g' (0, 0) c).
  { destruct Hsrc as [Hne|[_ ->]]; [apply Hmono, Hj; assumption | apply joined_refl]. }
  assert (Hj' : forall x, in_grid W H x -> cell g' x <> 0 -> joined W H g' (0, 0) x).
  { intros x Hx Hne.
    destruct (decide (x = step c d)) as [->|Hx1].
    { eapply joined_trans; [exact Hjc|].
      apply joined_link. eapply carved_link; eauto. }
    destruct (decide (x = c)) as [->|Hx0]; [exact Hjc|].
    rewrite (carved_other g g' c d x Hcv Hx0 Hx1) in Hne. apply Hmono, Hj; assumption. }
  destruct (Z.eq_dec (cell g c) 0) as [Hc0|Hcn].
  - (* the very first passage, from room (0,0) *)
    destruct Hsrc as [?|[Hnz Hc00]]; [contradiction|]. subst c.
    assert (Hop0 : open_passages W H g = O).
    { apply open_passages_zero. intros x Hx. eapply nonzero_count_zero_inv; eauto. }
    assert (Hnz' : nonzero_count W H g' = 2%nat).
    { unfold nonzero_count.
      rewrite (filter_length_flip2 (fun x => negb (cell g x =? 0)) _ _ (0, 0)
                 (step (0, 0) d) (NoDup_coordinates W H)).
      - fold (nonzero_count W H g). rewrite Hnz. reflexivity.
      - apply in_coordinates, Hc.
      - apply in_coordinates, Hc'.
      - intros E. symmetry in E. revert E. apply step_neq, Hd.
      - rewrite Hc0. reflexivity.
      - rewrite Hzero. reflexivity.
      - apply negb_true_iff, Z.eqb_neq, Hc1.
      - apply negb_true_iff, Z.eqb_neq, Hc2.
      - intros x _ Hx0 Hx1. rewrite (carved_other g g' _ d x Hcv Hx0 Hx1). reflexivity. }
    split; [|lia]. split; [exact Hs'|]. split; [exact Hj'|].
    right. split; [exact Hc1|]. lia.
  - assert (Hnz' : nonzero_count W H g' = S (nonzero_count W H g)).
    { apply (nonzero_count_flip W H g g' (step c d) Hc' Hzero Hc2).
      intros x Hx1. destruct (decide (x = c)) as [->|Hx0]; [tauto|].
      rewrite (carved_other g g' c d x Hcv Hx0 Hx1). tauto. }
    split; [|lia]. split; [exact Hs'|]. split; [exact Hj'|].
    destruct Hcount as [[Hnz _]|[H00 Hn]].
    + exfalso. eapply (nonzero_count_pos g c); eauto.
    + right. split; [eapply carved_nonzero; eauto | lia].
Qed.


Lemma zero_count_le g g' :
  (nonzero_count W H g <= nonzero_count W H g')%nat ->
  (zero_count W H g' <= zero_count W H g)%nat.
Proof. unfold zero_count. lia. Qed.

Lemma zero_count_lt g g' :
  (nonzero_count W H g < nonzero_count W H g')%nat ->
  (zero_count W H g' < zero_count W H g)%nat.
Proof.
  unfold zero_count. pose proof (nonzero_count_le W H g'). lia.
Qed.

(** The loop over the directions, given what the recursive calls do. *)
Lemma carve_directions_spec fuel X Y :
  (forall X' Y' g (Random : R),
      dfs_inv W H g -> in_grid W H (X', Y') -> cell g (X', Y') <> 0 ->
      (zero_count W H g < fuel)%nat ->
      exists g' Random',
        CarvePassagesFrom fuel X' Y' (g, Random) = Ok (g', Random') /\
        dfs_post W H g g' (X', Y') /\
        forall d, is_direction d -> in_grid W H (step (X', Y') d) ->
                  cell g' (step (X', Y') d) <> 0) ->
  forall Directions g (Random : R),
    (forall d, In d Directions -> is_direction d) ->
    dfs_inv W H g -> in_grid W H (X, Y) -> source_ok W H g (X, Y) ->
    (zero_count W H g <= fuel)%nat ->
    exists g' Random',
      carve_directions (CarvePassagesFrom fuel) X Y Directions (g, Random)
      = Ok (g', Random') /\
      dfs_post W H g g' (X, Y) /\
      source_ok W H g' (X, Y) /\
      forall d, In d Directions -> is_direction d ->
                in_grid W H (step (X, Y) d) -> cell g' (step (X, Y) d) <> 0.
Proof.
  intros IHcall. induction Directions as [|Dir Directions IH];
    intros g Random Hdirs Hinv Hc Hsrc Hfuel.
  - exists g, Random. split; [reflexivity|]. split; [|split; [exact Hsrc|intros d []]].
    split; [exact Hinv|]. split; [tauto|]. split; [lia|]. intros; contradiction.
  - cbn [carve_directions].
    destruct (in_bounds_and_zero_spec W H g (X + GetDirectionDeltaX Dir)
                (Y + GetDirectionDeltaY Dir) (proj1 Hinv) HH) as (b & -> & Hb).
    rewrite bind_Ok. change (X + GetDirectionDeltaX Dir, Y + GetDirectionDeltaY Dir)
      with (step (X, Y) Dir) in Hb.
    destruct b.
    + destruct (proj1 Hb eq_refl) as [Hc' Hzero].
      assert (Hd : is_direction Dir) by (apply Hdirs; left; reflexivity).
      destruct (carve_spec W H g X Y Dir (proj1 Hinv) Hc Hc')
        as (g0 & g1 & E0 & E1 & Hs1 & Hcv).
      rewrite E0, bind_Ok, E1, bind_Ok.
      destruct (dfs_carve_step g g1 (X, Y) Dir Hinv Hs1 Hcv Hd Hc Hc' Hsrc Hzero)
        as [Hinv1 Hlt1].
      destruct (carved_ends_nonzero g g1 (X, Y) Dir Hcv Hd) as [Hn0 Hn1].
      destruct (IHcall (X + GetDirectionDeltaX Dir) (Y + GetDirectionDeltaY Dir)
                  g1 Random Hinv1 Hc' Hn1) as (g2 & Random2 & -> & Hpost2 & Hnb2).
      { pose proof (zero_count_lt g g1 Hlt1). lia. }
      rewrite bind_Ok.
      destruct Hpost2 as (Hinv2 & Hmono2 & Hle2 & Hclos2).
      destruct (IH g2 Random2) as (g3 & Random3 & -> & Hpost3 & Hsrc3 & Hnb3);
        [intros d0 Hd0; apply Hdirs; right; exact Hd0 | exact Hinv2 | exact Hc | |  |].
      { left. apply Hmono2, Hn0. }
      { pose proof (zero_count_le g g2). lia. }
      destruct Hpost3 as (Hinv3 & Hmono3 & Hle3 & Hclos3).
      exists g3, Random3. split; [reflexivity|]. split; [|split; [exact Hsrc3|]].
      * split; [exact Hinv3|]. split; [|split; [lia|]].
        -- intros x Hx. apply Hmono3, Hmono2. eapply carved_nonzero; eauto.
        -- intros x Hx Hx0 Hx3 Hxc d Hd' Hxd.
           destruct (Z.eq_dec (cell g2 x) 0) as [Hx2|Hx2];
             [apply (Hclos3 x Hx Hx2 Hx3 Hxc d Hd' Hxd)|].
           apply Hmono3.
           destruct (decide (x = step (X, Y) Dir)) as [->|Hxn];
             [apply Hnb2; assumption|].
           apply (Hclos2 x Hx); try assumption.
           rewrite (carved_other g g1 (X, Y) Dir x Hcv Hxc Hxn). exact Hx0.
      * intros d [<-|Hin] Hd' Hxd; [apply Hmono3, Hmono2, Hn1|].
        apply Hnb3; assumption.
    + rewrite bind_Ok.
      destruct (IH g Random) as (g3 & Random3 & -> & Hpost3 & Hsrc3 & Hnb3);
        [intros d0 Hd0; apply Hdirs; right; exact Hd0 | assumption..|].
      exists g3, Random3. split; [reflexivity|]. split; [exact Hpost3|].
      split; [exact Hsrc3|].
      intros d [<-|Hin] Hd' Hxd; [|apply Hnb3; assumption].
      apply (proj1 (proj2 Hpost3)). intros E.
      assert (false = true) by (apply Hb; split; assumption). discriminate.
Qed.

(** [CarvePassagesFrom], called on a reached room with fuel above the
    number of rooms still to reach, returns with every neighbour of the
    room reached. *)
Lemma CarvePassagesFrom_spec fuel : forall X Y g (Random : R),
  dfs_inv W H g -> in_grid W H (X, Y) -> source_ok W H g (X, Y) ->
  (zero_count W H g < fuel)%nat ->
  exists g' Random',
    CarvePassagesFrom fuel X Y (g, Random) = Ok (g', Random') /\
    dfs_post W H g g' (X, Y) /\
    forall d, is_direction d -> in_grid W H (step (X, Y) d) ->
              cell g' (step (X, Y) d) <> 0.
Proof.
  induction fuel as [|fuel IHf]; intros X Y g Random Hinv Hc Hsrc Hfuel; [lia|].
  cbn [CarvePassagesFrom].
  destruct (ShuffleArray_spec [East; West; North; South] Random)
    as (Directions & Random1 & -> & _ & Hel).
  rewrite bind_Ok.
  destruct (carve_directions_spec fuel X Y) with (Directions := Directions)
    (g := g) (Random := Random1) as (g' & Random' & E & Hpost & _ & Hnb);
    try assumption; [| |lia|].
  - intros X' Y' g0 Random0 Hinv0 Hc0 Hne0 Hf0. apply IHf; try assumption.
    left. exact Hne0.
  - intros d Hd. apply Hel in Hd. simpl in Hd.
    destruct Hd as [<-|[<-|[<-|[<-|[]]]]]; discriminate.
  - exists g', Random'. split; [exact E|]. split; [exact Hpost|].
    intros d Hd. apply Hnb; [|exact Hd]. apply Hel.
    unfold is_direction in Hd. destruct d; simpl; tauto.
Qed.


(** The backtracker carves a spanning tree. *)
Lemma GenerateBacktracker_spec fuel (Random : R) :
  (Z.to_nat (W * H) < fuel)%nat ->
  exists g Random',
    GenerateBacktracker fuel (W, H) Random = Ok (g, Random') /\
    spanning_tree W H g.
Proof.
  intros Hfuel. unfold GenerateBacktracker.
  rewrite CreateZeroedGrid_Ok by lia. rewrite bind_Ok.
  set (g0 := replicate (Z.to_nat H) (replicate (Z.to_nat W) 0)).
  assert (Hz0 : forall c, cell g0 c = 0) by (intros c; apply zeroed_grid_cell).
  assert (Hnz0 : nonzero_count W H g0 = O) by (apply nonzero_count_zero; auto).
  assert (Hinv0 : dfs_inv W H g0).
  { split; [apply zeroed_grid_shape; lia|]. split.
    - intros c _ Hne. exfalso. apply Hne, Hz0.
    - left. split; [exact Hnz0 | apply open_passages_zero; auto]. }
  assert (Horigin : in_grid W H (0, 0)) by (unfold in_grid; simpl; lia).
  destruct (CarvePassagesFrom_spec fuel 0 0 g0 Random Hinv0 Horigin)
    as (g & Random' & E & (Hinv & Hmono & Hle & Hclos) & Hnb).
  { right. split; [exact Hnz0 | reflexivity]. }
  { unfold zero_count. rewrite Hnz0. lia. }
  exists g, Random'. split; [exact E|].
  destruct Hinv as (Hs & Hj & Hcount).
  assert (Hall : forall c, in_grid W H c -> c = (0, 0) \/ cell g c <> 0).
  { apply (rooms_closed_all W H (fun c => c = (0, 0) \/ cell g c <> 0) (0, 0) Horigin).
    - left; reflexivity.
    - intros c d Hd Hc [->|Hne] Hc'; right; [apply Hnb; assumption|].
      destruct (decide (c = (0, 0))) as [->|Hc0]; [apply Hnb; assumption|].
      apply (Hclos c Hc (Hz0 c) Hne Hc0 d Hd Hc'). }
  assert (Hj0 : forall c, in_grid W H c -> joined W H g (0, 0) c).
  { intros c Hc. destruct (Hall c Hc) as [->|Hne]; [apply joined_refl | auto]. }
  split; [exact Hs|]. split.
  - intros c c' Hc Hc'. eapply joined_trans; [apply joined_sym|]; eauto.
  - destruct Hcount as [[Hnz Hop]|[H00 Hn]].
    + rewrite Hop.
      assert (HW1 : W = 1).
      { destruct (Z.eq_dec W 1); [assumption|]. exfalso.
        assert (Hc : in_grid W H (1, 0)) by (unfold in_grid; simpl; lia).
        destruct (Hall _ Hc) as [E0|Hne]; [discriminate|].
        apply Hne. eapply nonzero_count_zero_inv; eauto. }
      assert (HH1 : H = 1).
      { destruct (Z.eq_dec H 1); [assumption|]. exfalso.
        assert (Hc : in_grid W H (0, 1)) by (unfold in_grid; simpl; lia).
        destruct (Hall _ Hc) as [E0|Hne]; [discriminate|].
        apply Hne. eapply nonzero_count_zero_inv; eauto. }
      subst. reflexivity.
    + rewrite nonzero_count_all in Hn; [nia|].
      intros c Hc. destruct (Hall c Hc) as [->|Hne]; assumption.
Qed.

End Backtracker.


(* --------------------------------------------------------------------- *)
(** ** Prim's algorithm                                                   *)
(* --------------------------------------------------------------------- *)

Section Prim.
Import Generator Rooms.
Context {R : Type} {RS : RandomStream R}.
Variables W H : Z.
Hypothesis HW : 0 < W.
Hypothesis HH : 0 < H.

Lemma in_neighbours4 c n :
  In n (neighbours4 c) <-> exists d, is_direction d /\ n = step c d.
Proof.
  unfold neighbours4, step, is_direction. destruct c as [x y]. simpl. split.
  - intros [<-|[<-|[<-|[<-|[]]]]];
      [exists West | exists East | exists North | exists South];
      (split; [discriminate | simpl; f_equal; lia]).
  - intros (d & Hd & ->). destruct d; simpl; try congruence;
      rewrite ?Z.add_0_r; auto.
Qed.

Lemma NoDup_neighbours4 c : NoDup (neighbours4 c).
Proof.
  destruct c as [x y]. unfold neighbours4. simpl.
  repeat constructor; rewrite ?list_elem_of_In; simpl;
    intros E; repeat destruct E as [E|E]; try injection E; try lia; contradiction.
Qed.

Lemma is_in_lor v b : is_in (Z.lor v b) = is_in v || is_in b.
Proof.
  unfold is_in. rewrite Z.land_lor_distr_l.
  destruct (Z.land v PrimState_In =? 0) eqn:E1, (Z.land b PrimState_In =? 0) eqn:E2;
    simpl; rewrite ?Z.eqb_eq, ?Z.eqb_neq in *.
  - rewrite E1, E2. reflexivity.
  - apply negb_true_iff, Z.eqb_neq. intros E. apply Z.lor_eq_0_iff in E. tauto.
  - apply negb_true_iff, Z.eqb_neq. intros E. apply Z.lor_eq_0_iff in E. tauto.
  - apply negb_true_iff, Z.eqb_neq. intros E. apply Z.lor_eq_0_iff in E. tauto.
Qed.

Lemma is_in_dir_byte d : is_in (dir_byte d) = false.
Proof. destruct d; reflexivity. Qed.

Lemma is_in_nonzero v : is_in v = true -> v <> 0.
Proof. intros Hv ->. discriminate. Qed.

Lemma PrimAddToFrontier_spec g F x y :
  grid_shape W H g ->
  exists g' F',
    PrimAddToFrontier x y (g, F) = Ok (g', F') /\ grid_shape W H g' /\
    ((in_grid W H (x, y) /\ cell g (x, y) = 0 /\ F' = F ++ [(x, y)] /\
      forall z, cell g' z = if decide (z = (x, y)) then PrimState_Frontier
                            else cell g z) \/
     (~ (in_grid W H (x, y) /\ cell g (x, y) = 0) /\ g' = g /\ F' = F)).
Proof.
  intros Hs. unfold PrimAddToFrontier.
  destruct (in_bounds_and_zero_spec W H g x y Hs HH) as (b & -> & Hb).
  rewrite bind_Ok. destruct b.
  - destruct (proj1 Hb eq_refl) as [Hin Hz].
    destruct (grid_or_spec W H g (x, y) PrimState_Frontier Hs Hin) as (g' & E & Hs' & Hc').
    simpl in E. rewrite E, bind_Ok.
    exists g', (F ++ [(x, y)]). split; [reflexivity|]. split; [exact Hs'|].
    left. split; [exact Hin|]. split; [exact Hz|]. split; [reflexivity|].
    intros z. rewrite Hc'. destruct (decide (z = (x, y))) as [->|]; [|reflexivity].
    rewrite Hz. reflexivity.
  - exists g, F. split; [reflexivity|]. split; [exact Hs|]. right.
    split; [|auto]. intros Hn. apply Hb in Hn. discriminate.
Qed.

(** Adding a list of distinct rooms to the frontier. *)
Lemma add_all_to_frontier ns : forall g F,
  grid_shape W H g -> NoDup ns ->
  exists g' new,
    for_each ns (fun n st => PrimAddToFrontier (fst n) (snd n) st) (g, F)
    = Ok (g', F ++ new) /\
    grid_shape W H g' /\ NoDup new /\
    (forall n, In n new <-> In n ns /\ in_grid W H n /\ cell g n = 0) /\
    (forall z, In z new -> cell g' z = PrimState_Frontier) /\
    (forall z, ~ In z new -> cell g' z = cell g z).
Proof.
  induction ns as [|n ns IH]; intros g F Hs Hnd.
  - exists g, []. rewrite app_nil_r. split; [reflexivity|]. split; [exact Hs|].
    split; [constructor|]. split; [simpl; tauto|]. split; [intros z []|reflexivity].
  - apply NoDup_cons in Hnd as [Hn Hnd]. rewrite list_elem_of_In in Hn.
    cbn [for_each]. destruct n as [x y]. cbn [fst snd].
    destruct (PrimAddToFrontier_spec g F x y Hs) as (g1 & F1 & -> & Hs1 & Hcase).
    rewrite bind_Ok.
    destruct Hcase as [(Hin & Hz & -> & Hc1)|(Hno & -> & ->)].
    + destruct (IH g1 (F ++ [(x, y)]) Hs1 Hnd) as (g' & new & E & Hs' & Hnd' & Hnew & H64 & Hsame).
      assert (Hxy : ~ In (x, y) new).
      { intros Hi. apply Hnew in Hi as [Hi _]. contradiction. }
      exists g', ((x, y) :: new). rewrite E, <- app_assoc. split; [reflexivity|].
      split; [exact Hs'|]. split; [apply NoDup_cons; rewrite list_elem_of_In; auto|].
      split; [|split].
      * intros n. simpl. rewrite Hnew, Hc1. split.
        -- intros [<-|(Hi & Hg & Hzn)]; [auto|].
           destruct (decide (n = (x, y))) as [->|]; [contradiction|auto].
        -- intros ([<-|Hi] & Hg & Hzn); [auto|]. right.
           destruct (decide (n = (x, y))) as [->|]; [contradiction|auto].
      * intros z [<-|Hz']; [|auto].
        rewrite Hsame, Hc1 by assumption. rewrite decide_True; reflexivity.
      * intros z Hz'. simpl in Hz'.
        rewrite Hsame, Hc1 by tauto. rewrite decide_False; [reflexivity|].
        intros ->. tauto.
    + destruct (IH g F Hs Hnd) as (g' & new & E & Hs' & Hnd' & Hnew & H64 & Hsame).
      exists g', new. split; [exact E|]. split; [exact Hs'|]. split; [exact Hnd'|].
      split; [|split; assumption].
      intros n. rewrite Hnew. simpl. split; [tauto|].
      intros ([<-|Hi] & Hg & Hzn); [exfalso; apply Hno; auto | auto].
Qed.

Lemma PrimExpandFrontierFrom_spec g F X Y :
  grid_shape W H g -> in_grid W H (X, Y) ->
  exists g' new,
    PrimExpandFrontierFrom X Y (g, F) = Ok (g', F ++ new) /\
    grid_shape W H g' /\ NoDup new /\
    (forall n, In n new <->
               In n (neighbours4 (X, Y)) /\ in_grid W H n /\ cell g n = 0) /\
    cell g' (X, Y) = Z.lor (cell g (X, Y)) PrimState_In /\
    (forall z, In z new -> cell g' z = PrimState_Frontier) /\
    (forall z, z <> (X, Y) -> ~ In z new -> cell g' z = cell g z).
Proof.
  intros Hs Hc. unfold PrimExpandFrontierFrom.
  destruct (grid_or_spec W H g (X, Y) PrimState_In Hs Hc) as (g1 & E1 & Hs1 & Hc1).
  simpl in E1. rewrite E1, bind_Ok.
  destruct (add_all_to_frontier (neighbours4 (X, Y)) g1 F Hs1 (NoDup_neighbours4 _))
    as (g' & new & E & Hs' & Hnd & Hnew & H64 & Hsame).
  cbn [neighbours4 for_each fst snd] in E.
  exists g', new. split.
  { revert E.
    destruct (PrimAddToFrontier (X - 1) Y (g1, F)) as [st| |]; simpl; try discriminate.
    destruct (PrimAddToFrontier (X + 1) Y st) as [st2| |]; simpl; try discriminate.
    destruct (PrimAddToFrontier X (Y - 1) st2) as [st3| |]; simpl; try discriminate.
    destruct (PrimAddToFrontier X (Y + 1) st3) as [st4| |]; simpl; try discriminate.
    auto. }
  assert (Hc1nz : cell g1 (X, Y) <> 0).
  { rewrite Hc1, decide_True by reflexivity. intros E0.
    apply Z.lor_eq_0_iff in E0 as [_ E0]. discriminate. }
  assert (Hcnew : ~ In (X, Y) new).
  { intros Hi. apply Hnew in Hi as (_ & _ & Hz). contradiction. }
  split; [exact Hs'|]. split; [exact Hnd|]. split; [|split; [|split]].
  - intros n. rewrite Hnew, Hc1. split.
    + intros (Hn & Hg & Hz). split; [exact Hn|]. split; [exact Hg|].
      revert Hz. destruct (decide (n = (X, Y))) as [->|]; [|auto].
      intros Hz. exfalso. apply Hc1nz. rewrite Hc1, decide_True by reflexivity.
      exact Hz.
    + intros (Hn & Hg & Hz). split; [exact Hn|]. split; [exact Hg|].
      destruct (decide (n = (X, Y))) as [->|]; [|assumption].
      exfalso. apply in_neighbours4 in Hn as (d & Hd & E0).
      symmetry in E0. revert E0. apply step_neq, Hd.
  - rewrite Hsame, Hc1 by assumption. rewrite decide_True; reflexivity.
  - exact H64.
  - intros z Hz Hzn. rewrite Hsame, Hc1 by assumption.
    rewrite decide_False by assumption. reflexivity.
Qed.


Lemma has_in_flag_guard (cond : bool) g x y :
  grid_shape W H g -> (cond = true <-> in_grid W H (x, y)) ->
  exists b, (if cond then has_in_flag g x y else Ok false) = Ok b /\
            (b = true <-> in_grid W H (x, y) /\ is_in (cell g (x, y)) = true).
Proof.
  intros Hs Hcond. destruct cond.
  - assert (Hin : in_grid W H (x, y)) by (apply Hcond; reflexivity).
    unfold has_in_flag.
    change x with (fst (x, y)) at 1. change y with (snd (x, y)) at 2.
    rewrite (grid_get_cell W H) by assumption. rewrite bind_Ok.
    eexists. split; [reflexivity|]. unfold is_in. tauto.
  - exists false. split; [reflexivity|]. split; [discriminate|].
    intros [Hin _]. apply Hcond in Hin. discriminate.
Qed.

Lemma PrimGetInNeighbors_spec g X Y :
  grid_shape W H g -> in_grid W H (X, Y) ->
  exists l, PrimGetInNeighbors X Y g = Ok l /\
            forall n, In n l <->
                      In n (neighbours4 (X, Y)) /\ in_grid W H n /\
                      is_in (cell g n) = true.
Proof.
  intros Hs [Hx Hy]. simpl in Hx, Hy. unfold PrimGetInNeighbors.
  destruct (has_in_flag_guard (X >? 0) g (X - 1) Y Hs) as (b1 & -> & H1).
  { unfold in_grid. simpl. rewrite Z.gtb_lt. lia. }
  rewrite bind_Ok.
  destruct Hs as [HHg HWg].
  destruct (tarray_get_Ok g 0) as (Row0 & -> & HRow0); [lia|]. rewrite bind_Ok.
  assert (HRowW : Z.of_nat (length Row0) = W).
  { apply HWg, list_elem_of_In. eapply list_elem_of_lookup_2; eauto. }
  rewrite HRowW, HHg.
  destruct (has_in_flag_guard (X <? W - 1) g (X + 1) Y (conj HHg HWg)) as (b2 & -> & H2).
  { unfold in_grid. simpl. rewrite Z.ltb_lt. lia. }
  rewrite bind_Ok.
  destruct (has_in_flag_guard (Y >? 0) g X (Y - 1) (conj HHg HWg)) as (b3 & -> & H3).
  { unfold in_grid. simpl. rewrite Z.gtb_lt. lia. }
  rewrite bind_Ok.
  destruct (has_in_flag_guard (Y <? H - 1) g X (Y + 1) (conj HHg HWg)) as (b4 & -> & H4).
  { unfold in_grid. simpl. rewrite Z.ltb_lt. lia. }
  rewrite bind_Ok.
  eexists. split; [reflexivity|].
  intros n. unfold neighbours4. cbn [fst snd].
  assert (F : forall (b : bool) (m : FIntPoint) l0,
             In n ((if b then l0 ++ [m] else l0)) <-> In n l0 \/ (b = true /\ n = m)).
  { intros b m l0. destruct b; [rewrite in_app_iff; simpl|]; intuition congruence. }
  rewrite !F. simpl. intuition (subst; auto).
Qed.

Lemma GetDirectionBetween_step c d :
  is_direction d -> GetDirectionBetween c (step c d) = d.
Proof.
  unfold is_direction, GetDirectionBetween, step. destruct c as [x y]. simpl.
  intros Hd.
  destruct d; simpl; try congruence;
    repeat match goal with
           | |- context [?p >? ?q] => destruct (Z.gtb_spec p q); try lia
           | |- context [?p <? ?q] => destruct (Z.ltb_spec p q); try lia
           end; reflexivity.
Qed.

Lemma RemoveAt_spec {A} (F : list A) i cur :
  NoDup F -> 0 <= i -> F !! Z.to_nat i = Some cur ->
  exists F', RemoveAt F i = Ok F' /\ NoDup F' /\
             (forall x, In x F' <-> In x F /\ x <> cur).
Proof.
  intros Hnd Hi Hcur. unfold RemoveAt.
  pose proof (lookup_lt_Some _ _ _ Hcur) as Hlt.
  destruct (i <? 0) eqn:E1; [apply Z.ltb_lt in E1; lia|].
  destruct (Z.of_nat (length F) <=? i) eqn:E2; [apply Z.leb_le in E2; lia|].
  simpl. eexists. split; [reflexivity|].
  rewrite delete_take_drop.
  pose proof (take_drop_middle F (Z.to_nat i) cur Hcur) as Hmid.
  set (l1 := take (Z.to_nat i) F) in *. set (l2 := drop (S (Z.to_nat i)) F) in *.
  clearbody l1 l2. clear Hcur Hlt E2. subst F.
  apply NoDup_app in Hnd as (Hnd1 & Hdisj & Hnd2).
  apply NoDup_cons in Hnd2 as [Hcur2 Hnd2].
  split.
  - apply NoDup_app. split; [exact Hnd1|]. split; [|exact Hnd2].
    intros x Hx1 Hx2. apply (Hdisj x Hx1). right. exact Hx2.
  - intros x. rewrite !in_app_iff. simpl. rewrite <- !list_elem_of_In. split.
    + intros [Hx|Hx].
      * split; [auto|]. intros ->. apply (Hdisj cur Hx). left.
      * split; [auto|]. intros ->. contradiction.
    + intros [[Hx|[->|Hx]] Hne]; [auto | contradiction | auto].
Qed.


Lemma filter_length_lt {A} (P : A -> bool) (l : list A) (x : A) :
  In x l -> P x = false -> (length (List.filter P l) < length l)%nat.
Proof.
  induction l as [|y l IH]; intros Hin HP; [destruct Hin|].
  simpl. destruct Hin as [->|Hin].
  - rewrite HP. pose proof (List.filter_length_le P l). lia.
  - specialize (IH Hin HP). destruct (P y); simpl; lia.
Qed.

Lemma in_count_lt g c :
  in_grid W H c -> is_in (cell g c) = false ->
  (in_count W H g < Z.to_nat H * Z.to_nat W)%nat.
Proof.
  intros Hc Hn. unfold in_count. rewrite <- length_coordinates.
  apply (filter_length_lt _ _ c); [apply in_coordinates, Hc | exact Hn].
Qed.

Lemma in_count_all g :
  (forall c, in_grid W H c -> is_in (cell g c) = true) ->
  in_count W H g = (Z.to_nat H * Z.to_nat W)%nat.
Proof.
  intros Hall. unfold in_count. rewrite <- length_coordinates.
  apply filter_length_all. intros x Hx. apply Hall, in_coordinates, Hx.
Qed.

(** Marking a room "in" and putting its out neighbours on the frontier
    establishes the invariant, when the room is joined to the start and the
    rooms that are in are as many as the open passages. *)
Lemma expand_establishes_inv start g F X Y :
  grid_shape W H g -> in_grid W H (X, Y) ->
  is_in (cell g (X, Y)) = false ->
  (forall c, in_grid W H c -> c <> (X, Y) ->
     cell g c = 0 \/ (cell g c = PrimState_Frontier /\ In c F) \/
     is_in (cell g c) = true) ->
  (forall c, In c F ->
     in_grid W H c /\ cell g c = PrimState_Frontier /\
     exists d, is_direction d /\ in_grid W H (step c d) /\
               is_in (cell g (step c d)) = true) ->
  ~ In (X, Y) F -> NoDup F ->
  (forall c d, in_grid W H c -> is_in (cell g c) = true -> is_direction d ->
               in_grid W H (step c d) -> cell g (step c d) <> 0) ->
  (forall c, in_grid W H c -> is_in (cell g c) = true -> joined W H g start c) ->
  joined W H g start (X, Y) -> in_grid W H start ->
  (start = (X, Y) \/ is_in (cell g start) = true) ->
  in_count W H g = open_passages W H g ->
  exists g' new,
    PrimExpandFrontierFrom X Y (g, F) = Ok (g', F ++ new) /\
    prim_inv W H start g' (F ++ new) /\
    in_count W H g' = S (in_count W H g).
Proof.
  intros Hs Hc Hcur P1 P2 P2' P3 P4 P5 P6 Hstart P6' P7.
  destruct (PrimExpandFrontierFrom_spec g F X Y Hs Hc)
    as (g' & new & E & Hs' & Hnd & Hnew & Hcc & H64 & Hsame).
  exists g', new. split; [exact E|].
  assert (Hnewz : forall z, In z new -> cell g z = 0) by (intros z Hz; apply Hnew, Hz).
  assert (Hcnew : ~ In (X, Y) new).
  { intros Hi. apply Hnew in Hi as (Hi & _ & _).
    apply in_neighbours4 in Hi as (d & Hd & E0). symmetry in E0.
    revert E0. apply step_neq, Hd. }
  assert (Hdir : forall x e, is_direction e ->
                             has_dir (cell g' x) e = has_dir (cell g x) e).
  { intros x e He. destruct (decide (x = (X, Y))) as [->|Hx].
    - rewrite Hcc, has_dir_lor, (proj2 (has_dir_flags e)). apply orb_false_r.
    - destruct (decide (x ∈ new)) as [Hi|Hi]; rewrite list_elem_of_In in Hi.
      + rewrite (H64 x Hi), (Hnewz x Hi), (proj1 (has_dir_flags e)), has_dir_zero.
        reflexivity.
      + rewrite (Hsame x Hx Hi). reflexivity. }
  assert (Hisin : forall x, x <> (X, Y) -> is_in (cell g' x) = is_in (cell g x)).
  { intros x Hx. destruct (decide (x ∈ new)) as [Hi|Hi]; rewrite list_elem_of_In in Hi.
    - rewrite (H64 x Hi), (Hnewz x Hi). reflexivity.
    - rewrite (Hsame x Hx Hi). reflexivity. }
  assert (Hcin : is_in (cell g' (X, Y)) = true).
  { rewrite Hcc, is_in_lor. apply orb_true_r. }
  assert (Hmono : forall x, is_in (cell g x) = true -> is_in (cell g' x) = true).
  { intros x Hx. destruct (decide (x = (X, Y))) as [->|Hne]; [exact Hcin|].
    rewrite Hisin; assumption. }
  assert (Hnz : forall x, cell g x <> 0 -> cell g' x <> 0).
  { intros x Hx. destruct (decide (x = (X, Y))) as [->|Hne].
    - apply is_in_nonzero, Hcin.
    - destruct (decide (x ∈ new)) as [Hi|Hi]; rewrite list_elem_of_In in Hi.
      + exfalso. apply Hx, Hnewz, Hi.
      + rewrite (Hsame x Hne Hi). exact Hx. }
  assert (Hjm : forall p q, joined W H g p q -> joined W H g' p q).
  { intros p q. apply joined_mono. intros x e He. rewrite Hdir; auto. }
  assert (Hcount : in_count W H g' = S (in_count W H g)).
  { unfold in_count.
    apply (filter_length_flip _ _ _ (X, Y) (NoDup_coordinates W H)).
    - apply in_coordinates, Hc.
    - exact Hcur.
    - exact Hcin.
    - intros x _ Hx. apply Hisin, Hx. }
  split; [|exact Hcount]. constructor.
  - exact Hs'.
  - intros c Hcg. destruct (decide (c = (X, Y))) as [->|Hne]; [auto|].
    destruct (decide (c ∈ new)) as [Hi|Hi]; rewrite list_elem_of_In in Hi.
    + right. left. split; [apply H64, Hi | apply in_or_app; auto].
    + rewrite (Hsame c Hne Hi).
      destruct (P1 c Hcg Hne) as [?|[[? ?]|?]]; auto.
      right. left. split; [assumption | apply in_or_app; auto].
  - intros c Hi. apply in_app_or in Hi as [Hi|Hi].
    + destruct (P2 c Hi) as (Hcg & Hv & d & Hd & Hn & Hin).
      split; [exact Hcg|]. split.
      * assert (Hne : c <> (X, Y)) by (intros ->; contradiction).
        rewrite Hsame; [exact Hv | exact Hne |].
        intros Hi'. apply Hnewz in Hi'. rewrite Hv in Hi'. discriminate.
      * exists d. split; [exact Hd|]. split; [exact Hn | apply Hmono, Hin].
    + pose proof (proj1 (Hnew c) Hi) as (Hn4 & Hcg & _).
      split; [exact Hcg|]. split; [apply H64, Hi|].
      apply in_neighbours4 in Hn4 as (d & Hd & ->).
      exists (GetOppositeDirection d). split; [apply opposite_is_direction, Hd|].
      rewrite step_back. split; [exact Hc | exact Hcin].
  - apply NoDup_app. split; [exact P3|]. split; [|exact Hnd].
    intros x Hx Hx'. apply list_elem_of_In in Hx, Hx'.
    destruct (P2 x Hx) as (_ & Hv & _). rewrite (Hnewz x Hx') in Hv. discriminate.
  - intros c d Hcg Hin Hd Hn. destruct (decide (c = (X, Y))) as [->|Hne].
    + destruct (Z.eq_dec (cell g (step (X, Y) d)) 0) as [Hz|Hz]; [|apply Hnz, Hz].
      rewrite H64; [discriminate|]. apply Hnew. split; [|auto].
      apply in_neighbours4. eauto.
    + apply Hnz, (P4 c d); try assumption. rewrite <- Hisin; assumption.
  - intros c Hcg Hin. apply Hjm. destruct (decide (c = (X, Y))) as [->|Hne];
      [exact P6|]. apply P5; [exact Hcg|]. rewrite <- Hisin; assumption.
  - split; [exact Hstart|]. destruct P6' as [->|Hin]; [exact Hcin | apply Hmono, Hin].
  - rewrite Hcount, P7. f_equal. symmetry. apply open_passages_same, Hdir.
Qed.


Lemma carved_is_in g g' c d x :
  carved g g' c d -> is_in (cell g' x) = is_in (cell g x).
Proof.
  intros Hcv. rewrite Hcv, !is_in_lor.
  destruct (decide (x = c)), (decide (x = step c d));
    rewrite ?is_in_dir_byte, ?orb_false_r; reflexivity.
Qed.

(** The loop of Prim's algorithm empties the frontier and keeps the
    invariant, within fuel above the number of rooms not yet in. *)
Lemma prim_loop_spec start fuel : forall g F (Random : R),
  prim_inv W H start g F ->
  (Z.to_nat H * Z.to_nat W - in_count W H g < fuel)%nat ->
  exists g' Random',
    prim_loop fuel (g, F, Random) = Ok (g', [], Random') /\
    prim_inv W H start g' [].
Proof.
  induction fuel as [|fuel IH]; intros g F Random Hinv Hfuel; [lia|].
  cbn [prim_loop].
  destruct F as [|f0 F0].
  { simpl. exists g, Random. split; [reflexivity | exact Hinv]. }
  assert (Hlen : 0 < Z.of_nat (length (f0 :: F0))) by (simpl; lia).
  remember (f0 :: F0) as F eqn:EF. clear EF f0 F0.
  destruct (Z.of_nat (length F) >? 0) eqn:Egt; [|rewrite Z.gtb_ltb in Egt; apply Z.ltb_ge in Egt; lia].
  cbn [negb].
  pose proof (RandRange_range 0 (Z.of_nat (length F) - 1) Random ltac:(lia)) as Hidx.
  destruct (RandRange 0 (Z.of_nat (length F) - 1) Random) as [Index Random1].
  simpl in Hidx.
  destruct (tarray_get_Ok F Index) as (cur & -> & Hcur); [lia|]. rewrite bind_Ok.
  destruct Hinv as [Hs Hcells Hfront Hnd Hclosed Hjoined [Hstart Hstartin] Hcount].
  destruct (RemoveAt_spec F Index cur Hnd (proj1 Hidx) Hcur) as (F1 & -> & Hnd1 & HF1).
  rewrite bind_Ok.
  assert (HcurF : In cur F) by (apply list_elem_of_In; eapply list_elem_of_lookup_2; eauto).
  destruct (Hfront cur HcurF) as (Hcg & Hcv & d0 & Hd0 & Hn0 & Hin0).
  destruct cur as [X Y]. cbn [fst snd].
  destruct (PrimGetInNeighbors_spec g X Y Hs Hcg) as (l & -> & Hl). rewrite bind_Ok.
  assert (Hlne : 0 < Z.of_nat (length l)).
  { assert (Hi : In (step (X, Y) d0) l).
    { apply Hl. split; [apply in_neighbours4; eauto | auto]. }
    destruct l; [destruct Hi | simpl; lia]. }
  destruct (Z.of_nat (length l) >? 0) eqn:Egt2;
    [|rewrite Z.gtb_ltb in Egt2; apply Z.ltb_ge in Egt2; lia].
  pose proof (RandRange_range 0 (Z.of_nat (length l) - 1) Random1 ltac:(lia)) as Hj.
  destruct (RandRange 0 (Z.of_nat (length l) - 1) Random1) as [j Random2].
  simpl in Hj.
  destruct (tarray_get_Ok l j) as (nb & -> & Hnb); [lia|]. rewrite bind_Ok.
  assert (Hnbl : In nb l) by (apply list_elem_of_In; eapply list_elem_of_lookup_2; eauto).
  apply Hl in Hnbl as (Hn4 & Hnbg & Hnbin).
  apply in_neighbours4 in Hn4 as (d & Hd & ->).
  rewrite GetDirectionBetween_step by assumption.
  destruct (carve_spec W H g X Y d Hs Hcg Hnbg) as (g0 & g1 & E0 & E1 & Hs1 & Hcarved).
  rewrite E0, bind_Ok. cbn [step fst snd]. rewrite E1, !bind_Ok.
  assert (Hcur_notin : is_in (cell g (X, Y)) = false) by (rewrite Hcv; reflexivity).
  assert (Hclosed0 : passage_open g (X, Y) d = false).
  { unfold passage_open. rewrite Hcv, (proj1 (has_dir_flags d)). reflexivity. }
  assert (Hjm : forall p q, joined W H g p q -> joined W H g1 p q).
  { intros p q. apply joined_mono. intros x e _. apply (carved_mono g g1 (X, Y) d x e Hcarved). }
  destruct (expand_establishes_inv start g1 F1 X Y Hs1 Hcg)
    as (g2 & new & -> & Hinv2 & Hcount2).
  - rewrite (carved_is_in g g1 (X, Y) d) by assumption. exact Hcur_notin.
  - intros c Hc Hne. rewrite (carved_is_in g g1 (X, Y) d c Hcarved).
    destruct (decide (c = step (X, Y) d)) as [->|Hne2]; [auto|].
    rewrite (carved_other g g1 (X, Y) d c Hcarved Hne Hne2).
    destruct (Hcells c Hc) as [?|[[? ?]|?]]; auto.
    right. left. split; [assumption|]. apply HF1. auto.
  - intros c Hi. apply HF1 in Hi as [Hi Hne].
    destruct (Hfront c Hi) as (Hc & Hv & e & He & Hne' & Hine).
    split; [exact Hc|]. split.
    + rewrite (carved_other g g1 (X, Y) d c Hcarved Hne); [exact Hv|].
      intros ->. rewrite Hv in Hnbin. discriminate.
    + exists e. split; [exact He|]. split; [exact Hne'|].
      rewrite (carved_is_in g g1 (X, Y) d) by assumption. exact Hine.
  - intros Hi. apply HF1 in Hi as [_ Hne]. congruence.
  - exact Hnd1.
  - intros c e Hc Hin He Hne. rewrite (carved_is_in g g1 (X, Y) d) in Hin by assumption.
    eapply carved_nonzero; [exact Hcarved|]. eapply Hclosed; eauto.
  - intros c Hc Hin. rewrite (carved_is_in g g1 (X, Y) d) in Hin by assumption.
    apply Hjm, Hjoined; assumption.
  - eapply joined_trans; [apply Hjm, (Hjoined _ Hnbg Hnbin)|].
    apply joined_sym, joined_link. eapply carved_link; eauto.
  - exact Hstart.
  - right. rewrite (carved_is_in g g1 (X, Y) d) by assumption. exact Hstartin.
  - rewrite (open_passages_carve W H g g1 (X, Y) d Hcarved Hd Hcg Hnbg Hclosed0).
    rewrite <- Hcount. unfold in_count. apply filter_length_same.
    intros x _. apply (carved_is_in g g1 (X, Y) d x Hcarved).
  - rewrite bind_Ok.
    assert (Hic : in_count W H g1 = in_count W H g).
    { unfold in_count. apply filter_length_same.
      intros x _. apply (carved_is_in g g1 (X, Y) d x Hcarved). }
    pose proof (in_count_lt g (X, Y) Hcg Hcur_notin).
    apply IH; [exact Hinv2 | lia].
Qed.

(** Prim's algorithm carves a spanning tree. *)
Lemma GeneratePrims_spec fuel (Random : R) :
  (Z.to_nat (W * H) <= fuel)%nat ->
  exists g Random',
    GeneratePrims fuel (W, H) Random = Ok (g, Random') /\
    spanning_tree W H g.
Proof.
  intros Hfuel. unfold GeneratePrims.
  rewrite CreateZeroedGrid_Ok by lia. rewrite bind_Ok. cbn [fst snd].
  set (g0 := replicate (Z.to_nat H) (replicate (Z.to_nat W) 0)).
  assert (Hz0 : forall c, cell g0 c = 0) by (intros c; apply zeroed_grid_cell).
  pose proof (RandRange_range 0 (W - 1) Random ltac:(lia)) as HX.
  destruct (RandRange 0 (W - 1) Random) as [StartX Random1]. simpl in HX.
  pose proof (RandRange_range 0 (H - 1) Random1 ltac:(lia)) as HY.
  destruct (RandRange 0 (H - 1) Random1) as [StartY Random2]. simpl in HY.
  assert (Hstart : in_grid W H (StartX, StartY)) by (unfold in_grid; simpl; lia).
  destruct (expand_establishes_inv (StartX, StartY) g0 [] StartX StartY)
    as (g1 & new & E & Hinv1 & Hcount1).
  - apply zeroed_grid_shape; lia.
  - exact Hstart.
  - rewrite Hz0. reflexivity.
  - intros c _ _. left. apply Hz0.
  - intros c [].
  - intros [].
  - constructor.
  - intros c d _ Hin. rewrite Hz0 in Hin. discriminate.
  - intros c _ Hin. rewrite Hz0 in Hin. discriminate.
  - apply joined_refl.
  - exact Hstart.
  - left. reflexivity.
  - unfold in_count. rewrite filter_length_none; [symmetry; apply open_passages_zero; auto|].
    intros x _. rewrite Hz0. reflexivity.
  - rewrite E, bind_Ok. simpl app.
    destruct (prim_loop_spec (StartX, StartY) fuel g1 new Random2 Hinv1)
      as (g & Random' & -> & Hinv).
    { rewrite Hcount1. unfold in_count. rewrite filter_length_none;
        [|intros x _; rewrite Hz0; reflexivity].
      assert (0 < Z.to_nat H * Z.to_nat W)%nat by nia.
      assert (Z.to_nat (W * H) = Z.to_nat H * Z.to_nat W)%nat by nia. lia. }
    rewrite bind_Ok. exists g, Random'. split; [reflexivity|].
    destruct Hinv as [Hs Hcells Hfront Hnd Hclosed Hjoined [Hst Hstin] Hcount].
    assert (Hall : forall c, in_grid W H c -> is_in (cell g c) = true).
    { apply (rooms_closed_all W H (fun c => is_in (cell g c) = true) _ Hst Hstin).
      intros c d Hd Hc Hin Hn.
      destruct (Hcells _ Hn) as [Hz|[[_ []]|Hi]]; [|exact Hi].
      exfalso. exact (Hclosed c d Hc Hin Hd Hn Hz). }
    split; [exact Hs|]. split.
    + intros c c' Hc Hc'. eapply joined_trans; [apply joined_sym|]; eauto.
    + rewrite in_count_all in Hcount by exact Hall. nia.
Qed.

End Prim.


(* --------------------------------------------------------------------- *)
(** ** Kruskal's algorithm                                                *)
(* --------------------------------------------------------------------- *)

Section Kruskal.
Import Generator Rooms.
Context {R : Type} {RS : RandomStream R}.
Variables W H : Z.
Hypothesis HW : 0 < W.
Hypothesis HH : 0 < H.

Lemma root_of_unique (heap : gmap (Z * Z) (Z * Z)) c r n :
  root_of heap c r n -> forall r' n', root_of heap c r' n' -> r = r' /\ n = n'.
Proof.
  induction 1 as [c Hc|c p r n Hp _ IH]; intros r' n' H'.
  - inversion H'; subst; [auto | congruence].
  - inversion H' as [|c0 p' r0 n0 Hp' Hr']; subst; [congruence|].
    assert (p' = p) by congruence. subst p'.
    destruct (IH _ _ Hr') as [-> ->]. auto.
Qed.

Lemma root_of_is_root (heap : gmap (Z * Z) (Z * Z)) c r n :
  root_of heap c r n -> heap !! r = None.
Proof. induction 1; assumption. Qed.

Lemma GetRoot_spec (heap : gmap (Z * Z) (Z * Z)) c r n :
  root_of heap c r n -> forall fuel, (n < fuel)%nat -> GetRoot fuel heap c = Ok r.
Proof.
  induction 1 as [c Hc|c p r n Hp _ IH]; intros fuel Hf;
    (destruct fuel as [|fuel]; [lia|]); simpl.
  - rewrite Hc. reflexivity.
  - rewrite Hp. apply IH. lia.
Qed.

(** Hanging the root [ro] under [t]: chains that end elsewhere stay, and
    chains that ended at [ro] go on to the root of [t]. *)
Lemma root_of_insert_other (heap : gmap (Z * Z) (Z * Z)) ro t c r n :
  root_of heap c r n -> heap !! ro = None -> r <> ro ->
  root_of (<[ro := t]> heap) c r n.
Proof.
  intros Hc Hro Hne. induction Hc as [c Hc|c p r n Hp _ IH].
  - apply root_here. rewrite lookup_insert_ne; [exact Hc | congruence].
  - eapply root_up; [|apply IH, Hne].
    rewrite lookup_insert_ne; [exact Hp | congruence].
Qed.

Lemma root_of_insert_redirect (heap : gmap (Z * Z) (Z * Z)) ro t rt nt c n :
  root_of heap c ro n -> root_of heap t rt nt -> rt <> ro ->
  root_of (<[ro := t]> heap) c rt (n + S nt).
Proof.
  intros Hc Ht Hne.
  pose proof (root_of_is_root _ _ _ _ Hc) as Hro.
  remember ro as r0 eqn:Er. revert Er.
  induction Hc as [c Hc|c p r n Hp _ IH]; intros ->.
  - simpl. eapply root_up; [apply lookup_insert_eq|].
    apply root_of_insert_other; assumption.
  - simpl. eapply root_up; [|apply IH; auto].
    rewrite lookup_insert_ne; [exact Hp | congruence].
Qed.

(** *** Sums over lists without duplicates *)

Lemma list_sum_update {A} `{EqDecision A} (f f' : A -> nat) (l : list A) (x : A) :
  NoDup l -> In x l -> (forall y, y <> x -> f' y = f y) ->
  (list_sum (List.map f' l) + f x = list_sum (List.map f l) + f' x)%nat.
Proof.
  intros Hnd. induction Hnd as [|y l Hy Hnd IH]; intros Hin Hsame; [destruct Hin|].
  simpl. destruct Hin as [->|Hin].
  - assert (E : List.map f' l = List.map f l).
    { apply List.map_ext_in. intros z Hz. apply Hsame.
      intros ->. apply Hy, list_elem_of_In, Hz. }
    rewrite E. lia.
  - assert (y <> x) by (intros ->; apply Hy, list_elem_of_In, Hin).
    rewrite (Hsame y) by assumption. specialize (IH Hin Hsame). lia.
Qed.

Lemma list_sum_ge {A} (f : A -> nat) (l : list A) (x : A) :
  In x l -> (f x <= list_sum (List.map f l))%nat.
Proof.
  induction l as [|y l IH]; intros Hin; [destruct Hin|].
  simpl. destruct Hin as [->|Hin]; [lia|]. specialize (IH Hin). lia.
Qed.

Lemma total_size_root_le (heap : gmap (Z * Z) (Z * Z)) sz r :
  in_grid W H r -> heap !! r = None ->
  (sz r <= total_size W H heap sz)%nat.
Proof.
  intros Hr Hroot. unfold total_size.
  pose proof (list_sum_ge (fun c => if is_root heap c then sz c else O)
                (coordinates W H) r (proj2 (in_coordinates W H r) Hr)) as Hle.
  simpl in Hle. unfold is_root in Hle at 1.
  rewrite bool_decide_eq_true_2 in Hle by assumption. exact Hle.
Qed.


Lemma same_root_sym (heap : gmap (Z * Z) (Z * Z)) a b :
  same_root heap a b -> same_root heap b a.
Proof. intros (r & n & n' & Ha & Hb). exists r, n', n. auto. Qed.

(** Rooms of one tree are still of one tree after a union. *)
Lemma same_root_union (heap : gmap (Z * Z) (Z * Z)) c rc nc rn a b :
  root_of heap c rc nc -> heap !! rn = None -> rc <> rn ->
  same_root heap a b -> same_root (<[rn := c]> heap) a b.
Proof.
  intros Hc Hrn Hne (r & n & n' & Ha & Hb).
  destruct (decide (r = rn)) as [->|Hr].
  - exists rc, (n + S nc)%nat, (n' + S nc)%nat.
    split; apply root_of_insert_redirect; assumption.
  - exists r, n, n'. split; apply root_of_insert_other; assumption.
Qed.

(** The two rooms of the carved passage are of one tree after the union. *)
Lemma same_root_joined_ends (heap : gmap (Z * Z) (Z * Z)) c rc nc c' rn nn :
  root_of heap c rc nc -> root_of heap c' rn nn -> rc <> rn ->
  same_root (<[rn := c]> heap) c c'.
Proof.
  intros Hc Hc' Hne.
  pose proof (root_of_is_root _ _ _ _ Hc') as Hrn.
  exists rc, nc, (nn + S nc)%nat. split.
  - apply root_of_insert_other; assumption.
  - apply root_of_insert_redirect; assumption.
Qed.

(** The root a room has after the union. *)
Lemma root_after_union (heap : gmap (Z * Z) (Z * Z)) c rc nc rn x r n r' n' :
  root_of heap c rc nc -> heap !! rn = None -> rc <> rn ->
  root_of heap x r n -> root_of (<[rn := c]> heap) x r' n' ->
  r' = (if decide (r = rn) then rc else r).
Proof.
  intros Hc Hrn Hne Hx Hx'. destruct (decide (r = rn)) as [->|Hr].
  - pose proof (root_of_insert_redirect heap rn c rc nc x n Hx Hc Hne) as Hn.
    destruct (root_of_unique _ _ _ _ Hx' _ _ Hn). assumption.
  - pose proof (root_of_insert_other heap rn c x r n Hx Hrn Hr) as Hn.
    destruct (root_of_unique _ _ _ _ Hx' _ _ Hn). assumption.
Qed.

Lemma passage_open_carved g g' c d x e :
  carved g g' c d -> is_direction d -> is_direction e ->
  passage_open g' x e = true ->
  passage_open g x e = true \/ (x = c /\ e = d) \/
  (x = step c d /\ e = GetOppositeDirection d).
Proof.
  intros Hcv Hd He Ho. unfold passage_open in *.
  rewrite !(carved_has_dir g g' c d) in Ho by (auto using opposite_is_direction).
  apply andb_true_iff in Ho. destruct Ho as [H1 H2].
  apply orb_true_iff in H1. destruct H1 as [H1|H1].
  2: { right. right. apply bool_decide_eq_true in H1. exact H1. }
  apply orb_true_iff in H1. destruct H1 as [H1|H1].
  2: { right. left. apply bool_decide_eq_true in H1. exact H1. }
  apply orb_true_iff in H2. destruct H2 as [H2|H2].
  2: { right. left. apply bool_decide_eq_true in H2. destruct H2 as [E1 E2].
       split.
       - rewrite <- (step_back x e), E1, E2, step_back. reflexivity.
       - rewrite <- (opposite_involutive e), E2, opposite_involutive. reflexivity. }
  apply orb_true_iff in H2. destruct H2 as [H2|H2].
  2: { right. right. apply bool_decide_eq_true in H2. destruct H2 as [E1 E2].
       split.
       - rewrite <- (step_back x e), E1, E2. reflexivity.
       - rewrite <- (opposite_involutive e), E2. reflexivity. }
  left. rewrite H1, H2. reflexivity.
Qed.

(** Carving the passage of an edge between two trees and hanging one tree
    under the other keeps the invariant. *)
Lemma union_keeps_inv g g' heap sz c d rc nc rn nn :
  kruskal_inv W H g heap sz ->
  in_grid W H c -> in_grid W H (step c d) -> is_direction d ->
  root_of heap c rc nc -> root_of heap (step c d) rn nn -> rc <> rn ->
  grid_shape W H g' -> carved g g' c d ->
  kruskal_inv W H g' (<[rn := c]> heap) (union_sizes sz rc rn).
Proof.
  intros Hinv Hc Hc' Hd Hrc Hrn Hne Hshape Hcv.
  pose proof (root_of_is_root _ _ _ _ Hrn) as Hrn0.
  pose proof (root_of_is_root _ _ _ _ Hrc) as Hrc0.
  destruct (k_root _ _ _ _ _ Hinv c Hc) as (rc1 & nc1 & Hc1 & Hrcg & Hnc).
  destruct (root_of_unique _ _ _ _ Hc1 _ _ Hrc) as [-> ->].
  destruct (k_root _ _ _ _ _ Hinv _ Hc') as (rn1 & nn1 & Hn1 & Hrng & Hnn).
  destruct (root_of_unique _ _ _ _ Hn1 _ _ Hrn) as [-> ->].
  assert (Hmono : forall x e, is_direction e ->
            has_dir (cell g x) e = true -> has_dir (cell g' x) e = true).
  { intros x e _. apply (carved_mono g g' c d), Hcv. }
  constructor.
  - exact Hshape.
  - intros x Hx.
    destruct (k_root _ _ _ _ _ Hinv x Hx) as (r & n & Hr & Hrg & Hn).
    destruct (decide (r = rn)) as [->|Hr'].
    + exists rc, (n + S nc)%nat. split; [|split; [exact Hrcg|]].
      * apply root_of_insert_redirect; assumption.
      * unfold union_sizes. rewrite decide_True by reflexivity. lia.
    + exists r, n. split; [|split; [exact Hrg|]].
      * apply root_of_insert_other; assumption.
      * unfold union_sizes. destruct (decide (r = rc)); [subst; lia | exact Hn].
  - rewrite <- (k_size _ _ _ _ _ Hinv). unfold total_size.
    set (f := fun x => if is_root heap x then sz x else O).
    set (f' := fun x => if is_root (<[rn := c]> heap) x
                        then union_sizes sz rc rn x else O).
    set (f1 := fun x => if decide (x = rn) then O else f x).
    pose proof (NoDup_coordinates W H) as Hnd.
    pose proof (list_sum_update f f1 (coordinates W H) rn Hnd
                  (proj2 (in_coordinates W H rn) Hrng)) as E1.
    pose proof (list_sum_update f1 f' (coordinates W H) rc Hnd
                  (proj2 (in_coordinates W H rc) Hrcg)) as E2.
    assert (Hf : f rn = sz rn).
    { unfold f, is_root. rewrite bool_decide_eq_true_2 by assumption. reflexivity. }
    assert (Hf1 : f1 rn = O) by (unfold f1; rewrite decide_True; reflexivity).
    assert (Hf1c : f1 rc = sz rc).
    { unfold f1. rewrite decide_False by assumption.
      unfold f, is_root. rewrite bool_decide_eq_true_2 by assumption. reflexivity. }
    assert (Hf'c : f' rc = (sz rc + sz rn)%nat).
    { unfold f', is_root, union_sizes.
      rewrite bool_decide_eq_true_2
        by (rewrite lookup_insert_ne; [assumption | congruence]).
      rewrite decide_True; reflexivity. }
    assert (H1 : forall y, y <> rn -> f1 y = f y).
    { intros y Hy. unfold f1. rewrite decide_False; auto. }
    assert (H2 : forall y, y <> rc -> f' y = f1 y).
    { intros y Hy. unfold f', f1, f, is_root, union_sizes.
      destruct (decide (y = rn)) as [->|Hyn].
      - rewrite bool_decide_eq_false_2; [reflexivity|].
        rewrite lookup_insert_eq. discriminate.
      - rewrite lookup_insert_ne by congruence.
        rewrite decide_False by assumption. reflexivity. }
    specialize (E1 H1). specialize (E2 H2). lia.
  - (* rooms of one tree are joined *)
    intros a b Ha Hb (r' & n1 & n2 & Ha' & Hb').
    destruct (k_root _ _ _ _ _ Hinv a Ha) as (ra & na & Hra & _ & _).
    destruct (k_root _ _ _ _ _ Hinv b Hb) as (rb & nb & Hrb & _ & _).
    pose proof (root_after_union heap c rc nc rn a ra na r' n1
                  Hrc Hrn0 Hne Hra Ha') as Ea.
    pose proof (root_after_union heap c rc nc rn b rb nb r' n2
                  Hrc Hrn0 Hne Hrb Hb') as Eb.
    assert (Hold : forall x y, in_grid W H x -> in_grid W H y ->
              same_root heap x y -> joined W H g' x y).
    { intros x y Hx Hy Hxy. apply (joined_mono W H g g'); [exact Hmono|].
      apply (k_joined _ _ _ _ _ Hinv); assumption. }
    assert (Hlink : joined W H g' c (step c d)).
    { apply joined_link. apply (carved_link W H g g'); assumption. }
    destruct (decide (ra = rn)) as [->|Hra'], (decide (rb = rn)) as [->|Hrb'].
    + apply Hold; try assumption. exists rn, na, nb. auto.
    + (* a hangs under rn, b under rc *)
      rewrite Ea in Eb. subst rb.
      eapply joined_trans; [apply (Hold a (step c d)); try assumption|].
      { exists rn, na, nn. auto. }
      eapply joined_trans; [apply joined_sym, Hlink|].
      apply Hold; try assumption. exists rc, nc, nb. auto.
    + rewrite Eb in Ea. subst ra.
      eapply joined_trans; [apply (Hold a c); try assumption|].
      { exists rc, na, nc. auto. }
      eapply joined_trans; [apply Hlink|].
      apply Hold; try assumption. exists rn, nn, nb. auto.
    + rewrite Ea in Eb. subst rb.
      apply Hold; try assumption. exists ra, na, nb. auto.
  - (* an open passage stays within a tree *)
    intros x e Hx Hx' He Ho.
    destruct (passage_open_carved g g' c d x e Hcv Hd He Ho)
      as [Hog|[[-> ->]|[-> ->]]].
    + apply (same_root_union heap c rc nc rn); try assumption.
      apply (k_open _ _ _ _ _ Hinv); assumption.
    + apply (same_root_joined_ends heap c rc nc (step c d) rn nn); assumption.
    + rewrite step_back. apply same_root_sym.
      apply (same_root_joined_ends heap c rc nc (step c d) rn nn); assumption.
  - (* one passage more, one tree less *)
    assert (Hclosed : passage_open g c d = false).
    { destruct (passage_open g c d) eqn:Ho; [|reflexivity]. exfalso.
      destruct (k_open _ _ _ _ _ Hinv c d Hc Hc' Hd Ho) as (r & n1 & n2 & H1 & H2).
      destruct (root_of_unique _ _ _ _ H1 _ _ Hrc) as [-> _].
      destruct (root_of_unique _ _ _ _ H2 _ _ Hrn) as [-> _].
      apply Hne. reflexivity. }
    rewrite (open_passages_carve W H g g' c d Hcv Hd Hc Hc' Hclosed).
    rewrite <- (k_count _ _ _ _ _ Hinv). unfold root_count.
    rewrite (filter_length_flip (is_root (<[rn := c]> heap)) (is_root heap)
               (coordinates W H) rn).
    + lia.
    + apply NoDup_coordinates.
    + apply in_coordinates, Hrng.
    + unfold is_root. apply bool_decide_eq_false_2.
      rewrite lookup_insert_eq. discriminate.
    + unfold is_root. apply bool_decide_eq_true_2. assumption.
    + intros x _ Hx. unfold is_root.
      rewrite lookup_insert_ne by congruence. reflexivity.
Qed.


(** *** The loop over the edges *)

(** A loop invariant that may speak of the elements already visited. *)
Lemma for_each_prefix_invariant {A S} (P : list A -> S -> Prop) (l : list A)
    (body : A -> S -> outcome S) (s : S) :
  P [] s ->
  (forall pre a s0, In a l -> P pre s0 ->
     exists s', body a s0 = Ok s' /\ P (pre ++ [a]) s') ->
  exists s', for_each l body s = Ok s' /\ P l s'.
Proof.
  intros H0 Hbody.
  assert (G : forall l2 l1 s0, (forall a, In a l2 -> In a l) -> P l1 s0 ->
            exists s', for_each l2 body s0 = Ok s' /\ P (l1 ++ l2) s').
  { induction l2 as [|a l2 IH]; intros l1 s0 Hsub HP.
    - exists s0. rewrite app_nil_r. auto.
    - destruct (Hbody l1 a s0 (Hsub a (or_introl eq_refl)) HP) as (s1 & E1 & HP1).
      destruct (IH (l1 ++ [a]) s1) as (s2 & E2 & HP2).
      + intros x Hx. apply Hsub. right. exact Hx.
      + exact HP1.
      + exists s2. simpl. rewrite E1, bind_Ok. split; [exact E2|].
        rewrite <- app_assoc in HP2. exact HP2. }
  apply (G l [] s); auto.
Qed.

Lemma SetNum_Ok {A} (n : Z) (a : A) :
  0 <= n -> SetNum n a = Ok (replicate (Z.to_nat n) a).
Proof.
  intros Hn. unfold SetNum.
  destruct (n <? 0) eqn:E; [apply Z.ltb_lt in E; lia | reflexivity].
Qed.

(** Row [Y] of [Sets] names the sets of the rooms of row [Y]. *)
Lemma fill_set_row (Y : Z) (Row0 : list FIntPoint) :
  Z.of_nat (length Row0) = W ->
  exists Row, for_each (range 0 (W - 1))
                (fun X Row => tarray_set Row X (X, Y)) Row0 = Ok Row /\
    Z.of_nat (length Row) = W /\
    forall X, 0 <= X < W -> tarray_get Row X = Ok (X, Y).
Proof.
  intros Hlen.
  destruct (for_each_prefix_invariant
              (fun pre Row => Z.of_nat (length Row) = W /\
                 forall X, In X pre -> tarray_get Row X = Ok (X, Y))
              (range 0 (W - 1))
              (fun X Row => tarray_set Row X (X, Y)) Row0)
    as (Row & E & Hl & Hget).
  - split; [exact Hlen | intros X []].
  - intros pre a Row Ha [Hl Hget]. apply in_range in Ha.
    exists (<[Z.to_nat a := (a, Y)]> Row). split; [apply tarray_set_Ok; lia|].
    split; [rewrite length_insert; exact Hl|].
    intros X HX. destruct (decide (X = a)) as [->|Hne].
    + apply tarray_get_insert_eq. lia.
    + rewrite tarray_get_insert_ne by lia.
      apply in_app_or in HX. destruct HX as [HX|[HX|[]]]; [auto | congruence].
  - exists Row. split; [exact E|]. split; [exact Hl|].
    intros X HX. apply Hget, in_range. lia.
Qed.

Lemma create_sets_spec :
  exists Sets, create_sets (W, H) = Ok Sets /\ sets_ok W H Sets.
Proof.
  unfold create_sets. cbn [fst snd].
  rewrite (SetNum_Ok H []) by lia. rewrite bind_Ok.
  destruct (for_each_prefix_invariant
              (fun pre (Sets : list (list FIntPoint)) =>
                 Z.of_nat (length Sets) = H /\
                 forall Y, In Y pre -> exists Row, tarray_get Sets Y = Ok Row /\
                   forall X, 0 <= X < W -> tarray_get Row X = Ok (X, Y))
              (range 0 (H - 1))
              (fun Y Sets =>
                 Row ← SetNum W (0, 0);
                 Row ← for_each (range 0 (W - 1))
                         (fun X Row => tarray_set Row X (X, Y)) Row;
                 tarray_set Sets Y Row)
              (replicate (Z.to_nat H) []))
    as (Sets & E & Hl & Hget).
  - split; [rewrite length_replicate; lia | intros Y []].
  - intros pre Y Sets HY [Hl Hget]. apply in_range in HY.
    rewrite SetNum_Ok by lia. rewrite bind_Ok.
    destruct (fill_set_row Y (replicate (Z.to_nat W) (0, 0)))
      as (Row & ERow & HlRow & HRow).
    { rewrite length_replicate. lia. }
    rewrite ERow, bind_Ok.
    exists (<[Z.to_nat Y := Row]> Sets). split; [apply tarray_set_Ok; lia|].
    split; [rewrite length_insert; exact Hl|].
    intros Y' HY'. destruct (decide (Y' = Y)) as [->|Hne].
    + exists Row. split; [apply tarray_get_insert_eq; lia | exact HRow].
    + rewrite tarray_get_insert_ne by lia.
      apply in_app_or in HY'. destruct HY' as [HY'|[HY'|[]]]; [auto | congruence].
  - exists Sets. split; [exact E|].
    intros [X Y] [HX HY]. cbn [fst snd] in *.
    destruct (Hget Y) as (Row & ERow & HRow); [apply in_range; lia|].
    exists Row. auto.
Qed.

Lemma in_create_edges (e : FKruskalEdge) :
  In e (create_edges (W, H)) <->
  in_grid W H (edge_room e) /\
  ((EdgeDirection e = West /\ 0 < EdgeX e) \/
   (EdgeDirection e = North /\ 0 < EdgeY e)).
Proof.
  unfold create_edges, in_grid, edge_room. cbn [fst snd].
  rewrite in_flat_map. split.
  - intros (Y & HY & Hin). apply in_flat_map in Hin.
    destruct Hin as (X & HX & Hin). apply in_range in HY, HX.
    apply in_app_or in Hin. destruct Hin as [Hin|Hin].
    + destruct (X >? 0) eqn:E; [|destruct Hin]. apply Z.gtb_lt in E.
      destruct Hin as [<-|[]]. simpl. split; [lia | left; split; [reflexivity | lia]].
    + destruct (Y >? 0) eqn:E; [|destruct Hin]. apply Z.gtb_lt in E.
      destruct Hin as [<-|[]]. simpl. split; [lia | right; split; [reflexivity | lia]].
  - intros [[HX HY] Hd]. destruct e as [X Y d]. simpl in *.
    exists Y. split; [apply in_range; lia|].
    apply in_flat_map. exists X. split; [apply in_range; lia|].
    apply in_or_app. destruct Hd as [[-> Hp]|[-> Hp]].
    + left. destruct (X >? 0) eqn:E; [left; reflexivity|].
      rewrite Z.gtb_ltb in E. apply Z.ltb_ge in E. lia.
    + right. destruct (Y >? 0) eqn:E; [left; reflexivity|].
      rewrite Z.gtb_ltb in E. apply Z.ltb_ge in E. lia.
Qed.

Lemma edge_ends_in_grid (e : FKruskalEdge) :
  In e (create_edges (W, H)) ->
  is_direction (EdgeDirection e) /\ in_grid W H (edge_room e) /\
  in_grid W H (step (edge_room e) (EdgeDirection e)).
Proof.
  intros He. apply in_create_edges in He. destruct He as [[HX HY] Hd].
  unfold in_grid, step, edge_room in *. cbn [fst snd] in *.
  destruct Hd as [[-> Hp]|[-> Hp]]; simpl; (split; [discriminate | lia]).
Qed.


Lemma process_edge_spec fuel Sets e g heap sz :
  sets_ok W H Sets -> (Z.to_nat H * Z.to_nat W <= fuel)%nat ->
  In e (create_edges (W, H)) -> kruskal_inv W H g heap sz ->
  exists g' heap' sz',
    process_edge fuel Sets e (g, heap) = Ok (g', heap') /\
    kruskal_inv W H g' heap' sz' /\
    same_root heap' (edge_room e) (step (edge_room e) (EdgeDirection e)) /\
    forall a b, same_root heap a b -> same_root heap' a b.
Proof.
  intros HSets Hfuel He Hinv.
  destruct (edge_ends_in_grid e He) as (Hd & Hc & Hc').
  destruct e as [X Y d]. unfold edge_room in *. cbn [EdgeX EdgeY EdgeDirection] in *.
  destruct (HSets _ Hc) as (Row & ERow & EC).
  destruct (HSets _ Hc') as (Row' & ERow' & EC').
  cbn [fst snd step] in ERow, EC, ERow', EC'.
  destruct (k_root _ _ _ _ _ Hinv _ Hc) as (rc & nc & Hrc & Hrcg & Hnc).
  destruct (k_root _ _ _ _ _ Hinv _ Hc') as (rn & nn & Hrn & Hrng & Hnn).
  pose proof (root_of_is_root _ _ _ _ Hrc) as Hrc0.
  pose proof (root_of_is_root _ _ _ _ Hrn) as Hrn0.
  pose proof (total_size_root_le heap sz rc Hrcg Hrc0) as Hlc.
  pose proof (total_size_root_le heap sz rn Hrng Hrn0) as Hln.
  rewrite (k_size _ _ _ _ _ Hinv) in Hlc, Hln.
  assert (Gc : GetRoot fuel heap (X, Y) = Ok rc)
    by (apply (GetRoot_spec heap _ rc nc Hrc); lia).
  assert (Gn : GetRoot fuel heap (step (X, Y) d) = Ok rn)
    by (apply (GetRoot_spec heap _ rn nn Hrn); lia).
  unfold process_edge. cbn [EdgeX EdgeY EdgeDirection].
  rewrite ERow, bind_Ok, EC, bind_Ok, ERow', bind_Ok, EC', bind_Ok.
  unfold IsConnectedTo. rewrite Gc, bind_Ok.
  change (X + GetDirectionDeltaX d, Y + GetDirectionDeltaY d) with (step (X, Y) d).
  rewrite Gn, !bind_Ok.
  destruct (decide (rc = rn)) as [Heq|Hne].
  - rewrite bool_decide_eq_true_2 by assumption. cbn [negb].
    exists g, heap, sz. split; [reflexivity|]. split; [exact Hinv|].
    split; [|auto]. exists rc, nc, nn. rewrite Heq at 2. auto.
  - rewrite bool_decide_eq_false_2 by assumption. cbn [negb].
    unfold ConnectTo. rewrite Gn, !bind_Ok.
    destruct (carve_spec W H g X Y d (k_shape _ _ _ _ _ Hinv) Hc Hc')
      as (g0 & g' & E0 & E' & Hshape & Hcv).
    rewrite E0, bind_Ok, E', bind_Ok.
    exists g', (<[rn := (X, Y)]> heap), (union_sizes sz rc rn).
    split; [reflexivity|]. split; [|split].
    + apply (union_keeps_inv g g' heap sz (X, Y) d rc nc rn nn); assumption.
    + apply (same_root_joined_ends heap (X, Y) rc nc _ rn nn); assumption.
    + intros a b. apply (same_root_union heap (X, Y) rc nc rn); assumption.
Qed.

Lemma same_root_empty (c c' : FIntPoint) :
  same_root (∅ : gmap (Z * Z) (Z * Z)) c c' -> c = c'.
Proof.
  intros (r & n & n' & Hc & Hc').
  inversion Hc as [c0 E|c0 p r0 n0 E _]; subst;
    [|rewrite lookup_empty in E; discriminate].
  inversion Hc' as [c0 E'|c0 p r0 n0 E' _]; subst;
    [reflexivity | rewrite lookup_empty in E'; discriminate].
Qed.

Lemma list_sum_const {A} (l : list A) (k : nat) :
  list_sum (List.map (fun _ => k) l) = (length l * k)%nat.
Proof. induction l as [|a l IH]; simpl; [reflexivity | rewrite IH; lia]. Qed.

Lemma kruskal_inv_initial :
  kruskal_inv W H (replicate (Z.to_nat H) (replicate (Z.to_nat W) 0)) ∅
              (fun _ => 1%nat).
Proof.
  assert (Hz : forall c d, passage_open
            (replicate (Z.to_nat H) (replicate (Z.to_nat W) 0)) c d = false).
  { intros c d. unfold passage_open. rewrite !zeroed_grid_cell.
    unfold has_dir. rewrite Z.land_0_l. reflexivity. }
  constructor.
  - apply zeroed_grid_shape; lia.
  - intros c Hc. exists c, O. split; [apply root_here, lookup_empty|].
    split; [exact Hc | lia].
  - unfold total_size.
    rewrite (List.map_ext _ (fun _ => 1%nat)).
    + rewrite list_sum_const, length_coordinates. lia.
    + intros c. unfold is_root. rewrite bool_decide_eq_true_2; [reflexivity|].
      apply lookup_empty.
  - intros c c' _ _ Hs. apply same_root_empty in Hs. subst. apply joined_refl.
  - intros c d _ _ _ Ho. rewrite Hz in Ho. discriminate.
  - rewrite open_passages_zero by (intros; apply zeroed_grid_cell).
    unfold root_count. rewrite filter_length_all, length_coordinates; [lia|].
    intros x _. unfold is_root. apply bool_decide_eq_true_2, lookup_empty.
Qed.

(** Once every edge has been looked at, one tree holds all the rooms. *)
Lemma all_edges_one_tree g heap sz :
  kruskal_inv W H g heap sz ->
  (forall e, In e (create_edges (W, H)) ->
     same_root heap (edge_room e) (step (edge_room e) (EdgeDirection e))) ->
  spanning_tree W H g.
Proof.
  intros Hinv Hedges.
  assert (Hadj : forall c d, is_direction d -> in_grid W H c ->
            in_grid W H (step c d) -> same_root heap c (step c d)).
  { intros [x y] d Hd Hc Hc'. unfold in_grid, step in Hc, Hc'. cbn [fst snd] in *.
    destruct d; [exfalso; apply Hd; reflexivity| | | |]; simpl in Hc'.
    - (* East: the west edge of the neighbour *)
      apply same_root_sym.
      assert (Hin : In (mkEdge (x + 1) y West) (create_edges (W, H))).
      { apply in_create_edges. unfold in_grid, edge_room; simpl. 
        split; [lia | left; split; [reflexivity | lia]]. }
      apply Hedges in Hin. unfold edge_room, step in Hin. simpl in Hin.
      replace (x + 1 + -1) with x in Hin by lia.
      replace (y + 0) with y in Hin by lia.
      unfold step. simpl. replace (y + 0) with y by lia. exact Hin.
    - (* North *)
      assert (Hin : In (mkEdge x y North) (create_edges (W, H))).
      { apply in_create_edges. unfold in_grid, edge_room; simpl.
        split; [lia | right; split; [reflexivity | lia]]. }
      apply Hedges in Hin. exact Hin.
    - (* South: the north edge of the neighbour *)
      apply same_root_sym.
      assert (Hin : In (mkEdge x (y + 1) North) (create_edges (W, H))).
      { apply in_create_edges. unfold in_grid, edge_room; simpl.
        split; [lia | right; split; [reflexivity | lia]]. }
      apply Hedges in Hin. unfold edge_room, step in Hin. simpl in Hin.
      replace (y + 1 + -1) with y in Hin by lia.
      replace (x + 0) with x in Hin by lia.
      unfold step. simpl. replace (x + 0) with x by lia. exact Hin.
    - (* West *)
      assert (Hin : In (mkEdge x y West) (create_edges (W, H))).
      { apply in_create_edges. unfold in_grid, edge_room; simpl.
        split; [lia | left; split; [reflexivity | lia]]. }
      apply Hedges in Hin. exact Hin. }
  assert (H00 : in_grid W H (0, 0)) by (unfold in_grid; simpl; lia).
  destruct (k_root _ _ _ _ _ Hinv _ H00) as (r0 & n0 & Hr0 & Hr0g & _).
  assert (Hall : forall c, in_grid W H c -> exists n, root_of heap c r0 n).
  { apply (rooms_closed_all W H (fun c => exists n, root_of heap c r0 n) (0, 0) H00).
    - exists n0. exact Hr0.
    - intros c d Hd Hc [n Hn] Hc'.
      destruct (Hadj c d Hd Hc Hc') as (r & n1 & n2 & H1 & H2).
      destruct (root_of_unique _ _ _ _ H1 _ _ Hn) as [-> _].
      exists n2. exact H2. }
  split; [exact (k_shape _ _ _ _ _ Hinv)|]. split.
  - intros c c' Hc Hc'. apply (k_joined _ _ _ _ _ Hinv); try assumption.
    destruct (Hall c Hc) as [n Hn]. destruct (Hall c' Hc') as [n' Hn'].
    exists r0, n, n'. auto.
  - pose proof (k_count _ _ _ _ _ Hinv) as Hcount.
    assert (Hone : root_count W H heap = 1%nat).
    { unfold root_count.
      rewrite (filter_length_flip (fun _ => false) (is_root heap)
                 (coordinates W H) r0).
      - rewrite filter_length_none; [reflexivity | auto].
      - apply NoDup_coordinates.
      - apply in_coordinates, Hr0g.
      - reflexivity.
      - unfold is_root. apply bool_decide_eq_true_2.
        apply (root_of_is_root _ _ _ _ Hr0).
      - intros x Hx Hne. unfold is_root. apply bool_decide_eq_false_2.
        intros Hroot. apply Hne.
        destruct (Hall x (proj1 (in_coordinates W H x) Hx)) as [n Hn].
        destruct (root_of_unique _ _ _ _ Hn _ _ (root_here heap x Hroot)) as [E _].
        symmetry. exact E. }
    rewrite Hone in Hcount. 
    assert (E : Z.of_nat (Z.to_nat H * Z.to_nat W) = W * H).
    { rewrite Nat2Z.inj_mul, !Z2Nat.id by lia. lia. }
    lia.
Qed.

Lemma GenerateKruskals_spec fuel (Random : R) :
  (Z.to_nat (W * H) <= fuel)%nat ->
  exists g Random',
    GenerateKruskals fuel (W, H) Random = Ok (g, Random') /\ spanning_tree W H g.
Proof.
  intros Hfuel.
  assert (Hfuel' : (Z.to_nat H * Z.to_nat W <= fuel)%nat).
  { rewrite <- Z2Nat.inj_mul by lia. rewrite (Z.mul_comm H W). exact Hfuel. }
  unfold GenerateKruskals.
  rewrite CreateZeroedGrid_Ok by lia. rewrite bind_Ok.
  destruct create_sets_spec as (Sets & ESets & HSets).
  rewrite ESets, bind_Ok.
  destruct (ShuffleArray_spec (create_edges (W, H)) Random)
    as (Edges & Random' & EShuffle & _ & HEdges).
  rewrite EShuffle, bind_Ok.
  destruct (for_each_prefix_invariant
              (fun pre (st : list (list Z) * gmap (Z * Z) (Z * Z)) =>
                 (exists sz, kruskal_inv W H (fst st) (snd st) sz) /\
                 forall e, In e pre ->
                   same_root (snd st) (edge_room e)
                             (step (edge_room e) (EdgeDirection e)))
              Edges (process_edge fuel Sets)
              (replicate (Z.to_nat H) (replicate (Z.to_nat W) 0), ∅))
    as ([g heap] & Eloop & [sz Hinv] & Hdone).
  - split; [exists (fun _ => 1%nat); apply kruskal_inv_initial | intros e []].
  - intros pre e [g heap] He [[sz Hinv] Hpre]. cbn [fst snd] in *.
    destruct (process_edge_spec fuel Sets e g heap sz HSets Hfuel'
                (proj1 (HEdges e) He) Hinv)
      as (g' & heap' & sz' & E & Hinv' & Hends & Hmono).
    exists (g', heap'). split; [exact E|]. cbn [fst snd]. split; [eauto|].
    intros e' He'. apply in_app_or in He'. destruct He' as [He'|[<-|[]]].
    + apply Hmono, Hpre, He'.
    + exact Hends.
  - rewrite Eloop, bind_Ok. exists g, Random'. split; [reflexivity|].
    cbn [fst snd] in *. apply (all_edges_one_tree g heap sz Hinv).
    intros e He. apply Hdone, HEdges, He.
Qed.

End Kruskal.


(* --------------------------------------------------------------------- *)
(** ** From the directions grid to floor cells                            *)
(* --------------------------------------------------------------------- *)

Section FloorGrid.
Import Generator Rooms Floor.

(** *** Walks *)

Lemma cardinalb_sym u v : Pathfinder.cardinalb u v = Pathfinder.cardinalb v u.
Proof.
  unfold Pathfinder.cardinalb.
  replace (fst v - fst u) with (- (fst u - fst v)) by lia.
  replace (snd v - snd u) with (- (snd u - snd v)) by lia.
  rewrite !Z.abs_opp. reflexivity.
Qed.

Lemma walk_ends (fl : FIntPoint -> Prop) a b : walk fl a b -> fl a /\ fl b.
Proof. induction 1 as [p Hp|p q r _ [IH _] _ Hr]; auto. Qed.

Lemma walk_trans (fl : FIntPoint -> Prop) a b c :
  walk fl a b -> walk fl b c -> walk fl a c.
Proof.
  intros Hab Hbc. induction Hbc as [p Hp|p q r _ IH Hqr Hr]; [exact Hab|].
  eapply walk_move; [apply IH, Hab | exact Hqr | exact Hr].
Qed.

Lemma walk_one (fl : FIntPoint -> Prop) a b :
  fl a -> fl b -> Pathfinder.cardinalb a b = true -> walk fl a b.
Proof. intros Ha Hb Hab. eapply walk_move; [apply walk_here, Ha | exact Hab | exact Hb]. Qed.

Lemma walk_sym (fl : FIntPoint -> Prop) a b : walk fl a b -> walk fl b a.
Proof.
  induction 1 as [p Hp|p q r Hpq IH Hqr Hr]; [apply walk_here, Hp|].
  apply (walk_trans fl r q p); [|exact IH].
  apply walk_one; [exact Hr | apply (walk_ends fl p q Hpq) |].
  rewrite cardinalb_sym. exact Hqr.
Qed.

Lemma walk_ext (fl fl' : FIntPoint -> Prop) a b :
  (forall p, fl p -> fl' p) -> walk fl a b -> walk fl' a b.
Proof.
  intros Hsub. induction 1 as [p Hp|p q r _ IH Hqr Hr].
  - apply walk_here, Hsub, Hp.
  - eapply walk_move; [exact IH | exact Hqr | apply Hsub, Hr].
Qed.

(** *** Placing the rooms *)

Variables DW DH SX SY : Z.
Variable g : list (list Z).
Hypothesis HSX : SX <= 2 * DW <= SX + 1.
Hypothesis HSY : SY <= 2 * DH <= SY + 1.
Hypothesis Hg : grid_shape DW DH g.

Lemma room_cell_in_grid r : in_grid DW DH r -> in_grid SX SY (room_cell r).
Proof. unfold in_grid, room_cell. simpl. lia. Qed.

Lemma passage_cell_cardinal r d :
  is_direction d -> Pathfinder.cardinalb (room_cell r) (passage_cell r d) = true.
Proof.
  intros Hd. unfold Pathfinder.cardinalb, room_cell, passage_cell. simpl.
  destruct d; [exfalso; apply Hd; reflexivity| | | |]; simpl; apply Z.eqb_eq; lia.
Qed.

Lemma floor_inv_weaken (done done' : FIntPoint -> Prop) F :
  (forall r, done' r -> done r) ->
  floor_inv DW DH g SX SY done F -> floor_inv DW DH g SX SY done' F.
Proof.
  intros Hsub [H1 H2 H3 H4]. constructor; auto.
Qed.

(** Writing 1 into a room cell, or into a cell next to a room cell that
    already holds 1. *)
Lemma set_floor_cell (done : FIntPoint -> Prop) F c r :
  floor_inv DW DH g SX SY done F -> in_grid SX SY c -> in_grid DW DH r ->
  (c = room_cell r \/
   (cell F (room_cell r) = 1 /\ Pathfinder.cardinalb (room_cell r) c = true)) ->
  exists F', grid_set F (fst c) (snd c) 1 = Ok F' /\
    floor_inv DW DH g SX SY done F' /\ cell F' c = 1 /\
    forall p, cell F p = 1 -> cell F' p = 1.
Proof.
  intros [H1 H2 H3 H4] Hc Hr Hnear.
  destruct (grid_set_spec SX SY F c 1 H1 Hc) as (F' & E & Hshape & Hcell).
  assert (Hmono : forall p, cell F p = 1 -> cell F' p = 1).
  { intros p Hp. rewrite Hcell. destruct (decide (p = c)); auto. }
  assert (Hc1 : cell F' c = 1) by (rewrite Hcell, decide_True; reflexivity).
  exists F'. split; [exact E|]. split; [|split; assumption].
  constructor.
  - exact Hshape.
  - intros p Hp. rewrite Hcell in Hp. destruct (decide (p = c)) as [->|Hne].
    + exists r. split; [exact Hr|].
      destruct Hnear as [->|[Hroom Hcard]]; [split; [exact Hc1 | left; reflexivity]|].
      split; [apply Hmono, Hroom | right; exact Hcard].
    + destruct (H2 p Hp) as (r' & Hr' & Hroom & Hp').
      exists r'. split; [exact Hr'|]. split; [apply Hmono, Hroom | exact Hp'].
  - intros r' Hd. apply Hmono, H3, Hd.
  - intros r' d Hd Hdir Hhas Hin. apply Hmono, H4; assumption.
Qed.

(** One of the four tests of a direction bit followed by a write. *)
Lemma set_passage_cell (done : FIntPoint -> Prop) F r d (bnd : bool) px py :
  floor_inv DW DH g SX SY done F -> in_grid DW DH r ->
  cell F (room_cell r) = 1 -> is_direction d ->
  (px, py) = passage_cell r d ->
  (bnd = true <-> in_grid SX SY (passage_cell r d)) ->
  exists F',
    (if has_dir (cell g r) d && bnd then grid_set F px py 1 else Ok F) = Ok F' /\
    floor_inv DW DH g SX SY done F' /\
    (forall p, cell F p = 1 -> cell F' p = 1) /\
    (has_dir (cell g r) d = true -> in_grid SX SY (passage_cell r d) ->
     cell F' (passage_cell r d) = 1).
Proof.
  intros Hinv Hr Hroom Hd Hp Hbnd.
  destruct (has_dir (cell g r) d) eqn:Hhas; cbn [andb].
  2: { exists F. split; [reflexivity|]. split; [exact Hinv|]. split; [auto|].
       discriminate. }
  destruct bnd.
  2: { exists F. split; [reflexivity|]. split; [exact Hinv|]. split; [auto|].
       intros _ Hin. apply Hbnd in Hin. discriminate. }
  assert (Hin : in_grid SX SY (passage_cell r d)) by (apply Hbnd; reflexivity).
  destruct (set_floor_cell done F (passage_cell r d) r Hinv Hin Hr)
    as (F' & E & Hinv' & Hc1 & Hmono).
  { right. split; [exact Hroom | apply passage_cell_cardinal, Hd]. }
  rewrite <- Hp in E. cbn [fst snd] in E.
  exists F'. split; [exact E|]. split; [exact Hinv'|]. split; [exact Hmono|].
  intros _ _. exact Hc1.
Qed.

Lemma place_room_spec (done : FIntPoint -> Prop) F X Y :
  floor_inv DW DH g SX SY done F -> in_grid DW DH (X, Y) ->
  exists F', place_room g (SX, SY) X Y F = Ok F' /\
    floor_inv DW DH g SX SY (fun r => done r \/ r = (X, Y)) F'.
Proof.
  intros Hinv Hr. pose proof (room_cell_in_grid _ Hr) as Hrc.
  assert (Hb : 0 <= X * 2 < SX /\ 0 <= Y * 2 < SY) by exact Hrc.
  unfold place_room. cbn [fst snd].
  replace ((X * 2 >=? SX) || (Y * 2 >=? SY)) with false.
  2: { symmetry. apply orb_false_iff. rewrite !Z.geb_leb.
       split; apply Z.leb_gt; lia. }
  destruct (set_floor_cell done F (room_cell (X, Y)) (X, Y) Hinv Hrc Hr)
    as (F0 & E0 & Hinv0 & Hroom0 & Hmono0); [left; reflexivity|].
  cbn [room_cell fst snd] in E0. rewrite E0, bind_Ok.
  rewrite (grid_get_cell DW DH g (X, Y) Hg Hr : grid_get g X Y = _), bind_Ok.
  set (v := cell g (X, Y)).
  change (negb (Z.land v 1 =? 0)) with (has_dir v East).
  change (negb (Z.land v 2 =? 0)) with (has_dir v North).
  change (negb (Z.land v 4 =? 0)) with (has_dir v South).
  change (negb (Z.land v 8 =? 0)) with (has_dir v West).
  subst v.
  destruct (set_passage_cell done F0 (X, Y) East (X * 2 + 1 <? SX) (X * 2 + 1) (Y * 2)
              Hinv0 Hr Hroom0) as (F1 & E1 & Hinv1 & Hmono1 & HE).
  { discriminate. }
  { unfold passage_cell. simpl. f_equal. lia. }
  { unfold in_grid, passage_cell. simpl. rewrite Z.ltb_lt. lia. }
  rewrite E1, bind_Ok.
  destruct (set_passage_cell done F1 (X, Y) North (Y * 2 - 1 >=? 0) (X * 2) (Y * 2 - 1)
              Hinv1 Hr (Hmono1 _ Hroom0)) as (F2 & E2 & Hinv2 & Hmono2 & HN).
  { discriminate. }
  { unfold passage_cell. simpl. f_equal; lia. }
  { unfold in_grid, passage_cell. simpl. rewrite Z.geb_leb, Z.leb_le. lia. }
  rewrite E2, bind_Ok.
  destruct (set_passage_cell done F2 (X, Y) South (Y * 2 + 1 <? SY) (X * 2) (Y * 2 + 1)
              Hinv2 Hr (Hmono2 _ (Hmono1 _ Hroom0))) as (F3 & E3 & Hinv3 & Hmono3 & HS).
  { discriminate. }
  { unfold passage_cell. simpl. f_equal; lia. }
  { unfold in_grid, passage_cell. simpl. rewrite Z.ltb_lt. lia. }
  rewrite E3, bind_Ok.
  destruct (set_passage_cell done F3 (X, Y) West (X * 2 - 1 >=? 0) (X * 2 - 1) (Y * 2)
              Hinv3 Hr (Hmono3 _ (Hmono2 _ (Hmono1 _ Hroom0))))
    as (F4 & E4 & Hinv4 & Hmono4 & HW4).
  { discriminate. }
  { unfold passage_cell. simpl. f_equal; lia. }
  { unfold in_grid, passage_cell. simpl. rewrite Z.geb_leb, Z.leb_le. lia. }
  exists F4. split; [exact E4|].
  destruct Hinv4 as [H1 H2 H3 H4]. constructor; auto.
  - intros r [Hd| ->]; [auto|].
    apply Hmono4, Hmono3, Hmono2, Hmono1, Hroom0.
  - intros r d [Hd| ->] Hdir Hhas Hin; [auto|].
    destruct d; [exfalso; apply Hdir; reflexivity| | | |].
    + apply Hmono4, Hmono3, Hmono2, HE; assumption.
    + apply Hmono4, Hmono3, HN; assumption.
    + apply Hmono4, HS; assumption.
    + apply HW4; assumption.
Qed.


Lemma floor_inv_initial :
  0 <= SX -> 0 <= SY ->
  floor_inv DW DH g SX SY (fun _ => False)
            (replicate (Z.to_nat SY) (replicate (Z.to_nat SX) 0)).
Proof.
  intros H1 H2. constructor.
  - apply zeroed_grid_shape; assumption.
  - intros p Hp. rewrite zeroed_grid_cell in Hp. discriminate.
  - intros r [].
  - intros r d [].
Qed.

Lemma DirectionsToFloorWallGrid_spec :
  0 < DW -> 0 < DH ->
  exists F, DirectionsToFloorWallGrid g (SX, SY) = Ok F /\
            floor_inv DW DH g SX SY (in_grid DW DH) F.
Proof.
  intros HDW HDH. unfold DirectionsToFloorWallGrid.
  rewrite CreateZeroedGrid_Ok by lia. rewrite bind_Ok.
  destruct Hg as [Hlen Hrows]. rewrite Hlen.
  replace (DH >? 0) with true by (symmetry; apply Z.gtb_lt; lia).
  destruct (tarray_get_Ok g 0) as (Row0 & ERow0 & Hlook); [lia|].
  rewrite ERow0, !bind_Ok.
  rewrite (Hrows Row0)
    by (apply list_elem_of_In; eapply list_elem_of_lookup_2; exact Hlook).
  destruct (for_each_prefix_invariant
              (fun pre F => floor_inv DW DH g SX SY
                 (fun r => In (snd r) pre /\ 0 <= fst r < DW) F)
              (range 0 (DH - 1))
              (fun Y Grid =>
                 for_each (range 0 (DW - 1))
                   (fun X Grid => place_room g (SX, SY) X Y Grid) Grid)
              (replicate (Z.to_nat SY) (replicate (Z.to_nat SX) 0)))
    as (F & E & Hinv).
  - apply (floor_inv_weaken (fun _ => False)); [|apply floor_inv_initial; lia].
    intros r [[] _].
  - intros pre Y F0 HY Hinv0. apply in_range in HY.
    destruct (for_each_prefix_invariant
                (fun pre' F => floor_inv DW DH g SX SY
                   (fun r => (In (snd r) pre /\ 0 <= fst r < DW) \/
                             (snd r = Y /\ In (fst r) pre')) F)
                (range 0 (DW - 1))
                (fun X Grid => place_room g (SX, SY) X Y Grid) F0)
      as (F1 & E1 & Hinv1).
    + eapply floor_inv_weaken; [|exact Hinv0]. cbn beta.
      intros r [H1|[_ []]]. exact H1.
    + intros pre' X F1 HX Hinv1. apply in_range in HX.
      destruct (place_room_spec _ F1 X Y Hinv1) as (F2 & E2 & Hinv2).
      { unfold in_grid. simpl. lia. }
      exists F2. split; [exact E2|].
      eapply floor_inv_weaken; [|exact Hinv2]. cbn beta.
      intros [x y]. cbn [fst snd]. intros [H1|[-> H2]]; [auto|].
      apply in_app_or in H2. destruct H2 as [H2|[->|[]]]; auto.
    + exists F1. split; [exact E1|].
      eapply floor_inv_weaken; [|exact Hinv1]. cbn beta.
      intros r [H1 H2]. apply in_app_or in H1. destruct H1 as [H1|[<-|[]]].
      * left. auto.
      * right. split; [reflexivity | apply in_range; lia].
  - exists F. split; [exact E|].
    eapply floor_inv_weaken; [|exact Hinv]. cbn beta.
    intros r [H1 H2]. split; [apply in_range; lia | exact H1].
Qed.

End FloorGrid.


Section FloorConnected.
Import Generator Rooms Floor.

Variables DW DH SX SY : Z.
Variables g F : list (list Z).
Hypothesis HDW : 0 < DW.
Hypothesis HDH : 0 < DH.
Hypothesis HSX : SX <= 2 * DW <= SX + 1.
Hypothesis HSY : SY <= 2 * DH <= SY + 1.
Hypothesis Htree : spanning_tree DW DH g.
Hypothesis HF : floor_inv DW DH g SX SY (in_grid DW DH) F.

Local Abbreviation fl := (grid_floor F).

Lemma joined_in_grid c c' :
  joined DW DH g c c' -> (in_grid DW DH c <-> in_grid DW DH c').
Proof.
  induction 1 as [c|c c' (d & _ & _ & Hc & Hc' & _)|c c' _ IH|c c' c'' _ IH1 _ IH2];
    tauto.
Qed.

Lemma link_walk c c' :
  link DW DH g c c' -> walk fl (room_cell c) (room_cell c').
Proof.
  intros (d & Hd & -> & Hc & Hc' & Ho).
  apply andb_true_iff in Ho. destruct Ho as [Hhas _].
  pose proof (room_cell_in_grid DW DH SX SY HSX HSY c Hc) as Hrc.
  pose proof (room_cell_in_grid DW DH SX SY HSX HSY _ Hc') as Hrc'.
  assert (Hp : in_grid SX SY (passage_cell c d)).
  { unfold in_grid, room_cell, passage_cell, step in *. cbn [fst snd] in *.
    destruct d; simpl in *; lia. }
  assert (H1 : fl (room_cell c)) by (apply (fi_rooms _ _ _ _ _ _ _ HF), Hc).
  assert (H2 : fl (passage_cell c d))
    by (apply (fi_passages _ _ _ _ _ _ _ HF); assumption).
  assert (H3 : fl (room_cell (step c d))) by (apply (fi_rooms _ _ _ _ _ _ _ HF), Hc').
  apply (walk_trans fl _ (passage_cell c d)).
  - apply walk_one; [exact H1 | exact H2 | apply passage_cell_cardinal, Hd].
  - apply walk_one; [exact H2 | exact H3 |].
    unfold Pathfinder.cardinalb, passage_cell, room_cell, step. cbn [fst snd].
    destruct d; [exfalso; apply Hd; reflexivity| | | |]; simpl; apply Z.eqb_eq; lia.
Qed.

Lemma joined_walk c c' :
  joined DW DH g c c' -> in_grid DW DH c ->
  walk fl (room_cell c) (room_cell c').
Proof.
  induction 1 as [c|c c' Hl|c c' Hj IH|c c' c'' Hj1 IH1 Hj2 IH2]; intros Hc.
  - apply walk_here. apply (fi_rooms _ _ _ _ _ _ _ HF), Hc.
  - apply link_walk, Hl.
  - apply walk_sym, IH. apply (joined_in_grid _ _ Hj), Hc.
  - apply (walk_trans fl _ (room_cell c')); [apply IH1, Hc|].
    apply IH2. apply (joined_in_grid _ _ Hj1), Hc.
Qed.

(** In the floor/wall grid the cells that hold 1 are connected. *)
Lemma floor_grid_connected a b : fl a -> fl b -> walk fl a b.
Proof.
  intros Ha Hb.
  destruct (fi_sound _ _ _ _ _ _ _ HF a Ha) as (ra & Hra & Hfa & Hnear_a).
  destruct (fi_sound _ _ _ _ _ _ _ HF b Hb) as (rb & Hrb & Hfb & Hnear_b).
  assert (Wa : walk fl a (room_cell ra)).
  { destruct Hnear_a as [->|Hcard]; [apply walk_here, Hfa|].
    apply walk_sym, walk_one; assumption. }
  assert (Wb : walk fl (room_cell rb) b).
  { destruct Hnear_b as [->|Hcard]; [apply walk_here, Hfb|].
    apply walk_one; assumption. }
  apply (walk_trans fl _ _ _ Wa), (walk_trans fl _ (room_cell rb)); [|exact Wb].
  apply joined_walk; [|exact Hra].
  destruct Htree as (_ & Hj & _). apply Hj; assumption.
Qed.

End FloorConnected.


Section GenerateMazeFacts.
Import Generator Rooms Floor.
Context {R : Type} {RS : RandomStream R}.

(** Every algorithm leaves a spanning tree in the directions grid. *)
Lemma generate_directions_spec fuel Algorithm W H (Random : R) :
  0 < W -> 0 < H -> (Z.to_nat (W * H) < fuel)%nat ->
  exists g Random',
    generate_directions fuel Algorithm (W, H) Random = Ok (g, Random') /\
    spanning_tree W H g.
Proof.
  intros HW HH Hfuel. destruct Algorithm; simpl.
  - apply GenerateBacktracker_spec; assumption.
  - apply GeneratePrims_spec; [assumption..|lia].
  - apply GenerateKruskals_spec; [assumption..|lia].
Qed.

Lemma for_each_append {A B} (l : list A) (mk : A -> list B)
    (body : A -> list B -> outcome (list B)) (s : list B) :
  (forall a s0, In a l -> body a s0 = Ok (s0 ++ mk a)) ->
  for_each l body s = Ok (s ++ flat_map mk l).
Proof.
  revert s. induction l as [|a l IH]; intros s Hbody; simpl.
  - rewrite app_nil_r. reflexivity.
  - rewrite Hbody by (left; reflexivity). rewrite bind_Ok.
    rewrite IH by (intros; apply Hbody; right; assumption).
    rewrite <- app_assoc. reflexivity.
Qed.

Lemma map_flat_map {A B C} (f : B -> C) (h : A -> list B) (l : list A) :
  List.map f (flat_map h l) = flat_map (fun a => List.map f (h a)) l.
Proof.
  induction l as [|a l IH]; simpl; [reflexivity|].
  rewrite List.map_app, IH. reflexivity.
Qed.

Lemma flat_map_single {A B} (f : A -> B) (l : list A) :
  flat_map (fun a => [f a]) l = List.map f l.
Proof. induction l as [|a l IH]; simpl; [reflexivity | rewrite IH; reflexivity]. Qed.

Variable vfmt : Scalar.format.

(** The loop that builds the cell array lists the cells row by row. *)
Lemma cells_loop (Config : FMazeGenerationConfig) SX SY F :
  grid_shape SX SY F ->
  for_each (range 0 (SY - 1))
    (fun Y Cells =>
       for_each (range 0 (SX - 1))
         (fun X Cells =>
            v ← grid_get F X Y;
            let bIsFloor := v =? 1 in
            Ok (Cells ++ [FMazeCell_make (X, Y)
                            (cell_world_position vfmt Config X Y) bIsFloor]))
         Cells)
    [] =
  Ok (List.map (fun c => FMazeCell_make c
                  (cell_world_position vfmt Config (fst c) (snd c))
                  (cell F c =? 1))
        (coordinates SX SY)).
Proof.
  intros Hshape.
  rewrite (for_each_append _
             (fun Y => List.map (fun X => FMazeCell_make (X, Y)
                          (cell_world_position vfmt Config X Y)
                          (cell F (X, Y) =? 1)) (range 0 (SX - 1)))).
  - unfold coordinates. rewrite map_flat_map. simpl. f_equal.
    apply flat_map_ext. intros Y. rewrite List.map_map. reflexivity.
  - intros Y Cells HY. apply in_range in HY.
    rewrite (for_each_append _
               (fun X => [FMazeCell_make (X, Y)
                            (cell_world_position vfmt Config X Y)
                            (cell F (X, Y) =? 1)])).
    + rewrite flat_map_single. reflexivity.
    + intros X Cells0 HX. apply in_range in HX.
      assert (Hin : in_grid SX SY (X, Y)) by (unfold in_grid; simpl; lia).
      rewrite (grid_get_cell SX SY F (X, Y) Hshape Hin : grid_get F X Y = _).
      rewrite bind_Ok. reflexivity.
Qed.

Lemma is_floor_at_cells (Config : FMazeGenerationConfig) SX SY F p :
  grid_shape SX SY F ->
  is_floor_at
    (List.map (fun c => FMazeCell_make c
                 (cell_world_position vfmt Config (fst c) (snd c))
                 (cell F c =? 1))
       (coordinates SX SY)) p <->
  cell F p = 1.
Proof.
  intros Hshape. unfold is_floor_at. split.
  - intros (c & Hin & Hpos & Hfl). apply in_map_iff in Hin.
    destruct Hin as (q & <- & _). simpl in Hpos, Hfl. subst q.
    apply Z.eqb_eq, Hfl.
  - intros Hp. exists (FMazeCell_make p
                 (cell_world_position vfmt Config (fst p) (snd p)) (cell F p =? 1)).
    split; [|split; [reflexivity | simpl; apply Z.eqb_eq, Hp]].
    apply in_map_iff. exists p. split; [reflexivity|].
    apply in_coordinates.
    destruct (decide (in_grid SX SY p)) as [Hin|Hout]; [exact Hin|].
    rewrite (cell_outside SX SY F p Hshape Hout) in Hp. discriminate.
Qed.

Lemma directions_size (S : Z) :
  0 < S -> 0 < Z.quot (S + 1) 2 <= S /\ S <= 2 * Z.quot (S + 1) 2 <= S + 1.
Proof.
  intros HS. rewrite Z.quot_div_nonneg by lia.
  pose proof (Z.div_mod (S + 1) 2 ltac:(lia)).
  pose proof (Z.mod_pos_bound (S + 1) 2 ltac:(lia)). lia.
Qed.

(** What [GenerateMaze] returns for positive sizes. *)
Lemma GenerateMaze_spec fuel (Config : FMazeGenerationConfig) :
  0 < SizeX Config -> 0 < SizeY Config ->
  (Z.to_nat (SizeX Config * SizeY Config) < fuel)%nat ->
  exists g Random' F,
    generate_directions fuel (Algorithm Config)
      (Z.quot (SizeX Config + 1) 2, Z.quot (SizeY Config + 1) 2)
      (FRandomStream_seeded (Seed Config)) = Ok (g, Random') /\
    spanning_tree (Z.quot (SizeX Config + 1) 2) (Z.quot (SizeY Config + 1) 2) g /\
    floor_inv (Z.quot (SizeX Config + 1) 2) (Z.quot (SizeY Config + 1) 2) g
      (SizeX Config) (SizeY Config)
      (in_grid (Z.quot (SizeX Config + 1) 2) (Z.quot (SizeY Config + 1) 2)) F /\
    GenerateMaze vfmt fuel Config =
    Ok (List.map (fun c => FMazeCell_make c
                    (cell_world_position vfmt Config (fst c) (snd c))
                    (cell F c =? 1))
          (coordinates (SizeX Config) (SizeY Config))).
Proof.
  intros HX HY Hfuel.
  destruct (directions_size _ HX) as [HDW HSX].
  destruct (directions_size _ HY) as [HDH HSY].
  set (DW := Z.quot (SizeX Config + 1) 2) in *.
  set (DH := Z.quot (SizeY Config + 1) 2) in *.
  destruct (generate_directions_spec fuel (Algorithm Config) DW DH
              (FRandomStream_seeded (Seed Config))) as (g & Random' & Eg & Htree);
    [lia | lia | |].
  { assert (DW * DH <= SizeX Config * SizeY Config) by nia. lia. }
  destruct (DirectionsToFloorWallGrid_spec DW DH (SizeX Config) (SizeY Config) g
              HSX HSY (proj1 Htree)) as (F & EF & HF); [lia | lia |].
  exists g, Random', F. split; [exact Eg|]. split; [exact Htree|].
  split; [exact HF|].
  unfold GenerateMaze. fold DW DH. rewrite Eg, bind_Ok. rewrite EF, bind_Ok.
  cbn [fst snd]. apply cells_loop. apply (fi_shape _ _ _ _ _ _ _ HF).
Qed.

End GenerateMazeFacts.


(* --------------------------------------------------------------------- *)
(** ** Sizes that are not positive                                        *)
(* --------------------------------------------------------------------- *)

Section Degenerate.
Import Generator Rooms.
Context {R : Type} {RS : RandomStream R}.

Lemma for_each_skip {A S} (l : list A) (body : A -> S -> outcome S) (s : S) :
  (forall a, In a l -> body a s = Ok s) -> for_each l body s = Ok s.
Proof.
  induction l as [|a l IH]; intros Hbody; simpl; [reflexivity|].
  rewrite Hbody by (left; reflexivity). rewrite bind_Ok.
  apply IH. intros. apply Hbody. right. assumption.
Qed.

Lemma SetNum_Fault {A} (n : Z) (a : A) : n < 0 -> SetNum n a = Fault.
Proof.
  intros Hn. unfold SetNum.
  destruct (n <? 0) eqn:E; [reflexivity | apply Z.ltb_ge in E; lia].
Qed.

Lemma CreateZeroedGrid_degenerate W H :
  W <= 0 \/ H <= 0 ->
  CreateZeroedGrid (W, H) = Fault \/
  exists Grid, CreateZeroedGrid (W, H) = Ok Grid /\ no_cells Grid.
Proof.
  intros Hdeg. unfold CreateZeroedGrid. cbn [fst snd].
  destruct (Z.lt_trichotomy H 0) as [HH|[->|HH]].
  - left. rewrite (SetNum_Fault H []) by assumption. reflexivity.
  - right. exists []. split; [reflexivity | intros Row []].
  - destruct (Z.eq_dec W 0) as [->|HW].
    + right. exists (replicate (Z.to_nat H) (replicate (Z.to_nat 0) 0)). split.
      * apply (CreateZeroedGrid_Ok 0 H); lia.
      * intros Row HRow. apply list_elem_of_In, elem_of_replicate in HRow.
        destruct HRow as [-> _]. reflexivity.
    + left. rewrite (SetNum_Ok H []) by lia. rewrite bind_Ok.
      rewrite range_cons by lia. simpl.
      rewrite (SetNum_Fault W) by lia. reflexivity.
Qed.

Lemma tarray_get_cases {A} (l : list A) (i : Z) :
  tarray_get l i = Fault \/ exists a, tarray_get l i = Ok a /\ In a l.
Proof.
  unfold tarray_get. destruct (i <? 0); [left; reflexivity|].
  destruct (l !! Z.to_nat i) as [a|] eqn:E; [|left; reflexivity].
  right. exists a. split; [reflexivity|].
  apply list_elem_of_In. eapply list_elem_of_lookup_2. exact E.
Qed.

Lemma no_cells_get Grid X Y : no_cells Grid -> grid_get Grid X Y = Fault.
Proof.
  intros Hno. unfold grid_get.
  destruct (tarray_get_cases Grid Y) as [E|(Row & E & HRow)]; rewrite E;
    [reflexivity|].
  rewrite bind_Ok, (Hno Row HRow).
  unfold tarray_get. destruct (X <? 0); reflexivity.
Qed.

Lemma no_cells_or Grid X Y bits : no_cells Grid -> grid_or Grid X Y bits = Fault.
Proof. intros Hno. unfold grid_or. rewrite no_cells_get by assumption. reflexivity. Qed.

Lemma no_cells_bounds Grid X Y :
  no_cells Grid ->
  in_bounds_and_zero Grid X Y = Fault \/ in_bounds_and_zero Grid X Y = Ok false.
Proof.
  intros Hno. unfold in_bounds_and_zero, in_bounds_check.
  destruct (X >=? 0) eqn:EX; cbn [negb]; [|right; reflexivity].
  destruct (tarray_get_cases Grid 0) as [E|(Row0 & E & HRow)]; rewrite E;
    [left; reflexivity|].
  rewrite (Hno Row0 HRow), !bind_Ok. simpl length.
  replace (X <? Z.of_nat 0) with false; [right; reflexivity|].
  symmetry. apply Z.ltb_ge. rewrite Z.geb_leb in EX. apply Z.leb_le in EX. lia.
Qed.

Lemma no_cells_carve recurse X Y Directions Grid (Random : R) :
  no_cells Grid ->
  carve_directions recurse X Y Directions (Grid, Random) = Fault \/
  carve_directions recurse X Y Directions (Grid, Random) = Ok (Grid, Random).
Proof.
  intros Hno. induction Directions as [|Dir l IH]; simpl; [right; reflexivity|].
  destruct (no_cells_bounds Grid (X + GetDirectionDeltaX Dir)
              (Y + GetDirectionDeltaY Dir) Hno) as [E|E]; rewrite E.
  - left. reflexivity.
  - rewrite !bind_Ok. exact IH.
Qed.

Lemma GenerateBacktracker_degenerate fuel W H (Random : R) :
  W <= 0 \/ H <= 0 -> (0 < fuel)%nat ->
  GenerateBacktracker fuel (W, H) Random = Fault \/
  exists Grid Random',
    GenerateBacktracker fuel (W, H) Random = Ok (Grid, Random') /\ no_cells Grid.
Proof.
  intros Hdeg Hfuel. unfold GenerateBacktracker.
  destruct (CreateZeroedGrid_degenerate W H Hdeg) as [E|(Grid & E & Hno)];
    rewrite E; [left; reflexivity|].
  rewrite bind_Ok. destruct fuel as [|fuel]; [lia|]. simpl.
  destruct (ShuffleArray_spec [East; West; North; South] Random)
    as (l & Random' & El & _). rewrite El, bind_Ok.
  destruct (no_cells_carve (CarvePassagesFrom fuel) 0 0 l Grid Random' Hno) as [Ec|Ec];
    rewrite Ec; [left; reflexivity|].
  right. exists Grid, Random'. auto.
Qed.

Lemma GeneratePrims_degenerate fuel W H (Random : R) :
  W <= 0 \/ H <= 0 -> GeneratePrims fuel (W, H) Random = Fault.
Proof.
  intros Hdeg. unfold GeneratePrims.
  destruct (CreateZeroedGrid_degenerate W H Hdeg) as [E|(Grid & E & Hno)];
    rewrite E; [reflexivity|].
  rewrite bind_Ok. cbn [fst snd].
  destruct (RandRange 0 (W - 1) Random) as [StartX Random1].
  destruct (RandRange 0 (H - 1) Random1) as [StartY Random2].
  unfold PrimExpandFrontierFrom. rewrite no_cells_or by assumption. reflexivity.
Qed.

Lemma create_edges_degenerate W H :
  W <= 0 \/ H <= 0 -> create_edges (W, H) = [].
Proof.
  intros Hdeg. unfold create_edges. cbn [fst snd]. destruct Hdeg as [HW|HH].
  - rewrite (range_nil 0 (W - 1)) by lia. simpl.
    induction (range 0 (H - 1)) as [|Y l IH]; [reflexivity | exact IH].
  - rewrite (range_nil 0 (H - 1)) by lia. reflexivity.
Qed.

(** The loops that build [Sets] hold no recursion: they never run out of
    fuel. *)
Lemma bind_returns {A B} (m : outcome A) (f : A -> outcome B) :
  m <> OutOfFuel -> (forall a, f a <> OutOfFuel) -> m ≫= f <> OutOfFuel.
Proof. intros Hm Hf. destruct m as [a| |]; [apply Hf | discriminate | congruence]. Qed.

Lemma for_each_returns {A S} (l : list A) (body : A -> S -> outcome S) (s : S) :
  (forall a s0, body a s0 <> OutOfFuel) -> for_each l body s <> OutOfFuel.
Proof.
  intros Hbody. revert s. induction l as [|a l IH]; intros s; simpl; [discriminate|].
  apply bind_returns; [apply Hbody | exact IH].
Qed.

Lemma SetNum_returns {A} (n : Z) (a : A) : SetNum n a <> OutOfFuel.
Proof. unfold SetNum. destruct (n <? 0); discriminate. Qed.

Lemma tarray_set_returns {A} (l : list A) (i : Z) (a : A) :
  tarray_set l i a <> OutOfFuel.
Proof. unfold tarray_set. destruct (_ || _); discriminate. Qed.

Lemma create_sets_returns Size : create_sets Size <> OutOfFuel.
Proof.
  unfold create_sets. apply bind_returns; [apply SetNum_returns|].
  intros Sets. apply for_each_returns. intros Y Sets0.
  apply bind_returns; [apply SetNum_returns|]. intros Row.
  apply bind_returns; [|intros Row0; apply tarray_set_returns].
  apply for_each_returns. intros X Row0. apply tarray_set_returns.
Qed.

Lemma GenerateKruskals_degenerate fuel W H (Random : R) :
  W <= 0 \/ H <= 0 ->
  GenerateKruskals fuel (W, H) Random = Fault \/
  exists Grid Random',
    GenerateKruskals fuel (W, H) Random = Ok (Grid, Random') /\ no_cells Grid.
Proof.
  intros Hdeg. unfold GenerateKruskals.
  destruct (CreateZeroedGrid_degenerate W H Hdeg) as [E|(Grid & E & Hno)];
    rewrite E; [left; reflexivity|].
  rewrite bind_Ok.
  assert (Hsets : create_sets (W, H) = Fault \/ exists Sets, create_sets (W, H) = Ok Sets).
  { destruct (create_sets (W, H)) as [Sets| |] eqn:Es; eauto.
    exfalso. revert Es. apply create_sets_returns. }
  destruct Hsets as [Es|[Sets Es]]; rewrite Es; [left; reflexivity|].
  rewrite bind_Ok, create_edges_degenerate by assumption.
  right. exists Grid, Random. split; [reflexivity | exact Hno].
Qed.

Lemma generate_directions_degenerate fuel Algorithm W H (Random : R) :
  W <= 0 \/ H <= 0 -> (0 < fuel)%nat ->
  generate_directions fuel Algorithm (W, H) Random = Fault \/
  exists Grid Random',
    generate_directions fuel Algorithm (W, H) Random = Ok (Grid, Random') /\
    no_cells Grid.
Proof.
  intros Hdeg Hfuel. destruct Algorithm; simpl.
  - apply GenerateBacktracker_degenerate; assumption.
  - left. apply GeneratePrims_degenerate; assumption.
  - apply GenerateKruskals_degenerate; assumption.
Qed.

Lemma DirectionsToFloorWallGrid_degenerate g SX SY :
  no_cells g -> SX <= 0 \/ SY <= 0 ->
  DirectionsToFloorWallGrid g (SX, SY) = Fault \/
  exists F, DirectionsToFloorWallGrid g (SX, SY) = Ok F.
Proof.
  intros Hno Hdeg. unfold DirectionsToFloorWallGrid.
  destruct (CreateZeroedGrid_degenerate SX SY Hdeg) as [E|(F & E & _)];
    rewrite E; [left; reflexivity|].
  rewrite bind_Ok. right. exists F.
  assert (EX : (if Z.of_nat (length g) >? 0
                then Row0 ← tarray_get g 0; Ok (Z.of_nat (length Row0))
                else Ok 0) = Ok 0).
  { destruct (Z.of_nat (length g) >? 0) eqn:El; [|reflexivity].
    apply Z.gtb_lt in El.
    destruct (tarray_get_Ok g 0) as (Row0 & ERow0 & Hlook); [lia|].
    rewrite ERow0, bind_Ok.
    rewrite (Hno Row0)
      by (apply list_elem_of_In; eapply list_elem_of_lookup_2; exact Hlook).
    reflexivity. }
  rewrite EX, bind_Ok. apply for_each_skip. intros Y _. reflexivity.
Qed.

Lemma directions_size_nonpositive (S : Z) : S <= 0 -> Z.quot (S + 1) 2 <= 0.
Proof.
  intros HS. apply (Z.quot_le_mono (S + 1) 1 2); lia.
Qed.

Variable vfmt : Scalar.format.

Lemma cells_loop_degenerate (Config : FMazeGenerationConfig) F :
  SizeX Config <= 0 \/ SizeY Config <= 0 ->
  for_each (range 0 (SizeY Config - 1))
    (fun Y Cells =>
       for_each (range 0 (SizeX Config - 1))
         (fun X Cells =>
            v ← grid_get F X Y;
            let bIsFloor := v =? 1 in
            Ok (Cells ++ [FMazeCell_make (X, Y)
                            (cell_world_position vfmt Config X Y) bIsFloor]))
         Cells)
    [] = Ok [].
Proof.
  intros [HX|HY].
  - rewrite (range_nil 0 (SizeX Config - 1)) by lia.
    apply for_each_skip. intros Y _. reflexivity.
  - rewrite (range_nil 0 (SizeY Config - 1)) by lia. reflexivity.
Qed.

Lemma GenerateMaze_degenerate fuel (Config : FMazeGenerationConfig) :
  SizeX Config <= 0 \/ SizeY Config <= 0 -> (0 < fuel)%nat ->
  GenerateMaze vfmt fuel Config = Fault \/ GenerateMaze vfmt fuel Config = Ok [].
Proof.
  intros Hdeg Hfuel. unfold GenerateMaze.
  destruct (generate_directions_degenerate fuel (Algorithm Config)
              (Z.quot (SizeX Config + 1) 2) (Z.quot (SizeY Config + 1) 2)
              (FRandomStream_seeded (Seed Config)))
    as [E|(g & Random' & E & Hno)]; [|assumption| |].
  { destruct Hdeg as [H|H]; [left | right]; apply directions_size_nonpositive, H. }
  { rewrite E. left. reflexivity. }
  rewrite E, bind_Ok.
  destruct (DirectionsToFloorWallGrid_degenerate g (SizeX Config) (SizeY Config)
              Hno Hdeg) as [EF|[F EF]]; rewrite EF; [left; reflexivity|].
  rewrite bind_Ok. right. cbn [fst snd]. apply cells_loop_degenerate, Hdeg.
Qed.

End Degenerate.


Section GeneratorClaims.
Import Generator Rooms Floor.
Context {R : Type} {RS : RandomStream R}.

(** C5. For each of the three algorithms, every state of the random stream
    (so every seed) and every positive size [W] x [H] of the directions
    grid, the algorithm returns, given fuel for its recursion, a grid of that
    size whose open passages (the bit of a direction on a room together with
    the opposite bit on the neighbour) number exactly [W * H - 1], one less
    than the rooms. *)
Theorem directions_grid_passage_count
    (fuel : nat) (Algorithm : EMazeGenerationAlgorithm) (W H : Z) (Random : R) :
  0 < W -> 0 < H -> (Z.to_nat (W * H) < fuel)%nat ->
  exists g Random',
    generate_directions fuel Algorithm (W, H) Random = Ok (g, Random') /\
    grid_shape W H g /\
    Z.of_nat (open_passages W H g) = W * H - 1.
Proof.
  intros HW HH Hfuel.
  destruct (generate_directions_spec fuel Algorithm W H Random HW HH Hfuel)
    as (g & Random' & E & Hshape & _ & Hcount).
  exists g, Random'. auto.
Qed.

Variable vfmt : Scalar.format.

(** C2. For every configuration with positive width and height, any seed
    and any of the three algorithms, [GenerateMaze] returns, given fuel for
    the recursion of the algorithm, an array of width x height cells in
    which cell (0,0) is a floor cell and every floor cell can be reached
    from every other floor cell by cardinal moves over floor cells. *)
Theorem generated_floor_connected (fuel : nat) (Config : FMazeGenerationConfig) :
  0 < SizeX Config -> 0 < SizeY Config ->
  (Z.to_nat (SizeX Config * SizeY Config) < fuel)%nat ->
  exists Cells,
    GenerateMaze vfmt fuel Config = Ok Cells /\
    Z.of_nat (length Cells) = SizeX Config * SizeY Config /\
    is_floor_at Cells (0, 0) /\
    floor_connected Cells.
Proof.
  intros HX HY Hfuel.
  destruct (GenerateMaze_spec vfmt fuel Config HX HY Hfuel)
    as (g & Random' & F & _ & Htree & HF & E).
  destruct (directions_size _ HX) as [HDW HSX].
  destruct (directions_size _ HY) as [HDH HSY].
  pose proof (fi_shape _ _ _ _ _ _ _ HF) as Hshape.
  eexists. split; [exact E|]. split; [|split].
  - rewrite length_map, length_coordinates.
    rewrite Nat2Z.inj_mul, !Z2Nat.id by lia. lia.
  - apply (is_floor_at_cells vfmt Config _ _ F (0, 0) Hshape).
    apply (fi_rooms _ _ _ _ _ _ _ HF (0, 0)). unfold in_grid. simpl. lia.
  - intros a b Ha Hb.
    apply (is_floor_at_cells vfmt Config _ _ F a Hshape) in Ha.
    apply (is_floor_at_cells vfmt Config _ _ F b Hshape) in Hb.
    apply (walk_ext (fun p => cell F p = 1)).
    + intros p Hp. apply (is_floor_at_cells vfmt Config _ _ F p Hshape), Hp.
    + apply (floor_grid_connected _ _ _ _ g F HSX HSY Htree HF a b Ha Hb).
Qed.

(** C4. For every configuration whose width or height is not positive,
    [GenerateMaze] validates nothing and reports no configuration error: it
    either stops at an array check of the engine (an index out of range or a
    negative size) or returns the empty cell array. *)
Theorem nonpositive_size_fault_or_empty (fuel : nat) (Config : FMazeGenerationConfig) :
  SizeX Config <= 0 \/ SizeY Config <= 0 -> (0 < fuel)%nat ->
  GenerateMaze vfmt fuel Config = Fault \/ GenerateMaze vfmt fuel Config = Ok [].
Proof. intros Hdeg Hfuel. apply GenerateMaze_degenerate; assumption. Qed.

End GeneratorClaims.

Lemma directions_grid_passage_count_witness :
  exists g Random',
    Generator.generate_directions (R := Z) 7 Kruskals (3, 2) 12345 = Ok (g, Random') /\
    Rooms.grid_shape 3 2 g /\
    Z.of_nat (Rooms.open_passages 3 2 g) = 3 * 2 - 1.
Proof.
  apply (directions_grid_passage_count 7 Kruskals 3 2 12345); [lia | lia | simpl; lia].
Defined.

Lemma generated_floor_connected_witness :
  exists Cells,
    Generator.GenerateMaze (R := Z) Scalar.binary64 26 (demo_config Prims 5 5)
      = Ok Cells /\
    Z.of_nat (length Cells) = 5 * 5 /\
    Floor.is_floor_at Cells (0, 0) /\
    Floor.floor_connected Cells.
Proof.
  apply (generated_floor_connected Scalar.binary64 26 (demo_config Prims 5 5));
    simpl; lia.
Defined.

Lemma nonpositive_size_fault_or_empty_witness :
  Generator.GenerateMaze (R := Z) Scalar.binary64 1
    (demo_config RecursiveBacktracker (-1) 1) = Fault \/
  Generator.GenerateMaze (R := Z) Scalar.binary64 1
    (demo_config RecursiveBacktracker (-1) 1) = Ok [].
Proof.
  apply (nonpositive_size_fault_or_empty Scalar.binary64 1
           (demo_config RecursiveBacktracker (-1) 1)); [left; simpl; lia | lia].
Defined.

(** With width 0 and height 1 the backtracker's [GenerateMaze] returns
    normally, with an empty array: no error is reported. *)
Lemma nonpositive_size_returns_counterexample :
  Generator.GenerateMaze (R := Z) Scalar.binary64 1
    (demo_config RecursiveBacktracker 0 1) = Ok [].
Proof. vm_compute. reflexivity. Qed.

Example generate_maze_demo :
  match Generator.GenerateMaze (R := Z) Scalar.binary64 10 (demo_config Kruskals 5 3) with
  | Ok Cells => List.map bIsFloor Cells
  | _ => []
  end =
  [true; true; true; true; true;
   true; false; false; false; true;
   true; true; true; false; true].
Proof. vm_compute. reflexivity. Qed.

(* --------------------------------------------------------------------- *)
(** ** The discovery state machine over whole runs                        *)
(* --------------------------------------------------------------------- *)

Section DiscoveryRuns.
Import Discovery DiscoveryLog.

Lemma run_flags es : forall s,
  bExitDiscovered (run es s) = bExitDiscovered s || has_event ExitFound es /\
  bHasKey (run es s) = bHasKey s || has_event KeyFound es.
Proof.
  induction es as [|e es IH]; intros s; simpl.
  - rewrite !orb_false_r. auto.
  - destruct (IH (state_of (deliver e s))) as [-> ->].
    destruct s as [ex key tg vis unl lck].
    destruct e, ex, key, tg, unl, lck; simpl; auto.
Qed.

Lemma deliver_target_for e s :
  CurrentTarget s = target_for s ->
  CurrentTarget (state_of (deliver e s)) = target_for (state_of (deliver e s)).
Proof.
  destruct s as [ex key tg vis unl lck]. unfold target_for. simpl. intros ->.
  destruct e, ex, key, unl, lck; reflexivity.
Qed.

Lemma run_target_for es : forall s,
  CurrentTarget s = target_for s ->
  CurrentTarget (run es s) = target_for (run es s).
Proof.
  induction es as [|e es IH]; intros s Hs; simpl; [exact Hs|].
  apply IH, deliver_target_for, Hs.
Qed.

(** After any run of events from the initial state the pathfinding target
    is the key exactly when the exit has been discovered and the key not yet
    collected, and the exit otherwise; it is never [None]. *)
Theorem current_target_by_events (es : list Event) :
  CurrentTarget (run es InitialState) =
  if has_event ExitFound es && negb (has_event KeyFound es)
  then Target_Key else Target_Exit.
Proof.
  rewrite (run_target_for es InitialState eq_refl). unfold target_for.
  destruct (run_flags es InitialState) as [-> ->]. simpl.
  destruct (has_event ExitFound es), (has_event KeyFound es); reflexivity.
Qed.

(** [CanExitMaze] holds after a run exactly when both the exit was
    discovered and the key collected during it, in either order. *)
Theorem can_exit_needs_both_events (es : list Event) :
  CanExitMaze (run es InitialState) =
  has_event ExitFound es && has_event KeyFound es.
Proof.
  unfold CanExitMaze. destruct (run_flags es InitialState) as [-> ->].
  reflexivity.
Qed.

Lemma deliver_mask_settled e s :
  bExitDiscovered s || bHasKey s = true ->
  bExitDiscovered (state_of (deliver e s)) || bHasKey (state_of (deliver e s)) = true /\
  bHollowMaskUnlocked (state_of (deliver e s)) = bHollowMaskUnlocked s /\
  bHollowMaskPermanentlyLocked (state_of (deliver e s)) =
    bHollowMaskPermanentlyLocked s.
Proof.
  destruct s as [ex key tg vis unl lck]. simpl.
  destruct e, ex, key, tg, unl, lck; simpl; intros H; try discriminate; auto.
Qed.

Lemma run_mask_settled es : forall s,
  bExitDiscovered s || bHasKey s = true ->
  bHollowMaskUnlocked (run es s) = bHollowMaskUnlocked s /\
  bHollowMaskPermanentlyLocked (run es s) = bHollowMaskPermanentlyLocked s.
Proof.
  induction es as [|e es IH]; intros s Hs; simpl; [auto|].
  destruct (deliver_mask_settled e s Hs) as (H1 & H2 & H3).
  destruct (IH _ H1) as [-> ->]. auto.
Qed.

(** The first discovery decides the Hollow Mask for the whole run: whatever
    events follow, it is unlocked (and available) exactly when the first
    event was the exit, and permanently locked exactly when it was the
    key. *)
Theorem hollow_mask_decided_by_first_event (e : Event) (es : list Event) :
  let s := run (e :: es) InitialState in
  bHollowMaskUnlocked s = Event_eqb e ExitFound /\
  bHollowMaskPermanentlyLocked s = Event_eqb e KeyFound /\
  IsHollowMaskAvailable s = Event_eqb e ExitFound.
Proof.
  simpl. unfold IsHollowMaskAvailable.
  destruct (run_mask_settled es (state_of (deliver e InitialState))) as [-> ->];
    destruct e; simpl; auto.
Qed.

(** *** Broadcasts *)

Lemma times_fired_app n l1 l2 :
  times_fired n (l1 ++ l2) = (times_fired n l1 + times_fired n l2)%nat.
Proof. unfold times_fired. rewrite List.filter_app, length_app. reflexivity. Qed.

Lemma exit_broadcasts es : forall s,
  times_fired OnExitDiscovered (run_log es s) =
  if negb (bExitDiscovered s) && has_event ExitFound es then 1%nat else 0%nat.
Proof.
  induction es as [|e es IH]; intros s; simpl.
  - rewrite andb_false_r. reflexivity.
  - rewrite times_fired_app, IH.
    destruct s as [ex key tg vis unl lck].
    destruct e, ex, key, tg, unl, lck; simpl;
      destruct (has_event ExitFound es); reflexivity.
Qed.

Lemma key_broadcasts es : forall s,
  times_fired OnKeyCollected (run_log es s) =
  if negb (bHasKey s) && has_event KeyFound es then 1%nat else 0%nat.
Proof.
  induction es as [|e es IH]; intros s; simpl.
  - rewrite andb_false_r. reflexivity.
  - rewrite times_fired_app, IH.
    destruct s as [ex key tg vis unl lck].
    destruct e, ex, key, tg, unl, lck; simpl;
      destruct (has_event KeyFound es); reflexivity.
Qed.

Lemma unlock_broadcasts es : forall s,
  (times_fired OnHollowMaskUnlocked (run_log es s) <=
   if bHollowMaskUnlocked s then 0 else 1)%nat.
Proof.
  induction es as [|e es IH]; intros s; simpl.
  - destruct (bHollowMaskUnlocked s); unfold times_fired; simpl; lia.
  - rewrite times_fired_app. specialize (IH (state_of (deliver e s))).
    destruct s as [ex key tg vis unl lck].
    destruct e, ex, key, tg, unl, lck; simpl in *; unfold times_fired in *;
      simpl in *; lia.
Qed.

Lemma target_change_broadcasts es : forall s,
  CurrentTarget s = target_for s ->
  (length (List.filter is_target_change (run_log es s)) <= target_changes_left s)%nat.
Proof.
  induction es as [|e es IH]; intros s Hs; simpl; [lia|].
  rewrite List.filter_app, length_app.
  specialize (IH _ (deliver_target_for e s Hs)).
  destruct s as [ex key tg vis unl lck]. unfold target_for in Hs. simpl in Hs.
  subst tg. unfold target_changes_left in *.
  destruct e, ex, key, unl, lck; simpl in *; lia.
Qed.

(** Over any run of events from the initial state, [OnExitDiscovered] and
    [OnKeyCollected] are each broadcast once if their event occurs and not
    at all otherwise, however often the event is repeated;
    [OnHollowMaskUnlocked] is broadcast at most once and [OnTargetChanged] at
    most twice. *)
Theorem broadcasts_per_run (es : list Event) :
  let log := run_log es InitialState in
  times_fired OnExitDiscovered log = (if has_event ExitFound es then 1 else 0)%nat /\
  times_fired OnKeyCollected log = (if has_event KeyFound es then 1 else 0)%nat /\
  (times_fired OnHollowMaskUnlocked log <= 1)%nat /\
  (length (List.filter is_target_change log) <= 2)%nat.
Proof.
  cbv zeta. rewrite exit_broadcasts, key_broadcasts. simpl.
  split; [reflexivity|]. split; [reflexivity|]. split.
  - apply (unlock_broadcasts es InitialState).
  - apply (target_change_broadcasts es InitialState eq_refl).
Qed.

End DiscoveryRuns.

(* --------------------------------------------------------------------- *)
(** ** The pathfinder: neighbours, results and walks                      *)
(* --------------------------------------------------------------------- *)

Section PathfinderMore.
Import Scalar Pathfinder.

Variable pf : UMazePathfinder.

Lemma cardinalb_swap u v : cardinalb u v = cardinalb v u.
Proof.
  unfold cardinalb.
  replace (fst v - fst u) with (- (fst u - fst v)) by lia.
  replace (snd v - snd u) with (- (snd u - snd v)) by lia.
  rewrite !Z.abs_opp. reflexivity.
Qed.

(** [GetWalkableNeighbors] returns exactly the walkable cells one cardinal
    step away, each once and so at most four; and between walkable cells
    being a neighbour is symmetric. *)
Theorem walkable_neighbors_sound (u : FIntPoint) :
  (forall v, In v (GetWalkableNeighbors pf u) <->
             IsValidCell pf v = true /\ cardinalb u v = true) /\
  NoDup (GetWalkableNeighbors pf u) /\
  (length (GetWalkableNeighbors pf u) <= 4)%nat /\
  (forall v, IsValidCell pf u = true ->
             In v (GetWalkableNeighbors pf u) -> In u (GetWalkableNeighbors pf v)).
Proof.
  split; [intros v; apply (adj_cardinal pf u v)|]. split; [|split].
  - unfold GetWalkableNeighbors. apply NoDup_filter.
    destruct u as [x y]. unfold Offsets. simpl.
    repeat (apply NoDup_cons; split;
            [intros H; apply list_elem_of_In in H; simpl in H;
             repeat (destruct H as [H|H]; [injection H; lia|]); exact H|]).
    apply NoDup_nil_2.
  - unfold GetWalkableNeighbors.
    etransitivity; [apply length_filter|]. simpl. lia.
  - intros v Hu Hv. apply (adj_cardinal pf u v) in Hv. destruct Hv as [_ Hc].
    apply (adj_cardinal pf v u). split; [exact Hu|].
    rewrite cardinalb_swap. exact Hc.
Qed.

Variable vfmt : format.

Lemma FindPath_result_shape (fuel : nat) (Start End : FIntPoint)
    (r : FMazePathResult) :
  FindPath vfmt fuel pf Start End = Some r ->
  PathWorldPositions r = List.map (GridToWorld vfmt pf) (PathGridCoordinates r) /\
  PathLength r = Z.of_nat (length (PathGridCoordinates r)).
Proof.
  unfold FindPath. intros Hr.
  repeat match type of Hr with
         | context [if ?b then _ else _] => destruct b
         | context [match ?x with _ => _ end] => destruct x
         end;
    inversion Hr; subst r; simpl; auto.
Qed.

Lemma walk_parents_prefix (fuel : nat) (P : gmap (Z * Z) (Z * Z)) :
  forall (c : FIntPoint) (acc l : list FIntPoint),
    walk_parents fuel P c acc = Some l ->
    exists l', l = acc ++ l' /\ (c <> (-1, -1) -> head l' = Some c).
Proof.
  induction fuel as [|fuel IH]; intros c acc l E; [discriminate|].
  simpl in E. destruct (decide (c = (-1, -1))) as [->|Hc].
  - injection E as <-. exists []. rewrite app_nil_r. split; [reflexivity|].
    intros H. contradiction.
  - destruct (P !! c) as [p|].
    + destruct (IH _ _ _ E) as (l' & -> & _).
      exists (c :: l'). rewrite <- app_assoc. auto.
    + injection E as <-. exists [c]. auto.
Qed.

(** Whatever [FindPath] returns, for any pathfinder and any fuel, carries
    one world position per grid coordinate, the [GridToWorld] of that
    coordinate in the same order; [PathLength] counts the cells of the path
    (not the moves); and the result is a success exactly when the path is
    not empty, in which case it ends at [End]. *)
Theorem findpath_result_aligned (fuel : nat) (Start End : FIntPoint)
    (r : FMazePathResult) :
  FindPath vfmt fuel pf Start End = Some r ->
  PathWorldPositions r = List.map (GridToWorld vfmt pf) (PathGridCoordinates r) /\
  PathLength r = Z.of_nat (length (PathGridCoordinates r)) /\
  (bSuccess r = true <-> PathGridCoordinates r <> []) /\
  (bSuccess r = true -> last (PathGridCoordinates r) = Some End).
Proof.
  intros Hr. destruct (FindPath_result_shape fuel Start End r Hr) as [H1 H2].
  split; [exact H1|]. split; [exact H2|].
  unfold FindPath in Hr.
  destruct (bIsInitialized pf); cbn [negb] in Hr;
    [|injection Hr as <-; simpl; split; [split|]; congruence].
  destruct (IsValidCell pf Start); cbn [negb] in Hr;
    [|injection Hr as <-; simpl; split; [split|]; congruence].
  destruct (IsValidCell pf End) eqn:Ev; cbn [negb] in Hr;
    [|injection Hr as <-; simpl; split; [split|]; congruence].
  destruct (decide (Start = End)) as [->|Hne].
  { injection Hr as <-. simpl. split; [split|]; congruence. }
  destruct (bfs_loop fuel pf End _) as [[[] st]|]; [| |discriminate].
  - destruct (walk_parents fuel (Parents st) End []) as [l|] eqn:Ew; [|discriminate].
    injection Hr as <-. cbn [bSuccess PathGridCoordinates].
    destruct (walk_parents_prefix _ _ _ _ _ Ew) as (l' & -> & Hh).
    specialize (Hh (valid_not_sentinel pf End Ev)). simpl in *.
    destruct l' as [|c l']; [discriminate|]. injection Hh as ->.
    simpl. split; [split; [intros _ E|reflexivity]|intros _].
    + apply (f_equal (@length _)) in E. rewrite length_app in E. simpl in E. lia.
    + apply last_snoc.
  - injection Hr as <-. simpl. split; [split|]; congruence.
Qed.



(** *** The nearest walkable cell *)

Lemma nearest_walkable_cases (c : FIntPoint) :
  FindNearestWalkableCell pf c = (-1, -1) \/
  (IsValidCell pf (FindNearestWalkableCell pf c) = true /\
   In (FindNearestWalkableCell pf c) (scan_order pf c)).
Proof.
  rewrite FindNearestWalkableCell_scan.
  destruct (find (IsValidCell pf) (scan_order pf c)) as [r|] eqn:E; [|left; reflexivity].
  right. apply find_some in E. destruct E as [Hin Hv]. auto.
Qed.

Lemma chebyshev_zero (c c' : FIntPoint) : chebyshev c c' = 0 <-> c' = c.
Proof.
  unfold chebyshev. destruct c as [x y], c' as [x' y']. simpl. split.
  - intros H. f_equal; lia.
  - intros H. injection H as -> ->. lia.
Qed.

(** [FindNearestWalkableCell] answers with the sentinel (-1,-1) or with a
    walkable cell; a walkable cell is its own nearest walkable cell, so
    snapping an answer that is not the sentinel again changes nothing. *)
Theorem nearest_walkable_fixed_point (c : FIntPoint) :
  (FindNearestWalkableCell pf c = (-1, -1) \/
   IsValidCell pf (FindNearestWalkableCell pf c) = true) /\
  (IsValidCell pf c = true -> FindNearestWalkableCell pf c = c) /\
  (FindNearestWalkableCell pf c <> (-1, -1) ->
   FindNearestWalkableCell pf (FindNearestWalkableCell pf c) =
   FindNearestWalkableCell pf c).
Proof.
  assert (Hfix : forall x, IsValidCell pf x = true -> FindNearestWalkableCell pf x = x).
  { intros x Hx. rewrite FindNearestWalkableCell_scan.
    pose proof (IsValidCell_bounds pf x Hx) as Hb.
    destruct (find (IsValidCell pf) (scan_order pf x)) as [r|] eqn:E.
    - pose proof E as E'. unfold scan_order, range in E'.
      pose proof (find_rings_nearest (IsValidCell pf) x _ 0 r E' x Hx) as Hn.
      assert (H0 : chebyshev x x = 0) by (apply chebyshev_zero; reflexivity).
      rewrite H0 in Hn.
      assert (Hr : chebyshev x r = 0).
      { assert (0 <= chebyshev x r) by (unfold chebyshev; lia).
        enough (chebyshev x r <= 0) by lia. apply Hn. lia. }
      apply chebyshev_zero in Hr. exact Hr.
    - exfalso. enough (IsValidCell pf x = false) by congruence.
      apply (find_none _ _ E x). apply in_scan_order.
      replace (chebyshev x x) with 0
        by (symmetry; apply chebyshev_zero; reflexivity).
      lia. }
  split; [|split].
  - destruct (nearest_walkable_cases c) as [H|[H _]]; auto.
  - apply Hfix.
  - intros Hne. apply Hfix.
    destruct (nearest_walkable_cases c) as [H|[H _]]; [contradiction | exact H].
Qed.

End PathfinderMore.

(* --------------------------------------------------------------------- *)
(** ** The pathfinder: shortest paths are simple and symmetric            *)
(* --------------------------------------------------------------------- *)

Section WalkFacts.
Import Scalar Pathfinder.

Variable vfmt : format.
Variable pf : UMazePathfinder.

(** *** Walks by index *)

Lemma is_walkb_lookup (p : list FIntPoint) :
  is_walkb pf p = true <->
  p <> [] /\
  (forall i c, p !! i = Some c -> IsValidCell pf c = true) /\
  (forall i u v, p !! i = Some u -> p !! S i = Some v -> cardinalb u v = true).
Proof.
  induction p as [|c p IH]; [split; [discriminate | intros [H _]; congruence]|].
  destruct p as [|c' p].
  - simpl. rewrite andb_true_r. split.
    + intros Hc. split; [discriminate|]. split.
      * intros [|i] x Hx; simpl in Hx; [congruence | discriminate].
      * intros [|i] u v _ Hv; simpl in Hv; discriminate.
    + intros (_ & Hv & _). apply (Hv O c). reflexivity.
  - change (is_walkb pf (c :: c' :: p))
      with (IsValidCell pf c && (cardinalb c c' && is_walkb pf (c' :: p))).
    rewrite !andb_true_iff, IH. split.
    + intros (Hc & Hcc & _ & Hv & Hs). split; [discriminate|]. split.
      * intros [|i] x Hx; [simpl in Hx; congruence | exact (Hv i x Hx)].
      * intros [|i] u v Hu Hv'.
        -- simpl in Hu, Hv'. congruence.
        -- exact (Hs i u v Hu Hv').
    + intros (_ & Hv & Hs). split; [apply (Hv O c); reflexivity|].
      split; [apply (Hs O c c'); reflexivity|].
      split; [discriminate|]. split.
      * intros i x Hx. exact (Hv (S i) x Hx).
      * intros i u v Hu Hv'. exact (Hs (S i) u v Hu Hv').
Qed.

(** Cutting the loop between two visits of the same cell out of a walk. *)
Lemma walk_cut_loop (p : list FIntPoint) (a b x : FIntPoint) (i j : nat) :
  is_path pf a b p -> p !! i = Some x -> p !! j = Some x -> (i < j)%nat ->
  exists q, is_path pf a b q /\ (length q < length p)%nat.
Proof.
  intros (Hh & Hl & Hw) Hi Hj Hij.
  apply is_walkb_lookup in Hw. destruct Hw as (Hne & Hv & Hs).
  pose proof (lookup_lt_Some _ _ _ Hj) as Hjlen.
  set (q := take (S i) p ++ drop (S j) p).
  assert (Hqlen : length q = (S i + (length p - S j))%nat).
  { unfold q. rewrite length_app, length_take, length_drop. lia. }
  assert (Hq : forall k, q !! k = if decide (k <= i)%nat then p !! k
                                 else p !! (k + (j - i))%nat).
  { intros k. unfold q. destruct (decide (k <= i)%nat).
    - rewrite lookup_app_l by (rewrite length_take; lia).
      apply lookup_take_lt. lia.
    - rewrite lookup_app_r by (rewrite length_take; lia).
      rewrite length_take, lookup_drop. f_equal. lia. }
  exists q. split; [|lia]. split; [|split].
  - rewrite head_lookup, Hq. rewrite decide_True by lia.
    rewrite <- head_lookup. exact Hh.
  - rewrite last_lookup, Hq, Hqlen. rewrite last_lookup in Hl.
    destruct (decide (pred (S i + (length p - S j)) <= i)%nat) as [Hle|Hgt].
    + assert (length p = S j) by lia.
      replace (pred (S i + (length p - S j))) with i by lia.
      rewrite Hi. rewrite <- Hl. replace (pred (length p)) with j by lia.
      symmetry. exact Hj.
    + rewrite <- Hl. f_equal. lia.
  - apply is_walkb_lookup. split; [|split].
    + intros E. rewrite E in Hqlen. simpl in Hqlen. lia.
    + intros k c Hk. rewrite Hq in Hk. destruct (decide (k <= i)%nat); eauto.
    + intros k u v Hu Hv'. rewrite Hq in Hu, Hv'.
      destruct (decide (k <= i)%nat) as [Hk|Hk], (decide (S k <= i)%nat) as [Hk'|Hk'];
        try lia.
      * exact (Hs k u v Hu Hv').
      * assert (k = i) by lia. subst k. rewrite Hi in Hu. injection Hu as <-.
        apply (Hs j x v Hj). rewrite <- Hv'. f_equal; lia.
      * apply (Hs (k + (j - i))%nat u v Hu). rewrite <- Hv'. f_equal; lia.
Qed.

Lemma shortest_path_NoDup (p : list FIntPoint) (a b : FIntPoint) :
  is_path pf a b p ->
  (forall q, is_path pf a b q -> (length p <= length q)%nat) ->
  NoDup p.
Proof.
  intros Hp Hmin. apply NoDup_alt. intros i j x Hi Hj.
  destruct (Nat.lt_trichotomy i j) as [Hlt|[Heq|Hgt]]; [|exact Heq|]; exfalso.
  - destruct (walk_cut_loop p a b x i j Hp Hi Hj Hlt) as (q & Hq & Hshort).
    specialize (Hmin q Hq). lia.
  - destruct (walk_cut_loop p a b x j i Hp Hj Hi Hgt) as (q & Hq & Hshort).
    specialize (Hmin q Hq). lia.
Qed.

(** *** Reversal *)

Lemma is_walkb_rev (p : list FIntPoint) :
  is_walkb pf p = true -> is_walkb pf (rev p) = true.
Proof.
  induction p as [|c p IH]; [discriminate|].
  destruct p as [|c' p]; [auto|].
  change (is_walkb pf (c :: c' :: p))
    with (IsValidCell pf c && (cardinalb c c' && is_walkb pf (c' :: p))).
  rewrite !andb_true_iff. intros (Hc & Hcc & Hw).
  change (rev (c :: c' :: p)) with (rev (c' :: p) ++ [c]).
  apply (is_walkb_snoc pf _ c' c); [apply IH, Hw | | | exact Hc].
  - simpl. rewrite last_snoc. reflexivity.
  - rewrite cardinalb_swap. exact Hcc.
Qed.

Lemma head_rev_last {A} (p : list A) : head (rev p) = last p.
Proof.
  destruct p as [|x l _] using rev_ind; [reflexivity|].
  rewrite rev_unit, last_snoc. reflexivity.
Qed.

Lemma last_rev_head {A} (p : list A) : last (rev p) = head p.
Proof. destruct p as [|c p]; [reflexivity|]. simpl. apply last_snoc. Qed.

Lemma is_path_rev (p : list FIntPoint) (a b : FIntPoint) :
  is_path pf a b p -> is_path pf b a (rev p).
Proof.
  intros (Hh & Hl & Hw). split; [|split].
  - rewrite head_rev_last. exact Hl.
  - rewrite last_rev_head. exact Hh.
  - apply is_walkb_rev, Hw.
Qed.

(** *** Paths from a world position *)

Lemma FindPath_success_valid (a b : FIntPoint) (fuel : nat) (r : FMazePathResult) :
  FindPath vfmt fuel pf a b = Some r -> bSuccess r = true ->
  IsValidCell pf a = true /\ IsValidCell pf b = true.
Proof.
  unfold FindPath. intros Hr Hs.
  destruct (bIsInitialized pf); cbn [negb] in Hr;
    [|injection Hr as <-; discriminate].
  destruct (IsValidCell pf a); cbn [negb] in Hr;
    [|injection Hr as <-; discriminate].
  destruct (IsValidCell pf b); cbn [negb] in Hr;
    [|injection Hr as <-; discriminate].
  auto.
Qed.


Lemma FindPathFromWorld_FindPath (w : FVector) (e : FIntPoint) (fuel : nat)
    (r : FMazePathResult) :
  FindPathFromWorld vfmt fuel pf w e = Some r -> bSuccess r = true ->
  exists s, FindPath vfmt fuel pf s e = Some r.
Proof.
  unfold FindPathFromWorld. intros Hr Hs.
  destruct (WorldToGrid vfmt pf w) as [g|]; [|discriminate].
  destruct (IsValidCell pf g); cbn [negb] in Hr; [eauto|].
  destruct (decide (FindNearestWalkableCell pf g = (-1, -1))); [|eauto].
  injection Hr as <-. discriminate.
Qed.

End WalkFacts.

Section ShortestPaths.
Import Scalar Pathfinder.

Variable vfmt : format.
Variable pf : UMazePathfinder.
Hypothesis Hinit : bIsInitialized pf = true.
Hypothesis Hlen :
  Z.of_nat (length (CachedCells pf)) = fst (MazeSize pf) * snd (MazeSize pf).

(** What [FindPath] computes on a pathfinder that is ready. *)
Lemma FindPath_spec (a b : FIntPoint) (fuel : nat) :
  IsValidCell pf a = true -> IsValidCell pf b = true ->
  (length (CachedCells pf) < fuel)%nat ->
  exists r,
    FindPath vfmt fuel pf a b = Some r /\
    (bSuccess r = true <-> reachable pf a b) /\
    (bSuccess r = true ->
       is_path pf a b (PathGridCoordinates r) /\
       forall p, is_path pf a b p ->
                 (length (PathGridCoordinates r) <= length p)%nat).
Proof.
  intros Ha Hb Hfuel.
  set (N := length (CachedCells pf)).
  assert (HN : forall V : gset (Z * Z),
             (forall v, v ∈ V -> IsValidCell pf v = true) -> (size V <= N)%nat).
  { intros V HV. apply (valid_cells_bounded pf V); [exact Hlen | exact HV]. }
  unfold FindPath. rewrite Hinit, Ha, Hb. cbn [negb].
  destruct (decide (a = b)) as [<-|Hab].
  - eexists. split; [reflexivity|]. cbn [bSuccess PathLength PathGridCoordinates].
    assert (P : is_path pf a a [a]).
    { repeat split. simpl. rewrite Ha. reflexivity. }
    split; [split; [intros _; exists [a]; exact P | reflexivity]|].
    intros _. split; [exact P|].
    intros p (Hh & _ & _). destruct p; [discriminate | simpl; lia].
  - destruct (bfs_from_start pf a b Ha N HN fuel Hfuel)
      as (found & st' & E & Hfound & Hnot).
    rewrite E. destruct found.
    + destruct (Hfound eq_refl) as (n & Hch & HnN & Hmin).
      destruct (walk_parents_chain pf a Ha _ _ _ Hch fuel [])
        as (l & El & Hl & Hh & Hla & Hw); [unfold N in HnN; lia|].
      rewrite El. simpl app. eexists. split; [reflexivity|].
      cbn [bSuccess PathLength PathGridCoordinates].
      assert (P : is_path pf a b (rev l)) by (repeat split; assumption).
      split; [split; [intros _; exists (rev l); exact P | reflexivity]|].
      intros _. split; [exact P|].
      intros p (Hph & Hpl & Hpw).
      pose proof (is_walkb_moves pf p a b Hpw Hph Hpl) as Hm.
      apply Hmin in Hm. rewrite length_rev.
      destruct p; [discriminate|]. simpl in *. lia.
    + eexists. split; [reflexivity|]. cbn [bSuccess FailedResult].
      split; [|discriminate]. split; [discriminate|].
      intros (p & Hph & Hpl & Hpw). exfalso.
      eapply (Hnot eq_refl), (is_walkb_moves pf p a b Hpw Hph Hpl).
Qed.

Lemma path_cells_bounded (p : list FIntPoint) :
  is_walkb pf p = true -> NoDup p -> (length p <= length (CachedCells pf))%nat.
Proof.
  intros Hw Hnd. apply is_walkb_lookup in Hw. destruct Hw as (_ & Hv & _).
  rewrite <- (size_list_to_set (C := gset (Z * Z)) p Hnd).
  apply (valid_cells_bounded pf); [exact Hlen|].
  intros v Hin. apply elem_of_list_to_set in Hin.
  apply list_elem_of_lookup in Hin. destruct Hin as [i Hin]. eauto.
Qed.

(** On a ready pathfinder, with fuel above the number of cells, a path
    found between walkable cells visits no cell twice, and so has at most
    as many cells as the grid. *)
Theorem findpath_visits_cells_once (a b : FIntPoint) (fuel : nat)
    (r : FMazePathResult) :
  IsValidCell pf a = true -> IsValidCell pf b = true ->
  (length (CachedCells pf) < fuel)%nat ->
  FindPath vfmt fuel pf a b = Some r -> bSuccess r = true ->
  NoDup (PathGridCoordinates r) /\
  PathLength r <= fst (MazeSize pf) * snd (MazeSize pf).
Proof.
  intros Ha Hb Hfuel Hr Hs.
  destruct (FindPath_spec a b fuel Ha Hb Hfuel) as (r' & Hr' & _ & Hpath).
  rewrite Hr in Hr'. injection Hr' as <-.
  destruct (Hpath Hs) as [Hp Hmin].
  pose proof (shortest_path_NoDup pf _ a b Hp Hmin) as Hnd.
  split; [exact Hnd|].
  destruct (FindPath_result_shape pf vfmt fuel a b r Hr) as [_ ->].
  rewrite <- Hlen. apply inj_le.
  apply path_cells_bounded; [apply Hp | exact Hnd].
Qed.

(** On a ready pathfinder, with fuel above the number of cells, the search
    from [a] to [b] and the search from [b] to [a] agree: both succeed or
    both fail, and on success their paths have the same length. *)
Theorem findpath_symmetric (a b : FIntPoint) (fuel : nat) :
  IsValidCell pf a = true -> IsValidCell pf b = true ->
  (length (CachedCells pf) < fuel)%nat ->
  exists r r',
    FindPath vfmt fuel pf a b = Some r /\
    FindPath vfmt fuel pf b a = Some r' /\
    bSuccess r = bSuccess r' /\
    PathLength r = PathLength r'.
Proof.
  intros Ha Hb Hfuel.
  destruct (FindPath_spec a b fuel Ha Hb Hfuel) as (r & Hr & Hiff & Hpath).
  destruct (FindPath_spec b a fuel Hb Ha Hfuel) as (r' & Hr' & Hiff' & Hpath').
  exists r, r'. split; [exact Hr|]. split; [exact Hr'|].
  destruct (FindPath_result_shape pf vfmt fuel a b r Hr) as [_ HL].
  destruct (FindPath_result_shape pf vfmt fuel b a r' Hr') as [_ HL'].
  destruct (bSuccess r) eqn:Es, (bSuccess r') eqn:Es'.
  - split; [reflexivity|]. rewrite HL, HL'. f_equal.
    destruct (Hpath eq_refl) as [Hp Hmin].
    destruct (Hpath' eq_refl) as [Hp' Hmin'].
    pose proof (Hmin _ (is_path_rev pf _ _ _ Hp')) as H1.
    pose proof (Hmin' _ (is_path_rev pf _ _ _ Hp)) as H2.
    rewrite length_rev in H1, H2. lia.
  - exfalso. destruct (proj1 Hiff eq_refl) as [p Hp].
    assert (reachable pf b a) by (exists (rev p); apply is_path_rev, Hp).
    apply Hiff' in H. discriminate.
  - exfalso. destruct (proj1 Hiff' eq_refl) as [p Hp].
    assert (reachable pf a b) by (exists (rev p); apply is_path_rev, Hp).
    apply Hiff in H. discriminate.
  - split; [reflexivity|].
    assert (E : forall fuel x y q, FindPath vfmt fuel pf x y = Some q ->
                bSuccess q = false -> PathLength q = 0).
    { clear. intros fuel x y q Hq Hf. unfold FindPath in Hq.
      repeat match type of Hq with
             | context [if ?b then _ else _] => destruct b
             | context [match ?x with _ => _ end] => destruct x
             end;
        inversion Hq; subst q; simpl in *; try discriminate; auto. }
    rewrite (E _ _ _ _ Hr Es), (E _ _ _ _ Hr' Es'). reflexivity.
Qed.


End ShortestPaths.

(* --------------------------------------------------------------------- *)
(** ** The generator: shuffling, zeroed grids, the room graph             *)
(* --------------------------------------------------------------------- *)

Section GeneratorMore.
Import Generator Rooms Floor.
Context {R : Type} {RS : RandomStream R}.

Lemma Swap_Permutation {A} (l : list A) i j :
  0 <= i < Z.of_nat (length l) -> 0 <= j < Z.of_nat (length l) ->
  exists l', Swap l i j = Ok l' /\ l' ≡ₚ l.
Proof.
  intros Hi Hj. unfold Swap.
  destruct (tarray_get_Ok l i Hi) as (a & -> & Ha).
  destruct (tarray_get_Ok l j Hj) as (b & -> & Hb). rewrite !bind_Ok.
  rewrite tarray_set_Ok by lia. rewrite bind_Ok.
  rewrite tarray_set_Ok by (rewrite length_insert; lia).
  eexists. split; [reflexivity|].
  apply Permutation_insert_swap; assumption.
Qed.

(** [ShuffleArray] never faults, whatever the random stream draws, and
    returns a permutation of its argument: every element is kept, with its
    number of occurrences. *)
Theorem shuffle_is_permutation {A} (l : list A) (Random : R) :
  exists l' Random', ShuffleArray l Random = Ok (l', Random') /\ l' ≡ₚ l.
Proof.
  unfold ShuffleArray.
  destruct (for_each_invariant (fun st : list A * R => fst st ≡ₚ l)
              (range 0 (Z.of_nat (length l) - 1))
              (fun i '(Array, Random) =>
                 let '(SwapIndex, Random) :=
                   RandRange i (Z.of_nat (length l) - 1) Random in
                 if negb (i =? SwapIndex) then
                   Array ← Swap Array i SwapIndex; Ok (Array, Random)
                 else Ok (Array, Random))
              (l, Random)) as ([l' Random'] & E & Hperm).
  - reflexivity.
  - intros i [Array Rnd] Hi Hperm. simpl in Hperm. apply in_range in Hi.
    pose proof (RandRange_range i (Z.of_nat (length l) - 1) Rnd (proj2 Hi)) as Hr.
    destruct (RandRange i (Z.of_nat (length l) - 1) Rnd) as [SwapIndex Rnd'].
    simpl in Hr. pose proof (Permutation_length Hperm) as Hlen.
    destruct (negb (i =? SwapIndex)).
    + destruct (Swap_Permutation Array i SwapIndex) as (Array' & -> & Hperm');
        [lia | lia |]. rewrite bind_Ok.
      eexists. split; [reflexivity|]. simpl. rewrite Hperm'. exact Hperm.
    + eexists. split; [reflexivity | exact Hperm].
  - exists l', Random'. split; [exact E | exact Hperm].
Qed.

(** [CreateZeroedGrid] returns [H] rows of [W] zero bytes.  It faults, at
    [SetNum], exactly when the height is negative, or the width is negative
    and there is a row to size; with no row a negative width goes
    unnoticed. *)
Theorem zeroed_grid_or_fault (W H : Z) :
  CreateZeroedGrid (W, H) =
  if (H <? 0) || ((0 <? H) && (W <? 0)) then Fault
  else Ok (replicate (Z.to_nat H) (replicate (Z.to_nat W) 0)).
Proof.
  destruct (Z.lt_trichotomy H 0) as [HH|[->|HH]].
  - replace (H <? 0) with true by (symmetry; apply Z.ltb_lt; lia). simpl.
    unfold CreateZeroedGrid. cbn [fst snd].
    rewrite (SetNum_Fault H []) by assumption. reflexivity.
  - reflexivity.
  - replace (H <? 0) with false by (symmetry; apply Z.ltb_ge; lia).
    replace (0 <? H) with true by (symmetry; apply Z.ltb_lt; lia). simpl.
    destruct (W <? 0) eqn:EW.
    + apply Z.ltb_lt in EW. unfold CreateZeroedGrid. cbn [fst snd].
      rewrite (SetNum_Ok H []) by lia. rewrite bind_Ok.
      rewrite range_cons by lia. simpl.
      rewrite (SetNum_Fault W) by lia. reflexivity.
    + apply Z.ltb_ge in EW. apply CreateZeroedGrid_Ok; lia.
Qed.

(** For each of the three algorithms, any state of the random stream and
    any positive size, every two rooms of the directions grid are joined by
    a chain of open passages. *)
Theorem directions_grid_rooms_joined
    (fuel : nat) (Algorithm : EMazeGenerationAlgorithm) (W H : Z) (Random : R) :
  0 < W -> 0 < H -> (Z.to_nat (W * H) < fuel)%nat ->
  exists g Random',
    generate_directions fuel Algorithm (W, H) Random = Ok (g, Random') /\
    forall c c', in_grid W H c -> in_grid W H c' -> joined W H g c c'.
Proof.
  intros HW HH Hfuel.
  destruct (generate_directions_spec fuel Algorithm W H Random HW HH Hfuel)
    as (g & Random' & E & _ & Hj & _).
  exists g, Random'. auto.
Qed.

End GeneratorMore.

(* --------------------------------------------------------------------- *)
(** ** The generated cell array and the pathfinder                        *)
(* --------------------------------------------------------------------- *)

Section RowMajor.

Lemma lookup_map {A B} (f : A -> B) (l : list A) (i : nat) :
  List.map f l !! i = f <$> (l !! i).
Proof.
  revert i. induction l as [|a l IH]; intros [|i]; simpl; auto.
Qed.

Lemma range_lookup (lo hi i : Z) :
  0 <= i <= hi - lo -> range lo hi !! Z.to_nat i = Some (lo + i).
Proof.
  intros Hi. unfold range. rewrite lookup_map, lookup_seq_lt by lia.
  simpl. f_equal. lia.
Qed.

Lemma flat_map_lookup {A B} (f : A -> list B) (n : nat) (l : list A) :
  (forall a, In a l -> length (f a) = n) ->
  forall i j a, l !! i = Some a -> (j < n)%nat ->
                flat_map f l !! (i * n + j)%nat = f a !! j.
Proof.
  induction l as [|a0 l IH]; intros Hlen i j a Hi Hj; [destruct i; discriminate|].
  simpl. destruct i as [|i].
  - simpl in Hi. injection Hi as ->. simpl.
    apply lookup_app_l. rewrite Hlen by (left; reflexivity). exact Hj.
  - simpl in Hi. rewrite lookup_app_r by (rewrite Hlen by (left; reflexivity); simpl; lia).
    rewrite Hlen by (left; reflexivity).
    replace (S i * n + j - n)%nat with (i * n + j)%nat by (simpl; lia).
    apply IH; auto. intros a' Ha'. apply Hlen. right. exact Ha'.
Qed.

(** The coordinates of a grid are listed row by row. *)
Lemma coordinates_lookup (W H x y : Z) :
  0 <= x < W -> 0 <= y < H ->
  coordinates W H !! Z.to_nat (y * W + x) = Some (x, y).
Proof.
  intros Hx Hy. unfold coordinates.
  replace (Z.to_nat (y * W + x))
    with (Z.to_nat y * Z.to_nat W + Z.to_nat x)%nat by nia.
  assert (Hrow : forall a, In a (range 0 (H - 1)) ->
            length (List.map (fun x0 : Z => (x0, a)) (range 0 (W - 1))) = Z.to_nat W).
  { intros a _. rewrite length_map. unfold range.
    rewrite length_map, length_seq. lia. }
  rewrite (flat_map_lookup _ _ _ Hrow (Z.to_nat y) (Z.to_nat x) y).
  - rewrite lookup_map, (range_lookup 0 (W - 1) x) by lia. reflexivity.
  - rewrite (range_lookup 0 (H - 1) y) by lia. reflexivity.
  - lia.
Qed.

End RowMajor.

Section GeneratedCells.
Import Scalar Generator Rooms Floor.
Context {R : Type} {RS : RandomStream R}.
Variable vfmt : format.

Local Abbreviation cells_of := (CellArray.cells_of vfmt).

Lemma cells_of_lookup Config F x y :
  0 <= x < SizeX Config -> 0 <= y < SizeY Config ->
  cells_of Config F !! Z.to_nat (y * SizeX Config + x) =
  Some (FMazeCell_make (x, y) (cell_world_position vfmt Config x y)
                       (cell F (x, y) =? 1)).
Proof.
  intros Hx Hy. unfold CellArray.cells_of.
  rewrite lookup_map, coordinates_lookup by assumption. reflexivity.
Qed.

Lemma cells_of_length Config F :
  0 <= SizeX Config -> 0 <= SizeY Config ->
  Z.of_nat (length (cells_of Config F)) = SizeX Config * SizeY Config.
Proof.
  intros HX HY. unfold CellArray.cells_of. rewrite length_map, length_coordinates.
  rewrite Nat2Z.inj_mul, !Z2Nat.id by lia. lia.
Qed.

Lemma cells_of_valid Config F cs p :
  0 <= SizeX Config -> 0 <= SizeY Config ->
  grid_shape (SizeX Config) (SizeY Config) F ->
  Pathfinder.IsValidCell (Pathfinder.Initialize (cells_of Config F) (SizeX Config, SizeY Config) cs) p = true
  <-> cell F p = 1.
Proof.
  intros HX HY Hshape. destruct p as [x y].
  unfold Pathfinder.IsValidCell, Pathfinder.Initialize, Pathfinder.GridToIndex. cbn [Pathfinder.MazeSize Pathfinder.CachedCells fst snd].
  destruct (decide (in_grid (SizeX Config) (SizeY Config) (x, y))) as [Hin|Hout].
  - destruct Hin as [Hx Hy]. cbn [fst snd] in Hx, Hy.
    replace ((x <? 0) || (x >=? SizeX Config) || (y <? 0) || (y >=? SizeY Config))
      with false.
    2: { symmetry. rewrite !orb_false_iff, !Z.geb_leb, !Z.ltb_ge, !Z.leb_gt. lia. }
    pose proof (cells_of_length Config F HX HY) as Hlen.
    replace ((y * SizeX Config + x >=? 0) &&
             (y * SizeX Config + x <? Z.of_nat (length (cells_of Config F))))
      with true.
    2: { symmetry. rewrite andb_true_iff, Z.geb_leb, Z.leb_le, Z.ltb_lt. nia. }
    rewrite cells_of_lookup by assumption. simpl. apply Z.eqb_eq.
  - rewrite (cell_outside _ _ F (x, y) Hshape Hout).
    unfold in_grid in Hout. cbn [fst snd] in Hout.
    replace ((x <? 0) || (x >=? SizeX Config) || (y <? 0) || (y >=? SizeY Config))
      with true; [split; discriminate|].
    symmetry. rewrite !orb_true_iff, !Z.geb_leb, !Z.ltb_lt, !Z.leb_le. lia.
Qed.


Lemma walk_is_path (pf : Pathfinder.UMazePathfinder) (fl : FIntPoint -> Prop) a b :
  (forall p, fl p -> Pathfinder.IsValidCell pf p = true) ->
  walk fl a b -> Pathfinder.reachable pf a b.
Proof.
  intros Hfl. induction 1 as [p Hp|p q r _ [l (Hh & Hl & Hw)] Hqr Hr].
  - exists [p]. repeat split. simpl. rewrite (Hfl p Hp). reflexivity.
  - exists (l ++ [r]). split; [|split].
    + destruct l; [discriminate | exact Hh].
    + apply last_snoc.
    + apply (is_walkb_snoc pf l q r Hw Hl Hqr), Hfl, Hr.
Qed.

(** What [GenerateMaze] returns, with the facts about the floor/wall grid
    it was built from. *)
Lemma GenerateMaze_cells fuel (Config : FMazeGenerationConfig) :
  0 < SizeX Config -> 0 < SizeY Config ->
  (Z.to_nat (SizeX Config * SizeY Config) < fuel)%nat ->
  exists g F,
    GenerateMaze vfmt fuel Config = Ok (cells_of Config F) /\
    spanning_tree (Z.quot (SizeX Config + 1) 2) (Z.quot (SizeY Config + 1) 2) g /\
    floor_inv (Z.quot (SizeX Config + 1) 2) (Z.quot (SizeY Config + 1) 2) g
      (SizeX Config) (SizeY Config)
      (in_grid (Z.quot (SizeX Config + 1) 2) (Z.quot (SizeY Config + 1) 2)) F.
Proof.
  intros HX HY Hfuel.
  destruct (GenerateMaze_spec vfmt fuel Config HX HY Hfuel)
    as (g & Random' & F & _ & Htree & HF & E).
  exists g, F. auto.
Qed.

(** For positive sizes the cell array is stored row by row: the cell at
    index [Y * SizeX + X] is the cell of grid position (X, Y), it is not on
    a path and has no instance, and its world position is the one
    [Pathfinder.GridToWorld] of a pathfinder with the same cell size computes. *)
Theorem generated_cells_row_major (fuel : nat) (Config : FMazeGenerationConfig) :
  0 < SizeX Config -> 0 < SizeY Config ->
  (Z.to_nat (SizeX Config * SizeY Config) < fuel)%nat ->
  exists Cells,
    GenerateMaze vfmt fuel Config = Ok Cells /\
    forall X Y, 0 <= X < SizeX Config -> 0 <= Y < SizeY Config ->
      exists Cell,
        Cells !! Z.to_nat (Y * SizeX Config + X) = Some Cell /\
        GridPosition Cell = (X, Y) /\
        WorldPosition Cell =
          Pathfinder.GridToWorld vfmt
            (Pathfinder.Initialize Cells (SizeX Config, SizeY Config) (CellSize Config)) (X, Y) /\
        bIsOnPath Cell = false /\
        InstanceIndex Cell = INDEX_NONE.
Proof.
  intros HX HY Hfuel.
  destruct (GenerateMaze_cells fuel Config HX HY Hfuel) as (g & F & E & _ & _).
  eexists. split; [exact E|]. intros X Y HXb HYb.
  eexists. split; [apply cells_of_lookup; assumption|].
  repeat split.
Qed.

(** For positive sizes the rooms and the pillars of the maze are fixed:
    every cell with two even coordinates is floor and every cell with two
    odd coordinates is wall, whatever the seed and the algorithm. *)
Theorem generated_rooms_and_pillars (fuel : nat) (Config : FMazeGenerationConfig) :
  0 < SizeX Config -> 0 < SizeY Config ->
  (Z.to_nat (SizeX Config * SizeY Config) < fuel)%nat ->
  exists Cells,
    GenerateMaze vfmt fuel Config = Ok Cells /\
    forall X Y, 0 <= X < SizeX Config -> 0 <= Y < SizeY Config ->
      (Z.even X = true -> Z.even Y = true -> is_floor_at Cells (X, Y)) /\
      (Z.odd X = true -> Z.odd Y = true -> ~ is_floor_at Cells (X, Y)).
Proof.
  intros HX HY Hfuel.
  destruct (GenerateMaze_cells fuel Config HX HY Hfuel) as (g & F & E & _ & HF).
  destruct (directions_size _ HX) as [HDW HSX].
  destruct (directions_size _ HY) as [HDH HSY].
  pose proof (fi_shape _ _ _ _ _ _ _ HF) as Hshape.
  eexists. split; [exact E|]. intros X Y HXb HYb. split.
  - intros EX EY. apply (is_floor_at_cells vfmt Config _ _ F (X, Y) Hshape).
    apply Z.even_spec in EX, EY. destruct EX as [x ->], EY as [y ->].
    replace (2 * x, 2 * y) with (room_cell (x, y))
      by (unfold room_cell; simpl; f_equal; lia).
    apply (fi_rooms _ _ _ _ _ _ _ HF). unfold in_grid. simpl. lia.
  - intros OX OY Hfl.
    apply (is_floor_at_cells vfmt Config _ _ F (X, Y) Hshape) in Hfl.
    destruct (fi_sound _ _ _ _ _ _ _ HF _ Hfl) as ([x y] & _ & _ & [Hr|Hr]).
    + unfold room_cell in Hr. simpl in Hr. injection Hr as -> ->.
      rewrite Z.odd_mul in OX. simpl in OX. rewrite andb_false_r in OX. discriminate.
    + unfold Pathfinder.cardinalb, room_cell in Hr. simpl in Hr. apply Z.eqb_eq in Hr.
      apply Z.odd_spec in OX, OY. destruct OX as [x' ->], OY as [y' ->]. lia.
Qed.

(** The generator and the pathfinder fit together: for positive sizes a
    pathfinder initialised with the generated cells is ready, its walkable
    cells are the floor cells, and with fuel above the number of cells
    [Pathfinder.FindPath] succeeds between any two floor cells, with a path from the
    one to the other. *)
Theorem generated_maze_paths (vfmt' : format) (fuel fuel' : nat)
    (Config : FMazeGenerationConfig) :
  0 < SizeX Config -> 0 < SizeY Config ->
  (Z.to_nat (SizeX Config * SizeY Config) < fuel)%nat ->
  (Z.to_nat (SizeX Config * SizeY Config) < fuel')%nat ->
  exists Cells,
    GenerateMaze vfmt fuel Config = Ok Cells /\
    let pf := Pathfinder.Initialize Cells (SizeX Config, SizeY Config) (CellSize Config) in
    Pathfinder.bIsInitialized pf = true /\
    (forall p, Pathfinder.IsValidCell pf p = true <-> is_floor_at Cells p) /\
    forall a b, is_floor_at Cells a -> is_floor_at Cells b ->
      exists r, Pathfinder.FindPath vfmt' fuel' pf a b = Some r /\
                Pathfinder.bSuccess r = true /\
                Pathfinder.is_path pf a b (Pathfinder.PathGridCoordinates r).
Proof.
  intros HX HY Hfuel Hfuel'.
  destruct (GenerateMaze_cells fuel Config HX HY Hfuel) as (g & F & E & Htree & HF).
  destruct (directions_size _ HX) as [HDW HSX].
  destruct (directions_size _ HY) as [HDH HSY].
  pose proof (fi_shape _ _ _ _ _ _ _ HF) as Hshape.
  exists (cells_of Config F). split; [exact E|]. intros pf.
  pose proof (cells_of_length Config F ltac:(lia) ltac:(lia)) as Hlen.
  assert (Hinit : Pathfinder.bIsInitialized pf = true).
  { unfold pf, Pathfinder.Initialize. simpl. apply Z.eqb_eq, Hlen. }
  assert (Hvalid : forall p, Pathfinder.IsValidCell pf p = true <-> is_floor_at (cells_of Config F) p).
  { intros p. unfold pf.
    rewrite (cells_of_valid Config F (CellSize Config) p) by (assumption || lia).
    symmetry. apply (is_floor_at_cells vfmt Config _ _ F p Hshape). }
  split; [exact Hinit|]. split; [exact Hvalid|].
  intros a b Ha Hb.
  assert (Hreach : Pathfinder.reachable pf a b).
  { apply (walk_is_path pf (grid_floor F)).
    - intros p Hp. apply Hvalid.
      apply (is_floor_at_cells vfmt Config _ _ F p Hshape), Hp.
    - apply (floor_grid_connected _ _ _ _ g F HSX HSY Htree HF).
      + apply (is_floor_at_cells vfmt Config _ _ F a Hshape), Ha.
      + apply (is_floor_at_cells vfmt Config _ _ F b Hshape), Hb. }
  destruct (FindPath_spec vfmt' pf Hinit Hlen a b fuel')
    as (r & Hr & Hiff & Hpath).
  - apply Hvalid, Ha.
  - apply Hvalid, Hb.
  - change (length (Pathfinder.CachedCells pf)) with (length (cells_of Config F)). lia.
  - exists r. split; [exact Hr|].
    assert (Hs : Pathfinder.bSuccess r = true) by (apply Hiff, Hreach).
    split; [exact Hs | apply Hpath, Hs].
Qed.

End GeneratedCells.

(* --------------------------------------------------------------------- *)
(** ** The data asset, loading and baking                                 *)
(* --------------------------------------------------------------------- *)

Section DataAsset.
Import GridData.

Lemma floor_count_from (l : list FMazeCell) (n : Z) :
  fold_left (fun Count Cell => if bIsFloor Cell then Count + 1 else Count) l n =
  n + Z.of_nat (length (List.filter bIsFloor l)).
Proof.
  revert n. induction l as [|c l IH]; intros n; simpl; [lia|].
  rewrite IH. destruct (bIsFloor c); simpl; lia.
Qed.

Lemma filter_length_split {A} (P : A -> bool) (l : list A) :
  (length (List.filter P l) + length (List.filter (fun a => negb (P a)) l)
   = length l)%nat.
Proof.
  induction l as [|a l IH]; simpl; [reflexivity|].
  destruct (P a); simpl; lia.
Qed.

(** [GetFloorCount] is the number of floor cells of the asset and
    [GetWallCount] the number of its other cells: neither is negative and
    together they are the number of cells. *)
Theorem floor_and_wall_counts (Data : UMazeGridData) :
  GetFloorCount Data = Z.of_nat (length (List.filter bIsFloor (Cells Data))) /\
  GetWallCount Data =
    Z.of_nat (length (List.filter (fun c => negb (bIsFloor c)) (Cells Data))) /\
  0 <= GetFloorCount Data /\ 0 <= GetWallCount Data /\
  GetFloorCount Data + GetWallCount Data = Z.of_nat (length (Cells Data)).
Proof.
  unfold GetWallCount, GetFloorCount. rewrite floor_count_from.
  pose proof (filter_length_split bIsFloor (Cells Data)). lia.
Qed.

End DataAsset.

Section Loading.
Import Manager.

(** [LoadMazeData] loads nothing and announces nothing when the asset is
    missing or not valid; with a valid asset it announces [OnMazeReady]
    once, resets the game state, and the pathfinder, when there is one, is
    initialised from the asset and ready: the check of [IsValid] implies the
    check [Initialize] makes. *)
Theorem load_maze_data_ready (M : AMazeManager) :
  match MazeGridData M with
  | None => LoadMazeData M = (M, [])
  | Some Data =>
      if GridData.IsValid Data then
        let '(M', log) := LoadMazeData M in
        log = [OnMazeReady] /\
        GameState M' = Discovery.InitialState /\
        CachedCells M' = GridData.Cells Data /\
        LoadedMazeSize M' = (GridData.SizeX Data, GridData.SizeY Data) /\
        (forall pf0, Pathfinder M = Some pf0 ->
           exists pf, Pathfinder M' = Some pf /\
             pf = Pathfinder.Initialize (CachedCells M') (LoadedMazeSize M')
                    (LoadedCellSize M') /\
             Pathfinder.bIsInitialized pf = true)
      else LoadMazeData M = (M, [])
  end.
Proof.
  unfold LoadMazeData. destruct (MazeGridData M) as [Data|]; [|reflexivity].
  destruct (GridData.IsValid Data) eqn:Ev; [|reflexivity]. cbn [negb].
  repeat split. intros pf0 Hpf. rewrite Hpf. cbn.
  eexists. split; [reflexivity|]. split; [reflexivity|].
  unfold GridData.IsValid in Ev. apply andb_true_iff in Ev. apply Ev.
Qed.

(** After [BeginPlay] there is a pathfinder; it is ready exactly when the
    manager holds a valid data asset, which is exactly when [OnMazeReady]
    was announced, and then the game state is the initial one and nothing
    else was announced.  Otherwise every [FindPath] query fails. *)
Theorem begin_play_ready_iff_valid (M : AMazeManager) :
  let '(M', log) := BeginPlay M in
  exists pf,
    Pathfinder M' = Some pf /\
    Pathfinder.bIsInitialized pf =
      match MazeGridData M with
      | Some Data => GridData.IsValid Data
      | None => false
      end /\
    (In OnMazeReady log <-> Pathfinder.bIsInitialized pf = true) /\
    (Pathfinder.bIsInitialized pf = true ->
       GameState M' = Discovery.InitialState /\ log = [OnMazeReady]) /\
    (Pathfinder.bIsInitialized pf = false ->
       forall vfmt fuel Start End,
         Pathfinder.FindPath vfmt fuel pf Start End = Some Pathfinder.FailedResult).
Proof.
  assert (Hnot : forall slog : list Discovery.Notification,
            ~ In OnMazeReady (List.map OnState slog)).
  { intros slog Hin. apply in_map_iff in Hin.
    destruct Hin as (n & Hn & _). discriminate. }
  assert (Hup : Discovery.UpdatePathfindingTarget Discovery.InitialState
                = (tt, Discovery.InitialState, [])) by reflexivity.
  unfold BeginPlay, LoadMazeData, set_Pathfinder.
  cbn [MazeGridData Pathfinder].
  destruct (MazeGridData M) as [Data|] eqn:ED.
  - destruct (GridData.IsValid Data) eqn:Ev; cbn [negb].
    + assert (Hinit : Pathfinder.bIsInitialized
                        (Pathfinder.Initialize (GridData.Cells Data)
                           (GridData.SizeX Data, GridData.SizeY Data)
                           (GridData.CellSize Data)) = true).
      { unfold GridData.IsValid in Ev. apply andb_true_iff in Ev. apply Ev. }
      cbn [ExitActor]. destruct (ExitActor M).
      * unfold on_state, set_GameState. cbn [GameState]. rewrite Hup.
        cbn [Pathfinder GameState List.map app].
        eexists. split; [reflexivity|]. rewrite Hinit.
        split; [reflexivity|]. split; [split; [reflexivity | left; reflexivity]|].
        split; [intros _; split; reflexivity | discriminate].
      * cbn [Pathfinder GameState].
        eexists. split; [reflexivity|]. rewrite Hinit.
        split; [reflexivity|]. split; [split; [reflexivity | left; reflexivity]|].
        split; [intros _; split; reflexivity | discriminate].
    + cbn [ExitActor]. destruct (ExitActor M).
      * unfold on_state, set_GameState. cbn [GameState].
        destruct (Discovery.UpdatePathfindingTarget (GameState M))
          as [[u s] slog] eqn:Eu. cbn [Pathfinder GameState app].
        exists NewPathfinder. split; [reflexivity|]. split; [reflexivity|].
        split; [|split; [discriminate|]].
        -- split; [|discriminate]. intros Hin. exfalso. exact (Hnot _ Hin).
        -- intros _ vfmt fuel Start End. reflexivity.
      * cbn [Pathfinder].
        exists NewPathfinder. split; [reflexivity|]. split; [reflexivity|].
        split; [|split; [discriminate|]].
        -- split; [intros [] | discriminate].
        -- intros _ vfmt fuel Start End. reflexivity.
  - cbn [ExitActor]. destruct (ExitActor M).
    + unfold on_state, set_GameState. cbn [GameState].
      destruct (Discovery.UpdatePathfindingTarget (GameState M))
        as [[u s] slog] eqn:Eu. cbn [Pathfinder GameState app].
      exists NewPathfinder. split; [reflexivity|]. split; [reflexivity|].
      split; [|split; [discriminate|]].
      * split; [|discriminate]. intros Hin. exfalso. exact (Hnot _ Hin).
      * intros _ vfmt fuel Start End. reflexivity.
    + cbn [Pathfinder].
      exists NewPathfinder. split; [reflexivity|]. split; [reflexivity|].
      split; [|split; [discriminate|]].
      * split; [intros [] | discriminate].
      * intros _ vfmt fuel Start End. reflexivity.
Qed.

End Loading.

(* --------------------------------------------------------------------- *)
(** ** Baking: the border and the data asset                              *)
(* --------------------------------------------------------------------- *)

Section Baking.
Import Manager.

Lemma NoDup_map_range (f : Z -> Z * Z) lo hi :
  (forall a b, f a = f b -> a = b) -> NoDup (List.map f (range lo hi)).
Proof.
  intros Hinj. apply NoDup_fmap_2_strong.
  - intros a b _ _ E. apply Hinj, E.
  - apply NoDup_range.
Qed.

Lemma in_border_walls (SizeX SizeY : Z) (c : FIntPoint) :
  0 <= SizeX -> 0 <= SizeY ->
  In c (border_walls SizeX SizeY) <->
  (-1 <= fst c <= SizeX /\ -1 <= snd c <= SizeY /\
   ~ (0 <= fst c < SizeX /\ 0 <= snd c < SizeY)).
Proof.
  intros HX HY. unfold border_walls. destruct c as [x y]. cbn [fst snd].
  rewrite !in_app_iff, !in_map_iff. split.
  - intros [(a & E & Ha)|[(a & E & Ha)|[(a & E & Ha)|(a & E & Ha)]]];
      apply in_range in Ha; injection E as <- <-; lia.
  - intros (Hx & Hy & Hout).
    destruct (Z.eq_dec y (-1)) as [->|Hy1].
    { left. exists x. split; [reflexivity | apply in_range; lia]. }
    destruct (Z.eq_dec y SizeY) as [->|Hy2].
    { right. left. exists x. split; [reflexivity | apply in_range; lia]. }
    destruct (Z.eq_dec x (-1)) as [->|Hx1].
    { right. right. left. exists y. split; [reflexivity | apply in_range; lia]. }
    right. right. right. exists y. split; [f_equal; lia | apply in_range; lia].
Qed.

(** For sizes that are not negative, and a width below the largest int32
    (the counter of the row loops runs one past the width), the grid
    positions [BakeMazeToLevel] hands to [SpawnBorderWall] are exactly the
    cells of the frame one cell wide around the grid: each of them once (no
    corner twice), none on a cell of the maze, 2 * SizeX + 2 * SizeY + 4 in
    all. *)
Theorem border_walls_frame (SizeX SizeY : Z) :
  0 <= SizeX < 2147483647 -> 0 <= SizeY ->
  (forall c, In c (border_walls SizeX SizeY) <->
     (-1 <= fst c <= SizeX /\ -1 <= snd c <= SizeY /\
      ~ (0 <= fst c < SizeX /\ 0 <= snd c < SizeY))) /\
  NoDup (border_walls SizeX SizeY) /\
  Z.of_nat (length (border_walls SizeX SizeY)) = 2 * SizeX + 2 * SizeY + 4.
Proof.
  intros [HX _] HY. split; [intros c; apply in_border_walls; assumption|]. split.
  - unfold border_walls.
    repeat (apply NoDup_app; split;
            [apply NoDup_map_range; intros a b E; injection E; auto|]; split).
    + intros c Hc Hc'. apply list_elem_of_In in Hc, Hc'.
      apply in_map_iff in Hc. destruct Hc as (a & <- & Ha).
      rewrite !in_app_iff, !in_map_iff in Hc'.
      destruct Hc' as [(b & E & Hb)|[(b & E & Hb)|(b & E & Hb)]];
        apply in_range in Hb; injection E; lia.
    + intros c Hc Hc'. apply list_elem_of_In in Hc, Hc'.
      apply in_map_iff in Hc. destruct Hc as (a & <- & Ha).
      rewrite !in_app_iff, !in_map_iff in Hc'.
      destruct Hc' as [(b & E & Hb)|(b & E & Hb)];
        apply in_range in Hb; injection E; lia.
    + intros c Hc Hc'. apply list_elem_of_In in Hc, Hc'.
      apply in_map_iff in Hc. destruct Hc as (a & <- & Ha).
      apply in_map_iff in Hc'. destruct Hc' as (b & E & Hb).
      apply in_range in Ha, Hb. injection E. lia.
    + apply NoDup_map_range. intros a b E. injection E. auto.
  - unfold border_walls, range.
    rewrite !length_app, !length_map, !length_seq. lia.
Qed.

End Baking.

Section BakedData.
Import Manager Rooms Floor.
Context {R : Type} {RS : RandomStream R}.
Variable vfmt : Scalar.format.

(** Baking and loading fit together.  For positive sizes, with fuel for
    the algorithm, the baked data asset records the sizes of the
    configuration, passes [IsValid] and has at least one floor cell; for a
    width or height that is not positive whatever asset is baked fails
    [IsValid], so [LoadMazeData] will not load it. *)
Theorem baked_data_valid_iff_positive
    (fuel : nat) (GenerationConfig : FMazeGenerationConfig) :
  (0 < SizeX GenerationConfig -> 0 < SizeY GenerationConfig ->
   (Z.to_nat (SizeX GenerationConfig * SizeY GenerationConfig) < fuel)%nat ->
   exists Data,
     BakedGridData vfmt fuel GenerationConfig = Ok Data /\
     GridData.SizeX Data = SizeX GenerationConfig /\
     GridData.SizeY Data = SizeY GenerationConfig /\
     GridData.IsValid Data = true /\
     1 <= GridData.GetFloorCount Data) /\
  (SizeX GenerationConfig <= 0 \/ SizeY GenerationConfig <= 0 ->
   forall Data,
     BakedGridData vfmt fuel GenerationConfig = Ok Data ->
     GridData.IsValid Data = false).
Proof.
  split.
  - intros HX HY Hfuel. unfold BakedGridData.
    destruct (GenerateMaze_cells vfmt fuel GenerationConfig HX HY Hfuel)
      as (g & F & E & _ & HF).
    rewrite E, bind_Ok. eexists. split; [reflexivity|].
    split; [reflexivity|]. split; [reflexivity|]. split.
    + unfold GridData.IsValid. cbn.
      rewrite (cells_of_length vfmt GenerationConfig F) by lia.
      rewrite Z.eqb_refl, andb_true_r.
      apply andb_true_iff. split; apply Z.gtb_lt; assumption.
    + unfold GridData.GetFloorCount. rewrite floor_count_from.
      cbn [GridData.Cells].
      pose proof (fi_shape _ _ _ _ _ _ _ HF) as Hshape.
      destruct (directions_size _ HX) as [HDW _].
      destruct (directions_size _ HY) as [HDH _].
      assert (Hfl : Floor.is_floor_at
                      (CellArray.cells_of vfmt GenerationConfig F) (0, 0)).
      { apply (is_floor_at_cells vfmt GenerationConfig _ _ F (0, 0) Hshape).
        apply (fi_rooms _ _ _ _ _ _ _ HF (0, 0)). unfold Rooms.in_grid. simpl. lia. }
      destruct Hfl as (c & Hin & _ & Hc).
      assert (Hin' : In c (List.filter bIsFloor
                             (CellArray.cells_of vfmt GenerationConfig F)))
        by (apply filter_In; auto).
      destruct (List.filter bIsFloor (CellArray.cells_of vfmt GenerationConfig F));
        [destruct Hin' | simpl; lia].
  - intros Hdeg Data. unfold BakedGridData. intros E.
    apply bind_is_Ok in E. destruct E as (Cells & _ & E). injection E as <-.
    unfold GridData.IsValid. cbn.
    destruct Hdeg as [H|H].
    + replace (SizeX GenerationConfig >? 0) with false; [reflexivity|].
      symmetry. rewrite Z.gtb_ltb. apply Z.ltb_ge. lia.
    + replace (SizeY GenerationConfig >? 0) with false;
        [rewrite andb_false_r; reflexivity|].
      symmetry. rewrite Z.gtb_ltb. apply Z.ltb_ge. lia.
Qed.

End BakedData.

(* --------------------------------------------------------------------- *)
(** ** The path of the manager and its overlay                            *)
(* --------------------------------------------------------------------- *)

Section ManagerPath.
Import Manager.
Variable vfmt : Scalar.format.

Lemma loaded_length M pf :
  loaded M pf ->
  Z.of_nat (length (Pathfinder.CachedCells pf)) =
  fst (Pathfinder.MazeSize pf) * snd (Pathfinder.MazeSize pf).
Proof.
  intros (_ & -> & Hinit). unfold Pathfinder.Initialize in *. simpl in *.
  apply Z.eqb_eq, Hinit.
Qed.

Lemma ActorToGridPosition_cases M Actor t :
  ActorToGridPosition vfmt M Actor = Some t ->
  t = (-1, -1) \/
  exists pf, Pathfinder M = Some pf /\ Pathfinder.IsValidCell pf t = true.
Proof.
  unfold ActorToGridPosition.
  destruct Actor as [LocalPos|]; [|intros E; injection E as <-; auto].
  destruct (Pathfinder M) as [pf|]; [|intros E; injection E as <-; auto].
  destruct (Pathfinder.WorldToGrid vfmt pf LocalPos) as [g|]; [|discriminate].
  destruct (Pathfinder.IsValidCell pf g) eqn:Ev; cbn [negb]; intros E;
    injection E as <-.
  - right. exists pf. auto.
  - destruct (nearest_walkable_cases pf g) as [H|[H _]]; [auto|].
    right. exists pf. auto.
Qed.

Lemma GetCurrentTargetGridPosition_cases M t :
  GetCurrentTargetGridPosition vfmt M = Some t ->
  t = (-1, -1) \/
  exists pf, Pathfinder M = Some pf /\ Pathfinder.IsValidCell pf t = true.
Proof.
  unfold GetCurrentTargetGridPosition, GetExitGridPosition, GetKeyGridPosition.
  destruct (Discovery.CurrentTarget (GameState M));
    [apply ActorToGridPosition_cases | apply ActorToGridPosition_cases |].
  intros E. injection E as <-. auto.
Qed.

(** The grid position of an actor, and so the exit, key and current target
    positions, is the sentinel (-1,-1), always so without an actor or a
    pathfinder, or a walkable cell of the pathfinder: never a wall or a
    cell outside the grid.  After a run of discovery events from the initial
    state the current target is the key position if the exit was found and
    the key not, and the exit position otherwise. *)
Theorem target_grid_position_walkable (M : AMazeManager) :
  (forall Actor t, ActorToGridPosition vfmt M Actor = Some t ->
     t = (-1, -1) \/
     exists pf, Pathfinder M = Some pf /\ Pathfinder.IsValidCell pf t = true) /\
  (forall t, GetCurrentTargetGridPosition vfmt M = Some t ->
     t = (-1, -1) \/
     exists pf, Pathfinder M = Some pf /\ Pathfinder.IsValidCell pf t = true) /\
  (forall t, ActorToGridPosition vfmt M None = Some t -> t = (-1, -1)) /\
  (Pathfinder M = None ->
   forall Actor, ActorToGridPosition vfmt M Actor = Some (-1, -1)) /\
  (forall es,
     GameState M = Discovery.run es Discovery.InitialState ->
     GetCurrentTargetGridPosition vfmt M =
     if DiscoveryLog.has_event Discovery.ExitFound es &&
        negb (DiscoveryLog.has_event Discovery.KeyFound es)
     then GetKeyGridPosition vfmt M else GetExitGridPosition vfmt M).
Proof.
  split; [intros Actor t; apply ActorToGridPosition_cases|].
  split; [intros t; apply GetCurrentTargetGridPosition_cases|].
  split; [intros t E; injection E as <-; reflexivity|].
  split.
  - intros Hpf Actor. unfold ActorToGridPosition. rewrite Hpf.
    destruct Actor; reflexivity.
  - intros es Hs. unfold GetCurrentTargetGridPosition. rewrite Hs.
    rewrite (run_target_for es Discovery.InitialState eq_refl).
    unfold DiscoveryLog.target_for.
    destruct (run_flags es Discovery.InitialState) as [-> ->]. simpl.
    destruct (DiscoveryLog.has_event Discovery.ExitFound es),
             (DiscoveryLog.has_event Discovery.KeyFound es); reflexivity.
Qed.

(** What [RecalculatePath] leaves behind when it announces a path. *)
Lemma RecalculatePath_updated fuel M pf w M' log ws :
  loaded M pf ->
  (length (CachedCells M) < fuel)%nat ->
  RecalculatePath vfmt fuel M w = Some (M', log) ->
  In (OnPathUpdated ws) log ->
  exists t,
    GetCurrentTargetGridPosition vfmt M = Some t /\
    Pathfinder.IsValidCell pf t = true /\
    M' = set_CurrentPath (CurrentPath M')
           (list_to_set (Pathfinder.PathGridCoordinates (CurrentPath M'))) M /\
    Pathfinder.bSuccess (CurrentPath M') = true /\
    ws = Pathfinder.PathWorldPositions (CurrentPath M') /\
    last (Pathfinder.PathGridCoordinates (CurrentPath M')) = Some t /\
    Pathfinder.is_walkb pf (Pathfinder.PathGridCoordinates (CurrentPath M')) = true.
Proof.
  intros Hl Hfuel E Hin. pose proof Hl as (Hpf & Hpfeq & Hinit).
  unfold RecalculatePath in E. rewrite Hpf in E.
  destruct (GetCurrentTargetGridPosition vfmt M) as [t|] eqn:Et; [|discriminate].
  destruct (decide (t = (-1, -1))) as [->|Hne].
  { injection E as <- <-. destruct Hin. }
  destruct (Pathfinder.FindPathFromWorld vfmt fuel pf w t) as [Path|] eqn:EP;
    [|discriminate].
  injection E as <- <-.
  destruct (Pathfinder.bSuccess Path) eqn:Es; [|destruct Hin].
  destruct Hin as [Hin|[]]. injection Hin as <-.
  exists t. split; [reflexivity|].
  destruct (FindPathFromWorld_FindPath vfmt pf w t fuel Path EP Es) as [s Hfind].
  destruct (FindPath_success_valid vfmt pf s t fuel Path Hfind Es) as [Hvs Hvt].
  destruct (FindPath_spec vfmt pf Hinit (loaded_length M pf Hl) s t fuel Hvs Hvt)
    as (r' & Hr' & _ & Hpath).
  { rewrite Hpfeq. simpl. exact Hfuel. }
  rewrite Hfind in Hr'. injection Hr' as <-.
  destruct (Hpath Es) as [(Hh & Hla & Hw) _].
  cbn [set_CurrentPath CurrentPath]. auto 10.
Qed.

(** On a loaded manager, with fuel above the number of cells,
    [RecalculatePath] announces [OnPathUpdated] only for a path it has just
    found: the positions announced are those of the stored path, which is a
    walk over walkable cells that ends at the current target, and
    [PathCellSet] holds exactly its cells. *)
Theorem recalculate_path_announces_walk fuel M pf w M' log ws :
  loaded M pf ->
  (length (CachedCells M) < fuel)%nat ->
  RecalculatePath vfmt fuel M w = Some (M', log) ->
  In (OnPathUpdated ws) log ->
  exists t,
    GetCurrentTargetGridPosition vfmt M = Some t /\
    Pathfinder.IsValidCell pf t = true /\
    ws = Pathfinder.PathWorldPositions (CurrentPath M') /\
    last (Pathfinder.PathGridCoordinates (CurrentPath M')) = Some t /\
    Pathfinder.is_walkb pf (Pathfinder.PathGridCoordinates (CurrentPath M')) = true /\
    PathCellSet M' = list_to_set (Pathfinder.PathGridCoordinates (CurrentPath M')) /\
    GameState M' = GameState M /\ Pathfinder M' = Pathfinder M.
Proof.
  intros Hl Hfuel E Hin.
  destruct (RecalculatePath_updated fuel M pf w M' log ws Hl Hfuel E Hin)
    as (t & Ht & Hvt & HM & Hs & Hws & Hla & Hw).
  exists t. repeat (split; [assumption|]).
  rewrite HM. cbn. auto.
Qed.

(** *** The overlay *)

Lemma flat_map_length_ones {A B} (f : A -> list B) (l : list A) :
  (forall a, In a l -> length (f a) = 1%nat) ->
  length (flat_map f l) = length l.
Proof.
  induction l as [|a l IH]; intros Hl; [reflexivity|].
  simpl. rewrite length_app, Hl by (left; reflexivity).
  rewrite IH by (intros; apply Hl; right; assumption). reflexivity.
Qed.

Lemma overlay_instances_length M pf :
  loaded M pf ->
  Pathfinder.is_walkb pf (Pathfinder.PathGridCoordinates (CurrentPath M)) = true ->
  length (overlay_instances vfmt M) =
  length (Pathfinder.PathGridCoordinates (CurrentPath M)).
Proof.
  intros (_ & Hpf & _) Hw. apply is_walkb_lookup in Hw. destruct Hw as (_ & Hv & _).
  unfold overlay_instances. apply flat_map_length_ones.
  intros c Hc. apply list_elem_of_In, list_elem_of_lookup in Hc.
  destruct Hc as [i Hi]. specialize (Hv i c Hi). rewrite Hpf in Hv.
  unfold Pathfinder.IsValidCell, Pathfinder.Initialize, Pathfinder.GridToIndex in Hv.
  cbn [Pathfinder.MazeSize Pathfinder.CachedCells] in Hv. cbv zeta.
  destruct (_ || _) in Hv; [discriminate|].
  destruct (_ && _); [|discriminate].
  destruct (CachedCells M !! _) as [Cell|]; [|discriminate].
  rewrite Hv. reflexivity.
Qed.

(** On a loaded manager with a floor mesh and an overlay component, when
    [ShowPath] announces a path the overlay is visible and holds one
    instance for every cell of that path, none skipped, and [bPathVisible]
    is set. *)
Theorem show_path_draws_every_cell fuel M pf mesh w M' log ws :
  loaded M pf ->
  (length (CachedCells M) < fuel)%nat ->
  PathMeshComponent M = Some mesh -> FloorMesh M = true ->
  ShowPath vfmt fuel M w = Some (M', log) ->
  In (OnPathUpdated ws) log ->
  Discovery.bPathVisible (GameState M') = true /\
  exists insts,
    PathMeshComponent M' = Some (mkPathMesh true insts) /\
    length insts = length (Pathfinder.PathGridCoordinates (CurrentPath M')) /\
    length insts = length ws /\
    Z.of_nat (length insts) = Pathfinder.PathLength (CurrentPath M').
Proof.
  intros Hl Hfuel Hmesh Hfloor E Hin. pose proof Hl as (Hpf & Hpfeq & Hinit).
  unfold ShowPath in E. rewrite Hpf in E.
  destruct (RecalculatePath vfmt fuel M w) as [[M1 log1]|] eqn:ER; [|discriminate].
  injection E as HM' Hlog. subst M' log1.
  destruct (RecalculatePath_updated fuel M pf w M1 log ws Hl Hfuel ER Hin)
    as (t & Ht & Hvt & HM & Hs & Hws & Hla & Hw).
  split; [reflexivity|].
  assert (Hl1 : loaded M1 pf).
  { rewrite HM. unfold loaded. cbn. auto. }
  assert (Hne : Pathfinder.PathGridCoordinates (CurrentPath M1) <> []).
  { intros E0. rewrite E0 in Hla. discriminate. }
  unfold ApplyPathVisualization. rewrite Hs. cbn [negb orb].
  replace (Z.of_nat (length (Pathfinder.PathGridCoordinates (CurrentPath M1))) =? 0)
    with false.
  2: { symmetry. apply Z.eqb_neq.
       destruct (Pathfinder.PathGridCoordinates (CurrentPath M1));
         [contradiction | simpl; lia]. }
  assert (Hmesh1 : PathMeshComponent M1 = Some mesh) by (rewrite HM; exact Hmesh).
  assert (Hfloor1 : FloorMesh M1 = true) by (rewrite HM; exact Hfloor).
  rewrite Hmesh1, Hfloor1. cbn.
  eexists. split; [reflexivity|].
  pose proof (overlay_instances_length M1 pf Hl1 Hw) as Hlen.
  split; [exact Hlen|].
  unfold RecalculatePath in ER. rewrite Hpf, Ht in ER.
  destruct (decide (t = (-1, -1))) as [->|Hnt].
  { injection ER as <- <-. destruct Hin. }
  destruct (Pathfinder.FindPathFromWorld vfmt fuel pf w t) as [Path|] eqn:EP;
    [|discriminate].
  injection ER as <- <-. cbn [set_CurrentPath CurrentPath] in *.
  destruct (FindPathFromWorld_FindPath vfmt pf w t fuel Path EP Hs) as [s Hfind].
  destruct (FindPath_result_shape pf vfmt fuel s t Path Hfind) as [HW HL].
  rewrite Hlen, Hws, HW, HL, length_map. auto.
Qed.

(** [HidePath] leaves the path hidden: [bPathVisible] is cleared and the
    overlay, when there is one, is invisible and without instances; the
    path, the pathfinder and the discovery flags are untouched, and a
    second [HidePath] changes nothing.  [TogglePath] on a visible path is
    [HidePath]; on a hidden path it is [ShowPath], which sets
    [bPathVisible] whenever there is a pathfinder. *)
Lemma hide_and_toggle_path (fuel : nat) (M : AMazeManager) (w : Scalar.FVector) :
  Discovery.bPathVisible (GameState (HidePath M)) = false /\
  (forall mesh, PathMeshComponent M = Some mesh ->
     PathMeshComponent (HidePath M) = Some (mkPathMesh false [])) /\
  CurrentPath (HidePath M) = CurrentPath M /\
  Pathfinder (HidePath M) = Pathfinder M /\
  Discovery.CurrentTarget (GameState (HidePath M)) =
    Discovery.CurrentTarget (GameState M) /\
  HidePath (HidePath M) = HidePath M /\
  (Discovery.bPathVisible (GameState M) = true ->
   TogglePath vfmt fuel M w = Some (HidePath M, [])) /\
  (Discovery.bPathVisible (GameState M) = false ->
   TogglePath vfmt fuel M w = ShowPath vfmt fuel M w) /\
  (forall pf M' log, Pathfinder M = Some pf ->
     ShowPath vfmt fuel M w = Some (M', log) ->
     Discovery.bPathVisible (GameState M') = true).
Proof.
  split; [reflexivity|].
  split; [intros mesh Hm; unfold HidePath, ClearPathVisualization;
          rewrite Hm; reflexivity|].
  split; [unfold HidePath, ClearPathVisualization;
          destruct (PathMeshComponent M); reflexivity|].
  split; [unfold HidePath, ClearPathVisualization;
          destruct (PathMeshComponent M); reflexivity|].
  split; [unfold HidePath, ClearPathVisualization;
          destruct (PathMeshComponent M); reflexivity|].
  split; [unfold HidePath, ClearPathVisualization;
          destruct (PathMeshComponent M) eqn:Em; cbn; try rewrite Em; reflexivity|].
  split; [intros H; unfold TogglePath; rewrite H; reflexivity|].
  split; [intros H; unfold TogglePath; rewrite H; reflexivity|].
  intros pf M' log Hpf E. unfold ShowPath in E. rewrite Hpf in E.
  destruct (RecalculatePath vfmt fuel M w) as [[M1 log1]|]; [|discriminate].
  injection E as <- <-. reflexivity.
Qed.

End ManagerPath.

(* --------------------------------------------------------------------- *)
(** ** Directions and the sets of Kruskal's algorithm                     *)
(* --------------------------------------------------------------------- *)

Section Directions.
Import Generator Rooms.

(** The direction helpers agree with each other: the opposite of the
    opposite is the direction itself, the opposite negates both deltas, a
    real direction moves exactly one cell, stepping there and back returns
    to the start, [GetDirectionBetween] recovers the direction of a step,
    and two different directions share no bit. *)
Theorem direction_helpers_agree (d : EMazeDirection) :
  GetOppositeDirection (GetOppositeDirection d) = d /\
  GetDirectionDeltaX (GetOppositeDirection d) = - GetDirectionDeltaX d /\
  GetDirectionDeltaY (GetOppositeDirection d) = - GetDirectionDeltaY d /\
  (d <> Dir_None ->
   Z.abs (GetDirectionDeltaX d) + Z.abs (GetDirectionDeltaY d) = 1) /\
  (forall X Y,
     let NextX := X + GetDirectionDeltaX d in
     let NextY := Y + GetDirectionDeltaY d in
     NextX + GetDirectionDeltaX (GetOppositeDirection d) = X /\
     NextY + GetDirectionDeltaY (GetOppositeDirection d) = Y /\
     GetDirectionBetween (X, Y) (NextX, NextY) = d) /\
  (forall e, e <> d -> Z.land (dir_byte d) (dir_byte e) = 0).
Proof.
  split; [destruct d; reflexivity|].
  split; [destruct d; reflexivity|].
  split; [destruct d; reflexivity|].
  split; [destruct d; intros H; try reflexivity; contradiction|].
  split.
  - intros X Y. cbv zeta. split; [destruct d; simpl; lia|].
    split; [destruct d; simpl; lia|].
    unfold GetDirectionBetween. cbn [fst snd].
    destruct d; simpl;
      repeat match goal with
             | |- context [?a >? ?b] =>
                 let E := fresh in
                 destruct (a >? b) eqn:E;
                 [apply Z.gtb_lt in E | rewrite Z.gtb_ltb in E; apply Z.ltb_ge in E]
             | |- context [?a <? ?b] =>
                 let E := fresh in
                 destruct (a <? b) eqn:E;
                 [apply Z.ltb_lt in E | apply Z.ltb_ge in E]
             end; try reflexivity; lia.
  - intros e He. destruct d, e; try reflexivity; contradiction.
Qed.

End Directions.

Section KruskalSets.
Import Generator Rooms.

Lemma GetRoot_root_of (fuel : nat) (heap : gmap (Z * Z) (Z * Z)) :
  forall c r, GetRoot fuel heap c = Ok r ->
              exists n, (n < fuel)%nat /\ root_of heap c r n.
Proof.
  induction fuel as [|fuel IH]; intros c r E; [discriminate|].
  simpl in E. destruct (heap !! c) as [p|] eqn:Ec.
  - destruct (IH _ _ E) as (n & Hn & Hr). exists (S n).
    split; [lia | eapply root_up; eauto].
  - injection E as <-. exists O. split; [lia | apply root_here, Ec].
Qed.

Lemma IsConnectedTo_root_of (fuel : nat) (heap : gmap (Z * Z) (Z * Z)) a b v :
  IsConnectedTo fuel heap a b = Ok v ->
  exists ra na rb nb,
    (na < fuel)%nat /\ (nb < fuel)%nat /\
    root_of heap a ra na /\ root_of heap b rb nb /\ v = bool_decide (ra = rb).
Proof.
  unfold IsConnectedTo. intros E.
  apply bind_is_Ok in E. destruct E as (ra & Ea & E).
  apply bind_is_Ok in E. destruct E as (rb & Eb & E). injection E as <-.
  destruct (GetRoot_root_of _ _ _ _ Ea) as (na & Hna & Ha).
  destruct (GetRoot_root_of _ _ _ _ Eb) as (nb & Hnb & Hb).
  exists ra, na, rb, nb. auto.
Qed.

Lemma root_of_IsConnectedTo (fuel : nat) (heap : gmap (Z * Z) (Z * Z))
    a b r na nb :
  root_of heap a r na -> root_of heap b r nb ->
  (na < fuel)%nat -> (nb < fuel)%nat ->
  IsConnectedTo fuel heap a b = Ok true.
Proof.
  intros Ha Hb Hna Hnb. unfold IsConnectedTo.
  rewrite (GetRoot_spec heap a r na Ha fuel Hna), bind_Ok.
  rewrite (GetRoot_spec heap b r nb Hb fuel Hnb), bind_Ok.
  rewrite bool_decide_eq_true_2; reflexivity.
Qed.

(** [ConnectTo] on two sets that [IsConnectedTo] finds apart joins them,
    and every pair of sets that was connected stays connected; chains of
    [Parent] pointers may afterwards be up to twice as long. *)
Theorem kruskal_connect_joins (fuel : nat) (heap : gmap (Z * Z) (Z * Z))
    (this Other : FIntPoint) :
  IsConnectedTo fuel heap this Other = Ok false ->
  exists heap',
    ConnectTo fuel heap this Other = Ok heap' /\
    IsConnectedTo (fuel + fuel) heap' this Other = Ok true /\
    forall a b, IsConnectedTo fuel heap a b = Ok true ->
                IsConnectedTo (fuel + fuel) heap' a b = Ok true.
Proof.
  intros E.
  destruct (IsConnectedTo_root_of _ _ _ _ _ E)
    as (rc & nc & ro & no & Hnc & Hno & Hc & Ho & Hv).
  assert (Hne : rc <> ro).
  { intros ->. rewrite bool_decide_eq_true_2 in Hv by reflexivity. discriminate. }
  pose proof (root_of_is_root _ _ _ _ Ho) as Hro.
  exists (<[ro := this]> heap). split; [|split].
  - unfold ConnectTo. rewrite (GetRoot_spec heap Other ro no Ho fuel Hno), bind_Ok.
    reflexivity.
  - apply (root_of_IsConnectedTo _ _ this Other rc nc (no + S nc)).
    + apply root_of_insert_other; assumption.
    + apply root_of_insert_redirect; assumption.
    + lia.
    + lia.
  - intros a b Eab.
    destruct (IsConnectedTo_root_of _ _ _ _ _ Eab)
      as (ra & na & rb & nb & Hna & Hnb & Ha & Hb & Hv').
    symmetry in Hv'. apply bool_decide_eq_true in Hv'. subst rb.
    destruct (decide (ra = ro)) as [->|Hra].
    + apply (root_of_IsConnectedTo _ _ a b rc (na + S nc) (nb + S nc));
        [apply root_of_insert_redirect; assumption
        |apply root_of_insert_redirect; assumption | lia | lia].
    + apply (root_of_IsConnectedTo _ _ a b ra na nb);
        [apply root_of_insert_other; assumption
        |apply root_of_insert_other; assumption | lia | lia].
Qed.

Lemma GetRoot_cycle (heap : gmap (Z * Z) (Z * Z)) (t r : FIntPoint) (n : nat) :
  root_of heap t r n ->
  forall fuel x k, root_of heap x r k ->
                   GetRoot fuel (<[r := t]> heap) x = OutOfFuel.
Proof.
  intros Ht. induction fuel as [|fuel IH]; intros x k Hx; [reflexivity|].
  simpl. destruct Hx as [x Hx|x p r k Hp Hx].
  - rewrite lookup_insert_eq. apply (IH t n Ht).
  - assert (x <> r).
    { intros ->. rewrite (root_of_is_root _ _ _ _ Hx) in Hp. discriminate. }
    rewrite lookup_insert_ne by congruence. rewrite Hp. apply (IH p k Hx).
Qed.

(** [ConnectTo] is only safe on sets that are apart: when [IsConnectedTo]
    finds the two sets connected, [ConnectTo] closes a cycle of [Parent]
    pointers, and [GetRoot] on either set then never returns, whatever the
    fuel.  ([GenerateKruskals] calls [ConnectTo] only after [IsConnectedTo]
    answered false.) *)
Theorem kruskal_connect_same_set_cycles (fuel : nat)
    (heap : gmap (Z * Z) (Z * Z)) (this Other : FIntPoint) :
  IsConnectedTo fuel heap this Other = Ok true ->
  exists heap',
    ConnectTo fuel heap this Other = Ok heap' /\
    forall fuel', GetRoot fuel' heap' this = OutOfFuel /\
                  GetRoot fuel' heap' Other = OutOfFuel.
Proof.
  intros E.
  destruct (IsConnectedTo_root_of _ _ _ _ _ E)
    as (rc & nc & ro & no & Hnc & Hno & Hc & Ho & Hv).
  symmetry in Hv. apply bool_decide_eq_true in Hv. subst ro.
  exists (<[rc := this]> heap). split.
  - unfold ConnectTo. rewrite (GetRoot_spec heap Other rc no Ho fuel Hno), bind_Ok.
    reflexivity.
  - intros fuel'. split.
    + apply (GetRoot_cycle heap this rc nc Hc fuel' this nc Hc).
    + apply (GetRoot_cycle heap this rc nc Hc fuel' Other no Ho).
Qed.

End KruskalSets.

(* --------------------------------------------------------------------- *)
(** ** The theorems above at concrete inputs                              *)
(* --------------------------------------------------------------------- *)

Lemma findpath_result_aligned_witness :
  match Pathfinder.FindPath Scalar.binary64 20 demo_open_3x3 (0, 0) (2, 2) with
  | Some r =>
      Pathfinder.PathWorldPositions r =
        List.map (Pathfinder.GridToWorld Scalar.binary64 demo_open_3x3)
                 (Pathfinder.PathGridCoordinates r) /\
      Pathfinder.PathLength r =
        Z.of_nat (length (Pathfinder.PathGridCoordinates r)) /\
      (Pathfinder.bSuccess r = true <-> Pathfinder.PathGridCoordinates r <> []) /\
      (Pathfinder.bSuccess r = true ->
       last (Pathfinder.PathGridCoordinates r) = Some (2, 2))
  | None => False
  end.
Proof.
  destruct (Pathfinder.FindPath Scalar.binary64 20 demo_open_3x3 (0, 0) (2, 2))
    as [r|] eqn:E; [|vm_compute in E; discriminate].
  exact (findpath_result_aligned demo_open_3x3 Scalar.binary64 20 (0, 0) (2, 2) r E).
Defined.

Lemma findpath_visits_cells_once_witness :
  match Pathfinder.FindPath Scalar.binary64 20 demo_open_3x3 (0, 0) (2, 2) with
  | Some r =>
      Pathfinder.bSuccess r = true /\
      NoDup (Pathfinder.PathGridCoordinates r) /\
      Pathfinder.PathLength r <= 3 * 3
  | None => False
  end.
Proof.
  destruct (Pathfinder.FindPath Scalar.binary64 20 demo_open_3x3 (0, 0) (2, 2))
    as [r|] eqn:E; [|vm_compute in E; discriminate].
  assert (Hs : Pathfinder.bSuccess r = true).
  { pose proof E as E'. vm_compute in E'. injection E' as <-. reflexivity. }
  split; [exact Hs|].
  apply (findpath_visits_cells_once Scalar.binary64 demo_open_3x3 eq_refl eq_refl
           (0, 0) (2, 2) 20 r); [reflexivity | reflexivity | simpl; lia | exact E | exact Hs].
Defined.

Lemma findpath_symmetric_witness :
  exists r r',
    Pathfinder.FindPath Scalar.binary64 20 demo_open_3x3 (0, 0) (2, 1) = Some r /\
    Pathfinder.FindPath Scalar.binary64 20 demo_open_3x3 (2, 1) (0, 0) = Some r' /\
    Pathfinder.bSuccess r = Pathfinder.bSuccess r' /\
    Pathfinder.PathLength r = Pathfinder.PathLength r'.
Proof.
  apply (findpath_symmetric Scalar.binary64 demo_open_3x3 eq_refl eq_refl
           (0, 0) (2, 1) 20); [reflexivity | reflexivity | simpl; lia].
Defined.


Lemma directions_grid_rooms_joined_witness :
  exists g Random',
    Generator.generate_directions (R := Z) 7 Prims (2, 3) 2024 = Ok (g, Random') /\
    forall c c', Rooms.in_grid 2 3 c -> Rooms.in_grid 2 3 c' ->
                 Rooms.joined 2 3 g c c'.
Proof.
  apply (directions_grid_rooms_joined 7 Prims 2 3 2024); [lia | lia | simpl; lia].
Defined.

Lemma generated_cells_row_major_witness :
  exists Cells,
    Generator.GenerateMaze (R := Z) Scalar.binary64 16
      (demo_config RecursiveBacktracker 5 3) = Ok Cells /\
    forall X Y, 0 <= X < 5 -> 0 <= Y < 3 ->
      exists Cell,
        Cells !! Z.to_nat (Y * 5 + X) = Some Cell /\
        GridPosition Cell = (X, Y) /\
        WorldPosition Cell =
          Pathfinder.GridToWorld Scalar.binary64
            (Pathfinder.Initialize Cells (5, 3) (Scalar.of_int Scalar.binary32 200))
            (X, Y) /\
        bIsOnPath Cell = false /\
        InstanceIndex Cell = INDEX_NONE.
Proof.
  apply (generated_cells_row_major Scalar.binary64 16
           (demo_config RecursiveBacktracker 5 3)); simpl; lia.
Defined.

Lemma generated_rooms_and_pillars_witness :
  exists Cells,
    Generator.GenerateMaze (R := Z) Scalar.binary64 16
      (demo_config Kruskals 5 3) = Ok Cells /\
    forall X Y, 0 <= X < 5 -> 0 <= Y < 3 ->
      (Z.even X = true -> Z.even Y = true -> Floor.is_floor_at Cells (X, Y)) /\
      (Z.odd X = true -> Z.odd Y = true -> ~ Floor.is_floor_at Cells (X, Y)).
Proof.
  apply (generated_rooms_and_pillars Scalar.binary64 16 (demo_config Kruskals 5 3));
    simpl; lia.
Defined.

Lemma generated_maze_paths_witness :
  exists Cells,
    Generator.GenerateMaze (R := Z) Scalar.binary64 16 (demo_config Prims 5 3)
      = Ok Cells /\
    let pf := Pathfinder.Initialize Cells (5, 3) (Scalar.of_int Scalar.binary32 200) in
    Pathfinder.bIsInitialized pf = true /\
    (forall p, Pathfinder.IsValidCell pf p = true <-> Floor.is_floor_at Cells p) /\
    forall a b, Floor.is_floor_at Cells a -> Floor.is_floor_at Cells b ->
      exists r, Pathfinder.FindPath Scalar.binary32 16 pf a b = Some r /\
                Pathfinder.bSuccess r = true /\
                Pathfinder.is_path pf a b (Pathfinder.PathGridCoordinates r).
Proof.
  apply (generated_maze_paths Scalar.binary64 Scalar.binary32 16 16
           (demo_config Prims 5 3)); simpl; lia.
Defined.

Lemma border_walls_frame_witness :
  (forall c, In c (Manager.border_walls 3 2) <->
     (-1 <= fst c <= 3 /\ -1 <= snd c <= 2 /\
      ~ (0 <= fst c < 3 /\ 0 <= snd c < 2))) /\
  NoDup (Manager.border_walls 3 2) /\
  Z.of_nat (length (Manager.border_walls 3 2)) = 2 * 3 + 2 * 2 + 4.
Proof. apply (border_walls_frame 3 2); lia. Defined.

Lemma demo_manager_loaded : Manager.loaded demo_manager demo_open_3x3.
Proof. repeat split. Qed.

Lemma recalculate_path_announces_walk_witness :
  match Manager.RecalculatePath Scalar.binary64 20 demo_manager demo_player with
  | Some (M', [Manager.OnPathUpdated ws]) =>
      exists t,
        Manager.GetCurrentTargetGridPosition Scalar.binary64 demo_manager = Some t /\
        Pathfinder.IsValidCell demo_open_3x3 t = true /\
        ws = Pathfinder.PathWorldPositions (Manager.CurrentPath M') /\
        last (Pathfinder.PathGridCoordinates (Manager.CurrentPath M')) = Some t /\
        Pathfinder.is_walkb demo_open_3x3
          (Pathfinder.PathGridCoordinates (Manager.CurrentPath M')) = true /\
        Manager.PathCellSet M' =
          list_to_set (Pathfinder.PathGridCoordinates (Manager.CurrentPath M')) /\
        Manager.GameState M' = Manager.GameState demo_manager /\
        Manager.Pathfinder M' = Manager.Pathfinder demo_manager
  | _ => False
  end.
Proof.
  destruct (Manager.RecalculatePath Scalar.binary64 20 demo_manager demo_player)
    as [[M' log]|] eqn:E; [|vm_compute in E; discriminate].
  assert (Hlog : exists ws, log = [Manager.OnPathUpdated ws]).
  { pose proof E as E'. vm_compute in E'. injection E' as _ <-. eauto. }
  destruct Hlog as [ws ->].
  apply (recalculate_path_announces_walk Scalar.binary64 20 demo_manager
           demo_open_3x3 demo_player M' [Manager.OnPathUpdated ws] ws
           demo_manager_loaded);
    [simpl; lia | exact E | left; reflexivity].
Defined.

Lemma show_path_draws_every_cell_witness :
  match Manager.ShowPath Scalar.binary64 20 demo_manager demo_player with
  | Some (M', [Manager.OnPathUpdated ws]) =>
      Discovery.bPathVisible (Manager.GameState M') = true /\
      exists insts,
        Manager.PathMeshComponent M' = Some (Manager.mkPathMesh true insts) /\
        length insts =
          length (Pathfinder.PathGridCoordinates (Manager.CurrentPath M')) /\
        length insts = length ws /\
        Z.of_nat (length insts) = Pathfinder.PathLength (Manager.CurrentPath M')
  | _ => False
  end.
Proof.
  destruct (Manager.ShowPath Scalar.binary64 20 demo_manager demo_player)
    as [[M' log]|] eqn:E; [|vm_compute in E; discriminate].
  assert (Hlog : exists ws, log = [Manager.OnPathUpdated ws]).
  { pose proof E as E'. vm_compute in E'. injection E' as _ <-. eauto. }
  destruct Hlog as [ws ->].
  apply (show_path_draws_every_cell Scalar.binary64 20 demo_manager demo_open_3x3
           (Manager.mkPathMesh false []) demo_player M'
           [Manager.OnPathUpdated ws] ws demo_manager_loaded);
    [simpl; lia | reflexivity | reflexivity | exact E | left; reflexivity].
Defined.

Lemma kruskal_connect_joins_witness :
  exists heap',
    Generator.ConnectTo 1 ∅ (0, 0) (1, 0) = Ok heap' /\
    Generator.IsConnectedTo (1 + 1) heap' (0, 0) (1, 0) = Ok true /\
    forall a b, Generator.IsConnectedTo 1 ∅ a b = Ok true ->
                Generator.IsConnectedTo (1 + 1) heap' a b = Ok true.
Proof. apply (kruskal_connect_joins 1 ∅ (0, 0) (1, 0)). reflexivity. Defined.

Lemma kruskal_connect_same_set_cycles_witness :
  exists heap',
    Generator.ConnectTo 2 {[ (1, 0) := (0, 0) ]} (0, 0) (1, 0) = Ok heap' /\
    forall fuel', Generator.GetRoot fuel' heap' (0, 0) = OutOfFuel /\
                  Generator.GetRoot fuel' heap' (1, 0) = OutOfFuel.
Proof.
  apply (kruskal_connect_same_set_cycles 2 {[ (1, 0) := (0, 0) ]} (0, 0) (1, 0)).
  reflexivity.
Defined.

(* --------------------------------------------------------------------- *)
(** ** No passage is one-sided or leads out of the grid                   *)
(* --------------------------------------------------------------------- *)

Section TwoSided.
Import Generator Rooms Passages.
Context {R : Type} {RS : RandomStream R}.
Variables W H : Z.
Hypothesis HW : 0 < W.
Hypothesis HH : 0 < H.

Lemma two_sided_zero :
  two_sided W H (replicate (Z.to_nat H) (replicate (Z.to_nat W) 0)).
Proof.
  intros c d _ Hd. rewrite zeroed_grid_cell, has_dir_zero in Hd. discriminate.
Qed.

Lemma two_sided_carved g g' c d :
  two_sided W H g -> carved g g' c d -> is_direction d ->
  in_grid W H c -> in_grid W H (step c d) -> two_sided W H g'.
Proof.
  intros Hts Hcv Hd Hc Hc' x e He Hx.
  rewrite (carved_has_dir g g' c d x e Hcv Hd He) in Hx.
  apply orb_true_iff in Hx. destruct Hx as [Hx|Hx];
    [apply orb_true_iff in Hx; destruct Hx as [Hx|Hx]|].
  - destruct (Hts x e He Hx) as (H1 & H2 & H3).
    split; [exact H1|]. split; [exact H2|].
    eapply carved_mono; eauto.
  - apply bool_decide_eq_true in Hx. destruct Hx as [-> ->].
    split; [exact Hc|]. split; [exact Hc'|].
    rewrite (carved_has_dir g g' c d (step c d) (GetOppositeDirection d) Hcv Hd
               (opposite_is_direction d Hd)).
    apply orb_true_iff. right. apply bool_decide_eq_true. auto.
  - apply bool_decide_eq_true in Hx. destruct Hx as [-> ->].
    rewrite step_back, opposite_involutive.
    split; [exact Hc'|]. split; [exact Hc|].
    rewrite (carved_has_dir g g' c d c d Hcv Hd Hd).
    apply orb_true_iff. left. apply orb_true_iff. right.
    apply bool_decide_eq_true. auto.
Qed.

Lemma two_sided_same g g' :
  (forall x e, is_direction e -> has_dir (cell g' x) e = has_dir (cell g x) e) ->
  two_sided W H g -> two_sided W H g'.
Proof.
  intros Hsame Hts x e He Hx. rewrite Hsame in Hx by exact He.
  destruct (Hts x e He Hx) as (H1 & H2 & H3).
  split; [exact H1|]. split; [exact H2|].
  rewrite Hsame by (apply opposite_is_direction; exact He). exact H3.
Qed.

(** A loop that returns keeps what each of its rounds keeps. *)
Lemma for_each_preserves {A S} (P : S -> Prop) (l : list A)
    (body : A -> S -> outcome S) : forall s s',
  for_each l body s = Ok s' -> P s ->
  (forall a s0 s1, In a l -> P s0 -> body a s0 = Ok s1 -> P s1) -> P s'.
Proof.
  induction l as [|a l IH]; intros s s' E Hs Hbody; simpl in E.
  - injection E as <-. exact Hs.
  - apply bind_is_Ok in E. destruct E as (s1 & E1 & E2).
    apply (IH s1 s' E2).
    + apply (Hbody a s s1); [left; reflexivity | exact Hs | exact E1].
    + intros a0 s0 s2 Ha0. apply Hbody. right. exact Ha0.
Qed.

(** *** The backtracker *)

Lemma carve_directions_two_sided
    (recurse : Z -> Z -> list (list Z) * R -> outcome (list (list Z) * R)) X Y :
  (forall X' Y' g (Random : R) g' Random',
      in_grid W H (X', Y') -> grid_shape W H g -> two_sided W H g ->
      recurse X' Y' (g, Random) = Ok (g', Random') ->
      grid_shape W H g' /\ two_sided W H g') ->
  forall Directions g (Random : R) g' Random',
    (forall d, In d Directions -> is_direction d) ->
    in_grid W H (X, Y) -> grid_shape W H g -> two_sided W H g ->
    carve_directions recurse X Y Directions (g, Random) = Ok (g', Random') ->
    grid_shape W H g' /\ two_sided W H g'.
Proof.
  intros IHcall.
  induction Directions as [|Dir Directions IH];
    intros g Random g' Random' Hdirs Hc Hs Hts E.
  { simpl in E. injection E as <- <-. auto. }
  cbn [carve_directions] in E.
  destruct (in_bounds_and_zero_spec W H g (X + GetDirectionDeltaX Dir)
              (Y + GetDirectionDeltaY Dir) Hs HH) as (b & Eb & Hb).
  rewrite Eb, bind_Ok in E.
  change (X + GetDirectionDeltaX Dir, Y + GetDirectionDeltaY Dir)
    with (step (X, Y) Dir) in Hb.
  assert (Hd : is_direction Dir) by (apply Hdirs; left; reflexivity).
  assert (Hdirs' : forall d, In d Directions -> is_direction d)
    by (intros d0 Hd0; apply Hdirs; right; exact Hd0).
  destruct b.
  - destruct (proj1 Hb eq_refl) as [Hc' _].
    destruct (carve_spec W H g X Y Dir Hs Hc Hc') as (g0 & g1 & E0 & E1 & Hs1 & Hcv).
    rewrite E0, bind_Ok, E1, bind_Ok in E.
    apply bind_is_Ok in E. destruct E as ([g2 Random2] & E2 & E3).
    destruct (IHcall _ _ _ _ _ _ Hc' Hs1
                (two_sided_carved g g1 (X, Y) Dir Hts Hcv Hd Hc Hc') E2)
      as [Hs2 Hts2].
    apply (IH g2 Random2 g' Random' Hdirs' Hc Hs2 Hts2 E3).
  - rewrite bind_Ok in E. apply (IH g Random g' Random' Hdirs' Hc Hs Hts E).
Qed.

Lemma CarvePassagesFrom_two_sided fuel :
  forall X Y g (Random : R) g' Random',
    in_grid W H (X, Y) -> grid_shape W H g -> two_sided W H g ->
    CarvePassagesFrom fuel X Y (g, Random) = Ok (g', Random') ->
    grid_shape W H g' /\ two_sided W H g'.
Proof.
  induction fuel as [|fuel IH]; intros X Y g Random g' Random' Hc Hs Hts E;
    [discriminate|].
  cbn [CarvePassagesFrom] in E.
  destruct (ShuffleArray_spec [East; West; North; South] Random)
    as (Ds & Random1 & ES & _ & HDs).
  rewrite ES, bind_Ok in E.
  apply (carve_directions_two_sided (CarvePassagesFrom fuel) X Y IH Ds g Random1
           g' Random'); try assumption.
  intros d Hd. apply HDs in Hd. simpl in Hd.
  destruct Hd as [<-|[<-|[<-|[<-|[]]]]]; discriminate.
Qed.

Lemma GenerateBacktracker_two_sided fuel (Random : R) g Random' :
  GenerateBacktracker fuel (W, H) Random = Ok (g, Random') ->
  grid_shape W H g /\ two_sided W H g.
Proof.
  unfold GenerateBacktracker. rewrite CreateZeroedGrid_Ok, bind_Ok by lia.
  apply CarvePassagesFrom_two_sided.
  - split; simpl; lia.
  - apply zeroed_grid_shape; lia.
  - apply two_sided_zero.
Qed.

(** *** Prim's algorithm *)

Lemma tarray_get_In {A} (l : list A) i a : tarray_get l i = Ok a -> In a l.
Proof.
  unfold tarray_get. destruct (i <? 0); [discriminate|].
  destruct (l !! Z.to_nat i) as [a'|] eqn:E; [|discriminate].
  intros [= <-]. apply list_elem_of_In. eapply list_elem_of_lookup_2; eauto.
Qed.

Lemma RemoveAt_In {A} (l l' : list A) i x :
  RemoveAt l i = Ok l' -> In x l' -> In x l.
Proof.
  unfold RemoveAt. destruct ((i <? 0) || (Z.of_nat (length l) <=? i)); [discriminate|].
  intros [= <-] Hx. apply list_elem_of_In in Hx. apply list_elem_of_In.
  eapply list_elem_of_delete_inv; exact Hx.
Qed.

Lemma expand_keeps_bits g g' new X Y :
  (forall n, In n new -> cell g n = 0) ->
  cell g' (X, Y) = Z.lor (cell g (X, Y)) PrimState_In ->
  (forall z, In z new -> cell g' z = PrimState_Frontier) ->
  (forall z, z <> (X, Y) -> ~ In z new -> cell g' z = cell g z) ->
  forall x e, is_direction e -> has_dir (cell g' x) e = has_dir (cell g x) e.
Proof.
  intros Hzero Hcur Hnew Hother x e He.
  destruct (decide (x = (X, Y))) as [->|Hx].
  { rewrite Hcur, has_dir_lor, (proj2 (has_dir_flags e)). apply orb_false_r. }
  destruct (decide (x ∈ new)) as [Hin|Hin]; rewrite list_elem_of_In in Hin.
  - rewrite (Hnew x Hin), (Hzero x Hin), (proj1 (has_dir_flags e)), has_dir_zero.
    reflexivity.
  - rewrite (Hother x Hx Hin). reflexivity.
Qed.

Lemma prim_loop_two_sided fuel :
  forall g F (Random : R) g' F' Random',
    grid_shape W H g -> two_sided W H g -> (forall c, In c F -> in_grid W H c) ->
    prim_loop fuel (g, F, Random) = Ok (g', F', Random') ->
    grid_shape W H g' /\ two_sided W H g'.
Proof.
  induction fuel as [|fuel IH]; intros g F Random g' F' Random' Hs Hts HF E;
    [discriminate|].
  cbn [prim_loop] in E.
  destruct (negb (Z.of_nat (length F) >? 0)).
  { injection E as <- <- <-. auto. }
  destruct (RandRange 0 (Z.of_nat (length F) - 1) Random) as [Index Random1].
  apply bind_is_Ok in E. destruct E as ([X Y] & Ecur & E).
  apply bind_is_Ok in E. destruct E as (F1 & EF1 & E).
  cbn [fst snd] in E.
  assert (Hc : in_grid W H (X, Y)) by (apply HF; eapply tarray_get_In; eauto).
  destruct (PrimGetInNeighbors_spec W H HW HH g X Y Hs Hc) as (l & El & Hl).
  rewrite El, bind_Ok in E.
  apply bind_is_Ok in E. destruct E as ([g1 Random2] & Eif & E).
  assert (H1 : grid_shape W H g1 /\ two_sided W H g1).
  { destruct (Z.of_nat (length l) >? 0); [|injection Eif as <- <-; auto].
    destruct (RandRange 0 (Z.of_nat (length l) - 1) Random1) as [i Random3].
    apply bind_is_Ok in Eif. destruct Eif as (Neighbor & EN & Eif).
    apply tarray_get_In, Hl in EN. destruct EN as (Hn4 & Hng & _).
    apply in_neighbours4 in Hn4. destruct Hn4 as (d & Hd & ->).
    rewrite GetDirectionBetween_step in Eif by exact Hd.
    destruct (carve_spec W H g X Y d Hs Hc Hng) as (g0 & g2 & E0 & E2 & Hs2 & Hcv).
    cbn [step fst snd] in Eif. rewrite E0, bind_Ok, E2, bind_Ok in Eif.
    injection Eif as <- <-. split; [exact Hs2|].
    apply (two_sided_carved g g2 (X, Y) d Hts Hcv Hd Hc Hng). }
  destruct H1 as [Hs1 Hts1].
  destruct (PrimExpandFrontierFrom_spec W H HH g1 F1 X Y Hs1 Hc)
    as (g3 & new & E3 & Hs3 & _ & Hnew & Hcur & Hfr & Hother).
  rewrite E3, bind_Ok in E.
  apply (IH g3 (F1 ++ new) Random2 g' F' Random' Hs3); [| |exact E].
  - apply (two_sided_same g1 g3); [|exact Hts1].
    apply (expand_keeps_bits g1 g3 new X Y); try assumption.
    intros n Hn. apply Hnew in Hn. tauto.
  - intros c Hin. apply in_app_iff in Hin. destruct Hin as [Hin|Hin].
    + apply HF. eapply RemoveAt_In; eauto.
    + apply Hnew in Hin. tauto.
Qed.

Lemma GeneratePrims_two_sided fuel (Random : R) g Random' :
  GeneratePrims fuel (W, H) Random = Ok (g, Random') ->
  grid_shape W H g /\ two_sided W H g.
Proof.
  unfold GeneratePrims. rewrite CreateZeroedGrid_Ok, bind_Ok by lia.
  cbn [fst snd].
  pose proof (RandRange_range 0 (W - 1) Random ltac:(lia)) as HX.
  destruct (RandRange 0 (W - 1) Random) as [StartX Random1].
  pose proof (RandRange_range 0 (H - 1) Random1 ltac:(lia)) as HY.
  destruct (RandRange 0 (H - 1) Random1) as [StartY Random2].
  cbn [fst] in HX, HY.
  assert (Hc : in_grid W H (StartX, StartY)) by (split; simpl; lia).
  destruct (PrimExpandFrontierFrom_spec W H HH _ [] StartX StartY
              (zeroed_grid_shape W H ltac:(lia) ltac:(lia)) Hc)
    as (g1 & new & E1 & Hs1 & _ & Hnew & Hcur & Hfr & Hother).
  rewrite E1, bind_Ok. intros E.
  apply bind_is_Ok in E. destruct E as ([[g2 F2] Random3] & E2 & E).
  injection E as <- <-.
  apply (prim_loop_two_sided fuel g1 ([] ++ new) Random2 g2 F2 Random3 Hs1);
    [| |exact E2].
  - apply (two_sided_same (replicate (Z.to_nat H) (replicate (Z.to_nat W) 0)) g1);
      [|apply two_sided_zero].
    apply (expand_keeps_bits _ g1 new StartX StartY); try assumption.
    intros n _. apply zeroed_grid_cell.
  - intros c Hin. apply Hnew in Hin. tauto.
Qed.

(** *** Kruskal's algorithm *)

Lemma process_edge_two_sided fuel Sets e g heap g' heap' :
  In e (create_edges (W, H)) ->
  grid_shape W H g -> two_sided W H g ->
  process_edge fuel Sets e (g, heap) = Ok (g', heap') ->
  grid_shape W H g' /\ two_sided W H g'.
Proof.
  intros He Hs Hts E.
  destruct (edge_ends_in_grid W H e He) as (Hd & Hc & Hc').
  unfold process_edge in E.
  apply bind_is_Ok in E. destruct E as (Row & _ & E).
  apply bind_is_Ok in E. destruct E as (CurrentSet & _ & E).
  apply bind_is_Ok in E. destruct E as (Row' & _ & E).
  apply bind_is_Ok in E. destruct E as (NextSet & _ & E).
  apply bind_is_Ok in E. destruct E as (connected & _ & E).
  destruct (negb connected); [|injection E as <- <-; auto].
  apply bind_is_Ok in E. destruct E as (heap1 & _ & E).
  destruct (carve_spec W H g (EdgeX e) (EdgeY e) (EdgeDirection e) Hs Hc Hc')
    as (g0 & g1 & E0 & E1 & Hs1 & Hcv).
  rewrite E0, bind_Ok, E1, bind_Ok in E. injection E as <- <-.
  split; [exact Hs1|].
  apply (two_sided_carved g g1 (edge_room e) (EdgeDirection e) Hts Hcv Hd Hc Hc').
Qed.

Lemma GenerateKruskals_two_sided fuel (Random : R) g Random' :
  GenerateKruskals fuel (W, H) Random = Ok (g, Random') ->
  grid_shape W H g /\ two_sided W H g.
Proof.
  unfold GenerateKruskals. rewrite CreateZeroedGrid_Ok, bind_Ok by lia.
  destruct (create_sets_spec W H HW HH) as (Sets & -> & _). rewrite bind_Ok.
  destruct (ShuffleArray_spec (create_edges (W, H)) Random)
    as (Edges & Random1 & -> & _ & HEdges).
  rewrite bind_Ok. intros E.
  apply bind_is_Ok in E. destruct E as ([g1 heap1] & E1 & E).
  injection E as <- <-.
  apply (for_each_preserves
           (fun st : list (list Z) * gmap (Z * Z) (Z * Z) =>
              grid_shape W H (fst st) /\ two_sided W H (fst st))
           Edges (process_edge fuel Sets) _ (g1, heap1) E1).
  - split; [apply zeroed_grid_shape; lia | apply two_sided_zero].
  - intros e [g0 heap0] [g2 heap2] He [Hs0 Hts0] Ee. cbn [fst] in *.
    apply (process_edge_two_sided fuel Sets e g0 heap0 g2 heap2); auto.
    apply HEdges. exact He.
Qed.

Lemma generate_directions_two_sided fuel Algorithm (Random : R) g Random' :
  generate_directions fuel Algorithm (W, H) Random = Ok (g, Random') ->
  grid_shape W H g /\ two_sided W H g.
Proof.
  destruct Algorithm; simpl.
  - apply GenerateBacktracker_two_sided.
  - apply GeneratePrims_two_sided.
  - apply GenerateKruskals_two_sided.
Qed.

End TwoSided.

(* --------------------------------------------------------------------- *)
(** ** The floor cells are the rooms and the passages, and nothing else   *)
(* --------------------------------------------------------------------- *)

Section FloorExact.
Import Generator Rooms Floor Passages.
Variables DW DH SX SY : Z.
Variable g : list (list Z).
Hypothesis HDW : 0 < DW.
Hypothesis HDH : 0 < DH.
Hypothesis HSX : SX <= 2 * DW <= SX + 1.
Hypothesis HSY : SY <= 2 * DH <= SY + 1.
Hypothesis Hg : grid_shape DW DH g.

Lemma set_keeps_only F c :
  grid_shape SX SY F -> floor_only DW DH g F -> in_grid SX SY c ->
  carved_cell DW DH g c ->
  exists F', grid_set F (fst c) (snd c) 1 = Ok F' /\
             grid_shape SX SY F' /\ floor_only DW DH g F'.
Proof.
  intros Hs Honly Hc Hcc.
  destruct (grid_set_spec SX SY F c 1 Hs Hc) as (F' & E & Hs' & Hcell).
  exists F'. split; [exact E|]. split; [exact Hs'|].
  intros p. rewrite Hcell. destruct (decide (p = c)) as [->|_]; [|apply Honly].
  right. auto.
Qed.

Lemma set_passage_only F r d (bnd : bool) px py :
  grid_shape SX SY F -> floor_only DW DH g F -> in_grid DW DH r ->
  is_direction d -> (px, py) = passage_cell r d ->
  (bnd = true -> in_grid SX SY (passage_cell r d)) ->
  exists F',
    (if has_dir (cell g r) d && bnd then grid_set F px py 1 else Ok F) = Ok F' /\
    grid_shape SX SY F' /\ floor_only DW DH g F'.
Proof.
  intros Hs Honly Hr Hd Hp Hbnd.
  destruct (has_dir (cell g r) d) eqn:Ehas; [|exists F; auto].
  destruct bnd; [|exists F; auto].
  cbn [andb].
  change px with (fst (px, py)). change py with (snd (px, py)) at 2.
  rewrite Hp. apply set_keeps_only; auto.
  exists r. split; [exact Hr|]. right. exists d. auto.
Qed.

Lemma place_room_only F X Y :
  grid_shape SX SY F -> floor_only DW DH g F -> in_grid DW DH (X, Y) ->
  exists F', place_room g (SX, SY) X Y F = Ok F' /\
             grid_shape SX SY F' /\ floor_only DW DH g F'.
Proof.
  intros Hs Honly Hr.
  pose proof (room_cell_in_grid DW DH SX SY HSX HSY _ Hr) as Hrc.
  assert (Hb : 0 <= X * 2 < SX /\ 0 <= Y * 2 < SY) by exact Hrc.
  unfold place_room. cbn [fst snd].
  replace ((X * 2 >=? SX) || (Y * 2 >=? SY)) with false.
  2: { symmetry. apply orb_false_iff. rewrite !Z.geb_leb.
       split; apply Z.leb_gt; lia. }
  destruct (set_keeps_only F (room_cell (X, Y)) Hs Honly Hrc)
    as (F0 & E0 & Hs0 & Ho0).
  { exists (X, Y). auto. }
  cbn [room_cell fst snd] in E0. rewrite E0, bind_Ok.
  rewrite (grid_get_cell DW DH g (X, Y) Hg Hr : grid_get g X Y = _), bind_Ok.
  set (v := cell g (X, Y)).
  change (negb (Z.land v 1 =? 0)) with (has_dir v East).
  change (negb (Z.land v 2 =? 0)) with (has_dir v North).
  change (negb (Z.land v 4 =? 0)) with (has_dir v South).
  change (negb (Z.land v 8 =? 0)) with (has_dir v West).
  subst v.
  destruct (set_passage_only F0 (X, Y) East (X * 2 + 1 <? SX) (X * 2 + 1) (Y * 2)
              Hs0 Ho0 Hr) as (F1 & E1 & Hs1 & Ho1).
  { discriminate. }
  { unfold passage_cell. simpl. f_equal. lia. }
  { unfold in_grid, passage_cell. simpl. rewrite Z.ltb_lt. lia. }
  rewrite E1, bind_Ok.
  destruct (set_passage_only F1 (X, Y) North (Y * 2 - 1 >=? 0) (X * 2) (Y * 2 - 1)
              Hs1 Ho1 Hr) as (F2 & E2 & Hs2 & Ho2).
  { discriminate. }
  { unfold passage_cell. simpl. f_equal; lia. }
  { unfold in_grid, passage_cell. simpl. rewrite Z.geb_leb, Z.leb_le. lia. }
  rewrite E2, bind_Ok.
  destruct (set_passage_only F2 (X, Y) South (Y * 2 + 1 <? SY) (X * 2) (Y * 2 + 1)
              Hs2 Ho2 Hr) as (F3 & E3 & Hs3 & Ho3).
  { discriminate. }
  { unfold passage_cell. simpl. f_equal; lia. }
  { unfold in_grid, passage_cell. simpl. rewrite Z.ltb_lt. lia. }
  rewrite E3, bind_Ok.
  apply (set_passage_only F3 (X, Y) West (X * 2 - 1 >=? 0) (X * 2 - 1) (Y * 2)
           Hs3 Ho3 Hr).
  { discriminate. }
  { unfold passage_cell. simpl. f_equal; lia. }
  { unfold in_grid, passage_cell. simpl. rewrite Z.geb_leb, Z.leb_le. lia. }
Qed.

Lemma DirectionsToFloorWallGrid_only F :
  DirectionsToFloorWallGrid g (SX, SY) = Ok F ->
  grid_shape SX SY F /\ floor_only DW DH g F.
Proof.
  unfold DirectionsToFloorWallGrid.
  rewrite CreateZeroedGrid_Ok by lia. rewrite bind_Ok.
  destruct Hg as [Hlen Hrows]. rewrite Hlen.
  replace (DH >? 0) with true by (symmetry; apply Z.gtb_lt; lia).
  destruct (tarray_get_Ok g 0) as (Row0 & ERow0 & Hlook); [lia|].
  rewrite ERow0, !bind_Ok.
  rewrite (Hrows Row0)
    by (apply list_elem_of_In; eapply list_elem_of_lookup_2; exact Hlook).
  intros E.
  apply (for_each_preserves
           (fun F => grid_shape SX SY F /\ floor_only DW DH g F) _ _ _ _ E).
  - split; [apply zeroed_grid_shape; lia|].
    intros p. left. apply zeroed_grid_cell.
  - intros Y F0 F1 HY HF0 E1. apply in_range in HY.
    apply (for_each_preserves
             (fun F => grid_shape SX SY F /\ floor_only DW DH g F) _ _ _ _ E1 HF0).
    intros X F2 F3 HX [Hs2 Ho2] E3. apply in_range in HX.
    destruct (place_room_only F2 X Y Hs2 Ho2) as (F' & E' & HF').
    { unfold in_grid. simpl. lia. }
    rewrite E' in E3. injection E3 as <-. exact HF'.
Qed.

End FloorExact.

Section OpenedCells.
Import Generator Rooms Floor Passages.
Variables DW DH SX SY : Z.
Variables g F : list (list Z).
Hypothesis HSX : SX <= 2 * DW <= SX + 1.
Hypothesis HSY : SY <= 2 * DH <= SY + 1.
Hypothesis Hts : two_sided DW DH g.
Hypothesis HF : floor_inv DW DH g SX SY (in_grid DW DH) F.
Hypothesis Honly : floor_only DW DH g F.

Lemma passage_between_in_grid c d :
  in_grid DW DH c -> in_grid DW DH (step c d) -> d = East \/ d = South ->
  in_grid SX SY (passage_cell c d).
Proof.
  unfold in_grid, step, passage_cell. intros Hc Hc' [-> | ->]; simpl in *; lia.
Qed.

Lemma in_opened_cells p :
  In p (opened_cells DW DH g) <->
  (exists r, in_grid DW DH r /\ p = room_cell r) \/
  (exists r d, in_grid DW DH r /\ in_grid DW DH (step r d) /\
               (d = East \/ d = South) /\ passage_open g r d = true /\
               p = passage_cell r d).
Proof.
  unfold opened_cells. rewrite in_app_iff, !in_map_iff. split.
  - intros [(r & <- & Hr)|([r d] & <- & Hrd)].
    + left. exists r. split; [apply in_coordinates, Hr | reflexivity].
    + right. apply filter_In in Hrd. destruct Hrd as [Hin Hopen].
      apply in_room_passages in Hin. destruct Hin as (H1 & H2 & H3).
      exists r, d. cbn [fst snd] in Hopen. auto.
  - intros [(r & Hr & ->)|(r & d & H1 & H2 & H3 & H4 & ->)].
    + left. exists r. split; [reflexivity | apply in_coordinates, Hr].
    + right. exists (r, d). split; [reflexivity|].
      apply filter_In. split; [apply in_room_passages; auto | exact H4].
Qed.

Lemma passage_cell_back r d :
  passage_cell (step r d) (GetOppositeDirection d) = passage_cell r d.
Proof. destruct r as [x y]. destruct d; unfold passage_cell, step; simpl; f_equal; lia. Qed.

(** A cell of the floor/wall grid holds 1 exactly when it is the cell of a
    room or of an open passage. *)
Lemma floor_cell_iff p : cell F p = 1 <-> In p (opened_cells DW DH g).
Proof.
  rewrite in_opened_cells. split.
  - intros Hp. destruct (Honly p) as [H0|[_ (r & Hr & Hc)]]; [lia|].
    destruct Hc as [->|(d & Hd & Hhas & ->)]; [left; eauto|].
    right. destruct (Hts r d Hd Hhas) as (_ & Hr' & Hopp).
    assert (Hopen : passage_open g r d = true)
      by (unfold passage_open; rewrite Hhas, Hopp; reflexivity).
    destruct d; [exfalso; apply Hd; reflexivity| | | |].
    + exists r, East. auto 10.
    + exists (step r North), South.
      rewrite <- (passage_cell_back r North).
      change (GetOppositeDirection North) with South.
      rewrite <- (passage_open_sym g r North) in Hopen.
      change (GetOppositeDirection North) with South in Hopen.
      split; [exact Hr'|]. split; [|auto].
      change South with (GetOppositeDirection North). rewrite step_back. exact Hr.
    + exists r, South. auto 10.
    + exists (step r West), East.
      rewrite <- (passage_cell_back r West).
      change (GetOppositeDirection West) with East.
      rewrite <- (passage_open_sym g r West) in Hopen.
      change (GetOppositeDirection West) with East in Hopen.
      split; [exact Hr'|]. split; [|auto].
      change East with (GetOppositeDirection West). rewrite step_back. exact Hr.
  - intros [(r & Hr & ->)|(r & d & H1 & H2 & H3 & H4 & ->)].
    + apply (fi_rooms _ _ _ _ _ _ _ HF r Hr).
    + apply (fi_passages _ _ _ _ _ _ _ HF r d H1).
      * destruct H3 as [-> | ->]; discriminate.
      * unfold passage_open in H4. apply andb_true_iff in H4. tauto.
      * apply passage_between_in_grid; assumption.
Qed.

Lemma NoDup_map_inj {A B} (f : A -> B) (l : list A) :
  (forall a b, In a l -> In b l -> f a = f b -> a = b) ->
  NoDup l -> NoDup (List.map f l).
Proof.
  intros Hinj Hnd. induction Hnd as [|a l Ha Hnd IH]; simpl; constructor.
  - rewrite list_elem_of_In, in_map_iff. intros (b & E & Hb).
    apply Ha. rewrite list_elem_of_In.
    rewrite (Hinj a b); [exact Hb | left; reflexivity | right; exact Hb | congruence].
  - apply IH. intros x y Hx Hy. apply Hinj; right; assumption.
Qed.

Lemma NoDup_list_filter {A} (f : A -> bool) (l : list A) :
  NoDup l -> NoDup (List.filter f l).
Proof.
  intros Hnd. induction Hnd as [|a l Ha Hnd IH]; simpl; [constructor|].
  destruct (f a); [|exact IH]. constructor; [|exact IH].
  rewrite list_elem_of_In, filter_In. rewrite list_elem_of_In in Ha. tauto.
Qed.

Lemma NoDup_opened_cells : NoDup (opened_cells DW DH g).
Proof.
  unfold opened_cells. apply NoDup_app. split; [|split].
  - apply NoDup_map_inj; [|apply NoDup_coordinates].
    intros [x y] [x' y'] _ _ E. unfold room_cell in E. simpl in E.
    injection E as E1 E2. f_equal; lia.
  - intros p Hp Hp'. apply list_elem_of_In in Hp, Hp'.
    apply in_map_iff in Hp. destruct Hp as ([x y] & <- & _).
    apply in_map_iff in Hp'. destruct Hp' as ([[x' y'] d] & E & Hin).
    apply filter_In in Hin. destruct Hin as [Hin _].
    apply in_room_passages in Hin. destruct Hin as (_ & _ & Hd).
    unfold passage_between, passage_cell, room_cell in E. cbn [fst snd] in E.
    destruct Hd as [-> | ->]; simpl in E; injection E as E1 E2; lia.
  - apply NoDup_map_inj; [|apply NoDup_list_filter, NoDup_room_passages].
    intros [[x y] d] [[x' y'] d'] Ha Hb E.
    apply filter_In in Ha, Hb. destruct Ha as [Ha _]. destruct Hb as [Hb _].
    apply in_room_passages in Ha, Hb.
    destruct Ha as (_ & _ & Hd). destruct Hb as (_ & _ & Hd').
    unfold passage_between, passage_cell in E. cbn [fst snd] in E.
    destruct Hd as [-> | ->]; destruct Hd' as [-> | ->]; simpl in E;
      injection E as E1 E2; try lia; repeat f_equal; lia.
Qed.

(** The cells that hold 1 are as many as the rooms and the open passages
    together. *)
Lemma floor_cells_count :
  length (List.filter (fun c => cell F c =? 1) (coordinates SX SY)) =
  (length (coordinates DW DH) + open_passages DW DH g)%nat.
Proof.
  transitivity (length (opened_cells DW DH g)).
  - apply Permutation_length, NoDup_Permutation.
    + apply NoDup_list_filter, NoDup_coordinates.
    + apply NoDup_opened_cells.
    + intros p. rewrite !list_elem_of_In, filter_In, Z.eqb_eq, <- floor_cell_iff.
      split; [tauto|]. intros Hp. split; [|exact Hp].
      apply in_coordinates.
      destruct (decide (in_grid SX SY p)) as [Hin|Hout]; [exact Hin|].
      rewrite (cell_outside SX SY F p (fi_shape _ _ _ _ _ _ _ HF) Hout) in Hp.
      discriminate.
  - unfold opened_cells, open_passages.
    rewrite length_app, !length_map. reflexivity.
Qed.

End OpenedCells.

(* --------------------------------------------------------------------- *)
(** ** Passages and floor cells of the generated maze                     *)
(* --------------------------------------------------------------------- *)

Section PassagesAndFloors.
Import Generator Rooms Floor Passages.
Context {R : Type} {RS : RandomStream R}.

(** For each of the three algorithms, any state of the random stream and
    any positive size, no passage of the directions grid is one-sided or
    leads out of the grid: a direction bit is only ever set on a room of
    the grid whose neighbour on that side is a room of the grid and carries
    the opposite bit. *)
Theorem directions_grid_two_sided
    (fuel : nat) (Algorithm : EMazeGenerationAlgorithm) (W H : Z) (Random : R) :
  0 < W -> 0 < H -> (Z.to_nat (W * H) < fuel)%nat ->
  exists g Random',
    generate_directions fuel Algorithm (W, H) Random = Ok (g, Random') /\
    two_sided W H g.
Proof.
  intros HW HH Hfuel.
  destruct (generate_directions_spec fuel Algorithm W H Random HW HH Hfuel)
    as (g & Random' & E & _).
  exists g, Random'. split; [exact E|].
  apply (generate_directions_two_sided W H HW HH fuel Algorithm Random g Random' E).
Qed.

(** On a directions grid without one-sided passages, of the size
    [GenerateMaze] derives from the final size, [DirectionsToFloorWallGrid]
    returns a grid of the final size that holds only 0 and 1, with 1
    exactly at the cells of the rooms and of the open passages. *)
Theorem floor_grid_exact (DW DH SX SY : Z) (g : list (list Z)) :
  0 < DW -> 0 < DH -> SX <= 2 * DW <= SX + 1 -> SY <= 2 * DH <= SY + 1 ->
  grid_shape DW DH g -> two_sided DW DH g ->
  exists F,
    DirectionsToFloorWallGrid g (SX, SY) = Ok F /\
    grid_shape SX SY F /\
    forall p, (cell F p = 0 \/ cell F p = 1) /\
              (cell F p = 1 <-> In p (opened_cells DW DH g)).
Proof.
  intros HDW HDH HSX HSY Hg Hts.
  destruct (DirectionsToFloorWallGrid_spec DW DH SX SY g HSX HSY Hg HDW HDH)
    as (F & E & HF).
  destruct (DirectionsToFloorWallGrid_only DW DH SX SY g HDW HDH HSX HSY Hg F E)
    as [Hs Honly].
  exists F. split; [exact E|]. split; [exact Hs|].
  intros p. split.
  - destruct (Honly p) as [H0|[H1 _]]; auto.
  - apply (floor_cell_iff DW DH SX SY g F HSX HSY Hts HF Honly).
Qed.

Variable vfmt : Scalar.format.

(** What [GenerateMaze] returns, with the number of cells at 1 in the
    floor/wall grid it was built from. *)
Lemma GenerateMaze_exact fuel (Config : FMazeGenerationConfig) :
  0 < SizeX Config -> 0 < SizeY Config ->
  (Z.to_nat (SizeX Config * SizeY Config) < fuel)%nat ->
  exists F,
    GenerateMaze vfmt fuel Config = Ok (CellArray.cells_of vfmt Config F) /\
    Z.of_nat (length (List.filter (fun c => cell F c =? 1)
                        (coordinates (SizeX Config) (SizeY Config)))) =
    2 * (Z.quot (SizeX Config + 1) 2 * Z.quot (SizeY Config + 1) 2) - 1.
Proof.
  intros HX HY Hfuel.
  destruct (directions_size _ HX) as [HDW HSX].
  destruct (directions_size _ HY) as [HDH HSY].
  set (DW := Z.quot (SizeX Config + 1) 2) in *.
  set (DH := Z.quot (SizeY Config + 1) 2) in *.
  destruct (generate_directions_spec fuel (Algorithm Config) DW DH
              (FRandomStream_seeded (Seed Config))) as (g & Random' & Eg & Htree);
    [lia | lia | |].
  { assert (DW * DH <= SizeX Config * SizeY Config) by nia. lia. }
  destruct (generate_directions_two_sided DW DH ltac:(lia) ltac:(lia) fuel
              (Algorithm Config) _ g Random' Eg) as [Hg Hts].
  destruct (DirectionsToFloorWallGrid_spec DW DH (SizeX Config) (SizeY Config) g
              HSX HSY Hg) as (F & EF & HF); [lia | lia |].
  destruct (DirectionsToFloorWallGrid_only DW DH (SizeX Config) (SizeY Config) g
              ltac:(lia) ltac:(lia) HSX HSY Hg F EF) as [Hs Honly].
  exists F. split.
  - unfold GenerateMaze. fold DW DH. rewrite Eg, bind_Ok. rewrite EF, bind_Ok.
    cbn [fst snd]. apply cells_loop. exact Hs.
  - rewrite (floor_cells_count DW DH (SizeX Config) (SizeY Config) g F
               HSX HSY Hts HF Honly).
    rewrite length_coordinates. destruct Htree as (_ & _ & Hcount). lia.
Qed.

(** For positive sizes, whatever the seed and the algorithm, the number of
    floor cells of the generated maze is fixed by the size: twice the
    number of rooms less one, the rooms being
    ((SizeX + 1) / 2) * ((SizeY + 1) / 2).  The baked data asset reports it
    as [GetFloorCount], and all other cells as [GetWallCount]. *)
Theorem generated_floor_count (fuel : nat) (Config : FMazeGenerationConfig) :
  0 < SizeX Config -> 0 < SizeY Config ->
  (Z.to_nat (SizeX Config * SizeY Config) < fuel)%nat ->
  let RoomCount := Z.quot (SizeX Config + 1) 2 * Z.quot (SizeY Config + 1) 2 in
  exists Cells Data,
    GenerateMaze vfmt fuel Config = Ok Cells /\
    Z.of_nat (length (List.filter bIsFloor Cells)) = 2 * RoomCount - 1 /\
    Manager.BakedGridData vfmt fuel Config = Ok Data /\
    GridData.GetFloorCount Data = 2 * RoomCount - 1 /\
    GridData.GetWallCount Data = SizeX Config * SizeY Config - (2 * RoomCount - 1).
Proof.
  intros HX HY Hfuel RoomCount. subst RoomCount.
  destruct (GenerateMaze_exact fuel Config HX HY Hfuel) as (F & E & Hcount).
  assert (Hfloors :
    Z.of_nat (length (List.filter bIsFloor (CellArray.cells_of vfmt Config F))) =
    2 * (Z.quot (SizeX Config + 1) 2 * Z.quot (SizeY Config + 1) 2) - 1).
  { rewrite <- Hcount. f_equal. unfold CellArray.cells_of.
    generalize (coordinates (SizeX Config) (SizeY Config)).
    intros l. induction l as [|c l IH]; simpl; [reflexivity|].
    destruct (cell F c =? 1); simpl; rewrite IH; reflexivity. }
  exists (CellArray.cells_of vfmt Config F). eexists.
  split; [exact E|]. split; [exact Hfloors|].
  unfold Manager.BakedGridData. rewrite E, bind_Ok.
  split; [reflexivity|].
  unfold GridData.GetWallCount, GridData.GetFloorCount. cbn [GridData.Cells].
  rewrite floor_count_from, Hfloors, cells_of_length by lia.
  split; lia.
Qed.

End PassagesAndFloors.

Lemma directions_grid_two_sided_witness :
  exists g Random',
    Generator.generate_directions (R := Z) 7 Kruskals (3, 2) 11 = Ok (g, Random') /\
    Passages.two_sided 3 2 g.
Proof.
  apply (directions_grid_two_sided 7 Kruskals 3 2 11); [lia | lia | simpl; lia].
Defined.

Lemma floor_grid_exact_witness :
  exists F,
    Generator.DirectionsToFloorWallGrid [[1; 8]] (3, 1) = Ok F /\
    Rooms.grid_shape 3 1 F /\
    forall p, (Rooms.cell F p = 0 \/ Rooms.cell F p = 1) /\
              (Rooms.cell F p = 1 <-> In p (Passages.opened_cells 2 1 [[1; 8]])).
Proof.
  apply (floor_grid_exact 2 1 3 1 [[1; 8]]); try lia.
  - split; [reflexivity|]. intros Row [<-|[]]. reflexivity.
  - intros [x y] d Hd Hhas.
    assert (Hy : y = 0).
    { destruct (Z.eq_dec y 0) as [->|Hy]; [reflexivity|]. exfalso.
      unfold Rooms.cell, Generator.grid_get, tarray_get in Hhas. cbn [fst snd] in Hhas.
      destruct (y <? 0) eqn:Ey; [discriminate|]. apply Z.ltb_ge in Ey.
      destruct (Z.to_nat y) as [|n] eqn:En; [lia|]. simpl in Hhas. discriminate. }
    subst y.
    assert (Hx : x = 0 \/ x = 1).
    { destruct (Z.eq_dec x 0) as [->|Hx0]; [auto|].
      destruct (Z.eq_dec x 1) as [->|Hx1]; [auto|]. exfalso.
      unfold Rooms.cell, Generator.grid_get, tarray_get in Hhas. cbn [fst snd] in Hhas.
      simpl in Hhas.
      destruct (x <? 0) eqn:Ex; [discriminate|]. apply Z.ltb_ge in Ex.
      destruct (Z.to_nat x) as [|[|n]] eqn:En; [lia | lia |]. simpl in Hhas.
      discriminate. }
    destruct Hx as [-> | ->]; destruct d; try discriminate;
      try (exfalso; apply Hd; reflexivity);
      (split; [split; simpl; lia|]); (split; [split; simpl; lia|]); reflexivity.
Defined.

Lemma generated_floor_count_witness :
  exists Cells Data,
    Generator.GenerateMaze (R := Z) Scalar.binary64 16 (demo_config Prims 5 3)
      = Ok Cells /\
    Z.of_nat (length (List.filter bIsFloor Cells)) = 2 * (3 * 2) - 1 /\
    Manager.BakedGridData (R := Z) Scalar.binary64 16 (demo_config Prims 5 3)
      = Ok Data /\
    GridData.GetFloorCount Data = 2 * (3 * 2) - 1 /\
    GridData.GetWallCount Data = 5 * 3 - (2 * (3 * 2) - 1).
Proof.
  apply (generated_floor_count Scalar.binary64 16 (demo_config Prims 5 3));
    simpl; lia.
Defined.
